(** * CSSLayout: a shallow embedding of React/CSSLayout/CSSLayout.c

    The flexbox layout engine is embedded as executable Rocq definitions:
    single-precision floats are IEEE-754 binary32 values ([spec_float] with
    precision 24 and maximal exponent 128), nodes live in a store indexed by
    references (the C pointers), and the stateful functions are written in a
    state-and-failure monad over that store. *)

From Stdlib Require Import ZArith Bool List Lia SpecFloat.
From Stdlib Require QArith Qabs.
From stdpp Require Import base option list gmap.

Set Default Proof Using "Type".
Local Open Scope Z_scope.

(** ** Single-precision floats *)

Module F32.

Definition prec : Z := 24.
Definition emax : Z := 128.

Definition float : Type := spec_float.

Definition add : float -> float -> float := SFadd prec emax.
Definition sub : float -> float -> float := SFsub prec emax.
Definition mul : float -> float -> float := SFmul prec emax.
Definition div : float -> float -> float := SFdiv prec emax.
Definition neg : float -> float := SFopp.

(** C comparisons; each is false as soon as one side is a NaN, except
    [!=], which is then true. *)
Definition lt (a b : float) : bool := SFltb a b.
Definition le (a b : float) : bool := SFleb a b.
Definition gt (a b : float) : bool := SFltb b a.
Definition ge (a b : float) : bool := SFleb b a.
Definition eqb (a b : float) : bool := SFeqb a b.
Definition neb (a b : float) : bool := negb (SFeqb a b).

Definition isnan (a : float) : bool :=
  match a with S754_nan => true | _ => false end.

(** Conversion of an integer to float (round to nearest even). *)
Definition of_Z (z : Z) : float := binary_normalize prec emax z 0 false.

Definition zero : float := S754_zero false.

(** [fabs]: the argument is a float promoted to double, which changes
    nothing in the value. *)
Definition fabs (a : float) : float := SFabs a.

(** [fmaxf] and [fminf] of C99: when one argument is a NaN the other one is
    returned. *)
Definition fmaxf (a b : float) : float :=
  if isnan a then b else if isnan b then a else if lt a b then b else a.

Definition fminf (a b : float) : float :=
  if isnan a then b else if isnan b then a else if lt b a then b else a.

(** The double constant [0.0001], that is 7378697629483821 * 2^-66. *)
Definition tolerance : spec_float := S754_finite false 7378697629483821 (-66).

(** The order of two values that are not of one format. [SFcompare] looks
    at the exponents first, which is the order of the values only when the
    two mantissas have the width of one format; here the mantissas are
    brought to the smaller of the two exponents, which changes no value,
    and the integers are compared. *)
Definition compare_values (f1 f2 : spec_float) : option comparison :=
  match f1, f2 with
  | S754_finite s1 m1 e1, S754_finite s2 m2 e2 =>
      let ez := Z.min e1 e2 in
      Some (Z.compare (cond_Zopp s1 (Zpos m1 * 2 ^ (e1 - ez)))
                      (cond_Zopp s2 (Zpos m2 * 2 ^ (e2 - ez))))
  | _, _ => SFcompare f1 f2
  end.

(** [a < b] of C for a float [a] and a double [b]: [a] is converted to
    double, which changes no value, and the doubles are compared. *)
Definition lt_double (a : float) (b : spec_float) : bool :=
  match compare_values a b with
  | Some Lt => true
  | _ => false
  end.

(** The values of the binary32 format, which are the values of a C float. *)
Definition valid (a : float) : Prop := valid_binary prec emax a = true.

End F32.

Abbreviation float := F32.float.

Declare Scope f32_scope.
Delimit Scope f32_scope with f32.
Infix "+" := F32.add : f32_scope.
Infix "-" := F32.sub : f32_scope.
Infix "*" := F32.mul : f32_scope.
Infix "/" := F32.div : f32_scope.
Notation "- x" := (F32.neg x) : f32_scope.
Infix "<" := F32.lt : f32_scope.
Infix "<=" := F32.le : f32_scope.
Infix ">" := F32.gt : f32_scope.
Infix ">=" := F32.ge : f32_scope.
Infix "==" := F32.eqb (at level 70, no associativity) : f32_scope.
Infix "!=" := F32.neb (at level 70, no associativity) : f32_scope.
Notation "0" := F32.zero : f32_scope.

Definition CSSUndefined : float := S754_nan.

Definition CSSValueIsUndefined (value : float) : bool := F32.isnan value.

(** Source: [eq]. The difference [a - b] is the one of the floats; [fabs]
    takes it as a double and the result is compared with the double constant
    [0.0001]. *)
Definition eq_float (a b : float) : bool :=
  if CSSValueIsUndefined a then CSSValueIsUndefined b
  else F32.lt_double (F32.fabs (a - b)%f32) F32.tolerance.

(** ** Enumerations of CSSLayout.h *)

(** Modelled from the spec: the enumerations are declared in CSSLayout.h,
    which is not among the sources; the constructors are listed in the order
    in which the spec enumerates them, the first one having the value 0. *)
Inductive CSSDirection := CSSDirectionInherit | CSSDirectionLTR | CSSDirectionRTL.
Inductive CSSFlexDirection :=
  | CSSFlexDirectionColumn
  | CSSFlexDirectionColumnReverse
  | CSSFlexDirectionRow
  | CSSFlexDirectionRowReverse.
Inductive CSSJustify :=
  | CSSJustifyFlexStart
  | CSSJustifyCenter
  | CSSJustifyFlexEnd
  | CSSJustifySpaceBetween
  | CSSJustifySpaceAround.
Inductive CSSAlign :=
  | CSSAlignAuto
  | CSSAlignFlexStart
  | CSSAlignCenter
  | CSSAlignFlexEnd
  | CSSAlignStretch.
Inductive CSSPositionType := CSSPositionTypeRelative | CSSPositionTypeAbsolute.
Inductive CSSWrapType := CSSWrapTypeNoWrap | CSSWrapTypeWrap.
Inductive CSSOverflow := CSSOverflowVisible | CSSOverflowHidden | CSSOverflowScroll.
Inductive CSSMeasureMode :=
  | CSSMeasureModeUndefined
  | CSSMeasureModeExactly
  | CSSMeasureModeAtMost.
Inductive CSSDimension := CSSDimensionWidth | CSSDimensionHeight.
Inductive CSSEdge :=
  | CSSEdgeLeft
  | CSSEdgeTop
  | CSSEdgeRight
  | CSSEdgeBottom
  | CSSEdgeStart
  | CSSEdgeEnd
  | CSSEdgeHorizontal
  | CSSEdgeVertical
  | CSSEdgeAll.

#[global] Instance CSSDirection_eq_dec : EqDecision CSSDirection.
Proof. solve_decision. Defined.
#[global] Instance CSSFlexDirection_eq_dec : EqDecision CSSFlexDirection.
Proof. solve_decision. Defined.
#[global] Instance CSSJustify_eq_dec : EqDecision CSSJustify.
Proof. solve_decision. Defined.
#[global] Instance CSSAlign_eq_dec : EqDecision CSSAlign.
Proof. solve_decision. Defined.
#[global] Instance CSSPositionType_eq_dec : EqDecision CSSPositionType.
Proof. solve_decision. Defined.
#[global] Instance CSSWrapType_eq_dec : EqDecision CSSWrapType.
Proof. solve_decision. Defined.
#[global] Instance CSSOverflow_eq_dec : EqDecision CSSOverflow.
Proof. solve_decision. Defined.
#[global] Instance CSSMeasureMode_eq_dec : EqDecision CSSMeasureMode.
Proof. solve_decision. Defined.
#[global] Instance CSSDimension_eq_dec : EqDecision CSSDimension.
Proof. solve_decision. Defined.
#[global] Instance CSSEdge_eq_dec : EqDecision CSSEdge.
Proof. solve_decision. Defined.

(** The integer value of a flex direction, as C sees it when the enumerator is
    used as a truth value or as an index of [leading], [trailing], [pos] and
    [dim]. *)
Definition CSSFlexDirection_value (d : CSSFlexDirection) : Z :=
  match d with
  | CSSFlexDirectionColumn => 0
  | CSSFlexDirectionColumnReverse => 1
  | CSSFlexDirectionRow => 2
  | CSSFlexDirectionRowReverse => 3
  end.

Definition CSSDirection_value (d : CSSDirection) : Z :=
  match d with
  | CSSDirectionInherit => 0
  | CSSDirectionLTR => 1
  | CSSDirectionRTL => 2
  end.

(** A C integer used as a condition. *)
Definition truthy (z : Z) : bool := negb (z =? 0).

(** C [==] on enumerators. *)
Definition same {A} `{EqDecision A} (a b : A) : bool := bool_decide (a = b).

(** ** Arrays of the structures *)

(** [float xs[CSSEdgeCount]], indexed by a [CSSEdge]. *)
Record EdgeArray := {
  atLeft : float; atTop : float; atRight : float; atBottom : float;
  atStart : float; atEnd : float;
  atHorizontal : float; atVertical : float; atAll : float
}.

Definition edge_get (a : EdgeArray) (e : CSSEdge) : float :=
  match e with
  | CSSEdgeLeft => atLeft a | CSSEdgeTop => atTop a
  | CSSEdgeRight => atRight a | CSSEdgeBottom => atBottom a
  | CSSEdgeStart => atStart a | CSSEdgeEnd => atEnd a
  | CSSEdgeHorizontal => atHorizontal a | CSSEdgeVertical => atVertical a
  | CSSEdgeAll => atAll a
  end.

Definition edge_set (a : EdgeArray) (e : CSSEdge) (v : float) : EdgeArray :=
  let '(Build_EdgeArray l t r b s n h w x) := a in
  match e with
  | CSSEdgeLeft => Build_EdgeArray v t r b s n h w x
  | CSSEdgeTop => Build_EdgeArray l v r b s n h w x
  | CSSEdgeRight => Build_EdgeArray l t v b s n h w x
  | CSSEdgeBottom => Build_EdgeArray l t r v s n h w x
  | CSSEdgeStart => Build_EdgeArray l t r b v n h w x
  | CSSEdgeEnd => Build_EdgeArray l t r b s v h w x
  | CSSEdgeHorizontal => Build_EdgeArray l t r b s n v w x
  | CSSEdgeVertical => Build_EdgeArray l t r b s n h v x
  | CSSEdgeAll => Build_EdgeArray l t r b s n h w v
  end.

Definition edge_all (v : float) : EdgeArray :=
  Build_EdgeArray v v v v v v v v v.

(** [float position[4]] of the layout, indexed by one of the four physical
    edges; the tables [leading], [trailing] and [pos] yield no other index.
    An index past [CSSEdgeBottom] would fall outside of the C array: a read
    gives [CSSUndefined] here and a write is dropped. *)
Record PositionArray := {
  posLeft : float; posTop : float; posRight : float; posBottom : float
}.

Definition position_get (a : PositionArray) (e : CSSEdge) : float :=
  match e with
  | CSSEdgeLeft => posLeft a | CSSEdgeTop => posTop a
  | CSSEdgeRight => posRight a | CSSEdgeBottom => posBottom a
  | _ => CSSUndefined
  end.

Definition position_set (a : PositionArray) (e : CSSEdge) (v : float) : PositionArray :=
  let '(Build_PositionArray l t r b) := a in
  match e with
  | CSSEdgeLeft => Build_PositionArray v t r b
  | CSSEdgeTop => Build_PositionArray l v r b
  | CSSEdgeRight => Build_PositionArray l t v b
  | CSSEdgeBottom => Build_PositionArray l t r v
  | _ => a
  end.

(** [float xs[2]], indexed by a [CSSDimension]. *)
Record DimensionArray := { atWidth : float; atHeight : float }.

Definition dim_get (a : DimensionArray) (d : CSSDimension) : float :=
  match d with CSSDimensionWidth => atWidth a | CSSDimensionHeight => atHeight a end.

Definition dim_set (a : DimensionArray) (d : CSSDimension) (v : float) : DimensionArray :=
  match d with
  | CSSDimensionWidth => {| atWidth := v; atHeight := atHeight a |}
  | CSSDimensionHeight => {| atWidth := atWidth a; atHeight := v |}
  end.

(** ** The structures *)

Module Size.
Record t := { width : float; height : float }.
End Size.
Abbreviation CSSSize := Size.t.

(** A measure callback [(context, width, widthMode, height, heightMode)];
    the context pointer is part of the closure. *)
Definition CSSMeasureFunc : Type :=
  float -> CSSMeasureMode -> float -> CSSMeasureMode -> CSSSize.

(** The measure modes of a cache entry are stored as [option]: [None] stands
    for [(CSSMeasureMode) -1], the value that marks an entry as invalid and
    that no enumerator equals. *)
Module Cached.
Record t := {
  availableWidth : float;
  availableHeight : float;
  widthMeasureMode : option CSSMeasureMode;
  heightMeasureMode : option CSSMeasureMode;
  computedWidth : float;
  computedHeight : float
}.
End Cached.
Abbreviation CSSCachedMeasurement := Cached.t.

#[global] Instance float_eq_dec : EqDecision float.
Proof. unfold F32.float. solve_decision. Defined.
#[global] Instance CSSCachedMeasurement_eq_dec : EqDecision CSSCachedMeasurement.
Proof. solve_decision. Defined.

Definition CSS_MAX_CACHED_RESULT_COUNT : nat := 16.

(** [lastParentDirection] is [None] for [(CSSDirection) -1]. *)
Record CSSLayout := {
  layout_position : PositionArray;
  layout_dimensions : DimensionArray;
  layout_direction : CSSDirection;
  computedFlexBasis : float;
  generationCount : Z;
  lastParentDirection : option CSSDirection;
  nextCachedMeasurementsIndex : nat;
  cachedMeasurements : list CSSCachedMeasurement;
  measuredDimensions : DimensionArray;
  cachedLayout : CSSCachedMeasurement
}.

Record CSSStyle := {
  style_direction : CSSDirection;
  flexDirection : CSSFlexDirection;
  justifyContent : CSSJustify;
  alignContent : CSSAlign;
  alignItems : CSSAlign;
  alignSelf : CSSAlign;
  positionType : CSSPositionType;
  flexWrap : CSSWrapType;
  overflow : CSSOverflow;
  flexGrow : float;
  flexShrink : float;
  flexBasis : float;
  margin : EdgeArray;
  style_position : EdgeArray;
  padding : EdgeArray;
  border : EdgeArray;
  style_dimensions : DimensionArray;
  minDimensions : DimensionArray;
  maxDimensions : DimensionArray
}.

(** A [CSSNodeRef] is a reference into the store of nodes. *)
Definition CSSNodeRef : Type := nat.

(** Modelled from the spec: the child list ([CSSNodeList.h]) is not among the
    sources; it is "an ordered mutable sequence of child references". *)
Definition CSSNodeListRef : Type := list CSSNodeRef.

Record CSSNode := {
  style : CSSStyle;
  layout : CSSLayout;
  lineIndex : Z;
  hasNewLayout : bool;
  isTextNode : bool;
  parent : option CSSNodeRef;
  children : CSSNodeListRef;
  isDirty : bool;
  nextChild : option CSSNodeRef;
  measure : option CSSMeasureFunc
}.

(** Field updates. *)
Definition set_style (f : CSSStyle -> CSSStyle) (n : CSSNode) : CSSNode :=
  {| style := f (style n); layout := layout n; lineIndex := lineIndex n;
     hasNewLayout := hasNewLayout n; isTextNode := isTextNode n;
     parent := parent n; children := children n; isDirty := isDirty n;
     nextChild := nextChild n; measure := measure n |}.

Definition set_layout (f : CSSLayout -> CSSLayout) (n : CSSNode) : CSSNode :=
  {| style := style n; layout := f (layout n); lineIndex := lineIndex n;
     hasNewLayout := hasNewLayout n; isTextNode := isTextNode n;
     parent := parent n; children := children n; isDirty := isDirty n;
     nextChild := nextChild n; measure := measure n |}.

Definition set_lineIndex (v : Z) (n : CSSNode) : CSSNode :=
  {| style := style n; layout := layout n; lineIndex := v;
     hasNewLayout := hasNewLayout n; isTextNode := isTextNode n;
     parent := parent n; children := children n; isDirty := isDirty n;
     nextChild := nextChild n; measure := measure n |}.

Definition set_hasNewLayout (v : bool) (n : CSSNode) : CSSNode :=
  {| style := style n; layout := layout n; lineIndex := lineIndex n;
     hasNewLayout := v; isTextNode := isTextNode n;
     parent := parent n; children := children n; isDirty := isDirty n;
     nextChild := nextChild n; measure := measure n |}.

Definition set_isTextNode (v : bool) (n : CSSNode) : CSSNode :=
  {| style := style n; layout := layout n; lineIndex := lineIndex n;
     hasNewLayout := hasNewLayout n; isTextNode := v;
     parent := parent n; children := children n; isDirty := isDirty n;
     nextChild := nextChild n; measure := measure n |}.

Definition set_parent (v : option CSSNodeRef) (n : CSSNode) : CSSNode :=
  {| style := style n; layout := layout n; lineIndex := lineIndex n;
     hasNewLayout := hasNewLayout n; isTextNode := isTextNode n;
     parent := v; children := children n; isDirty := isDirty n;
     nextChild := nextChild n; measure := measure n |}.

Definition set_children (v : CSSNodeListRef) (n : CSSNode) : CSSNode :=
  {| style := style n; layout := layout n; lineIndex := lineIndex n;
     hasNewLayout := hasNewLayout n; isTextNode := isTextNode n;
     parent := parent n; children := v; isDirty := isDirty n;
     nextChild := nextChild n; measure := measure n |}.

Definition set_isDirty (v : bool) (n : CSSNode) : CSSNode :=
  {| style := style n; layout := layout n; lineIndex := lineIndex n;
     hasNewLayout := hasNewLayout n; isTextNode := isTextNode n;
     parent := parent n; children := children n; isDirty := v;
     nextChild := nextChild n; measure := measure n |}.

Definition set_nextChild (v : option CSSNodeRef) (n : CSSNode) : CSSNode :=
  {| style := style n; layout := layout n; lineIndex := lineIndex n;
     hasNewLayout := hasNewLayout n; isTextNode := isTextNode n;
     parent := parent n; children := children n; isDirty := isDirty n;
     nextChild := v; measure := measure n |}.

Definition set_measure (v : option CSSMeasureFunc) (n : CSSNode) : CSSNode :=
  {| style := style n; layout := layout n; lineIndex := lineIndex n;
     hasNewLayout := hasNewLayout n; isTextNode := isTextNode n;
     parent := parent n; children := children n; isDirty := isDirty n;
     nextChild := nextChild n; measure := v |}.

Definition set_layout_position (f : PositionArray -> PositionArray) (l : CSSLayout) : CSSLayout :=
  {| layout_position := f (layout_position l); layout_dimensions := layout_dimensions l;
     layout_direction := layout_direction l; computedFlexBasis := computedFlexBasis l;
     generationCount := generationCount l; lastParentDirection := lastParentDirection l;
     nextCachedMeasurementsIndex := nextCachedMeasurementsIndex l;
     cachedMeasurements := cachedMeasurements l;
     measuredDimensions := measuredDimensions l; cachedLayout := cachedLayout l |}.

Definition set_layout_dimensions (v : DimensionArray) (l : CSSLayout) : CSSLayout :=
  {| layout_position := layout_position l; layout_dimensions := v;
     layout_direction := layout_direction l; computedFlexBasis := computedFlexBasis l;
     generationCount := generationCount l; lastParentDirection := lastParentDirection l;
     nextCachedMeasurementsIndex := nextCachedMeasurementsIndex l;
     cachedMeasurements := cachedMeasurements l;
     measuredDimensions := measuredDimensions l; cachedLayout := cachedLayout l |}.

Definition set_layout_direction (v : CSSDirection) (l : CSSLayout) : CSSLayout :=
  {| layout_position := layout_position l; layout_dimensions := layout_dimensions l;
     layout_direction := v; computedFlexBasis := computedFlexBasis l;
     generationCount := generationCount l; lastParentDirection := lastParentDirection l;
     nextCachedMeasurementsIndex := nextCachedMeasurementsIndex l;
     cachedMeasurements := cachedMeasurements l;
     measuredDimensions := measuredDimensions l; cachedLayout := cachedLayout l |}.

Definition set_computedFlexBasis (v : float) (l : CSSLayout) : CSSLayout :=
  {| layout_position := layout_position l; layout_dimensions := layout_dimensions l;
     layout_direction := layout_direction l; computedFlexBasis := v;
     generationCount := generationCount l; lastParentDirection := lastParentDirection l;
     nextCachedMeasurementsIndex := nextCachedMeasurementsIndex l;
     cachedMeasurements := cachedMeasurements l;
     measuredDimensions := measuredDimensions l; cachedLayout := cachedLayout l |}.

Definition set_generationCount (v : Z) (l : CSSLayout) : CSSLayout :=
  {| layout_position := layout_position l; layout_dimensions := layout_dimensions l;
     layout_direction := layout_direction l; computedFlexBasis := computedFlexBasis l;
     generationCount := v; lastParentDirection := lastParentDirection l;
     nextCachedMeasurementsIndex := nextCachedMeasurementsIndex l;
     cachedMeasurements := cachedMeasurements l;
     measuredDimensions := measuredDimensions l; cachedLayout := cachedLayout l |}.

Definition set_lastParentDirection (v : option CSSDirection) (l : CSSLayout) : CSSLayout :=
  {| layout_position := layout_position l; layout_dimensions := layout_dimensions l;
     layout_direction := layout_direction l; computedFlexBasis := computedFlexBasis l;
     generationCount := generationCount l; lastParentDirection := v;
     nextCachedMeasurementsIndex := nextCachedMeasurementsIndex l;
     cachedMeasurements := cachedMeasurements l;
     measuredDimensions := measuredDimensions l; cachedLayout := cachedLayout l |}.

Definition set_nextCachedMeasurementsIndex (v : nat) (l : CSSLayout) : CSSLayout :=
  {| layout_position := layout_position l; layout_dimensions := layout_dimensions l;
     layout_direction := layout_direction l; computedFlexBasis := computedFlexBasis l;
     generationCount := generationCount l; lastParentDirection := lastParentDirection l;
     nextCachedMeasurementsIndex := v;
     cachedMeasurements := cachedMeasurements l;
     measuredDimensions := measuredDimensions l; cachedLayout := cachedLayout l |}.

Definition set_cachedMeasurements (v : list CSSCachedMeasurement) (l : CSSLayout) : CSSLayout :=
  {| layout_position := layout_position l; layout_dimensions := layout_dimensions l;
     layout_direction := layout_direction l; computedFlexBasis := computedFlexBasis l;
     generationCount := generationCount l; lastParentDirection := lastParentDirection l;
     nextCachedMeasurementsIndex := nextCachedMeasurementsIndex l;
     cachedMeasurements := v;
     measuredDimensions := measuredDimensions l; cachedLayout := cachedLayout l |}.

Definition set_measuredDimensions (f : DimensionArray -> DimensionArray) (l : CSSLayout) : CSSLayout :=
  {| layout_position := layout_position l; layout_dimensions := layout_dimensions l;
     layout_direction := layout_direction l; computedFlexBasis := computedFlexBasis l;
     generationCount := generationCount l; lastParentDirection := lastParentDirection l;
     nextCachedMeasurementsIndex := nextCachedMeasurementsIndex l;
     cachedMeasurements := cachedMeasurements l;
     measuredDimensions := f (measuredDimensions l); cachedLayout := cachedLayout l |}.

Definition set_cachedLayout (f : CSSCachedMeasurement -> CSSCachedMeasurement) (l : CSSLayout) : CSSLayout :=
  {| layout_position := layout_position l; layout_dimensions := layout_dimensions l;
     layout_direction := layout_direction l; computedFlexBasis := computedFlexBasis l;
     generationCount := generationCount l; lastParentDirection := lastParentDirection l;
     nextCachedMeasurementsIndex := nextCachedMeasurementsIndex l;
     cachedMeasurements := cachedMeasurements l;
     measuredDimensions := measuredDimensions l; cachedLayout := f (cachedLayout l) |}.

Definition invalid_modes (c : CSSCachedMeasurement) : CSSCachedMeasurement :=
  {| Cached.availableWidth := Cached.availableWidth c; Cached.availableHeight := Cached.availableHeight c;
     Cached.widthMeasureMode := None; Cached.heightMeasureMode := None;
     Cached.computedWidth := Cached.computedWidth c; Cached.computedHeight := Cached.computedHeight c |}.

Definition set_computedHeight (v : float) (c : CSSCachedMeasurement) : CSSCachedMeasurement :=
  {| Cached.availableWidth := Cached.availableWidth c; Cached.availableHeight := Cached.availableHeight c;
     Cached.widthMeasureMode := Cached.widthMeasureMode c; Cached.heightMeasureMode := Cached.heightMeasureMode c;
     Cached.computedWidth := Cached.computedWidth c; Cached.computedHeight := v |}.

(** ** Edge and axis resolution *)

Local Open Scope f32_scope.

(** The assertion [edge <= CSSEdgeEnd] of the source guards the callers; the
    layout code only passes the edges of [leading], [trailing], Start and
    End. The public getters below check it. *)
Definition computedEdgeValue (edges : EdgeArray) (edge : CSSEdge) (defaultValue : float) : float :=
  if negb (CSSValueIsUndefined (edge_get edges edge)) then edge_get edges edge
  else if (same edge CSSEdgeTop || same edge CSSEdgeBottom)
          && negb (CSSValueIsUndefined (edge_get edges CSSEdgeVertical))
  then edge_get edges CSSEdgeVertical
  else if (same edge CSSEdgeLeft || same edge CSSEdgeRight
           || same edge CSSEdgeStart || same edge CSSEdgeEnd)
          && negb (CSSValueIsUndefined (edge_get edges CSSEdgeHorizontal))
  then edge_get edges CSSEdgeHorizontal
  else if negb (CSSValueIsUndefined (edge_get edges CSSEdgeAll)) then edge_get edges CSSEdgeAll
  else if same edge CSSEdgeStart || same edge CSSEdgeEnd then CSSUndefined
  else defaultValue.

Definition leading (axis : CSSFlexDirection) : CSSEdge :=
  match axis with
  | CSSFlexDirectionColumn => CSSEdgeTop
  | CSSFlexDirectionColumnReverse => CSSEdgeBottom
  | CSSFlexDirectionRow => CSSEdgeLeft
  | CSSFlexDirectionRowReverse => CSSEdgeRight
  end.

Definition trailing (axis : CSSFlexDirection) : CSSEdge :=
  match axis with
  | CSSFlexDirectionColumn => CSSEdgeBottom
  | CSSFlexDirectionColumnReverse => CSSEdgeTop
  | CSSFlexDirectionRow => CSSEdgeRight
  | CSSFlexDirectionRowReverse => CSSEdgeLeft
  end.

Definition pos (axis : CSSFlexDirection) : CSSEdge :=
  match axis with
  | CSSFlexDirectionColumn => CSSEdgeTop
  | CSSFlexDirectionColumnReverse => CSSEdgeBottom
  | CSSFlexDirectionRow => CSSEdgeLeft
  | CSSFlexDirectionRowReverse => CSSEdgeRight
  end.

Definition dim (axis : CSSFlexDirection) : CSSDimension :=
  match axis with
  | CSSFlexDirectionColumn => CSSDimensionHeight
  | CSSFlexDirectionColumnReverse => CSSDimensionHeight
  | CSSFlexDirectionRow => CSSDimensionWidth
  | CSSFlexDirectionRowReverse => CSSDimensionWidth
  end.

Definition isRowDirection (flexDirection : CSSFlexDirection) : bool :=
  same flexDirection CSSFlexDirectionRow || same flexDirection CSSFlexDirectionRowReverse.

Definition isColumnDirection (flexDirection : CSSFlexDirection) : bool :=
  same flexDirection CSSFlexDirectionColumn || same flexDirection CSSFlexDirectionColumnReverse.

Definition getLeadingMargin (node : CSSNode) (axis : CSSFlexDirection) : float :=
  if isRowDirection axis && negb (CSSValueIsUndefined (edge_get (margin (style node)) CSSEdgeStart))
  then edge_get (margin (style node)) CSSEdgeStart
  else computedEdgeValue (margin (style node)) (leading axis) 0.

Definition getTrailingMargin (node : CSSNode) (axis : CSSFlexDirection) : float :=
  if isRowDirection axis && negb (CSSValueIsUndefined (edge_get (margin (style node)) CSSEdgeEnd))
  then edge_get (margin (style node)) CSSEdgeEnd
  else computedEdgeValue (margin (style node)) (trailing axis) 0.

Definition getLeadingPadding (node : CSSNode) (axis : CSSFlexDirection) : float :=
  if isRowDirection axis && negb (CSSValueIsUndefined (edge_get (padding (style node)) CSSEdgeStart))
     && (edge_get (padding (style node)) CSSEdgeStart >= 0)
  then edge_get (padding (style node)) CSSEdgeStart
  else if computedEdgeValue (padding (style node)) (leading axis) 0 >= 0
  then computedEdgeValue (padding (style node)) (leading axis) 0
  else 0.

Definition getTrailingPadding (node : CSSNode) (axis : CSSFlexDirection) : float :=
  if isRowDirection axis && negb (CSSValueIsUndefined (edge_get (padding (style node)) CSSEdgeEnd))
     && (edge_get (padding (style node)) CSSEdgeEnd >= 0)
  then edge_get (padding (style node)) CSSEdgeEnd
  else if computedEdgeValue (padding (style node)) (trailing axis) 0 >= 0
  then computedEdgeValue (padding (style node)) (trailing axis) 0
  else 0.

Definition getLeadingBorder (node : CSSNode) (axis : CSSFlexDirection) : float :=
  if isRowDirection axis && negb (CSSValueIsUndefined (edge_get (border (style node)) CSSEdgeStart))
     && (edge_get (border (style node)) CSSEdgeStart >= 0)
  then edge_get (border (style node)) CSSEdgeStart
  else if computedEdgeValue (border (style node)) (leading axis) 0 >= 0
  then computedEdgeValue (border (style node)) (leading axis) 0
  else 0.

Definition getTrailingBorder (node : CSSNode) (axis : CSSFlexDirection) : float :=
  if isRowDirection axis && negb (CSSValueIsUndefined (edge_get (border (style node)) CSSEdgeEnd))
     && (edge_get (border (style node)) CSSEdgeEnd >= 0)
  then edge_get (border (style node)) CSSEdgeEnd
  else if computedEdgeValue (border (style node)) (trailing axis) 0 >= 0
  then computedEdgeValue (border (style node)) (trailing axis) 0
  else 0.

Definition getLeadingPaddingAndBorder (node : CSSNode) (axis : CSSFlexDirection) : float :=
  getLeadingPadding node axis + getLeadingBorder node axis.

Definition getTrailingPaddingAndBorder (node : CSSNode) (axis : CSSFlexDirection) : float :=
  getTrailingPadding node axis + getTrailingBorder node axis.

Definition getMarginAxis (node : CSSNode) (axis : CSSFlexDirection) : float :=
  getLeadingMargin node axis + getTrailingMargin node axis.

Definition getPaddingAndBorderAxis (node : CSSNode) (axis : CSSFlexDirection) : float :=
  getLeadingPaddingAndBorder node axis + getTrailingPaddingAndBorder node axis.

Definition getAlignItem (node child : CSSNode) : CSSAlign :=
  if negb (same (alignSelf (style child)) CSSAlignAuto) then alignSelf (style child)
  else alignItems (style node).

Definition resolveDirection (node : CSSNode) (parentDirection : CSSDirection) : CSSDirection :=
  if same (style_direction (style node)) CSSDirectionInherit
  then if (CSSDirection_value parentDirection >? CSSDirection_value CSSDirectionInherit)%Z
       then parentDirection else CSSDirectionLTR
  else style_direction (style node).

Definition resolveAxis (flexDirection : CSSFlexDirection) (direction : CSSDirection)
  : CSSFlexDirection :=
  if same direction CSSDirectionRTL then
    if same flexDirection CSSFlexDirectionRow then CSSFlexDirectionRowReverse
    else if same flexDirection CSSFlexDirectionRowReverse then CSSFlexDirectionRow
    else flexDirection
  else flexDirection.

Definition getCrossFlexDirection (flexDirection : CSSFlexDirection) (direction : CSSDirection)
  : CSSFlexDirection :=
  if isColumnDirection flexDirection then resolveAxis CSSFlexDirectionRow direction
  else CSSFlexDirectionColumn.

Definition isFlex (node : CSSNode) : bool :=
  same (positionType (style node)) CSSPositionTypeRelative
  && ((flexGrow (style node) != 0) || (flexShrink (style node) != 0)).

Definition getDimWithMargin (node : CSSNode) (axis : CSSFlexDirection) : float :=
  dim_get (measuredDimensions (layout node)) (dim axis) + getLeadingMargin node axis
  + getTrailingMargin node axis.

Definition isStyleDimDefined (node : CSSNode) (axis : CSSFlexDirection) : bool :=
  let value := dim_get (style_dimensions (style node)) (dim axis) in
  negb (CSSValueIsUndefined value) && (value >= 0).

Definition isLayoutDimDefined (node : CSSNode) (axis : CSSFlexDirection) : bool :=
  let value := dim_get (measuredDimensions (layout node)) (dim axis) in
  negb (CSSValueIsUndefined value) && (value >= 0).

Definition isLeadingPosDefined (node : CSSNode) (axis : CSSFlexDirection) : bool :=
  (isRowDirection axis
   && negb (CSSValueIsUndefined
              (computedEdgeValue (style_position (style node)) CSSEdgeStart CSSUndefined)))
  || negb (CSSValueIsUndefined
             (computedEdgeValue (style_position (style node)) (leading axis) CSSUndefined)).

Definition isTrailingPosDefined (node : CSSNode) (axis : CSSFlexDirection) : bool :=
  (isRowDirection axis
   && negb (CSSValueIsUndefined
              (computedEdgeValue (style_position (style node)) CSSEdgeEnd CSSUndefined)))
  || negb (CSSValueIsUndefined
             (computedEdgeValue (style_position (style node)) (trailing axis) CSSUndefined)).

Definition getLeadingPosition (node : CSSNode) (axis : CSSFlexDirection) : float :=
  if isRowDirection axis
     && negb (CSSValueIsUndefined
                (computedEdgeValue (style_position (style node)) CSSEdgeStart CSSUndefined))
  then computedEdgeValue (style_position (style node)) CSSEdgeStart CSSUndefined
  else if negb (CSSValueIsUndefined
                  (computedEdgeValue (style_position (style node)) (leading axis) CSSUndefined))
  then computedEdgeValue (style_position (style node)) (leading axis) CSSUndefined
  else 0.

Definition getTrailingPosition (node : CSSNode) (axis : CSSFlexDirection) : float :=
  if isRowDirection axis
     && negb (CSSValueIsUndefined
                (computedEdgeValue (style_position (style node)) CSSEdgeEnd CSSUndefined))
  then computedEdgeValue (style_position (style node)) CSSEdgeEnd CSSUndefined
  else if negb (CSSValueIsUndefined
                  (computedEdgeValue (style_position (style node)) (trailing axis) CSSUndefined))
  then computedEdgeValue (style_position (style node)) (trailing axis) CSSUndefined
  else 0.

Definition boundAxisWithinMinAndMax (node : CSSNode) (axis : CSSFlexDirection) (value : float)
  : float :=
  let '(min, max) :=
    if isColumnDirection axis
    then (dim_get (minDimensions (style node)) CSSDimensionHeight,
          dim_get (maxDimensions (style node)) CSSDimensionHeight)
    else if isRowDirection axis
    then (dim_get (minDimensions (style node)) CSSDimensionWidth,
          dim_get (maxDimensions (style node)) CSSDimensionWidth)
    else (CSSUndefined, CSSUndefined) in
  let boundValue := value in
  let boundValue :=
    if negb (CSSValueIsUndefined max) && (max >= 0) && (boundValue > max)
    then max else boundValue in
  let boundValue :=
    if negb (CSSValueIsUndefined min) && (min >= 0) && (boundValue < min)
    then min else boundValue in
  boundValue.

(** Like [boundAxisWithinMinAndMax] but also ensures that the value doesn't go
    below the padding and border amount. *)
Definition boundAxis (node : CSSNode) (axis : CSSFlexDirection) (value : float) : float :=
  F32.fmaxf (boundAxisWithinMinAndMax node axis value) (getPaddingAndBorderAxis node axis).

(** If both left and right are defined, then use left. Otherwise return
    +left or -right depending on which is defined. *)
Definition getRelativePosition (node : CSSNode) (axis : CSSFlexDirection) : float :=
  if isLeadingPosDefined node axis then getLeadingPosition node axis
  else - getTrailingPosition node axis.

Local Close Scope f32_scope.

(** ** The store and the monad of the stateful functions *)

(** The process-wide state: the allocated nodes, the globals
    [gCurrentGenerationCount] (a [uint32_t]), [gNodeInstanceCount] and
    [gDepth], the next free reference of the allocator, and [gKernelTrace],
    the nodes on which [layoutNodeImpl] was run, latest first (what the source
    prints under [gPrintChanges]). *)
Record State := {
  nodes : gmap CSSNodeRef CSSNode;
  gCurrentGenerationCount : Z;
  gNodeInstanceCount : Z;
  gDepth : Z;
  nextRef : CSSNodeRef;
  gKernelTrace : list CSSNodeRef
}.

Definition set_nodes (f : gmap CSSNodeRef CSSNode -> gmap CSSNodeRef CSSNode) (s : State)
  : State :=
  {| nodes := f (nodes s); gCurrentGenerationCount := gCurrentGenerationCount s;
     gNodeInstanceCount := gNodeInstanceCount s; gDepth := gDepth s;
     nextRef := nextRef s; gKernelTrace := gKernelTrace s |}.

Definition wrap32 (z : Z) : Z := z mod 2 ^ 32.

(** A computation reads and writes the state and fails ([None]) where the C
    program aborts on an assertion or dereferences a reference that is not in
    the store. *)
Definition M (A : Type) : Type := State -> option (A * State).

Definition ret {A} (a : A) : M A := fun s => Some (a, s).

Definition bind {A B} (c : M A) (k : A -> M B) : M B :=
  fun s => match c s with
           | Some (a, s') => k a s'
           | None => None
           end.

Definition fail {A} : M A := fun _ => None.

Notation "'letM' x ':=' c 'in' k" := (bind c (fun x => k))
  (at level 10, x pattern, c at level 100, k at level 200).
Notation "c >> k" := (bind c (fun _ => k))
  (at level 100, k at level 200, right associativity).

Definition CSS_ASSERT (X : bool) : M unit := if X then ret tt else fail.

Definition get_state : M State := fun s => Some (s, s).

Definition deref (r : CSSNodeRef) : M CSSNode :=
  fun s => match nodes s !! r with
           | Some n => Some (n, s)
           | None => None
           end.

Definition update (r : CSSNodeRef) (f : CSSNode -> CSSNode) : M unit :=
  fun s => match nodes s !! r with
           | Some n => Some (tt, set_nodes (insert r (f n)) s)
           | None => None
           end.

Definition when (b : bool) (c : M unit) : M unit := if b then c else ret tt.

(** ** Node creation, tree surgery and dirty propagation *)

(** The zero-filled entry that [calloc] leaves in the cache arrays. *)
Definition zeroCachedMeasurement : CSSCachedMeasurement :=
  {| Cached.availableWidth := F32.zero; Cached.availableHeight := F32.zero;
     Cached.widthMeasureMode := Some CSSMeasureModeUndefined;
     Cached.heightMeasureMode := Some CSSMeasureModeUndefined;
     Cached.computedWidth := F32.zero; Cached.computedHeight := F32.zero |}.

(** [calloc] followed by [CSSNodeInit]: the fields that [CSSNodeInit] does not
    assign keep the all-zero value. *)
Definition CSSNodeInit_value : CSSNode :=
  {| style :=
       {| style_direction := CSSDirectionInherit;
          flexDirection := CSSFlexDirectionColumn;
          justifyContent := CSSJustifyFlexStart;
          alignContent := CSSAlignFlexStart;
          alignItems := CSSAlignStretch;
          alignSelf := CSSAlignAuto;
          positionType := CSSPositionTypeRelative;
          flexWrap := CSSWrapTypeNoWrap;
          overflow := CSSOverflowVisible;
          flexGrow := F32.zero;
          flexShrink := F32.zero;
          flexBasis := CSSUndefined;
          margin := edge_all CSSUndefined;
          style_position := edge_all CSSUndefined;
          padding := edge_all CSSUndefined;
          border := edge_all CSSUndefined;
          style_dimensions := {| atWidth := CSSUndefined; atHeight := CSSUndefined |};
          minDimensions := {| atWidth := CSSUndefined; atHeight := CSSUndefined |};
          maxDimensions := {| atWidth := CSSUndefined; atHeight := CSSUndefined |} |};
     layout :=
       {| layout_position := Build_PositionArray F32.zero F32.zero F32.zero F32.zero;
          layout_dimensions := {| atWidth := CSSUndefined; atHeight := CSSUndefined |};
          layout_direction := CSSDirectionInherit;
          computedFlexBasis := CSSUndefined;
          generationCount := 0;
          lastParentDirection := None;
          nextCachedMeasurementsIndex := 0%nat;
          cachedMeasurements := replicate CSS_MAX_CACHED_RESULT_COUNT zeroCachedMeasurement;
          measuredDimensions := {| atWidth := CSSUndefined; atHeight := CSSUndefined |};
          cachedLayout := invalid_modes zeroCachedMeasurement |};
     lineIndex := 0;
     hasNewLayout := true;
     isTextNode := false;
     parent := None;
     children := [];
     isDirty := false;
     nextChild := None;
     measure := None |}.

Definition CSSNodeNew : M CSSNodeRef :=
  fun s =>
    let node := nextRef s in
    Some (node,
          {| nodes := <[node := CSSNodeInit_value]> (nodes s);
             gCurrentGenerationCount := gCurrentGenerationCount s;
             gNodeInstanceCount := gNodeInstanceCount s + 1;
             gDepth := gDepth s;
             nextRef := S node;
             gKernelTrace := gKernelTrace s |}).

Definition CSSNodeGetInstanceCount : M Z :=
  fun s => Some (gNodeInstanceCount s, s).

(** [_CSSNodeMarkDirty] climbs the parent references. The recursion of the
    source ends at the first dirty node or at a node without parent; [fuel]
    bounds the number of steps, and [_CSSNodeMarkDirty] provides more of it
    than there are nodes. *)
Fixpoint markDirty_steps (fuel : nat) (node : CSSNodeRef) : M unit :=
  match fuel with
  | O => fail
  | S fuel' =>
      letM n := deref node in
      if negb (isDirty n) then
        update node (fun n => set_layout (set_computedFlexBasis CSSUndefined) (set_isDirty true n)) >>
        match parent n with
        | Some p => markDirty_steps fuel' p
        | None => ret tt
        end
      else ret tt
  end.

Definition _CSSNodeMarkDirty (node : CSSNodeRef) : M unit :=
  fun s => markDirty_steps (S (size (nodes s))) node s.

(** Modelled from the spec: [CSSNodeListInsert], [CSSNodeListDelete],
    [CSSNodeListGet] and [CSSNodeListCount] belong to CSSNodeList.c, which is
    not among the sources; the list is the ordered sequence of the children,
    an insertion past the end appends and a deletion removes the first
    occurrence. *)
Definition CSSNodeListInsert (l : CSSNodeListRef) (child : CSSNodeRef) (index : nat)
  : CSSNodeListRef :=
  take index l ++ child :: drop index l.

Fixpoint CSSNodeListDelete (l : CSSNodeListRef) (child : CSSNodeRef) : CSSNodeListRef :=
  match l with
  | [] => []
  | c :: l' => if bool_decide (c = child) then l' else c :: CSSNodeListDelete l' child
  end.

Definition CSSNodeListGet (l : CSSNodeListRef) (index : nat) : option CSSNodeRef := l !! index.

Definition CSSNodeListCount (l : CSSNodeListRef) : nat := length l.

Definition CSSNodeInsertChild (node child : CSSNodeRef) (index : nat) : M unit :=
  letM c := deref child in
  CSS_ASSERT (bool_decide (parent c = None)) >>
  update node (fun n => set_children (CSSNodeListInsert (children n) child index) n) >>
  update child (set_parent (Some node)) >>
  _CSSNodeMarkDirty node.

Definition CSSNodeRemoveChild (node child : CSSNodeRef) : M unit :=
  update node (fun n => set_children (CSSNodeListDelete (children n) child) n) >>
  update child (set_parent None) >>
  _CSSNodeMarkDirty node.

Definition CSSNodeGetChild (node : CSSNodeRef) (index : nat) : M CSSNodeRef :=
  letM n := deref node in
  match CSSNodeListGet (children n) index with
  | Some c => ret c
  | None => fail
  end.

Definition CSSNodeChildCount (node : CSSNodeRef) : M nat :=
  letM n := deref node in ret (CSSNodeListCount (children n)).

Definition CSSNodeMarkDirty (node : CSSNodeRef) : M unit :=
  letM n := deref node in
  CSS_ASSERT (bool_decide (measure n <> None) || (0 <? CSSNodeListCount (children n))%nat) >>
  _CSSNodeMarkDirty node.

Definition CSSNodeIsDirty (node : CSSNodeRef) : M bool :=
  letM n := deref node in ret (isDirty n).

(** ** Style accessors *)

(** Assignments to the fields of [node->style]. *)
Definition with_style_direction (v : CSSDirection) (st : CSSStyle) : CSSStyle :=
  {| style_direction := v; flexDirection := flexDirection st;
     justifyContent := justifyContent st; alignContent := alignContent st;
     alignItems := alignItems st; alignSelf := alignSelf st;
     positionType := positionType st; flexWrap := flexWrap st; overflow := overflow st;
     flexGrow := flexGrow st; flexShrink := flexShrink st; flexBasis := flexBasis st;
     margin := margin st; style_position := style_position st; padding := padding st;
     border := border st; style_dimensions := style_dimensions st;
     minDimensions := minDimensions st; maxDimensions := maxDimensions st |}.

Definition with_flexDirection (v : CSSFlexDirection) (st : CSSStyle) : CSSStyle :=
  {| style_direction := style_direction st; flexDirection := v;
     justifyContent := justifyContent st; alignContent := alignContent st;
     alignItems := alignItems st; alignSelf := alignSelf st;
     positionType := positionType st; flexWrap := flexWrap st; overflow := overflow st;
     flexGrow := flexGrow st; flexShrink := flexShrink st; flexBasis := flexBasis st;
     margin := margin st; style_position := style_position st; padding := padding st;
     border := border st; style_dimensions := style_dimensions st;
     minDimensions := minDimensions st; maxDimensions := maxDimensions st |}.

Definition with_justifyContent (v : CSSJustify) (st : CSSStyle) : CSSStyle :=
  {| style_direction := style_direction st; flexDirection := flexDirection st;
     justifyContent := v; alignContent := alignContent st; alignItems := alignItems st;
     alignSelf := alignSelf st; positionType := positionType st; flexWrap := flexWrap st;
     overflow := overflow st; flexGrow := flexGrow st; flexShrink := flexShrink st;
     flexBasis := flexBasis st; margin := margin st; style_position := style_position st;
     padding := padding st; border := border st; style_dimensions := style_dimensions st;
     minDimensions := minDimensions st; maxDimensions := maxDimensions st |}.

Definition with_alignContent (v : CSSAlign) (st : CSSStyle) : CSSStyle :=
  {| style_direction := style_direction st; flexDirection := flexDirection st;
     justifyContent := justifyContent st; alignContent := v; alignItems := alignItems st;
     alignSelf := alignSelf st; positionType := positionType st; flexWrap := flexWrap st;
     overflow := overflow st; flexGrow := flexGrow st; flexShrink := flexShrink st;
     flexBasis := flexBasis st; margin := margin st; style_position := style_position st;
     padding := padding st; border := border st; style_dimensions := style_dimensions st;
     minDimensions := minDimensions st; maxDimensions := maxDimensions st |}.

Definition with_alignItems (v : CSSAlign) (st : CSSStyle) : CSSStyle :=
  {| style_direction := style_direction st; flexDirection := flexDirection st;
     justifyContent := justifyContent st; alignContent := alignContent st;
     alignItems := v; alignSelf := alignSelf st; positionType := positionType st;
     flexWrap := flexWrap st; overflow := overflow st; flexGrow := flexGrow st;
     flexShrink := flexShrink st; flexBasis := flexBasis st; margin := margin st;
     style_position := style_position st; padding := padding st; border := border st;
     style_dimensions := style_dimensions st; minDimensions := minDimensions st;
     maxDimensions := maxDimensions st |}.

Definition with_alignSelf (v : CSSAlign) (st : CSSStyle) : CSSStyle :=
  {| style_direction := style_direction st; flexDirection := flexDirection st;
     justifyContent := justifyContent st; alignContent := alignContent st;
     alignItems := alignItems st; alignSelf := v; positionType := positionType st;
     flexWrap := flexWrap st; overflow := overflow st; flexGrow := flexGrow st;
     flexShrink := flexShrink st; flexBasis := flexBasis st; margin := margin st;
     style_position := style_position st; padding := padding st; border := border st;
     style_dimensions := style_dimensions st; minDimensions := minDimensions st;
     maxDimensions := maxDimensions st |}.

Definition with_positionType (v : CSSPositionType) (st : CSSStyle) : CSSStyle :=
  {| style_direction := style_direction st; flexDirection := flexDirection st;
     justifyContent := justifyContent st; alignContent := alignContent st;
     alignItems := alignItems st; alignSelf := alignSelf st; positionType := v;
     flexWrap := flexWrap st; overflow := overflow st; flexGrow := flexGrow st;
     flexShrink := flexShrink st; flexBasis := flexBasis st; margin := margin st;
     style_position := style_position st; padding := padding st; border := border st;
     style_dimensions := style_dimensions st; minDimensions := minDimensions st;
     maxDimensions := maxDimensions st |}.

Definition with_flexWrap (v : CSSWrapType) (st : CSSStyle) : CSSStyle :=
  {| style_direction := style_direction st; flexDirection := flexDirection st;
     justifyContent := justifyContent st; alignContent := alignContent st;
     alignItems := alignItems st; alignSelf := alignSelf st;
     positionType := positionType st; flexWrap := v; overflow := overflow st;
     flexGrow := flexGrow st; flexShrink := flexShrink st; flexBasis := flexBasis st;
     margin := margin st; style_position := style_position st; padding := padding st;
     border := border st; style_dimensions := style_dimensions st;
     minDimensions := minDimensions st; maxDimensions := maxDimensions st |}.

Definition with_overflow (v : CSSOverflow) (st : CSSStyle) : CSSStyle :=
  {| style_direction := style_direction st; flexDirection := flexDirection st;
     justifyContent := justifyContent st; alignContent := alignContent st;
     alignItems := alignItems st; alignSelf := alignSelf st;
     positionType := positionType st; flexWrap := flexWrap st; overflow := v;
     flexGrow := flexGrow st; flexShrink := flexShrink st; flexBasis := flexBasis st;
     margin := margin st; style_position := style_position st; padding := padding st;
     border := border st; style_dimensions := style_dimensions st;
     minDimensions := minDimensions st; maxDimensions := maxDimensions st |}.

Definition with_flexGrow (v : float) (st : CSSStyle) : CSSStyle :=
  {| style_direction := style_direction st; flexDirection := flexDirection st;
     justifyContent := justifyContent st; alignContent := alignContent st;
     alignItems := alignItems st; alignSelf := alignSelf st;
     positionType := positionType st; flexWrap := flexWrap st; overflow := overflow st;
     flexGrow := v; flexShrink := flexShrink st; flexBasis := flexBasis st;
     margin := margin st; style_position := style_position st; padding := padding st;
     border := border st; style_dimensions := style_dimensions st;
     minDimensions := minDimensions st; maxDimensions := maxDimensions st |}.

Definition with_flexShrink (v : float) (st : CSSStyle) : CSSStyle :=
  {| style_direction := style_direction st; flexDirection := flexDirection st;
     justifyContent := justifyContent st; alignContent := alignContent st;
     alignItems := alignItems st; alignSelf := alignSelf st;
     positionType := positionType st; flexWrap := flexWrap st; overflow := overflow st;
     flexGrow := flexGrow st; flexShrink := v; flexBasis := flexBasis st;
     margin := margin st; style_position := style_position st; padding := padding st;
     border := border st; style_dimensions := style_dimensions st;
     minDimensions := minDimensions st; maxDimensions := maxDimensions st |}.

Definition with_flexBasis (v : float) (st : CSSStyle) : CSSStyle :=
  {| style_direction := style_direction st; flexDirection := flexDirection st;
     justifyContent := justifyContent st; alignContent := alignContent st;
     alignItems := alignItems st; alignSelf := alignSelf st;
     positionType := positionType st; flexWrap := flexWrap st; overflow := overflow st;
     flexGrow := flexGrow st; flexShrink := flexShrink st; flexBasis := v;
     margin := margin st; style_position := style_position st; padding := padding st;
     border := border st; style_dimensions := style_dimensions st;
     minDimensions := minDimensions st; maxDimensions := maxDimensions st |}.

Definition with_margin (v : EdgeArray) (st : CSSStyle) : CSSStyle :=
  {| style_direction := style_direction st; flexDirection := flexDirection st;
     justifyContent := justifyContent st; alignContent := alignContent st;
     alignItems := alignItems st; alignSelf := alignSelf st;
     positionType := positionType st; flexWrap := flexWrap st; overflow := overflow st;
     flexGrow := flexGrow st; flexShrink := flexShrink st; flexBasis := flexBasis st;
     margin := v; style_position := style_position st; padding := padding st;
     border := border st; style_dimensions := style_dimensions st;
     minDimensions := minDimensions st; maxDimensions := maxDimensions st |}.

Definition with_style_position (v : EdgeArray) (st : CSSStyle) : CSSStyle :=
  {| style_direction := style_direction st; flexDirection := flexDirection st;
     justifyContent := justifyContent st; alignContent := alignContent st;
     alignItems := alignItems st; alignSelf := alignSelf st;
     positionType := positionType st; flexWrap := flexWrap st; overflow := overflow st;
     flexGrow := flexGrow st; flexShrink := flexShrink st; flexBasis := flexBasis st;
     margin := margin st; style_position := v; padding := padding st;
     border := border st; style_dimensions := style_dimensions st;
     minDimensions := minDimensions st; maxDimensions := maxDimensions st |}.

Definition with_padding (v : EdgeArray) (st : CSSStyle) : CSSStyle :=
  {| style_direction := style_direction st; flexDirection := flexDirection st;
     justifyContent := justifyContent st; alignContent := alignContent st;
     alignItems := alignItems st; alignSelf := alignSelf st;
     positionType := positionType st; flexWrap := flexWrap st; overflow := overflow st;
     flexGrow := flexGrow st; flexShrink := flexShrink st; flexBasis := flexBasis st;
     margin := margin st; style_position := style_position st; padding := v;
     border := border st; style_dimensions := style_dimensions st;
     minDimensions := minDimensions st; maxDimensions := maxDimensions st |}.

Definition with_border (v : EdgeArray) (st : CSSStyle) : CSSStyle :=
  {| style_direction := style_direction st; flexDirection := flexDirection st;
     justifyContent := justifyContent st; alignContent := alignContent st;
     alignItems := alignItems st; alignSelf := alignSelf st;
     positionType := positionType st; flexWrap := flexWrap st; overflow := overflow st;
     flexGrow := flexGrow st; flexShrink := flexShrink st; flexBasis := flexBasis st;
     margin := margin st; style_position := style_position st; padding := padding st;
     border := v; style_dimensions := style_dimensions st;
     minDimensions := minDimensions st; maxDimensions := maxDimensions st |}.

Definition with_style_dimensions (v : DimensionArray) (st : CSSStyle) : CSSStyle :=
  {| style_direction := style_direction st; flexDirection := flexDirection st;
     justifyContent := justifyContent st; alignContent := alignContent st;
     alignItems := alignItems st; alignSelf := alignSelf st;
     positionType := positionType st; flexWrap := flexWrap st; overflow := overflow st;
     flexGrow := flexGrow st; flexShrink := flexShrink st; flexBasis := flexBasis st;
     margin := margin st; style_position := style_position st; padding := padding st;
     border := border st; style_dimensions := v; minDimensions := minDimensions st;
     maxDimensions := maxDimensions st |}.

Definition with_minDimensions (v : DimensionArray) (st : CSSStyle) : CSSStyle :=
  {| style_direction := style_direction st; flexDirection := flexDirection st;
     justifyContent := justifyContent st; alignContent := alignContent st;
     alignItems := alignItems st; alignSelf := alignSelf st;
     positionType := positionType st; flexWrap := flexWrap st; overflow := overflow st;
     flexGrow := flexGrow st; flexShrink := flexShrink st; flexBasis := flexBasis st;
     margin := margin st; style_position := style_position st; padding := padding st;
     border := border st; style_dimensions := style_dimensions st; minDimensions := v;
     maxDimensions := maxDimensions st |}.

Definition with_maxDimensions (v : DimensionArray) (st : CSSStyle) : CSSStyle :=
  {| style_direction := style_direction st; flexDirection := flexDirection st;
     justifyContent := justifyContent st; alignContent := alignContent st;
     alignItems := alignItems st; alignSelf := alignSelf st;
     positionType := positionType st; flexWrap := flexWrap st; overflow := overflow st;
     flexGrow := flexGrow st; flexShrink := flexShrink st; flexBasis := flexBasis st;
     margin := margin st; style_position := style_position st; padding := padding st;
     border := border st; style_dimensions := style_dimensions st;
     minDimensions := minDimensions st; maxDimensions := v |}.

(** [CSS_NODE_STYLE_PROPERTY_IMPL]: the setter generated for a style field.
    [differs] is the C operator [!=] at the type of the field, [field] and
    [assign] read and write [node->style.instanceName]. *)
Definition CSS_NODE_STYLE_PROPERTY_IMPL {T : Type} (differs : T -> T -> bool)
    (field : CSSStyle -> T) (assign : T -> CSSStyle -> CSSStyle)
    (node : CSSNodeRef) (paramName : T) : M unit :=
  letM n := deref node in
  if differs (field (style n)) paramName then
    update node (set_style (assign paramName)) >>
    _CSSNodeMarkDirty node
  else ret tt.

(** [CSS_NODE_STYLE_EDGE_PROPERTY_IMPL]: the setter generated for a per-edge
    style field. *)
Definition CSS_NODE_STYLE_EDGE_PROPERTY_IMPL
    (field : CSSStyle -> EdgeArray) (assign : EdgeArray -> CSSStyle -> CSSStyle)
    (node : CSSNodeRef) (edge : CSSEdge) (paramName : float) : M unit :=
  letM n := deref node in
  if F32.neb (edge_get (field (style n)) edge) paramName then
    update node (set_style (fun st => assign (edge_set (field st) edge paramName) st)) >>
    _CSSNodeMarkDirty node
  else ret tt.

(** The getter of a per-edge field resolves the shorthands. *)
Definition CSS_NODE_STYLE_EDGE_PROPERTY_GET (field : CSSStyle -> EdgeArray)
    (defaultValue : float) (node : CSSNodeRef) (edge : CSSEdge) : M float :=
  letM n := deref node in
  CSS_ASSERT (negb (same edge CSSEdgeHorizontal || same edge CSSEdgeVertical
                    || same edge CSSEdgeAll)) >>
  ret (computedEdgeValue (field (style n)) edge defaultValue).

(** C [!=] on enumerators. *)
Definition differ {A} `{EqDecision A} (a b : A) : bool := negb (same a b).

Definition CSSNodeStyleSetDirection :=
  CSS_NODE_STYLE_PROPERTY_IMPL differ style_direction with_style_direction.
Definition CSSNodeStyleSetFlexDirection :=
  CSS_NODE_STYLE_PROPERTY_IMPL differ flexDirection with_flexDirection.
Definition CSSNodeStyleSetJustifyContent :=
  CSS_NODE_STYLE_PROPERTY_IMPL differ justifyContent with_justifyContent.
Definition CSSNodeStyleSetAlignContent :=
  CSS_NODE_STYLE_PROPERTY_IMPL differ alignContent with_alignContent.
Definition CSSNodeStyleSetAlignItems :=
  CSS_NODE_STYLE_PROPERTY_IMPL differ alignItems with_alignItems.
Definition CSSNodeStyleSetAlignSelf :=
  CSS_NODE_STYLE_PROPERTY_IMPL differ alignSelf with_alignSelf.
Definition CSSNodeStyleSetPositionType :=
  CSS_NODE_STYLE_PROPERTY_IMPL differ positionType with_positionType.
Definition CSSNodeStyleSetFlexWrap :=
  CSS_NODE_STYLE_PROPERTY_IMPL differ flexWrap with_flexWrap.
Definition CSSNodeStyleSetOverflow :=
  CSS_NODE_STYLE_PROPERTY_IMPL differ overflow with_overflow.
Definition CSSNodeStyleSetFlexGrow :=
  CSS_NODE_STYLE_PROPERTY_IMPL F32.neb flexGrow with_flexGrow.
Definition CSSNodeStyleSetFlexShrink :=
  CSS_NODE_STYLE_PROPERTY_IMPL F32.neb flexShrink with_flexShrink.
Definition CSSNodeStyleSetFlexBasis :=
  CSS_NODE_STYLE_PROPERTY_IMPL F32.neb flexBasis with_flexBasis.

Definition CSSNodeStyleSetPosition :=
  CSS_NODE_STYLE_EDGE_PROPERTY_IMPL style_position with_style_position.
Definition CSSNodeStyleSetMargin :=
  CSS_NODE_STYLE_EDGE_PROPERTY_IMPL margin with_margin.
Definition CSSNodeStyleSetPadding :=
  CSS_NODE_STYLE_EDGE_PROPERTY_IMPL padding with_padding.
Definition CSSNodeStyleSetBorder :=
  CSS_NODE_STYLE_EDGE_PROPERTY_IMPL border with_border.

Definition CSSNodeStyleGetPosition :=
  CSS_NODE_STYLE_EDGE_PROPERTY_GET style_position CSSUndefined.
Definition CSSNodeStyleGetMargin := CSS_NODE_STYLE_EDGE_PROPERTY_GET margin F32.zero.
Definition CSSNodeStyleGetPadding := CSS_NODE_STYLE_EDGE_PROPERTY_GET padding F32.zero.
Definition CSSNodeStyleGetBorder := CSS_NODE_STYLE_EDGE_PROPERTY_GET border F32.zero.

(** The fields [dimensions[d]], [minDimensions[d]] and [maxDimensions[d]]. *)
Definition styleDim (d : CSSDimension) (st : CSSStyle) : float :=
  dim_get (style_dimensions st) d.
Definition with_styleDim (d : CSSDimension) (v : float) (st : CSSStyle) : CSSStyle :=
  with_style_dimensions (dim_set (style_dimensions st) d v) st.
Definition styleMinDim (d : CSSDimension) (st : CSSStyle) : float :=
  dim_get (minDimensions st) d.
Definition with_styleMinDim (d : CSSDimension) (v : float) (st : CSSStyle) : CSSStyle :=
  with_minDimensions (dim_set (minDimensions st) d v) st.
Definition styleMaxDim (d : CSSDimension) (st : CSSStyle) : float :=
  dim_get (maxDimensions st) d.
Definition with_styleMaxDim (d : CSSDimension) (v : float) (st : CSSStyle) : CSSStyle :=
  with_maxDimensions (dim_set (maxDimensions st) d v) st.

Definition CSSNodeStyleSetWidth :=
  CSS_NODE_STYLE_PROPERTY_IMPL F32.neb (styleDim CSSDimensionWidth)
    (with_styleDim CSSDimensionWidth).
Definition CSSNodeStyleSetHeight :=
  CSS_NODE_STYLE_PROPERTY_IMPL F32.neb (styleDim CSSDimensionHeight)
    (with_styleDim CSSDimensionHeight).
Definition CSSNodeStyleSetMinWidth :=
  CSS_NODE_STYLE_PROPERTY_IMPL F32.neb (styleMinDim CSSDimensionWidth)
    (with_styleMinDim CSSDimensionWidth).
Definition CSSNodeStyleSetMinHeight :=
  CSS_NODE_STYLE_PROPERTY_IMPL F32.neb (styleMinDim CSSDimensionHeight)
    (with_styleMinDim CSSDimensionHeight).
Definition CSSNodeStyleSetMaxWidth :=
  CSS_NODE_STYLE_PROPERTY_IMPL F32.neb (styleMaxDim CSSDimensionWidth)
    (with_styleMaxDim CSSDimensionWidth).
Definition CSSNodeStyleSetMaxHeight :=
  CSS_NODE_STYLE_PROPERTY_IMPL F32.neb (styleMaxDim CSSDimensionHeight)
    (with_styleMaxDim CSSDimensionHeight).

Local Open Scope f32_scope.

Definition CSSNodeStyleSetFlex (node : CSSNodeRef) (flex : float) : M unit :=
  if CSSValueIsUndefined flex || (flex == 0) then
    CSSNodeStyleSetFlexGrow node 0 >>
    CSSNodeStyleSetFlexShrink node 0 >>
    CSSNodeStyleSetFlexBasis node CSSUndefined
  else if flex > 0 then
    CSSNodeStyleSetFlexGrow node flex >>
    CSSNodeStyleSetFlexShrink node 0 >>
    CSSNodeStyleSetFlexBasis node 0
  else
    CSSNodeStyleSetFlexGrow node 0 >>
    CSSNodeStyleSetFlexShrink node (- flex) >>
    CSSNodeStyleSetFlexBasis node CSSUndefined.

Definition CSSNodeStyleGetFlex (node : CSSNodeRef) : M float :=
  letM n := deref node in
  if flexGrow (style n) > 0 then ret (flexGrow (style n))
  else if flexShrink (style n) > 0 then ret (- flexShrink (style n))
  else ret 0.

(** [CSS_NODE_PROPERTY_IMPL]: plain assignments. *)
Definition CSSNodeSetMeasureFunc (node : CSSNodeRef) (measureFunc : option CSSMeasureFunc)
  : M unit := update node (set_measure measureFunc).
Definition CSSNodeSetIsTextnode (node : CSSNodeRef) (v : bool) : M unit :=
  update node (set_isTextNode v).
Definition CSSNodeSetHasNewLayout (node : CSSNodeRef) (v : bool) : M unit :=
  update node (set_hasNewLayout v).
Definition CSSNodeGetHasNewLayout (node : CSSNodeRef) : M bool :=
  letM n := deref node in ret (hasNewLayout n).

(** [CSS_NODE_LAYOUT_PROPERTY_IMPL]: the layout getters. *)
Definition CSSNodeLayoutGetLeft (node : CSSNodeRef) : M float :=
  letM n := deref node in ret (position_get (layout_position (layout n)) CSSEdgeLeft).
Definition CSSNodeLayoutGetTop (node : CSSNodeRef) : M float :=
  letM n := deref node in ret (position_get (layout_position (layout n)) CSSEdgeTop).
Definition CSSNodeLayoutGetRight (node : CSSNodeRef) : M float :=
  letM n := deref node in ret (position_get (layout_position (layout n)) CSSEdgeRight).
Definition CSSNodeLayoutGetBottom (node : CSSNodeRef) : M float :=
  letM n := deref node in ret (position_get (layout_position (layout n)) CSSEdgeBottom).
Definition CSSNodeLayoutGetWidth (node : CSSNodeRef) : M float :=
  letM n := deref node in ret (dim_get (layout_dimensions (layout n)) CSSDimensionWidth).
Definition CSSNodeLayoutGetHeight (node : CSSNodeRef) : M float :=
  letM n := deref node in ret (dim_get (layout_dimensions (layout n)) CSSDimensionHeight).
Definition CSSNodeLayoutGetDirection (node : CSSNodeRef) : M CSSDirection :=
  letM n := deref node in ret (layout_direction (layout n)).

(** ** The layout kernel *)

Definition foldM {A S : Type} (f : S -> A -> M S) : S -> list A -> M S :=
  fix go (acc : S) (l : list A) : M S :=
    match l with
    | [] => ret acc
    | a :: l' => letM acc' := f acc a in go acc' l'
    end.

Definition forM {A : Type} (l : list A) (f : A -> M unit) : M unit :=
  foldM (fun _ a => f a) tt l.

(** Assignments to [layout.position[e]], [layout.measuredDimensions[d]] and
    [layout.computedFlexBasis] of a node. *)
Definition assign_position (e : CSSEdge) (v : float) : CSSNode -> CSSNode :=
  set_layout (set_layout_position (fun p => position_set p e v)).

Definition assign_measured (d : CSSDimension) (v : float) : CSSNode -> CSSNode :=
  set_layout (set_measuredDimensions (fun m => dim_set m d v)).

Definition assign_computedFlexBasis (v : float) : CSSNode -> CSSNode :=
  set_layout (set_computedFlexBasis v).

Definition position_of (n : CSSNode) (e : CSSEdge) : float :=
  position_get (layout_position (layout n)) e.

Definition measured_of (n : CSSNode) (d : CSSDimension) : float :=
  dim_get (measuredDimensions (layout n)) d.

Definition setTrailingPosition (node child : CSSNodeRef) (axis : CSSFlexDirection) : M unit :=
  letM n := deref node in
  letM c := deref child in
  let size := measured_of c (dim axis) in
  update child
    (assign_position (trailing axis)
       (measured_of n (dim axis) - size - position_of c (pos axis))).

Definition setPosition (node : CSSNodeRef) (direction : CSSDirection) : M unit :=
  letM n := deref node in
  let mainAxis := resolveAxis (flexDirection (style n)) direction in
  let crossAxis := getCrossFlexDirection mainAxis direction in
  update node (assign_position (leading mainAxis)
                 (getLeadingMargin n mainAxis + getRelativePosition n mainAxis)) >>
  update node (assign_position (trailing mainAxis)
                 (getTrailingMargin n mainAxis + getRelativePosition n mainAxis)) >>
  update node (assign_position (leading crossAxis)
                 (getLeadingMargin n crossAxis + getRelativePosition n crossAxis)) >>
  update node (assign_position (trailing crossAxis)
                 (getTrailingMargin n crossAxis + getRelativePosition n crossAxis)).

(** The type of [layoutNodeInternal]; the [reason] string of the source only
    serves the debug output and is left out. *)
Definition LayoutFn : Type :=
  CSSNodeRef -> float -> float -> CSSDirection -> CSSMeasureMode -> CSSMeasureMode -> bool
  -> M bool.

Section Kernel.

(** The forward declaration of [layoutNodeInternal]. *)
Variable layoutNodeInternal : LayoutFn.

Definition computeChildFlexBasis (node child : CSSNodeRef)
    (width : float) (widthMode : CSSMeasureMode)
    (height : float) (heightMode : CSSMeasureMode)
    (direction : CSSDirection) : M unit :=
  letM n := deref node in
  letM c := deref child in
  let mainAxis := resolveAxis (flexDirection (style n)) direction in
  let isMainAxisRow := isRowDirection mainAxis in
  if negb (CSSValueIsUndefined (flexBasis (style c)))
     && negb (CSSValueIsUndefined (if isMainAxisRow then width else height))
  then
    when (CSSValueIsUndefined (computedFlexBasis (layout c)))
      (update child
         (assign_computedFlexBasis
            (F32.fmaxf (flexBasis (style c)) (getPaddingAndBorderAxis c mainAxis))))
  else if isMainAxisRow && isStyleDimDefined c CSSFlexDirectionRow then
    (* The width is definite, so use that as the flex basis. *)
    update child
      (assign_computedFlexBasis
         (F32.fmaxf (dim_get (style_dimensions (style c)) CSSDimensionWidth)
                    (getPaddingAndBorderAxis c CSSFlexDirectionRow)))
  else if negb isMainAxisRow && isStyleDimDefined c CSSFlexDirectionColumn then
    (* The height is definite, so use that as the flex basis. *)
    update child
      (assign_computedFlexBasis
         (F32.fmaxf (dim_get (style_dimensions (style c)) CSSDimensionHeight)
                    (getPaddingAndBorderAxis c CSSFlexDirectionColumn)))
  else
    let childWidth := CSSUndefined in
    let childHeight := CSSUndefined in
    let childWidthMeasureMode := CSSMeasureModeUndefined in
    let childHeightMeasureMode := CSSMeasureModeUndefined in
    let '(childWidth, childWidthMeasureMode) :=
      if isStyleDimDefined c CSSFlexDirectionRow
      then (dim_get (style_dimensions (style c)) CSSDimensionWidth
            + getMarginAxis c CSSFlexDirectionRow, CSSMeasureModeExactly)
      else (childWidth, childWidthMeasureMode) in
    let '(childHeight, childHeightMeasureMode) :=
      if isStyleDimDefined c CSSFlexDirectionColumn
      then (dim_get (style_dimensions (style c)) CSSDimensionHeight
            + getMarginAxis c CSSFlexDirectionColumn, CSSMeasureModeExactly)
      else (childHeight, childHeightMeasureMode) in
    (* The W3C spec doesn't say anything about the 'overflow' property,
       but all major browsers appear to implement the following logic. *)
    let '(childWidth, childWidthMeasureMode) :=
      if ((negb isMainAxisRow && same (overflow (style n)) CSSOverflowScroll)
          || differ (overflow (style n)) CSSOverflowScroll)
         && (CSSValueIsUndefined childWidth && negb (CSSValueIsUndefined width))
      then (width, CSSMeasureModeAtMost)
      else (childWidth, childWidthMeasureMode) in
    let '(childHeight, childHeightMeasureMode) :=
      if ((isMainAxisRow && same (overflow (style n)) CSSOverflowScroll)
          || differ (overflow (style n)) CSSOverflowScroll)
         && (CSSValueIsUndefined childHeight && negb (CSSValueIsUndefined height))
      then (height, CSSMeasureModeAtMost)
      else (childHeight, childHeightMeasureMode) in
    (* If child has no defined size in the cross axis and is set to
       stretch, set the cross axis to be measured exactly with the
       available inner width *)
    let '(childWidth, childWidthMeasureMode) :=
      if negb isMainAxisRow && negb (CSSValueIsUndefined width)
         && negb (isStyleDimDefined c CSSFlexDirectionRow)
         && same widthMode CSSMeasureModeExactly
         && same (getAlignItem n c) CSSAlignStretch
      then (width, CSSMeasureModeExactly)
      else (childWidth, childWidthMeasureMode) in
    let '(childHeight, childHeightMeasureMode) :=
      if isMainAxisRow && negb (CSSValueIsUndefined height)
         && negb (isStyleDimDefined c CSSFlexDirectionColumn)
         && same heightMode CSSMeasureModeExactly
         && same (getAlignItem n c) CSSAlignStretch
      then (height, CSSMeasureModeExactly)
      else (childHeight, childHeightMeasureMode) in
    (* Measure the child *)
    layoutNodeInternal child childWidth childHeight direction
      childWidthMeasureMode childHeightMeasureMode false >>
    letM c := deref child in
    update child
      (assign_computedFlexBasis
         (F32.fmaxf (if isMainAxisRow then measured_of c CSSDimensionWidth
                     else measured_of c CSSDimensionHeight)
                    (getPaddingAndBorderAxis c mainAxis))).

Definition absoluteLayoutChild (node child : CSSNodeRef)
    (width : float) (widthMode : CSSMeasureMode) (direction : CSSDirection) : M unit :=
  letM n := deref node in
  letM c := deref child in
  let mainAxis := resolveAxis (flexDirection (style n)) direction in
  let crossAxis := getCrossFlexDirection mainAxis direction in
  let isMainAxisRow := isRowDirection mainAxis in
  let childWidth :=
    if isStyleDimDefined c CSSFlexDirectionRow then
      dim_get (style_dimensions (style c)) CSSDimensionWidth
      + getMarginAxis c CSSFlexDirectionRow
    else if isLeadingPosDefined c CSSFlexDirectionRow
            && isTrailingPosDefined c CSSFlexDirectionRow then
      (* compute the width based on the left/right offsets *)
      boundAxis c CSSFlexDirectionRow
        (measured_of n CSSDimensionWidth
         - (getLeadingBorder n CSSFlexDirectionRow + getTrailingBorder n CSSFlexDirectionRow)
         - (getLeadingPosition c CSSFlexDirectionRow
            + getTrailingPosition c CSSFlexDirectionRow))
    else CSSUndefined in
  let childHeight :=
    if isStyleDimDefined c CSSFlexDirectionColumn then
      dim_get (style_dimensions (style c)) CSSDimensionHeight
      + getMarginAxis c CSSFlexDirectionColumn
    else if isLeadingPosDefined c CSSFlexDirectionColumn
            && isTrailingPosDefined c CSSFlexDirectionColumn then
      (* compute the height based on the top/bottom offsets *)
      boundAxis c CSSFlexDirectionColumn
        (measured_of n CSSDimensionHeight
         - (getLeadingBorder n CSSFlexDirectionColumn
            + getTrailingBorder n CSSFlexDirectionColumn)
         - (getLeadingPosition c CSSFlexDirectionColumn
            + getTrailingPosition c CSSFlexDirectionColumn))
    else CSSUndefined in
  (* If we're still missing one or the other dimension, measure the
     content. *)
  letM (childWidth, childHeight) :=
    if CSSValueIsUndefined childWidth || CSSValueIsUndefined childHeight then
      let childWidthMeasureMode :=
        if CSSValueIsUndefined childWidth then CSSMeasureModeUndefined
        else CSSMeasureModeExactly in
      let childHeightMeasureMode :=
        if CSSValueIsUndefined childHeight then CSSMeasureModeUndefined
        else CSSMeasureModeExactly in
      let '(childWidth, childWidthMeasureMode) :=
        if negb isMainAxisRow && CSSValueIsUndefined childWidth
           && differ widthMode CSSMeasureModeUndefined
        then (width, CSSMeasureModeAtMost)
        else (childWidth, childWidthMeasureMode) in
      layoutNodeInternal child childWidth childHeight direction
        childWidthMeasureMode childHeightMeasureMode false >>
      letM c := deref child in
      ret (measured_of c CSSDimensionWidth + getMarginAxis c CSSFlexDirectionRow,
           measured_of c CSSDimensionHeight + getMarginAxis c CSSFlexDirectionColumn)
    else ret (childWidth, childHeight) in
  layoutNodeInternal child childWidth childHeight direction
    CSSMeasureModeExactly CSSMeasureModeExactly true >>
  (letM n := deref node in
   letM c := deref child in
   when (isTrailingPosDefined c mainAxis && negb (isLeadingPosDefined c mainAxis))
     (update child
        (assign_position (leading mainAxis)
           (measured_of n (dim mainAxis) - measured_of c (dim mainAxis)
            - getTrailingPosition c mainAxis)))) >>
  (letM n := deref node in
   letM c := deref child in
   when (isTrailingPosDefined c crossAxis && negb (isLeadingPosDefined c crossAxis))
     (update child
        (assign_position (leading crossAxis)
           (measured_of n (dim crossAxis) - measured_of c (dim crossAxis)
            - getTrailingPosition c crossAxis)))).

(** *** [layoutNodeImpl]

    The loops of the source are the recursive functions below; they are
    given the constants of the enclosing function as arguments. The loops
    that follow the private [nextChild] lists take a bound on the number of
    steps, which [layoutNodeImpl] sets to the number of children. *)

(** The variables of the loop that collects the items of a line (STEP 4). *)
Record LineItems := {
  itemsOnLine : nat;
  sizeConsumedOnCurrentLine : float;
  totalFlexGrowFactors : float;
  totalFlexShrinkScaledFactors : float;
  firstRelativeChild : option CSSNodeRef;
  currentRelativeChild : option CSSNodeRef;
  endOfLineIndex : nat
}.

Definition append_nextChild (current : option CSSNodeRef) (child : CSSNodeRef) : M unit :=
  match current with
  | Some cur => update cur (set_nextChild (Some child))
  | None => ret tt
  end >>
  update child (set_nextChild None).

Definition first_or (first : option CSSNodeRef) (child : CSSNodeRef) : option CSSNodeRef :=
  match first with
  | None => Some child
  | Some _ => first
  end.

(** STEP 3, the body of the loop: the accumulator is
    [(firstAbsoluteChild, currentAbsoluteChild)]. *)
Definition flexBasisOfChild (node : CSSNodeRef)
    (performLayout : bool) (direction : CSSDirection)
    (availableInnerWidth : float) (widthMeasureMode : CSSMeasureMode)
    (availableInnerHeight : float) (heightMeasureMode : CSSMeasureMode)
    (acc : option CSSNodeRef * option CSSNodeRef) (child : CSSNodeRef)
  : M (option CSSNodeRef * option CSSNodeRef) :=
  let (firstAbsoluteChild, currentAbsoluteChild) := acc in
  when performLayout
    (* Set the initial position (relative to the parent). *)
    (letM c := deref child in
     let childDirection := resolveDirection c direction in
     setPosition child childDirection) >>
  letM c := deref child in
  (* Absolute-positioned children don't participate in flex layout. Add them
     to a list that we can process later. *)
  if same (positionType (style c)) CSSPositionTypeAbsolute then
    append_nextChild currentAbsoluteChild child >>
    ret (first_or firstAbsoluteChild child, Some child)
  else
    computeChildFlexBasis node child availableInnerWidth widthMeasureMode
      availableInnerHeight heightMeasureMode direction >>
    ret acc.

(** STEP 3: the flex basis of each item; returns [firstAbsoluteChild]. *)
Definition determineFlexBasis (node : CSSNodeRef) (childList : list CSSNodeRef)
    (performLayout : bool) (direction : CSSDirection)
    (availableInnerWidth : float) (widthMeasureMode : CSSMeasureMode)
    (availableInnerHeight : float) (heightMeasureMode : CSSMeasureMode)
  : M (option CSSNodeRef) :=
  letM r :=
    foldM (flexBasisOfChild node performLayout direction
             availableInnerWidth widthMeasureMode availableInnerHeight heightMeasureMode)
          (None, None) childList in
  ret (fst r).

(** STEP 4: add items to the current line until it's full or we run out
    of items; [rest] are the children from [startOfLineIndex] on. *)
Fixpoint collectLine (mainAxis : CSSFlexDirection) (availableInnerMainDim : float)
    (isNodeFlexWrap : bool) (lineCount : nat)
    (rest : list CSSNodeRef) (acc : LineItems) : M LineItems :=
  match rest with
  | [] => ret acc
  | child :: rest' =>
      update child (set_lineIndex (Z.of_nat lineCount)) >>
      letM c := deref child in
      if differ (positionType (style c)) CSSPositionTypeAbsolute then
        let outerFlexBasis := computedFlexBasis (layout c) + getMarginAxis c mainAxis in
        if (sizeConsumedOnCurrentLine acc + outerFlexBasis > availableInnerMainDim)
           && isNodeFlexWrap && (0 <? itemsOnLine acc)%nat
        then ret acc
        else
          let grow :=
            if isFlex c then totalFlexGrowFactors acc + flexGrow (style c)
            else totalFlexGrowFactors acc in
          let shrink :=
            if isFlex c
            then totalFlexShrinkScaledFactors acc
                 + (- flexShrink (style c)) * computedFlexBasis (layout c)
            else totalFlexShrinkScaledFactors acc in
          append_nextChild (currentRelativeChild acc) child >>
          collectLine mainAxis availableInnerMainDim isNodeFlexWrap lineCount rest'
            {| itemsOnLine := S (itemsOnLine acc);
               sizeConsumedOnCurrentLine := sizeConsumedOnCurrentLine acc + outerFlexBasis;
               totalFlexGrowFactors := grow;
               totalFlexShrinkScaledFactors := shrink;
               firstRelativeChild := first_or (firstRelativeChild acc) child;
               currentRelativeChild := Some child;
               endOfLineIndex := S (endOfLineIndex acc) |}
      else
        collectLine mainAxis availableInnerMainDim isNodeFlexWrap lineCount rest'
          {| itemsOnLine := itemsOnLine acc;
             sizeConsumedOnCurrentLine := sizeConsumedOnCurrentLine acc;
             totalFlexGrowFactors := totalFlexGrowFactors acc;
             totalFlexShrinkScaledFactors := totalFlexShrinkScaledFactors acc;
             firstRelativeChild := firstRelativeChild acc;
             currentRelativeChild := currentRelativeChild acc;
             endOfLineIndex := S (endOfLineIndex acc) |}
  end.

(** STEP 5, first pass: detect the flex items whose min/max constraints
    trigger. The accumulator is [(deltaFreeSpace,
    deltaFlexShrinkScaledFactors, deltaFlexGrowFactors)]. *)
Fixpoint flexFirstPass (mainAxis : CSSFlexDirection)
    (remainingFreeSpace totalFlexShrinkScaledFactors totalFlexGrowFactors : float)
    (bound : nat) (currentRelativeChild : option CSSNodeRef)
    (acc : float * float * float) : M (float * float * float) :=
  match currentRelativeChild with
  | None => ret acc
  | Some cur =>
      match bound with
      | O => fail
      | S bound' =>
          letM c := deref cur in
          let '(deltaFreeSpace, deltaFlexShrinkScaledFactors, deltaFlexGrowFactors) := acc in
          let childFlexBasis := computedFlexBasis (layout c) in
          let acc' :=
            if remainingFreeSpace < 0 then
              let flexShrinkScaledFactor := (- flexShrink (style c)) * childFlexBasis in
              (* Is this child able to shrink? *)
              if flexShrinkScaledFactor != 0 then
                let baseMainSize :=
                  childFlexBasis
                  + remainingFreeSpace / totalFlexShrinkScaledFactors * flexShrinkScaledFactor in
                let boundMainSize := boundAxis c mainAxis baseMainSize in
                if baseMainSize != boundMainSize then
                  (deltaFreeSpace - (boundMainSize - childFlexBasis),
                   deltaFlexShrinkScaledFactors - flexShrinkScaledFactor,
                   deltaFlexGrowFactors)
                else acc
              else acc
            else if remainingFreeSpace > 0 then
              let flexGrowFactor := flexGrow (style c) in
              (* Is this child able to grow? *)
              if flexGrowFactor != 0 then
                let baseMainSize :=
                  childFlexBasis + remainingFreeSpace / totalFlexGrowFactors * flexGrowFactor in
                let boundMainSize := boundAxis c mainAxis baseMainSize in
                if baseMainSize != boundMainSize then
                  (deltaFreeSpace - (boundMainSize - childFlexBasis),
                   deltaFlexShrinkScaledFactors,
                   deltaFlexGrowFactors - flexGrowFactor)
                else acc
              else acc
            else acc in
          flexFirstPass mainAxis remainingFreeSpace totalFlexShrinkScaledFactors
            totalFlexGrowFactors bound' (nextChild c) acc'
      end
  end.

(** STEP 5, second pass: resolve the sizes of the flexible items and lay
    each of them out. The accumulator is [deltaFreeSpace]. *)
Fixpoint flexSecondPass (node : CSSNode) (mainAxis crossAxis : CSSFlexDirection)
    (direction : CSSDirection) (performLayout : bool)
    (widthMeasureMode heightMeasureMode : CSSMeasureMode) (availableInnerCrossDim : float)
    (remainingFreeSpace totalFlexShrinkScaledFactors totalFlexGrowFactors : float)
    (bound : nat) (currentRelativeChild : option CSSNodeRef)
    (deltaFreeSpace : float) : M float :=
  match currentRelativeChild with
  | None => ret deltaFreeSpace
  | Some cur =>
      match bound with
      | O => fail
      | S bound' =>
          letM c := deref cur in
          let isMainAxisRow := isRowDirection mainAxis in
          let childFlexBasis := computedFlexBasis (layout c) in
          let updatedMainSize :=
            if remainingFreeSpace < 0 then
              let flexShrinkScaledFactor := (- flexShrink (style c)) * childFlexBasis in
              (* Is this child able to shrink? *)
              if flexShrinkScaledFactor != 0 then
                let childSize :=
                  if totalFlexShrinkScaledFactors == 0
                  then childFlexBasis + flexShrinkScaledFactor
                  else childFlexBasis
                       + (remainingFreeSpace / totalFlexShrinkScaledFactors)
                         * flexShrinkScaledFactor in
                boundAxis c mainAxis childSize
              else childFlexBasis
            else if remainingFreeSpace > 0 then
              let flexGrowFactor := flexGrow (style c) in
              (* Is this child able to grow? *)
              if flexGrowFactor != 0 then
                boundAxis c mainAxis
                  (childFlexBasis + remainingFreeSpace / totalFlexGrowFactors * flexGrowFactor)
              else childFlexBasis
            else childFlexBasis in
          let deltaFreeSpace := deltaFreeSpace - (updatedMainSize - childFlexBasis) in
          let '(childWidth, childWidthMeasureMode, childHeight, childHeightMeasureMode) :=
            if isMainAxisRow then
              let childWidth := updatedMainSize + getMarginAxis c CSSFlexDirectionRow in
              if negb (CSSValueIsUndefined availableInnerCrossDim)
                 && negb (isStyleDimDefined c CSSFlexDirectionColumn)
                 && same heightMeasureMode CSSMeasureModeExactly
                 && same (getAlignItem node c) CSSAlignStretch
              then (childWidth, CSSMeasureModeExactly,
                    availableInnerCrossDim, CSSMeasureModeExactly)
              else if negb (isStyleDimDefined c CSSFlexDirectionColumn)
              then (childWidth, CSSMeasureModeExactly,
                    availableInnerCrossDim,
                    if CSSValueIsUndefined availableInnerCrossDim
                    then CSSMeasureModeUndefined else CSSMeasureModeAtMost)
              else (childWidth, CSSMeasureModeExactly,
                    dim_get (style_dimensions (style c)) CSSDimensionHeight
                    + getMarginAxis c CSSFlexDirectionColumn,
                    CSSMeasureModeExactly)
            else
              let childHeight := updatedMainSize + getMarginAxis c CSSFlexDirectionColumn in
              if negb (CSSValueIsUndefined availableInnerCrossDim)
                 && negb (isStyleDimDefined c CSSFlexDirectionRow)
                 && same widthMeasureMode CSSMeasureModeExactly
                 && same (getAlignItem node c) CSSAlignStretch
              then (availableInnerCrossDim, CSSMeasureModeExactly,
                    childHeight, CSSMeasureModeExactly)
              else if negb (isStyleDimDefined c CSSFlexDirectionRow)
              then (availableInnerCrossDim,
                    (if CSSValueIsUndefined availableInnerCrossDim
                     then CSSMeasureModeUndefined else CSSMeasureModeAtMost),
                    childHeight, CSSMeasureModeExactly)
              else (dim_get (style_dimensions (style c)) CSSDimensionWidth
                    + getMarginAxis c CSSFlexDirectionRow,
                    CSSMeasureModeExactly, childHeight, CSSMeasureModeExactly) in
          let requiresStretchLayout :=
            negb (isStyleDimDefined c crossAxis)
            && same (getAlignItem node c) CSSAlignStretch in
          (* Recursively call the layout algorithm for this child with the
             updated main size. *)
          layoutNodeInternal cur childWidth childHeight direction
            childWidthMeasureMode childHeightMeasureMode
            (performLayout && negb requiresStretchLayout) >>
          letM c := deref cur in
          flexSecondPass node mainAxis crossAxis direction performLayout
            widthMeasureMode heightMeasureMode availableInnerCrossDim
            remainingFreeSpace totalFlexShrinkScaledFactors totalFlexGrowFactors
            bound' (nextChild c) deltaFreeSpace
      end
  end.

(** STEP 6: position the children of the line along the main axis. The
    accumulator is [(mainDim, crossDim)]. *)
Definition placeOnMainAxis (node : CSSNode) (mainAxis crossAxis : CSSFlexDirection)
    (performLayout canSkipFlex : bool) (betweenMainDim availableInnerCrossDim : float)
    (line : list CSSNodeRef) (init : float * float) : M (float * float) :=
  foldM (fun (acc : float * float) child =>
           let (mainDim, crossDim) := acc in
           letM c := deref child in
           if same (positionType (style c)) CSSPositionTypeAbsolute
              && isLeadingPosDefined c mainAxis
           then
             when performLayout
               (* In case the child is position absolute and has left/top
                  being defined, we override the position to whatever the
                  user said (and margin/border). *)
               (update child
                  (assign_position (pos mainAxis)
                     (getLeadingPosition c mainAxis + getLeadingBorder node mainAxis
                      + getLeadingMargin c mainAxis))) >>
             ret acc
           else
             when performLayout
               (* If the child is position absolute (without top/left) or
                  relative, we put it at the current accumulated offset. *)
               (update child
                  (assign_position (pos mainAxis) (position_of c (pos mainAxis) + mainDim))) >>
             (* Now that we placed the element, we need to update the
                variables. We need to do that only for relative elements. *)
             if same (positionType (style c)) CSSPositionTypeRelative then
               if canSkipFlex then
                 ret (mainDim + (betweenMainDim + getMarginAxis c mainAxis
                                 + computedFlexBasis (layout c)),
                      availableInnerCrossDim)
               else
                 ret (mainDim + (betweenMainDim + getDimWithMargin c mainAxis),
                      F32.fmaxf crossDim (getDimWithMargin c crossAxis))
             else ret acc)
        init line.

(** STEP 7: cross-axis alignment of the children of the line. *)
Definition alignOnCrossAxis (node : CSSNode) (mainAxis crossAxis : CSSFlexDirection)
    (direction : CSSDirection)
    (leadingPaddingAndBorderCross crossDim containerCrossAxis totalLineCrossDim : float)
    (line : list CSSNodeRef) : M unit :=
  let isMainAxisRow := isRowDirection mainAxis in
  forM line (fun child =>
    letM c := deref child in
    if same (positionType (style c)) CSSPositionTypeAbsolute then
      (* If the child is absolutely positioned and has a
         top/left/bottom/right set, override all the previously computed
         positions to set it correctly. *)
      if isLeadingPosDefined c crossAxis then
        update child
          (assign_position (pos crossAxis)
             (getLeadingPosition c crossAxis + getLeadingBorder node crossAxis
              + getLeadingMargin c crossAxis))
      else
        update child
          (assign_position (pos crossAxis)
             (leadingPaddingAndBorderCross + getLeadingMargin c crossAxis))
    else
      let leadingCrossDim := leadingPaddingAndBorderCross in
      (* For a relative children, we're either using alignItems (parent) or
         alignSelf (child) in order to determine the position in the cross
         axis *)
      let alignItem := getAlignItem node c in
      letM leadingCrossDim :=
        if same alignItem CSSAlignStretch then
          (* If the child uses align stretch, we need to lay it out one
             more time, this time forcing the cross-axis size to be the
             computed cross size for the current line. *)
          let isCrossSizeDefinite :=
            (isMainAxisRow && isStyleDimDefined c CSSFlexDirectionColumn)
            || (negb isMainAxisRow && isStyleDimDefined c CSSFlexDirectionRow) in
          let '(childWidth, childHeight) :=
            if isMainAxisRow
            then (measured_of c CSSDimensionWidth + getMarginAxis c CSSFlexDirectionRow,
                  crossDim)
            else (crossDim,
                  measured_of c CSSDimensionHeight
                  + getMarginAxis c CSSFlexDirectionColumn) in
          (* If the child defines a definite size for its cross axis,
             there's no need to stretch. *)
          when (negb isCrossSizeDefinite)
            (let childWidthMeasureMode :=
               if CSSValueIsUndefined childWidth then CSSMeasureModeUndefined
               else CSSMeasureModeExactly in
             let childHeightMeasureMode :=
               if CSSValueIsUndefined childHeight then CSSMeasureModeUndefined
               else CSSMeasureModeExactly in
             layoutNodeInternal child childWidth childHeight direction
               childWidthMeasureMode childHeightMeasureMode true >>
             ret tt) >>
          ret leadingCrossDim
        else if differ alignItem CSSAlignFlexStart then
          let remainingCrossDim := containerCrossAxis - getDimWithMargin c crossAxis in
          if same alignItem CSSAlignCenter
          then ret (leadingCrossDim + remainingCrossDim / F32.of_Z 2)
          else (* CSSAlignFlexEnd *) ret (leadingCrossDim + remainingCrossDim)
        else ret leadingCrossDim in
      (* And we apply the position *)
      letM c := deref child in
      update child
        (assign_position (pos crossAxis)
           (position_of c (pos crossAxis) + (totalLineCrossDim + leadingCrossDim)))).

(** One iteration of the loop over the lines (STEPS 4 to 7) for the line
    that starts at [startOfLineIndex]; the constants of [layoutNodeImpl]
    that it uses are recomputed from its arguments. The result is
    [(endOfLineIndex, crossDim, mainDim)]. *)
Definition layoutLine (node : CSSNode) (childList : list CSSNodeRef)
    (performLayout : bool) (direction : CSSDirection)
    (widthMeasureMode heightMeasureMode : CSSMeasureMode)
    (availableInnerWidth availableInnerHeight : float)
    (startOfLineIndex lineCount : nat) (totalLineCrossDim : float)
  : M (nat * float * float) :=
  let childCount := length childList in
  let mainAxis := resolveAxis (flexDirection (style node)) direction in
  let crossAxis := getCrossFlexDirection mainAxis direction in
  let isMainAxisRow := isRowDirection mainAxis in
  let justifyContent := justifyContent (style node) in
  let isNodeFlexWrap := same (flexWrap (style node)) CSSWrapTypeWrap in
  let leadingPaddingAndBorderMain := getLeadingPaddingAndBorder node mainAxis in
  let trailingPaddingAndBorderMain := getTrailingPaddingAndBorder node mainAxis in
  let leadingPaddingAndBorderCross := getLeadingPaddingAndBorder node crossAxis in
  let paddingAndBorderAxisCross := getPaddingAndBorderAxis node crossAxis in
  let measureModeMainDim := if isMainAxisRow then widthMeasureMode else heightMeasureMode in
  let measureModeCrossDim := if isMainAxisRow then heightMeasureMode else widthMeasureMode in
  let availableInnerMainDim :=
    if isMainAxisRow then availableInnerWidth else availableInnerHeight in
  let availableInnerCrossDim :=
    if isMainAxisRow then availableInnerHeight else availableInnerWidth in
  (* STEP 4: COLLECT FLEX ITEMS INTO FLEX LINES *)
  letM items :=
    collectLine mainAxis availableInnerMainDim isNodeFlexWrap lineCount
      (drop startOfLineIndex childList)
      {| itemsOnLine := 0%nat;
         sizeConsumedOnCurrentLine := 0;
         totalFlexGrowFactors := 0;
         totalFlexShrinkScaledFactors := 0;
         firstRelativeChild := None;
         currentRelativeChild := None;
         endOfLineIndex := startOfLineIndex |} in
  let itemsOnLine := itemsOnLine items in
  let sizeConsumedOnCurrentLine := sizeConsumedOnCurrentLine items in
  let endOfLineIndex := endOfLineIndex items in
  (* If we don't need to measure the cross axis, we can skip the entire
     flex step. *)
  let canSkipFlex := negb performLayout && same measureModeCrossDim CSSMeasureModeExactly in
  (* STEP 5: RESOLVING FLEXIBLE LENGTHS ON MAIN AXIS *)
  let remainingFreeSpace :=
    if negb (CSSValueIsUndefined availableInnerMainDim)
    then availableInnerMainDim - sizeConsumedOnCurrentLine
    else if sizeConsumedOnCurrentLine < 0 then - sizeConsumedOnCurrentLine
    else 0 in
  let originalRemainingFreeSpace := remainingFreeSpace in
  letM deltaFreeSpace :=
    if negb canSkipFlex then
      letM deltas :=
        flexFirstPass mainAxis remainingFreeSpace
          (totalFlexShrinkScaledFactors items) (totalFlexGrowFactors items)
          childCount (firstRelativeChild items) (0, 0, 0) in
      let '(deltaFreeSpace, deltaFlexShrinkScaledFactors, deltaFlexGrowFactors) := deltas in
      let totalFlexShrinkScaledFactors :=
        totalFlexShrinkScaledFactors items + deltaFlexShrinkScaledFactors in
      let totalFlexGrowFactors := totalFlexGrowFactors items + deltaFlexGrowFactors in
      let remainingFreeSpace := remainingFreeSpace + deltaFreeSpace in
      flexSecondPass node mainAxis crossAxis direction performLayout
        widthMeasureMode heightMeasureMode availableInnerCrossDim
        remainingFreeSpace totalFlexShrinkScaledFactors totalFlexGrowFactors
        childCount (firstRelativeChild items) 0
    else ret 0 in
  let remainingFreeSpace := originalRemainingFreeSpace + deltaFreeSpace in
  (* STEP 6: MAIN-AXIS JUSTIFICATION & CROSS-AXIS SIZE DETERMINATION *)
  let remainingFreeSpace :=
    if same measureModeMainDim CSSMeasureModeAtMost && (remainingFreeSpace > 0) then
      if negb (CSSValueIsUndefined (dim_get (minDimensions (style node)) (dim mainAxis)))
         && (dim_get (minDimensions (style node)) (dim mainAxis) >= 0)
      then F32.fmaxf 0
             (dim_get (minDimensions (style node)) (dim mainAxis)
              - (availableInnerMainDim - remainingFreeSpace))
      else 0
    else remainingFreeSpace in
  let '(leadingMainDim, betweenMainDim) :=
    match justifyContent with
    | CSSJustifyCenter => (remainingFreeSpace / F32.of_Z 2, 0)
    | CSSJustifyFlexEnd => (remainingFreeSpace, 0)
    | CSSJustifySpaceBetween =>
        if (1 <? itemsOnLine)%nat
        then (0, F32.fmaxf remainingFreeSpace 0 / F32.of_Z (Z.of_nat itemsOnLine - 1))
        else (0, 0)
    | CSSJustifySpaceAround =>
        (* Space on the edges is half of the space between elements *)
        let betweenMainDim := remainingFreeSpace / F32.of_Z (Z.of_nat itemsOnLine) in
        (betweenMainDim / F32.of_Z 2, betweenMainDim)
    | CSSJustifyFlexStart => (0, 0)
    end in
  let line := take (endOfLineIndex - startOfLineIndex) (drop startOfLineIndex childList) in
  letM dims :=
    placeOnMainAxis node mainAxis crossAxis performLayout canSkipFlex
      betweenMainDim availableInnerCrossDim line
      (leadingPaddingAndBorderMain + leadingMainDim, 0) in
  let (mainDim, crossDim) := dims in
  let mainDim := mainDim + trailingPaddingAndBorderMain in
  let containerCrossAxis :=
    if same measureModeCrossDim CSSMeasureModeUndefined
       || same measureModeCrossDim CSSMeasureModeAtMost
    then
      (* Compute the cross axis from the max cross dimension of the
         children. *)
      let containerCrossAxis :=
        boundAxis node crossAxis (crossDim + paddingAndBorderAxisCross)
        - paddingAndBorderAxisCross in
      if same measureModeCrossDim CSSMeasureModeAtMost
      then F32.fminf containerCrossAxis availableInnerCrossDim
      else containerCrossAxis
    else availableInnerCrossDim in
  (* If there's no flex wrap, the cross dimension is defined by the
     container. *)
  let crossDim :=
    if negb isNodeFlexWrap && same measureModeCrossDim CSSMeasureModeExactly
    then availableInnerCrossDim else crossDim in
  (* Clamp to the min/max size specified on the container. *)
  let crossDim :=
    boundAxis node crossAxis (crossDim + paddingAndBorderAxisCross)
    - paddingAndBorderAxisCross in
  (* STEP 7: CROSS-AXIS ALIGNMENT *)
  when performLayout
    (alignOnCrossAxis node mainAxis crossAxis direction
       leadingPaddingAndBorderCross crossDim containerCrossAxis totalLineCrossDim line) >>
  ret (endOfLineIndex, crossDim, mainDim).

(** The loop over the lines. Every line takes at least one child, so that
    [bound], the number of children, is never exhausted. The result is
    [(lineCount, totalLineCrossDim, maxLineMainDim)]. *)
Fixpoint layoutLines (node : CSSNode) (childList : list CSSNodeRef)
    (performLayout : bool) (direction : CSSDirection)
    (widthMeasureMode heightMeasureMode : CSSMeasureMode)
    (availableInnerWidth availableInnerHeight : float)
    (bound : nat) (endOfLineIndex lineCount : nat)
    (totalLineCrossDim maxLineMainDim : float) : M (nat * float * float) :=
  if (endOfLineIndex <? length childList)%nat then
    match bound with
    | O => fail
    | S bound' =>
        letM r :=
          layoutLine node childList performLayout direction
            widthMeasureMode heightMeasureMode availableInnerWidth availableInnerHeight
            endOfLineIndex lineCount totalLineCrossDim in
        let '(endOfLineIndex', crossDim, mainDim) := r in
        layoutLines node childList performLayout direction
          widthMeasureMode heightMeasureMode availableInnerWidth availableInnerHeight
          bound' endOfLineIndex' (S lineCount)
          (totalLineCrossDim + crossDim) (F32.fmaxf maxLineMainDim mainDim)
    end
  else ret (lineCount, totalLineCrossDim, maxLineMainDim).

(** STEP 8, the search for the end of line [i]: the result is
    [(endIndex, lineHeight)]. *)
Fixpoint lineExtent (crossAxis : CSSFlexDirection) (i : nat)
    (rest : list CSSNodeRef) (ii : nat) (lineHeight : float) : M (nat * float) :=
  match rest with
  | [] => ret (ii, lineHeight)
  | child :: rest' =>
      letM c := deref child in
      if same (positionType (style c)) CSSPositionTypeRelative then
        if negb (lineIndex c =? Z.of_nat i)%Z then ret (ii, lineHeight)
        else
          lineExtent crossAxis i rest' (S ii)
            (if isLayoutDimDefined c crossAxis
             then F32.fmaxf lineHeight
                    (measured_of c (dim crossAxis) + getMarginAxis c crossAxis)
             else lineHeight)
      else lineExtent crossAxis i rest' (S ii) lineHeight
  end.

(** STEP 8: multi-line content alignment. The accumulator of the loop over
    the lines is [(endIndex, currentLead)]. *)
Definition alignLines (node : CSSNode) (childList : list CSSNodeRef)
    (crossAxis : CSSFlexDirection) (lineCount : nat)
    (availableInnerCrossDim totalLineCrossDim leadingPaddingAndBorderCross : float)
  : M unit :=
  let remainingAlignContentDim := availableInnerCrossDim - totalLineCrossDim in
  let '(crossDimLead, currentLead) :=
    match alignContent (style node) with
    | CSSAlignFlexEnd => (0, leadingPaddingAndBorderCross + remainingAlignContentDim)
    | CSSAlignCenter =>
        (0, leadingPaddingAndBorderCross + remainingAlignContentDim / F32.of_Z 2)
    | CSSAlignStretch =>
        if availableInnerCrossDim > totalLineCrossDim
        then (remainingAlignContentDim / F32.of_Z (Z.of_nat lineCount),
              leadingPaddingAndBorderCross)
        else (0, leadingPaddingAndBorderCross)
    | CSSAlignAuto | CSSAlignFlexStart => (0, leadingPaddingAndBorderCross)
    end in
  foldM (fun (acc : nat * float) i =>
           let (startIndex, currentLead) := acc in
           (* compute the line's height and find the endIndex *)
           letM r := lineExtent crossAxis i (drop startIndex childList) startIndex 0 in
           let (endIndex, lineHeight) := r in
           let lineHeight := lineHeight + crossDimLead in
           forM (take (endIndex - startIndex) (drop startIndex childList))
             (fun child =>
                letM c := deref child in
                if same (positionType (style c)) CSSPositionTypeRelative then
                  match getAlignItem node c with
                  | CSSAlignFlexStart =>
                      update child
                        (assign_position (pos crossAxis)
                           (currentLead + getLeadingMargin c crossAxis))
                  | CSSAlignFlexEnd =>
                      update child
                        (assign_position (pos crossAxis)
                           (currentLead + lineHeight - getTrailingMargin c crossAxis
                            - measured_of c (dim crossAxis)))
                  | CSSAlignCenter =>
                      let childHeight := measured_of c (dim crossAxis) in
                      update child
                        (assign_position (pos crossAxis)
                           (currentLead + (lineHeight - childHeight) / F32.of_Z 2))
                  | CSSAlignStretch =>
                      update child
                        (assign_position (pos crossAxis)
                           (currentLead + getLeadingMargin c crossAxis))
                  | CSSAlignAuto => ret tt
                  end
                else ret tt) >>
           ret (endIndex, currentLead + lineHeight))
        (0%nat, currentLead) (seq 0 lineCount) >>
  ret tt.

(** STEP 10: the walk over the list of the absolute children. *)
Fixpoint layoutAbsoluteChildren (node : CSSNodeRef) (availableInnerWidth : float)
    (widthMeasureMode : CSSMeasureMode) (direction : CSSDirection)
    (bound : nat) (currentAbsoluteChild : option CSSNodeRef) : M unit :=
  match currentAbsoluteChild with
  | None => ret tt
  | Some cur =>
      match bound with
      | O => fail
      | S bound' =>
          absoluteLayoutChild node cur availableInnerWidth widthMeasureMode direction >>
          letM c := deref cur in
          layoutAbsoluteChildren node availableInnerWidth widthMeasureMode direction
            bound' (nextChild c)
      end
  end.

(** STEP 11: whether the trailing positions have to be set. In the source
    the first disjunct of [needsCrossTrailingPos] is the enumerator
    [CSSFlexDirectionRowReverse] itself, used as a truth value. *)
Definition needsMainTrailingPos (mainAxis : CSSFlexDirection) : bool :=
  same mainAxis CSSFlexDirectionRowReverse || same mainAxis CSSFlexDirectionColumnReverse.

Definition needsCrossTrailingPos (crossAxis : CSSFlexDirection) : bool :=
  truthy (CSSFlexDirection_value CSSFlexDirectionRowReverse)
  || same crossAxis CSSFlexDirectionColumnReverse.

Definition setTrailingPositions (node : CSSNodeRef) (childList : list CSSNodeRef)
    (mainAxis crossAxis : CSSFlexDirection) : M unit :=
  (* Set trailing position if necessary. *)
  when (needsMainTrailingPos mainAxis || needsCrossTrailingPos crossAxis)
    (forM childList (fun child =>
       when (needsMainTrailingPos mainAxis) (setTrailingPosition node child mainAxis) >>
       when (needsCrossTrailingPos crossAxis) (setTrailingPosition node child crossAxis))).

Definition layoutNodeImpl (node : CSSNodeRef)
    (availableWidth availableHeight : float) (parentDirection : CSSDirection)
    (widthMeasureMode heightMeasureMode : CSSMeasureMode)
    (performLayout : bool) : M unit :=
  CSS_ASSERT (if CSSValueIsUndefined availableWidth
              then same widthMeasureMode CSSMeasureModeUndefined else true) >>
  CSS_ASSERT (if CSSValueIsUndefined availableHeight
              then same heightMeasureMode CSSMeasureModeUndefined else true) >>
  letM n := deref node in
  let paddingAndBorderAxisRow := getPaddingAndBorderAxis n CSSFlexDirectionRow in
  let paddingAndBorderAxisColumn := getPaddingAndBorderAxis n CSSFlexDirectionColumn in
  let marginAxisRow := getMarginAxis n CSSFlexDirectionRow in
  let marginAxisColumn := getMarginAxis n CSSFlexDirectionColumn in
  (* Set the resolved resolution in the node's layout. *)
  let direction := resolveDirection n parentDirection in
  update node (set_layout (set_layout_direction direction)) >>
  let childList := children n in
  let childCount := CSSNodeListCount childList in
  let undefinedOrAtMost (mode : CSSMeasureMode) :=
    same mode CSSMeasureModeUndefined || same mode CSSMeasureModeAtMost in
  match measure n, childCount with
  | Some measureFn, O =>
      (* For content (text) nodes, determine the dimensions based on the
         text contents. *)
      let innerWidth := availableWidth - marginAxisRow - paddingAndBorderAxisRow in
      let innerHeight := availableHeight - marginAxisColumn - paddingAndBorderAxisColumn in
      if same widthMeasureMode CSSMeasureModeExactly
         && same heightMeasureMode CSSMeasureModeExactly then
        (* Don't bother sizing the text if both dimensions are already
           defined. *)
        update node (assign_measured CSSDimensionWidth
                       (boundAxis n CSSFlexDirectionRow (availableWidth - marginAxisRow))) >>
        update node (assign_measured CSSDimensionHeight
                       (boundAxis n CSSFlexDirectionColumn
                          (availableHeight - marginAxisColumn)))
      else if (innerWidth <= 0) || (innerHeight <= 0) then
        (* Don't bother sizing the text if there's no horizontal or
           vertical space. *)
        update node (assign_measured CSSDimensionWidth
                       (boundAxis n CSSFlexDirectionRow 0)) >>
        update node (assign_measured CSSDimensionHeight
                       (boundAxis n CSSFlexDirectionColumn 0))
      else
        (* Measure the text under the current constraints. *)
        let measuredSize :=
          measureFn innerWidth widthMeasureMode innerHeight heightMeasureMode in
        update node (assign_measured CSSDimensionWidth
                       (boundAxis n CSSFlexDirectionRow
                          (if undefinedOrAtMost widthMeasureMode
                           then Size.width measuredSize + paddingAndBorderAxisRow
                           else availableWidth - marginAxisRow))) >>
        update node (assign_measured CSSDimensionHeight
                       (boundAxis n CSSFlexDirectionColumn
                          (if undefinedOrAtMost heightMeasureMode
                           then Size.height measuredSize + paddingAndBorderAxisColumn
                           else availableHeight - marginAxisColumn)))
  | _, O =>
      (* For nodes with no children, use the available values if they were
         provided, or the minimum size as indicated by the padding and
         border sizes. *)
      update node (assign_measured CSSDimensionWidth
                     (boundAxis n CSSFlexDirectionRow
                        (if undefinedOrAtMost widthMeasureMode
                         then paddingAndBorderAxisRow
                         else availableWidth - marginAxisRow))) >>
      update node (assign_measured CSSDimensionHeight
                     (boundAxis n CSSFlexDirectionColumn
                        (if undefinedOrAtMost heightMeasureMode
                         then paddingAndBorderAxisColumn
                         else availableHeight - marginAxisColumn)))
  | _, S _ =>
      (* If we're not being asked to perform a full layout, we can handle a
         number of common cases here without incurring the cost of the
         remaining function. *)
      if negb performLayout
         && same widthMeasureMode CSSMeasureModeAtMost && (availableWidth <= 0)
         && same heightMeasureMode CSSMeasureModeAtMost && (availableHeight <= 0)
      then
        update node (assign_measured CSSDimensionWidth
                       (boundAxis n CSSFlexDirectionRow 0)) >>
        update node (assign_measured CSSDimensionHeight
                       (boundAxis n CSSFlexDirectionColumn 0))
      else if negb performLayout
              && same widthMeasureMode CSSMeasureModeAtMost && (availableWidth <= 0)
      then
        update node (assign_measured CSSDimensionWidth
                       (boundAxis n CSSFlexDirectionRow 0)) >>
        update node (assign_measured CSSDimensionHeight
                       (boundAxis n CSSFlexDirectionColumn
                          (if CSSValueIsUndefined availableHeight then 0
                           else availableHeight - marginAxisColumn)))
      else if negb performLayout
              && same heightMeasureMode CSSMeasureModeAtMost && (availableHeight <= 0)
      then
        update node (assign_measured CSSDimensionWidth
                       (boundAxis n CSSFlexDirectionRow
                          (if CSSValueIsUndefined availableWidth then 0
                           else availableWidth - marginAxisRow))) >>
        update node (assign_measured CSSDimensionHeight
                       (boundAxis n CSSFlexDirectionColumn 0))
      else if negb performLayout
              && same widthMeasureMode CSSMeasureModeExactly
              && same heightMeasureMode CSSMeasureModeExactly
      then
        (* If we're being asked to use an exact width/height, there's no
           need to measure the children. *)
        update node (assign_measured CSSDimensionWidth
                       (boundAxis n CSSFlexDirectionRow (availableWidth - marginAxisRow))) >>
        update node (assign_measured CSSDimensionHeight
                       (boundAxis n CSSFlexDirectionColumn
                          (availableHeight - marginAxisColumn)))
      else
        (* STEP 1: CALCULATE VALUES FOR REMAINDER OF ALGORITHM *)
        let mainAxis := resolveAxis (flexDirection (style n)) direction in
        let crossAxis := getCrossFlexDirection mainAxis direction in
        let isMainAxisRow := isRowDirection mainAxis in
        let leadingPaddingAndBorderCross := getLeadingPaddingAndBorder n crossAxis in
        let paddingAndBorderAxisMain := getPaddingAndBorderAxis n mainAxis in
        let paddingAndBorderAxisCross := getPaddingAndBorderAxis n crossAxis in
        let measureModeMainDim :=
          if isMainAxisRow then widthMeasureMode else heightMeasureMode in
        let measureModeCrossDim :=
          if isMainAxisRow then heightMeasureMode else widthMeasureMode in
        (* STEP 2: DETERMINE AVAILABLE SIZE IN MAIN AND CROSS DIRECTIONS *)
        let availableInnerWidth := availableWidth - marginAxisRow - paddingAndBorderAxisRow in
        let availableInnerHeight :=
          availableHeight - marginAxisColumn - paddingAndBorderAxisColumn in
        let availableInnerMainDim :=
          if isMainAxisRow then availableInnerWidth else availableInnerHeight in
        let availableInnerCrossDim :=
          if isMainAxisRow then availableInnerHeight else availableInnerWidth in
        (* STEP 3: DETERMINE FLEX BASIS FOR EACH ITEM *)
        letM firstAbsoluteChild :=
          determineFlexBasis node childList performLayout direction
            availableInnerWidth widthMeasureMode availableInnerHeight heightMeasureMode in
        (* STEPS 4 to 7 *)
        letM lines :=
          layoutLines n childList performLayout direction
            widthMeasureMode heightMeasureMode availableInnerWidth availableInnerHeight
            childCount 0%nat 0%nat 0 0 in
        let '(lineCount, totalLineCrossDim, maxLineMainDim) := lines in
        (* STEP 8: MULTI-LINE CONTENT ALIGNMENT *)
        when ((1 <? lineCount)%nat && performLayout
              && negb (CSSValueIsUndefined availableInnerCrossDim))
          (alignLines n childList crossAxis lineCount
             availableInnerCrossDim totalLineCrossDim leadingPaddingAndBorderCross) >>
        (* STEP 9: COMPUTING FINAL DIMENSIONS *)
        update node (assign_measured CSSDimensionWidth
                       (boundAxis n CSSFlexDirectionRow (availableWidth - marginAxisRow))) >>
        update node (assign_measured CSSDimensionHeight
                       (boundAxis n CSSFlexDirectionColumn
                          (availableHeight - marginAxisColumn))) >>
        (* If the user didn't specify a width or height for the node, set
           the dimensions based on the children. *)
        (if same measureModeMainDim CSSMeasureModeUndefined then
           (* Clamp the size to the min/max size, if specified, and make
              sure it doesn't go below the padding and border amount. *)
           update node (assign_measured (dim mainAxis) (boundAxis n mainAxis maxLineMainDim))
         else if same measureModeMainDim CSSMeasureModeAtMost then
           update node
             (assign_measured (dim mainAxis)
                (F32.fmaxf
                   (F32.fminf (availableInnerMainDim + paddingAndBorderAxisMain)
                              (boundAxisWithinMinAndMax n mainAxis maxLineMainDim))
                   paddingAndBorderAxisMain))
         else ret tt) >>
        (if same measureModeCrossDim CSSMeasureModeUndefined then
           update node
             (assign_measured (dim crossAxis)
                (boundAxis n crossAxis (totalLineCrossDim + paddingAndBorderAxisCross)))
         else if same measureModeCrossDim CSSMeasureModeAtMost then
           update node
             (assign_measured (dim crossAxis)
                (F32.fmaxf
                   (F32.fminf (availableInnerCrossDim + paddingAndBorderAxisCross)
                              (boundAxisWithinMinAndMax n crossAxis
                                 (totalLineCrossDim + paddingAndBorderAxisCross)))
                   paddingAndBorderAxisCross))
         else ret tt) >>
        when performLayout
          ((* STEP 10: SIZING AND POSITIONING ABSOLUTE CHILDREN *)
           layoutAbsoluteChildren node availableInnerWidth widthMeasureMode direction
             childCount firstAbsoluteChild >>
           (* STEP 11: SETTING TRAILING POSITIONS FOR CHILDREN *)
           setTrailingPositions node childList mainAxis crossAxis)
  end.

End Kernel.

(** ** The measurement cache *)

Definition isHeightSame (cachedLayout : CSSCachedMeasurement)
    (availableHeight : float) (heightMeasureMode : CSSMeasureMode) : bool :=
  (same (Cached.heightMeasureMode cachedLayout) (Some CSSMeasureModeUndefined)
   && same heightMeasureMode CSSMeasureModeUndefined)
  || (same (Cached.heightMeasureMode cachedLayout) (Some heightMeasureMode)
      && eq_float (Cached.availableHeight cachedLayout) availableHeight).

Definition isWidthSame (cachedLayout : CSSCachedMeasurement)
    (availableWidth : float) (widthMeasureMode : CSSMeasureMode) : bool :=
  (same (Cached.widthMeasureMode cachedLayout) (Some CSSMeasureModeUndefined)
   && same widthMeasureMode CSSMeasureModeUndefined)
  || (same (Cached.widthMeasureMode cachedLayout) (Some widthMeasureMode)
      && eq_float (Cached.availableWidth cachedLayout) availableWidth).

Definition isHeightValid (cachedLayout : CSSCachedMeasurement)
    (availableHeight marginColumn : float) (heightMeasureMode : CSSMeasureMode) : bool :=
  (same (Cached.heightMeasureMode cachedLayout) (Some CSSMeasureModeUndefined)
   && same heightMeasureMode CSSMeasureModeAtMost
   && (Cached.computedHeight cachedLayout <= availableHeight - marginColumn))
  || (same heightMeasureMode CSSMeasureModeExactly
      && eq_float (Cached.computedHeight cachedLayout) (availableHeight - marginColumn)).

Definition isWidthValid (cachedLayout : CSSCachedMeasurement)
    (availableWidth marginRow : float) (widthMeasureMode : CSSMeasureMode) : bool :=
  (same (Cached.widthMeasureMode cachedLayout) (Some CSSMeasureModeUndefined)
   && same widthMeasureMode CSSMeasureModeAtMost
   && (Cached.computedWidth cachedLayout <= availableWidth - marginRow))
  || (same widthMeasureMode CSSMeasureModeExactly
      && eq_float (Cached.computedWidth cachedLayout) (availableWidth - marginRow)).

(** [canUseCachedMeasurement] receives the cache entry by value. The result
    is the returned boolean together with the final value of the function's
    own copy [cachedLayout], which the function assigns to in one branch and
    which is lost when it returns. *)
Definition canUseCachedMeasurement (isTextNode : bool)
    (availableWidth availableHeight marginRow marginColumn : float)
    (widthMeasureMode heightMeasureMode : CSSMeasureMode)
    (cachedLayout : CSSCachedMeasurement) : bool * CSSCachedMeasurement :=
  let isHeightSame := isHeightSame cachedLayout availableHeight heightMeasureMode in
  let isWidthSame := isWidthSame cachedLayout availableWidth widthMeasureMode in
  if isHeightSame && isWidthSame then (true, cachedLayout) else
  let isHeightValid := isHeightValid cachedLayout availableHeight marginColumn heightMeasureMode in
  if isWidthSame && isHeightValid then (true, cachedLayout) else
  let isWidthValid := isWidthValid cachedLayout availableWidth marginRow widthMeasureMode in
  if isHeightSame && isWidthValid then (true, cachedLayout) else
  if isHeightValid && isWidthValid then (true, cachedLayout) else
  (* We know this to be text so we can apply some more specialized
     heuristics. *)
  if isTextNode then
    if isWidthSame then
      if same heightMeasureMode CSSMeasureModeUndefined then
        (* Width is the same and height is not restricted. Re-use cahced
           value. *)
        (true, cachedLayout)
      else if same heightMeasureMode CSSMeasureModeAtMost
              && (Cached.computedHeight cachedLayout < availableHeight - marginColumn) then
        (* Width is the same and height restriction is greater than the
           cached height. Re-use cached value. *)
        (true, cachedLayout)
      else
        (* Width is the same but height restriction imposes smaller height
           than previously measured. Update the cached value to respect the
           new height restriction. *)
        (true, set_computedHeight (availableHeight - marginColumn) cachedLayout)
    else if same (Cached.widthMeasureMode cachedLayout) (Some CSSMeasureModeUndefined) then
      if same widthMeasureMode CSSMeasureModeUndefined
         || (same widthMeasureMode CSSMeasureModeAtMost
             && (Cached.computedWidth cachedLayout <= availableWidth - marginRow))
      then
        (* Previsouly this text was measured with no width restriction, if
           width is now restricted but to a larger value than the previsouly
           measured width we can re-use the measurement as we know it will
           fit. *)
        (true, cachedLayout)
      else (false, cachedLayout)
    else (false, cachedLayout)
  else (false, cachedLayout).

(** The target of the pointer [cachedResults]. *)
Inductive CachedResults :=
  | inCachedLayout
  | inCachedMeasurements (i : nat).

Definition cachedResults_get (l : CSSLayout) (r : CachedResults) : option CSSCachedMeasurement :=
  match r with
  | inCachedLayout => Some (cachedLayout l)
  | inCachedMeasurements i => cachedMeasurements l !! i
  end.

(** The first index below the cursor whose entry passes [test]. *)
Fixpoint findCachedMeasurement (test : CSSCachedMeasurement -> bool)
    (entries : list CSSCachedMeasurement) (i : nat) : option nat :=
  match entries with
  | [] => None
  | e :: entries' => if test e then Some i else findCachedMeasurement test entries' (S i)
  end.

Definition searchCachedMeasurements (test : CSSCachedMeasurement -> bool) (l : CSSLayout)
  : option CachedResults :=
  inCachedMeasurements
    <$> findCachedMeasurement test (take (nextCachedMeasurementsIndex l) (cachedMeasurements l))
          0%nat.

Definition modify_state (f : State -> State) : M unit := fun s => Some (tt, f s).

Definition add_gDepth (d : Z) (s : State) : State :=
  {| nodes := nodes s; gCurrentGenerationCount := gCurrentGenerationCount s;
     gNodeInstanceCount := gNodeInstanceCount s; gDepth := gDepth s + d;
     nextRef := nextRef s; gKernelTrace := gKernelTrace s |}.

Definition trace_kernel (node : CSSNodeRef) (s : State) : State :=
  {| nodes := nodes s; gCurrentGenerationCount := gCurrentGenerationCount s;
     gNodeInstanceCount := gNodeInstanceCount s; gDepth := gDepth s;
     nextRef := nextRef s; gKernelTrace := node :: gKernelTrace s |}.

Definition bump_generation (s : State) : State :=
  {| nodes := nodes s; gCurrentGenerationCount := wrap32 (gCurrentGenerationCount s + 1);
     gNodeInstanceCount := gNodeInstanceCount s; gDepth := gDepth s;
     nextRef := nextRef s; gKernelTrace := gKernelTrace s |}.

(** ** [layoutNodeInternal] *)

Definition needToVisitNode (n : CSSNode) (gCurrentGenerationCount : Z)
    (parentDirection : CSSDirection) : bool :=
  (isDirty n && negb (generationCount (layout n) =? gCurrentGenerationCount)%Z)
  || differ (lastParentDirection (layout n)) (Some parentDirection).

(** The first statements of [layoutNodeInternal]: invalidate the cached
    results of a node that has to be visited. *)
Definition invalidateCachedResults (l : CSSLayout) : CSSLayout :=
  set_cachedLayout invalid_modes (set_nextCachedMeasurementsIndex 0%nat l).

Definition newCacheEntry (availableWidth availableHeight : float)
    (widthMeasureMode heightMeasureMode : CSSMeasureMode) (l : CSSLayout)
  : CSSCachedMeasurement :=
  {| Cached.availableWidth := availableWidth;
     Cached.availableHeight := availableHeight;
     Cached.widthMeasureMode := Some widthMeasureMode;
     Cached.heightMeasureMode := Some heightMeasureMode;
     Cached.computedWidth := dim_get (measuredDimensions l) CSSDimensionWidth;
     Cached.computedHeight := dim_get (measuredDimensions l) CSSDimensionHeight |}.

(** The entry of [layoutNodeInternal], up to the invalidation of the cached
    results; the result is [needToVisitNode]. *)
Definition enterNode (node : CSSNodeRef) (parentDirection : CSSDirection) : M bool :=
  modify_state (add_gDepth 1) >>
  letM s := get_state in
  letM n := deref node in
  let needToVisitNode := needToVisitNode n (gCurrentGenerationCount s) parentDirection in
  when needToVisitNode
    (* Invalidate the cached results. *)
    (update node (set_layout invalidateCachedResults)) >>
  ret needToVisitNode.

(** The body of [layoutNodeInternal]; [self] is the function itself, for the
    recursive calls that [layoutNodeImpl] makes on the children. *)
Definition layoutNodeInternal_body (self : LayoutFn) : LayoutFn :=
  fun node availableWidth availableHeight parentDirection
      widthMeasureMode heightMeasureMode performLayout =>
  letM needToVisitNode := enterNode node parentDirection in
  letM n := deref node in
  let layout := layout n in
  (* Determine whether the results are already cached. We maintain a
     separate cache for layouts and measurements. *)
  let cachedResults : option CachedResults :=
    match measure n, CSSNodeListCount (children n) with
    | Some _, O =>
        let marginAxisRow := getMarginAxis n CSSFlexDirectionRow in
        let marginAxisColumn := getMarginAxis n CSSFlexDirectionColumn in
        let test :=
          fun entry =>
            fst (canUseCachedMeasurement (isTextNode n) availableWidth availableHeight
                   marginAxisRow marginAxisColumn widthMeasureMode heightMeasureMode entry) in
        (* First, try to use the layout cache. *)
        if test (cachedLayout layout) then Some inCachedLayout
        else
          (* Try to use the measurement cache. *)
          searchCachedMeasurements test layout
    | _, _ =>
        let test :=
          fun entry =>
            eq_float (Cached.availableWidth entry) availableWidth
            && eq_float (Cached.availableHeight entry) availableHeight
            && same (Cached.widthMeasureMode entry) (Some widthMeasureMode)
            && same (Cached.heightMeasureMode entry) (Some heightMeasureMode) in
        if performLayout then
          if test (cachedLayout layout) then Some inCachedLayout else None
        else searchCachedMeasurements test layout
    end in
  match (if needToVisitNode then None else cachedResults) with
  | Some target =>
      match cachedResults_get layout target with
      | Some entry =>
          update node (assign_measured CSSDimensionWidth (Cached.computedWidth entry)) >>
          update node (assign_measured CSSDimensionHeight (Cached.computedHeight entry))
      | None => fail
      end
  | None =>
      modify_state (trace_kernel node) >>
      layoutNodeImpl self node availableWidth availableHeight parentDirection
        widthMeasureMode heightMeasureMode performLayout >>
      update node (set_layout (set_lastParentDirection (Some parentDirection))) >>
      when (bool_decide (cachedResults = None))
        (update node (set_layout (fun l =>
           let l :=
             if bool_decide (nextCachedMeasurementsIndex l = CSS_MAX_CACHED_RESULT_COUNT)
             then set_nextCachedMeasurementsIndex 0%nat l else l in
           let entry :=
             newCacheEntry availableWidth availableHeight widthMeasureMode heightMeasureMode l in
           if performLayout then
             (* Use the single layout cache entry. *)
             set_cachedLayout (fun _ => entry) l
           else
             (* Allocate a new measurement cache entry. *)
             set_nextCachedMeasurementsIndex (S (nextCachedMeasurementsIndex l))
               (set_cachedMeasurements
                  (<[nextCachedMeasurementsIndex l := entry]> (cachedMeasurements l)) l))))
  end >>
  when performLayout
    (update node (fun n =>
       set_isDirty false
         (set_hasNewLayout true
            (set_layout (fun l => set_layout_dimensions (measuredDimensions l) l) n)))) >>
  modify_state (add_gDepth (-1)) >>
  letM s := get_state in
  update node (set_layout (set_generationCount (gCurrentGenerationCount s))) >>
  ret (needToVisitNode || bool_decide (cachedResults = None)).

(** [fuel] bounds the depth of the recursion, that is the height of the tree
    below [node]. *)
Fixpoint layoutNodeInternal (fuel : nat) : LayoutFn :=
  match fuel with
  | O => fun _ _ _ _ _ _ _ => fail
  | S fuel' => layoutNodeInternal_body (layoutNodeInternal fuel')
  end.

Definition calculateLayout (fuel : nat) (node : CSSNodeRef)
    (availableWidth availableHeight : float) (parentDirection : CSSDirection) : M unit :=
  (* Increment the generation count. This will force the recursive routine
     to visit all dirty nodes at least once. Subsequent visits will be
     skipped if the input parameters don't change. *)
  modify_state bump_generation >>
  letM n := deref node in
  let '(width, widthMeasureMode) :=
    if negb (CSSValueIsUndefined availableWidth) then (availableWidth, CSSMeasureModeExactly)
    else if isStyleDimDefined n CSSFlexDirectionRow then
      (dim_get (style_dimensions (style n)) (dim CSSFlexDirectionRow)
       + getMarginAxis n CSSFlexDirectionRow, CSSMeasureModeExactly)
    else if dim_get (maxDimensions (style n)) CSSDimensionWidth >= 0 then
      (dim_get (maxDimensions (style n)) CSSDimensionWidth, CSSMeasureModeAtMost)
    else (availableWidth, CSSMeasureModeUndefined) in
  let '(height, heightMeasureMode) :=
    if negb (CSSValueIsUndefined availableHeight) then (availableHeight, CSSMeasureModeExactly)
    else if isStyleDimDefined n CSSFlexDirectionColumn then
      (dim_get (style_dimensions (style n)) (dim CSSFlexDirectionColumn)
       + getMarginAxis n CSSFlexDirectionColumn, CSSMeasureModeExactly)
    else if dim_get (maxDimensions (style n)) CSSDimensionHeight >= 0 then
      (dim_get (maxDimensions (style n)) CSSDimensionHeight, CSSMeasureModeAtMost)
    else (availableHeight, CSSMeasureModeUndefined) in
  letM visited :=
    layoutNodeInternal fuel node width height parentDirection
      widthMeasureMode heightMeasureMode true in
  when visited
    (letM n := deref node in
     setPosition node (layout_direction (layout n))).

(** The recursion of the layout descends along the children, each node of a
    tree at most once on a path, so that the number of nodes in the store,
    plus one, is enough fuel for any tree. *)
Definition CSSNodeCalculateLayout (node : CSSNodeRef)
    (availableWidth availableHeight : float) (parentDirection : CSSDirection) : M unit :=
  fun s => calculateLayout (S (size (nodes s))) node
             availableWidth availableHeight parentDirection s.

Local Close Scope f32_scope.

(** ** Scenarios *)

(** The state of a process that has not created any node yet. *)
Definition initialState : State :=
  {| nodes := ∅; gCurrentGenerationCount := 0; gNodeInstanceCount := 0; gDepth := 0;
     nextRef := 0%nat; gKernelTrace := [] |}.

(** The state in which a computation ends. *)
Definition exec {A} (c : M A) (s : State) : option State :=
  match c s with
  | Some (_, s') => Some s'
  | None => None
  end.

Definition node_of (s : State) (r : CSSNodeRef) : option CSSNode := nodes s !! r.

(** What the host reads of a node after [CSSNodeCalculateLayout]:
    [(left, top, width, height)]. *)
Definition layoutBox (s : State) (r : CSSNodeRef) : option (float * float * float * float) :=
  match CSSNodeLayoutGetLeft r s, CSSNodeLayoutGetTop r s,
        CSSNodeLayoutGetWidth r s, CSSNodeLayoutGetHeight r s with
  | Some (l, _), Some (t, _), Some (w, _), Some (h, _) => Some (l, t, w, h)
  | _, _, _, _ => None
  end.

(** A measure callback that answers the same size whatever it is asked. *)
Definition constantMeasure (w h : Z) : CSSMeasureFunc :=
  fun _ _ _ _ => {| Size.width := F32.of_Z w; Size.height := F32.of_Z h |}.

(** A row container of 300 by 100 that justifies with space-between, and
    three children of 50 by 20; the root is node 0, the children are the
    nodes 1, 2 and 3. *)
Definition newBox (parent : CSSNodeRef) (index : nat) (w h : Z) : M CSSNodeRef :=
  letM child := CSSNodeNew in
  CSSNodeStyleSetWidth child (F32.of_Z w) >>
  CSSNodeStyleSetHeight child (F32.of_Z h) >>
  CSSNodeInsertChild parent child index >>
  ret child.

Definition spaceBetweenRow : M CSSNodeRef :=
  letM root := CSSNodeNew in
  CSSNodeStyleSetFlexDirection root CSSFlexDirectionRow >>
  CSSNodeStyleSetJustifyContent root CSSJustifySpaceBetween >>
  CSSNodeStyleSetWidth root (F32.of_Z 300) >>
  CSSNodeStyleSetHeight root (F32.of_Z 100) >>
  newBox root 0 50 20 >>
  newBox root 1 50 20 >>
  newBox root 2 50 20 >>
  ret root.

Definition spaceBetweenRow_laidOut (parentDirection : CSSDirection) : option State :=
  exec (letM root := spaceBetweenRow in
        CSSNodeCalculateLayout root CSSUndefined CSSUndefined parentDirection)
       initialState.

(** A leaf with a measure callback and a padding of 10 on every edge
    (node 0). *)
Definition paddedLeaf : M CSSNodeRef :=
  letM leaf := CSSNodeNew in
  CSSNodeSetMeasureFunc leaf (Some (constantMeasure 80 10)) >>
  CSSNodeStyleSetPadding leaf CSSEdgeAll (F32.of_Z 10) >>
  ret leaf.

(** A leaf with a measure callback that is laid out in 100 by 100, then
    given a padding of 80 on every edge and laid out in 100 by 100 again. *)
Definition repaddedLeaf : M CSSNodeRef :=
  letM leaf := CSSNodeNew in
  CSSNodeSetMeasureFunc leaf (Some (constantMeasure 80 10)) >>
  CSSNodeCalculateLayout leaf (F32.of_Z 100) (F32.of_Z 100) CSSDirectionLTR >>
  CSSNodeStyleSetPadding leaf CSSEdgeAll (F32.of_Z 80) >>
  CSSNodeCalculateLayout leaf (F32.of_Z 100) (F32.of_Z 100) CSSDirectionLTR >>
  ret leaf.

(** A row container (node 0) that aligns its items at the start, with one
    text child (node 1) whose measure callback answers 80 by 50, laid out in
    an available width of 100 and no available height. *)
Definition textInRow : M unit :=
  letM root := CSSNodeNew in
  CSSNodeStyleSetFlexDirection root CSSFlexDirectionRow >>
  CSSNodeStyleSetAlignItems root CSSAlignFlexStart >>
  letM text := CSSNodeNew in
  CSSNodeSetMeasureFunc text (Some (constantMeasure 80 50)) >>
  CSSNodeSetIsTextnode text true >>
  CSSNodeInsertChild root text 0 >>
  CSSNodeCalculateLayout root (F32.of_Z 100) CSSUndefined CSSDirectionLTR.

(** A dirty node that was visited in the current generation, 7, with the
    parent direction LTR, and holds one measurement in its ring. *)
Definition visitedDirtyNode : CSSNode :=
  set_isDirty true
    (set_layout
       (fun l => set_generationCount 7
                   (set_lastParentDirection (Some CSSDirectionLTR)
                      (set_nextCachedMeasurementsIndex 1%nat
                         (set_cachedLayout
                            (fun _ => newCacheEntry (F32.of_Z 100) (F32.of_Z 100)
                                        CSSMeasureModeExactly CSSMeasureModeExactly l)
                            l))))
       CSSNodeInit_value).

Definition visitedDirtyState : State :=
  {| nodes := {[ 0%nat := visitedDirtyNode ]}; gCurrentGenerationCount := 7;
     gNodeInstanceCount := 1; gDepth := 0; nextRef := 1%nat; gKernelTrace := [] |}.

(** ** Properties stated in the words of the specification *)

(** The rational number that a float stands for, when it is a number. *)
Definition rational (a : float) : option QArith_base.Q :=
  match a with
  | S754_zero _ => Some (QArith_base.Qmake 0 1)
  | S754_finite s m e =>
      Some match e with
           | Zneg p => QArith_base.Qmake (cond_Zopp s (Zpos m)) (2 ^ p)
           | _ => QArith_base.Qmake (cond_Zopp s (Zpos m * 2 ^ e)) 1
           end
  | _ => None
  end.

(** "Equality: either both undefined, or |a−b| < 1e-4": the difference of
    the two floats is a number whose absolute value is below the rational
    number 1/10000. *)
Definition toleranceEqual (a b : float) : Prop :=
  (CSSValueIsUndefined a = true /\ CSSValueIsUndefined b = true)
  \/ exists q, rational (F32.sub a b) = Some q
               /\ QArith_base.Qlt (Qabs.Qabs q) (QArith_base.Qmake 1 10000).

(** "valid: the prior was Undefined and the new is AtMost with prior-computed
    ≤ new-available-minus-margin; OR the new is Exactly with prior-computed
    tolerance-equal to new-available-minus-margin". *)
Definition validOnAxis (priorMode : option CSSMeasureMode) (priorComputed : float)
    (newMode : CSSMeasureMode) (newAvailable margin : float) : Prop :=
  (priorMode = Some CSSMeasureModeUndefined /\ newMode = CSSMeasureModeAtMost
   /\ F32.le priorComputed (F32.sub newAvailable margin) = true)
  \/ (newMode = CSSMeasureModeExactly
      /\ toleranceEqual priorComputed (F32.sub newAvailable margin)).

(** "same: both sides used Undefined, OR both modes equal and available
    values are tolerance-equal". *)
Definition sameOnAxis (priorMode : option CSSMeasureMode) (priorAvailable : float)
    (newMode : CSSMeasureMode) (newAvailable : float) : Prop :=
  (priorMode = Some CSSMeasureModeUndefined /\ newMode = CSSMeasureModeUndefined)
  \/ (priorMode = Some newMode /\ toleranceEqual priorAvailable newAvailable).

(** The floats of a cache entry are values of the binary32 format. *)
Definition validEntry (cachedLayout : CSSCachedMeasurement) : Prop :=
  F32.valid (Cached.availableWidth cachedLayout)
  /\ F32.valid (Cached.availableHeight cachedLayout)
  /\ F32.valid (Cached.computedWidth cachedLayout)
  /\ F32.valid (Cached.computedHeight cachedLayout).

(** The mantissa of a float has at most the 24 bits of the format. *)
Definition fits (a : float) : Prop :=
  match a with
  | S754_finite _ m _ => Zpos m < 2 ^ F32.prec
  | _ => True
  end.

(** Every parent reference of the store leads to a node of the store. *)
Definition parentsAllocated (s : State) : Prop :=
  forall r n p, nodes s !! r = Some n -> parent n = Some p -> is_Some (nodes s !! p).

(** A float that is not a NaN and not below zero. *)
Definition nonNegative (x : float) : Prop := F32.ge x F32.zero = true.

(** ** The public calls and the states a host can reach *)

(** A style property together with the value a setter is given for it. *)
Inductive StyleProperty :=
  | PropDirection (v : CSSDirection)
  | PropFlexDirection (v : CSSFlexDirection)
  | PropJustifyContent (v : CSSJustify)
  | PropAlignContent (v : CSSAlign)
  | PropAlignItems (v : CSSAlign)
  | PropAlignSelf (v : CSSAlign)
  | PropPositionType (v : CSSPositionType)
  | PropFlexWrap (v : CSSWrapType)
  | PropOverflow (v : CSSOverflow)
  | PropFlexGrow (v : float)
  | PropFlexShrink (v : float)
  | PropFlexBasis (v : float)
  | PropPosition (edge : CSSEdge) (v : float)
  | PropMargin (edge : CSSEdge) (v : float)
  | PropPadding (edge : CSSEdge) (v : float)
  | PropBorder (edge : CSSEdge) (v : float)
  | PropWidth (v : float)
  | PropHeight (v : float)
  | PropMinWidth (v : float)
  | PropMinHeight (v : float)
  | PropMaxWidth (v : float)
  | PropMaxHeight (v : float).

(** The setter of a property. *)
Definition setStyle (node : CSSNodeRef) (p : StyleProperty) : M unit :=
  match p with
  | PropDirection v => CSSNodeStyleSetDirection node v
  | PropFlexDirection v => CSSNodeStyleSetFlexDirection node v
  | PropJustifyContent v => CSSNodeStyleSetJustifyContent node v
  | PropAlignContent v => CSSNodeStyleSetAlignContent node v
  | PropAlignItems v => CSSNodeStyleSetAlignItems node v
  | PropAlignSelf v => CSSNodeStyleSetAlignSelf node v
  | PropPositionType v => CSSNodeStyleSetPositionType node v
  | PropFlexWrap v => CSSNodeStyleSetFlexWrap node v
  | PropOverflow v => CSSNodeStyleSetOverflow node v
  | PropFlexGrow v => CSSNodeStyleSetFlexGrow node v
  | PropFlexShrink v => CSSNodeStyleSetFlexShrink node v
  | PropFlexBasis v => CSSNodeStyleSetFlexBasis node v
  | PropPosition edge v => CSSNodeStyleSetPosition node edge v
  | PropMargin edge v => CSSNodeStyleSetMargin node edge v
  | PropPadding edge v => CSSNodeStyleSetPadding node edge v
  | PropBorder edge v => CSSNodeStyleSetBorder node edge v
  | PropWidth v => CSSNodeStyleSetWidth node v
  | PropHeight v => CSSNodeStyleSetHeight node v
  | PropMinWidth v => CSSNodeStyleSetMinWidth node v
  | PropMinHeight v => CSSNodeStyleSetMinHeight node v
  | PropMaxWidth v => CSSNodeStyleSetMaxWidth node v
  | PropMaxHeight v => CSSNodeStyleSetMaxHeight node v
  end.

(** Whether the value given for a property differs, for the C operator [!=],
    from the one the style holds. *)
Definition differsFromStyle (st : CSSStyle) (p : StyleProperty) : bool :=
  match p with
  | PropDirection v => differ (style_direction st) v
  | PropFlexDirection v => differ (flexDirection st) v
  | PropJustifyContent v => differ (justifyContent st) v
  | PropAlignContent v => differ (alignContent st) v
  | PropAlignItems v => differ (alignItems st) v
  | PropAlignSelf v => differ (alignSelf st) v
  | PropPositionType v => differ (positionType st) v
  | PropFlexWrap v => differ (flexWrap st) v
  | PropOverflow v => differ (overflow st) v
  | PropFlexGrow v => F32.neb (flexGrow st) v
  | PropFlexShrink v => F32.neb (flexShrink st) v
  | PropFlexBasis v => F32.neb (flexBasis st) v
  | PropPosition edge v => F32.neb (edge_get (style_position st) edge) v
  | PropMargin edge v => F32.neb (edge_get (margin st) edge) v
  | PropPadding edge v => F32.neb (edge_get (padding st) edge) v
  | PropBorder edge v => F32.neb (edge_get (border st) edge) v
  | PropWidth v => F32.neb (styleDim CSSDimensionWidth st) v
  | PropHeight v => F32.neb (styleDim CSSDimensionHeight st) v
  | PropMinWidth v => F32.neb (styleMinDim CSSDimensionWidth st) v
  | PropMinHeight v => F32.neb (styleMinDim CSSDimensionHeight st) v
  | PropMaxWidth v => F32.neb (styleMaxDim CSSDimensionWidth st) v
  | PropMaxHeight v => F32.neb (styleMaxDim CSSDimensionHeight st) v
  end.

(** The calls of the node API that change the state. *)
Inductive Call :=
  | CallNew
  | CallInsertChild (node child : CSSNodeRef) (index : nat)
  | CallRemoveChild (node child : CSSNodeRef)
  | CallMarkDirty (node : CSSNodeRef)
  | CallSetStyle (node : CSSNodeRef) (p : StyleProperty)
  | CallSetFlex (node : CSSNodeRef) (flex : float)
  | CallSetMeasureFunc (node : CSSNodeRef) (measureFunc : option CSSMeasureFunc)
  | CallSetIsTextnode (node : CSSNodeRef) (v : bool)
  | CallSetHasNewLayout (node : CSSNodeRef) (v : bool)
  | CallCalculateLayout (node : CSSNodeRef)
      (availableWidth availableHeight : float) (parentDirection : CSSDirection).

Definition perform (c : Call) : M unit :=
  match c with
  | CallNew => CSSNodeNew >> ret tt
  | CallInsertChild node child index => CSSNodeInsertChild node child index
  | CallRemoveChild node child => CSSNodeRemoveChild node child
  | CallMarkDirty node => CSSNodeMarkDirty node
  | CallSetStyle node p => setStyle node p
  | CallSetFlex node flex => CSSNodeStyleSetFlex node flex
  | CallSetMeasureFunc node measureFunc => CSSNodeSetMeasureFunc node measureFunc
  | CallSetIsTextnode node v => CSSNodeSetIsTextnode node v
  | CallSetHasNewLayout node v => CSSNodeSetHasNewLayout node v
  | CallCalculateLayout node availableWidth availableHeight parentDirection =>
      CSSNodeCalculateLayout node availableWidth availableHeight parentDirection
  end.

(** The parent reference of a node of the store. *)
Definition parentOf (s : State) (r : CSSNodeRef) : option CSSNodeRef :=
  nodes s !! r ≫= parent.

(** [ancestor s a r]: [a] is reached from [r] by following one parent
    reference or more. *)
Inductive ancestor (s : State) (a : CSSNodeRef) : CSSNodeRef -> Prop :=
  | ancestor_parent r : parentOf s r = Some a -> ancestor s a r
  | ancestor_step r p : parentOf s r = Some p -> ancestor s a p -> ancestor s a r.

Definition dirtyAt (s : State) (r : CSSNodeRef) : Prop :=
  exists n, nodes s !! r = Some n /\ isDirty n = true.

(** "[isDirty] on any node implies [isDirty] on every ancestor". *)
Definition upwardClosed (s : State) : Prop :=
  forall r a, dirtyAt s r -> ancestor s a r -> dirtyAt s a.

(** The discipline of the host: a node is only inserted under a node that is
    not the node itself or one of its descendants, a node is only removed
    from the node that holds it, and the 32-bit generation counter is not
    made to wrap around. *)
Definition disciplined (s : State) (c : Call) : Prop :=
  match c with
  | CallInsertChild node child _ => node <> child /\ ~ ancestor s child node
  | CallRemoveChild node child => parentOf s child = Some node
  | CallCalculateLayout _ _ _ _ => gCurrentGenerationCount s + 1 < 2 ^ 32
  | _ => True
  end.

(** The states between two calls of the host. The last rule is a layout
    with any bound on the depth of its recursion, so that what holds of the
    reachable states does not depend on the bound that
    [CSSNodeCalculateLayout] chooses. *)
Inductive reachable : State -> Prop :=
  | reachable_initial : reachable initialState
  | reachable_call s c s' :
      reachable s -> disciplined s c -> perform c s = Some (tt, s') -> reachable s'
  | reachable_layout s fuel node availableWidth availableHeight parentDirection s' :
      reachable s -> gCurrentGenerationCount s + 1 < 2 ^ 32 ->
      calculateLayout fuel node availableWidth availableHeight parentDirection s
      = Some (tt, s') ->
      reachable s'.

(** The part of the discipline that is about the forest. *)
Definition keepsForest (s : State) (c : Call) : Prop :=
  match c with
  | CallInsertChild node child _ => node <> child /\ ~ ancestor s child node
  | CallRemoveChild node child => parentOf s child = Some node
  | _ => True
  end.

(** The states that a host reaches that keeps the forest, with no bound on
    the number of the layout passes. *)
Inductive reachableUnbounded : State -> Prop :=
  | unbounded_initial : reachableUnbounded initialState
  | unbounded_call s c s' :
      reachableUnbounded s -> keepsForest s c -> perform c s = Some (tt, s') ->
      reachableUnbounded s'.

(** The number of the clean nodes of the store. *)
Definition cleanCount (s : State) : nat :=
  size (filter (fun kv : CSSNodeRef * CSSNode => isDirty kv.2 = false) (nodes s)).

(** ** Well-formed stores *)

(** The children lists and the parent references describe the same forest. *)
Record wellFormed (s : State) : Prop := {
  wf_children :
    forall r n c, nodes s !! r = Some n -> c ∈ children n -> parentOf s c = Some r;
  wf_parent :
    forall c p, parentOf s c = Some p ->
                exists pn, nodes s !! p = Some pn /\ c ∈ children pn;
  wf_NoDup : forall r n, nodes s !! r = Some n -> NoDup (children n);
  wf_acyclic : forall r, ~ ancestor s r r;
  wf_fresh : forall r, is_Some (nodes s !! r) -> (r < nextRef s)%nat;
  wf_generation : 0 <= gCurrentGenerationCount s < 2 ^ 32;
  wf_generations :
    forall r n, nodes s !! r = Some n ->
                0 <= generationCount (layout n) <= gCurrentGenerationCount s
}.

(** ** The invariant of a layout in progress *)

(** A dirty node that was visited in the current generation has no valid
    [cachedLayout]. *)
Definition visitedDirtyInvalid (s : State) : Prop :=
  forall r n, nodes s !! r = Some n -> isDirty n = true ->
              generationCount (layout n) = gCurrentGenerationCount s ->
              Cached.widthMeasureMode (cachedLayout (layout n)) = None.

(** The part of a node that a layout does not change. *)
Definition static (n : CSSNode) :=
  (style n, parent n, children n, measure n, isTextNode n).

(** What a layout may make of a node, [g] being the current generation: a
    node does not become dirty, and as long as it is dirty its [cachedLayout]
    is only ever invalidated. *)
Definition nodeStep (g : Z) (n n' : CSSNode) : Prop :=
  static n' = static n
  /\ (isDirty n' = true -> isDirty n = true)
  /\ (generationCount (layout n') = generationCount (layout n)
      \/ generationCount (layout n') = g)
  /\ (isDirty n' = true ->
      Cached.widthMeasureMode (cachedLayout (layout n')) = None
      \/ cachedLayout (layout n') = cachedLayout (layout n)).

(** [evolves s s']: [s'] is a later state of the layout that [s] belongs
    to. *)
Record evolves (s s' : State) : Prop := {
  ev_generation : gCurrentGenerationCount s' = gCurrentGenerationCount s;
  ev_nextRef : nextRef s' = nextRef s;
  ev_dom : forall r, nodes s' !! r = None <-> nodes s !! r = None;
  ev_node :
    forall r n n', nodes s !! r = Some n -> nodes s' !! r = Some n' ->
                   nodeStep (gCurrentGenerationCount s) n n'
}.

(** The [nextChild] fields change at the nodes of [W] only. *)
Definition nextOnly (W : CSSNodeRef -> Prop) (s s' : State) : Prop :=
  forall r, ~ W r -> nextChild <$> nodes s' !! r = nextChild <$> nodes s !! r.

(** The private list that starts at [first] and follows [nextChild]. *)
Inductive chain (s : State) : option CSSNodeRef -> list CSSNodeRef -> Prop :=
  | chain_nil : chain s None []
  | chain_cons c n l :
      nodes s !! c = Some n -> chain s (nextChild n) l -> chain s (Some c) (c :: l).

Definition cleanAt (s : State) (r : CSSNodeRef) : Prop :=
  exists n, nodes s !! r = Some n /\ isDirty n = false.

(** What [_CSSNodeMarkDirty] makes of a clean node. *)
Definition marked (n : CSSNode) : CSSNode :=
  set_layout (set_computedFlexBasis CSSUndefined) (set_isDirty true n).

(** [marks s s']: [s'] is [s] with some clean nodes marked dirty, each of
    which has a dirty parent or none. *)
Record marks (s s' : State) : Prop := {
  marks_generation : gCurrentGenerationCount s' = gCurrentGenerationCount s;
  marks_nextRef : nextRef s' = nextRef s;
  marks_node :
    forall r, nodes s' !! r = nodes s !! r
              \/ exists n, nodes s !! r = Some n /\ isDirty n = false
                           /\ nodes s' !! r = Some (marked n)
                           /\ forall p, parent n = Some p -> dirtyAt s' p
}.

(** The parent of a dirty node is dirty. *)
Definition parentClosed (s : State) : Prop :=
  forall r n p, nodes s !! r = Some n -> isDirty n = true -> parent n = Some p -> dirtyAt s p.

(** The invariant of a layout in progress. *)
Record Good (s : State) : Prop := {
  good_wf : wellFormed s;
  good_visited : visitedDirtyInvalid s;
  good_closed : parentClosed s
}.

(** A step of the kernel: the invariant holds again, the state is a later
    state of the same layout, and the private lists changed in [W] only. *)
Record kstep (W : CSSNodeRef -> Prop) (s s' : State) : Prop := {
  ks_good : Good s';
  ks_evolves : evolves s s';
  ks_next : nextOnly W s s'
}.

(** [W] contains the descendants of [c]. *)
Definition covers (W : CSSNodeRef -> Prop) (s : State) (c : CSSNodeRef) : Prop :=
  forall r, ancestor s c r -> W r.

(** An assignment that leaves alone what the invariant is about. *)
Definition quiet (f : CSSNode -> CSSNode) : Prop :=
  forall n, static (f n) = static n
            /\ isDirty (f n) = isDirty n
            /\ generationCount (layout (f n)) = generationCount (layout n)
            /\ cachedLayout (layout (f n)) = cachedLayout (layout n).

(** What the proof of the invariant asks of [layoutNodeInternal]. *)
Definition layoutSpec (rec : LayoutFn) : Prop :=
  forall node aw ah pd wm hm performLayout s b s',
    rec node aw ah pd wm hm performLayout s = Some (b, s') ->
    Good s ->
    kstep (ancestor s node) s s' /\ (performLayout = true -> cleanAt s' node).

(** [child->style.positionType != CSSPositionTypeAbsolute]. *)
Definition isRelative (n : CSSNode) : bool :=
  differ (positionType (style n)) CSSPositionTypeAbsolute.

(** [c] keeps the invariant of the layout that started in [s0], and changes
    the private lists in [W] only. *)
Definition preserves (s0 : State) (W : CSSNodeRef -> Prop) {A} (c : M A) : Prop :=
  forall s a s', c s = Some (a, s') -> Good s -> evolves s0 s -> kstep W s s'.

(** The position type of the node that [s] holds at [r]. *)
Definition relativeIn (s : State) (r : CSSNodeRef) : bool :=
  match nodes s !! r with
  | Some n => isRelative n
  | None => false
  end.

Definition absoluteIn (s : State) (r : CSSNodeRef) : bool :=
  match nodes s !! r with
  | Some n => same (positionType (style n)) CSSPositionTypeAbsolute
  | None => false
  end.

(** [requiresStretchLayout] of STEP 5: the child is stretched along the
    cross axis, so that STEP 7 lays it out. *)
Definition requiresStretchLayout (node : CSSNode) (crossAxis : CSSFlexDirection)
    (c : CSSNode) : bool :=
  negb (isStyleDimDefined c crossAxis) && same (getAlignItem node c) CSSAlignStretch.

Definition stretchedIn (s : State) (node : CSSNode) (crossAxis : CSSFlexDirection)
    (r : CSSNodeRef) : bool :=
  match nodes s !! r with
  | Some n => requiresStretchLayout node crossAxis n
  | None => false
  end.

(** [s'] is [s] with the node at [r] replaced by [n']; the counters of the
    debug output apart. *)
Definition nodeSet (s s' : State) (r : CSSNodeRef) (n' : CSSNode) : Prop :=
  nodes s' = <[r := n']> (nodes s)
  /\ gCurrentGenerationCount s' = gCurrentGenerationCount s
  /\ nextRef s' = nextRef s.

(** The part of a node that the forest and the generations are made of. *)
Definition shape (n : CSSNode) :=
  (parent n, children n, generationCount (layout n)).

(** The invariant between two calls of the host. *)
Record treeInvariant (s : State) : Prop := {
  inv_wf : wellFormed s;
  inv_closed : parentClosed s
}.

(** ** Runs of a host *)

(** The state after a sequence of calls. *)
Fixpoint runCalls (cs : list Call) (s : State) : option State :=
  match cs with
  | [] => Some s
  | c :: cs' =>
      match perform c s with
      | Some (_, s') => runCalls cs' s'
      | None => None
      end
  end.

(** The host keeps the discipline [D] at every call of the sequence. *)
Fixpoint followsRun (D : State -> Call -> Prop) (cs : list Call) (s : State) : Prop :=
  match cs with
  | [] => True
  | c :: cs' =>
      D s c
      /\ match perform c s with
         | Some (_, s') => followsRun D cs' s'
         | None => True
         end
  end.

(** A host that builds a container with one child, gives the child a width,
    has the container laid out and then gives the child a height. *)
Definition hostCalls : list Call :=
  [ CallNew; CallNew; CallInsertChild 0%nat 1%nat 0%nat;
    CallSetStyle 1%nat (PropWidth (F32.of_Z 50));
    CallCalculateLayout 0%nat (F32.of_Z 100) (F32.of_Z 100) CSSDirectionLTR;
    CallSetStyle 1%nat (PropHeight (F32.of_Z 20)) ].

Definition hostScenario : State := default initialState (runCalls hostCalls initialState).

(** *** The generation counter after 2^32 layout passes

    A container [0] with a child [1] that has a child [2], laid out once. *)
Definition lineageCalls : list Call :=
  [ CallNew; CallNew; CallNew;
    CallInsertChild 0%nat 1%nat 0%nat; CallInsertChild 1%nat 2%nat 0%nat;
    CallCalculateLayout 0%nat (F32.of_Z 100) (F32.of_Z 100) CSSDirectionLTR ].

Definition lineage : State := default initialState (runCalls lineageCalls initialState).

(** The state [s] with the generation of the node [0] at [g] and the
    generation counter at [g']. *)
Definition atGenerations (g g' : Z) (s : State) : State :=
  {| nodes := alter (set_layout (set_generationCount g)) 0%nat (nodes s);
     gCurrentGenerationCount := g'; gNodeInstanceCount := gNodeInstanceCount s;
     gDepth := gDepth s; nextRef := nextRef s; gKernelTrace := gKernelTrace s |}.

Definition atGeneration (g : Z) (s : State) : State := atGenerations g g s.

Definition layoutAgain : Call :=
  CallCalculateLayout 0%nat (F32.of_Z 100) (F32.of_Z 100) CSSDirectionLTR.

(** The host sets the width of the node [2] and has the container laid
    out, after layout passes that took the generation counter back to 0. *)
Definition wrappedCalls : list Call :=
  [ CallSetStyle 2%nat (PropWidth (F32.of_Z 10)); layoutAgain ].

Definition wrappedScenario : State :=
  default initialState (runCalls wrappedCalls (atGeneration 0 lineage)).

(** ** Freeing nodes *)

(** Source: [CSSNodeFree]. [free] takes the node out of the store, with the
    child list that [CSSNodeListFree] releases; the references that other
    nodes hold to it are left as they are. Freeing a reference that is not in
    the store has no defined behaviour and fails. *)
Definition CSSNodeFree (node : CSSNodeRef) : M unit :=
  fun s =>
    match nodes s !! node with
    | Some _ =>
        Some (tt,
              {| nodes := delete node (nodes s);
                 gCurrentGenerationCount := gCurrentGenerationCount s;
                 gNodeInstanceCount := gNodeInstanceCount s - 1;
                 gDepth := gDepth s;
                 nextRef := nextRef s;
                 gKernelTrace := gKernelTrace s |})
    | None => None
    end.

(** Source: [CSSNodeFreeRecursive]. The loop
    [while (CSSNodeChildCount(root) > 0) { ... }] followed by
    [CSSNodeFree(root)] is unrolled: an iteration removes the first child,
    frees it recursively and goes on with the loop. [fuel] bounds the number
    of nested unrollings. *)
Fixpoint freeRecursive_steps (fuel : nat) (root : CSSNodeRef) : M unit :=
  match fuel with
  | O => fail
  | S fuel' =>
      letM count := CSSNodeChildCount root in
      if (0 <? count)%nat then
        letM child := CSSNodeGetChild root 0 in
        CSSNodeRemoveChild root child >>
        freeRecursive_steps fuel' child >>
        freeRecursive_steps fuel' root
      else CSSNodeFree root
  end.

(** Every unrolling is followed by the removal of a parent reference or of a
    node, so that twice the number of the nodes, plus one, is enough fuel. *)
Definition CSSNodeFreeRecursive (root : CSSNodeRef) : M unit :=
  fun s => freeRecursive_steps (S (2 * size (nodes s))) root s.

(** ** Reading the properties back *)

(** [CSS_NODE_PROPERTY_IMPL]: the getters. *)
Definition CSSNodeGetMeasureFunc (node : CSSNodeRef) : M (option CSSMeasureFunc) :=
  letM n := deref node in ret (measure n).
Definition CSSNodeGetIsTextnode (node : CSSNodeRef) : M bool :=
  letM n := deref node in ret (isTextNode n).

(** [CSS_NODE_STYLE_PROPERTY_IMPL]: the getter generated for a style field. *)
Definition CSS_NODE_STYLE_PROPERTY_GET {T : Type} (field : CSSStyle -> T)
    (node : CSSNodeRef) : M T :=
  letM n := deref node in ret (field (style n)).

Definition CSSNodeStyleGetDirection := CSS_NODE_STYLE_PROPERTY_GET style_direction.
Definition CSSNodeStyleGetFlexDirection := CSS_NODE_STYLE_PROPERTY_GET flexDirection.
Definition CSSNodeStyleGetJustifyContent := CSS_NODE_STYLE_PROPERTY_GET justifyContent.
Definition CSSNodeStyleGetAlignContent := CSS_NODE_STYLE_PROPERTY_GET alignContent.
Definition CSSNodeStyleGetAlignItems := CSS_NODE_STYLE_PROPERTY_GET alignItems.
Definition CSSNodeStyleGetAlignSelf := CSS_NODE_STYLE_PROPERTY_GET alignSelf.
Definition CSSNodeStyleGetPositionType := CSS_NODE_STYLE_PROPERTY_GET positionType.
Definition CSSNodeStyleGetFlexWrap := CSS_NODE_STYLE_PROPERTY_GET flexWrap.
Definition CSSNodeStyleGetOverflow := CSS_NODE_STYLE_PROPERTY_GET overflow.
Definition CSSNodeStyleGetFlexGrow := CSS_NODE_STYLE_PROPERTY_GET flexGrow.
Definition CSSNodeStyleGetFlexShrink := CSS_NODE_STYLE_PROPERTY_GET flexShrink.
Definition CSSNodeStyleGetFlexBasis := CSS_NODE_STYLE_PROPERTY_GET flexBasis.
Definition CSSNodeStyleGetWidth :=
  CSS_NODE_STYLE_PROPERTY_GET (styleDim CSSDimensionWidth).
Definition CSSNodeStyleGetHeight :=
  CSS_NODE_STYLE_PROPERTY_GET (styleDim CSSDimensionHeight).
Definition CSSNodeStyleGetMinWidth :=
  CSS_NODE_STYLE_PROPERTY_GET (styleMinDim CSSDimensionWidth).
Definition CSSNodeStyleGetMinHeight :=
  CSS_NODE_STYLE_PROPERTY_GET (styleMinDim CSSDimensionHeight).
Definition CSSNodeStyleGetMaxWidth :=
  CSS_NODE_STYLE_PROPERTY_GET (styleMaxDim CSSDimensionWidth).
Definition CSSNodeStyleGetMaxHeight :=
  CSS_NODE_STYLE_PROPERTY_GET (styleMaxDim CSSDimensionHeight).

(** The getter of a property of [StyleProperty]; the value that the property
    carries is not looked at. The getters of the per-edge properties resolve
    the shorthands. *)
Inductive StyleValue :=
  | ValDirection (v : CSSDirection)
  | ValFlexDirection (v : CSSFlexDirection)
  | ValJustify (v : CSSJustify)
  | ValAlign (v : CSSAlign)
  | ValPositionType (v : CSSPositionType)
  | ValWrapType (v : CSSWrapType)
  | ValOverflow (v : CSSOverflow)
  | ValFloat (v : float).

Definition valueOf (p : StyleProperty) : StyleValue :=
  match p with
  | PropDirection v => ValDirection v
  | PropFlexDirection v => ValFlexDirection v
  | PropJustifyContent v => ValJustify v
  | PropAlignContent v | PropAlignItems v | PropAlignSelf v => ValAlign v
  | PropPositionType v => ValPositionType v
  | PropFlexWrap v => ValWrapType v
  | PropOverflow v => ValOverflow v
  | PropFlexGrow v | PropFlexShrink v | PropFlexBasis v
  | PropPosition _ v | PropMargin _ v | PropPadding _ v | PropBorder _ v
  | PropWidth v | PropHeight v | PropMinWidth v | PropMinHeight v
  | PropMaxWidth v | PropMaxHeight v => ValFloat v
  end.

Definition getStyle (node : CSSNodeRef) (p : StyleProperty) : M StyleValue :=
  match p with
  | PropDirection _ => letM v := CSSNodeStyleGetDirection node in ret (ValDirection v)
  | PropFlexDirection _ =>
      letM v := CSSNodeStyleGetFlexDirection node in ret (ValFlexDirection v)
  | PropJustifyContent _ =>
      letM v := CSSNodeStyleGetJustifyContent node in ret (ValJustify v)
  | PropAlignContent _ => letM v := CSSNodeStyleGetAlignContent node in ret (ValAlign v)
  | PropAlignItems _ => letM v := CSSNodeStyleGetAlignItems node in ret (ValAlign v)
  | PropAlignSelf _ => letM v := CSSNodeStyleGetAlignSelf node in ret (ValAlign v)
  | PropPositionType _ =>
      letM v := CSSNodeStyleGetPositionType node in ret (ValPositionType v)
  | PropFlexWrap _ => letM v := CSSNodeStyleGetFlexWrap node in ret (ValWrapType v)
  | PropOverflow _ => letM v := CSSNodeStyleGetOverflow node in ret (ValOverflow v)
  | PropFlexGrow _ => letM v := CSSNodeStyleGetFlexGrow node in ret (ValFloat v)
  | PropFlexShrink _ => letM v := CSSNodeStyleGetFlexShrink node in ret (ValFloat v)
  | PropFlexBasis _ => letM v := CSSNodeStyleGetFlexBasis node in ret (ValFloat v)
  | PropPosition edge _ => letM v := CSSNodeStyleGetPosition node edge in ret (ValFloat v)
  | PropMargin edge _ => letM v := CSSNodeStyleGetMargin node edge in ret (ValFloat v)
  | PropPadding edge _ => letM v := CSSNodeStyleGetPadding node edge in ret (ValFloat v)
  | PropBorder edge _ => letM v := CSSNodeStyleGetBorder node edge in ret (ValFloat v)
  | PropWidth _ => letM v := CSSNodeStyleGetWidth node in ret (ValFloat v)
  | PropHeight _ => letM v := CSSNodeStyleGetHeight node in ret (ValFloat v)
  | PropMinWidth _ => letM v := CSSNodeStyleGetMinWidth node in ret (ValFloat v)
  | PropMinHeight _ => letM v := CSSNodeStyleGetMinHeight node in ret (ValFloat v)
  | PropMaxWidth _ => letM v := CSSNodeStyleGetMaxWidth node in ret (ValFloat v)
  | PropMaxHeight _ => letM v := CSSNodeStyleGetMaxHeight node in ret (ValFloat v)
  end.

(** The C operator [==] at the type of a style value; two values of
    different types do not compare. *)
Definition sameValue (a b : StyleValue) : bool :=
  match a, b with
  | ValDirection x, ValDirection y => same x y
  | ValFlexDirection x, ValFlexDirection y => same x y
  | ValJustify x, ValJustify y => same x y
  | ValAlign x, ValAlign y => same x y
  | ValPositionType x, ValPositionType y => same x y
  | ValWrapType x, ValWrapType y => same x y
  | ValOverflow x, ValOverflow y => same x y
  | ValFloat x, ValFloat y => F32.eqb x y
  | _, _ => false
  end.

(** The properties whose value is a float that is undefined. *)
Definition undefinedValue (p : StyleProperty) : bool :=
  match valueOf p with
  | ValFloat v => CSSValueIsUndefined v
  | _ => false
  end.

(** The edge of a per-edge property is one of the three shorthands, which
    [computedEdgeValue] refuses. *)
Definition shorthandEdge (p : StyleProperty) : bool :=
  match p with
  | PropPosition edge _ | PropMargin edge _ | PropPadding edge _ | PropBorder edge _ =>
      same edge CSSEdgeHorizontal || same edge CSSEdgeVertical || same edge CSSEdgeAll
  | _ => false
  end.

(** The bounds [minDimensions] and [maxDimensions] of a node along an axis. *)
Definition minOf (node : CSSNode) (axis : CSSFlexDirection) : float :=
  dim_get (minDimensions (style node)) (dim axis).
Definition maxOf (node : CSSNode) (axis : CSSFlexDirection) : float :=
  dim_get (maxDimensions (style node)) (dim axis).

(** An infinity. *)
Definition isInfinite (a : float) : bool :=
  match a with
  | S754_infinity _ => true
  | _ => false
  end.

(** ** What a layout leaves alone *)

(** A cache entry whose computed sizes are numbers that are not negative. *)
Definition entrySized (e : CSSCachedMeasurement) : Prop :=
  nonNegative (Cached.computedWidth e) /\ nonNegative (Cached.computedHeight e).

(** The array [cachedMeasurements] has its [CSS_MAX_CACHED_RESULT_COUNT]
    entries and the cursor [nextCachedMeasurementsIndex] is not past its
    end. *)
Definition ringBounded (l : CSSLayout) : Prop :=
  length (cachedMeasurements l) = CSS_MAX_CACHED_RESULT_COUNT
  /\ (nextCachedMeasurementsIndex l <= CSS_MAX_CACHED_RESULT_COUNT)%nat.

(** The computed sizes of all the cache entries of a node are not
    negative. *)
Definition cachesSized (l : CSSLayout) : Prop :=
  entrySized (cachedLayout l) /\ Forall entrySized (cachedMeasurements l).

(** The measured dimensions of a node are not negative. *)
Definition measuredSized (n : CSSNode) : Prop :=
  nonNegative (measured_of n CSSDimensionWidth)
  /\ nonNegative (measured_of n CSSDimensionHeight).

(** The dimensions of the layout of a node are undefined, as [CSSNodeInit]
    leaves them, or sizes that are not negative. *)
Definition dimensionsSized (l : CSSLayout) : Prop :=
  forall d, CSSValueIsUndefined (dim_get (layout_dimensions l) d) = true
            \/ nonNegative (dim_get (layout_dimensions l) d).

(** What a layout may make of a node: the style, the links of the tree, the
    measure function and the text flag stay; no dirty flag is set and no
    [hasNewLayout] is cleared; the ring of the measurements stays within its
    bounds; a measured dimension or a dimension of the layout changes to a
    size that is not negative. *)
Record nodeLaidOut (n n' : CSSNode) : Prop := {
  lo_static : static n' = static n;
  lo_dirty : isDirty n' = true -> isDirty n = true;
  lo_hasNewLayout : hasNewLayout n = true -> hasNewLayout n' = true;
  lo_ring : ringBounded (layout n) -> ringBounded (layout n');
  lo_sized :
    cachesSized (layout n) ->
    cachesSized (layout n')
    /\ (forall d, measured_of n' d = measured_of n d \/ nonNegative (measured_of n' d))
    /\ (forall d, dim_get (layout_dimensions (layout n')) d
                  = dim_get (layout_dimensions (layout n)) d
                  \/ nonNegative (dim_get (layout_dimensions (layout n')) d))
}.

(** [laidOut s s']: [s'] is a later state of a layout that [s] belongs to,
    without any condition on [s]. *)
Record laidOut (s s' : State) : Prop := {
  lo_generation : gCurrentGenerationCount s' = gCurrentGenerationCount s;
  lo_count : gNodeInstanceCount s' = gNodeInstanceCount s;
  lo_nextRef : nextRef s' = nextRef s;
  lo_dom : dom (nodes s') = dom (nodes s);
  lo_node :
    forall r n n', nodes s !! r = Some n -> nodes s' !! r = Some n' -> nodeLaidOut n n'
}.

(** Every state in which [c] ends is a later state of the layout. *)
Definition keeps {A} (c : M A) : Prop :=
  forall s a s', c s = Some (a, s') -> laidOut s s'.

(** What [layoutNodeInternal] makes of the node it is called on: the
    measured dimensions are sizes; with [performLayout] the node is clean,
    has a new layout, and its dimensions are the measured ones; the node
    has the generation of the pass. *)
Definition visited (performLayout : bool) (s' : State) (n n' : CSSNode) : Prop :=
  (cachesSized (layout n) -> measuredSized n')
  /\ (performLayout = true ->
      isDirty n' = false /\ hasNewLayout n' = true
      /\ layout_dimensions (layout n') = measuredDimensions (layout n'))
  /\ generationCount (layout n') = gCurrentGenerationCount s'.

Definition layoutFrame (rec : LayoutFn) : Prop :=
  forall node aw ah pd wm hm performLayout s b s',
    rec node aw ah pd wm hm performLayout s = Some (b, s') ->
    laidOut s s'
    /\ forall n n', nodes s !! node = Some n -> nodes s' !! node = Some n' ->
                    visited performLayout s' n n'.

(** ** The states that the calls of the node API produce *)

(** The calls of [Call], and the two that free nodes. *)
Inductive HostCall :=
  | Calls (c : Call)
  | CallFree (node : CSSNodeRef)
  | CallFreeRecursive (root : CSSNodeRef).

Definition performHost (c : HostCall) : M unit :=
  match c with
  | Calls c => perform c
  | CallFree node => CSSNodeFree node
  | CallFreeRecursive root => CSSNodeFreeRecursive root
  end.

(** The states between two calls of a host, with no condition on what the
    host calls: a call that returns takes a state to the next one. *)
Inductive attained : State -> Prop :=
  | attained_initial : attained initialState
  | attained_call s c s' : attained s -> performHost c s = Some (tt, s') -> attained s'.

(** The state after a sequence of calls of a host. *)
Fixpoint runHost (cs : list HostCall) (s : State) : option State :=
  match cs with
  | [] => Some s
  | c :: cs' =>
      match performHost c s with
      | Some (_, s') => runHost cs' s'
      | None => None
      end
  end.

(** An assignment that leaves alone what [nodeLaidOut] is about. *)
Definition silent (f : CSSNode -> CSSNode) : Prop :=
  forall n, static (f n) = static n
            /\ isDirty (f n) = isDirty n
            /\ hasNewLayout (f n) = hasNewLayout n
            /\ cachedMeasurements (layout (f n)) = cachedMeasurements (layout n)
            /\ nextCachedMeasurementsIndex (layout (f n))
               = nextCachedMeasurementsIndex (layout n)
            /\ cachedLayout (layout (f n)) = cachedLayout (layout n)
            /\ measuredDimensions (layout (f n)) = measuredDimensions (layout n)
            /\ layout_dimensions (layout (f n)) = layout_dimensions (layout n).

(** ** The invariant of the states of a host *)

(** What holds of the layout of every node between two calls. *)
Definition sound (n : CSSNode) : Prop :=
  ringBounded (layout n) /\ cachesSized (layout n) /\ dimensionsSized (layout n).

(** The nodes are sound, [gNodeInstanceCount] counts the nodes of the
    store, and the references of the store have been handed out by
    [CSSNodeNew]. *)
Record consistent (s : State) : Prop := {
  cons_sound : forall r n, nodes s !! r = Some n -> sound n;
  cons_count : gNodeInstanceCount s = Z.of_nat (size (nodes s));
  cons_fresh : forall r, is_Some (nodes s !! r) -> (r < nextRef s)%nat
}.

(** [c] keeps the invariant [I]. *)
Definition maintains (I : State -> Prop) {A} (c : M A) : Prop :=
  forall s a s', c s = Some (a, s') -> I s -> I s'.

(** ** The tree below a node *)

(** [r] is [root] or a node below it. *)
Definition inTree (s : State) (root r : CSSNodeRef) : Prop :=
  r = root \/ ancestor s root r.

(** [s'] is [s] without the nodes of the tree of [root]. *)
Record removed (s : State) (root : CSSNodeRef) (s' : State) : Prop := {
  rm_tree : forall r, inTree s root r -> nodes s' !! r = None;
  rm_rest : forall r, ~ inTree s root r -> nodes s' !! r = nodes s !! r;
  rm_generation : gCurrentGenerationCount s' = gCurrentGenerationCount s;
  rm_nextRef : nextRef s' = nextRef s
}.

(** The nodes that have a parent. *)
Definition parented (s : State) : gmap CSSNodeRef CSSNode :=
  filter (fun kv : CSSNodeRef * CSSNode => parent kv.2 <> None) (nodes s).

(** The number of the nodes plus the number of the parent references: what
    the unrollings of [CSSNodeFreeRecursive] use up. *)
Definition linkCount (s : State) : nat := size (nodes s) + size (parented s).

(** ** The hosts of the examples *)

(** A host that builds a container with one child and gives the child a
    width. *)
Definition builtCalls : list Call :=
  [ CallNew; CallNew; CallInsertChild 0%nat 1%nat 0%nat;
    CallSetStyle 1%nat (PropWidth (F32.of_Z 50)) ].

Definition builtScenario : State := default initialState (runCalls builtCalls initialState).

(** The container laid out in 100 by 100. *)
Definition laidOutScenario : State :=
  default initialState
    (exec (CSSNodeCalculateLayout 0%nat (F32.of_Z 100) (F32.of_Z 100) CSSDirectionLTR)
          builtScenario).

(** The child marked dirty after the layout. *)
Definition markedScenario : State :=
  default initialState (exec (_CSSNodeMarkDirty 1%nat) laidOutScenario).

(** The node that [r] refers to, for a reference of the store. *)
Definition nodeIn (s : State) (r : CSSNodeRef) : CSSNode :=
  default CSSNodeInit_value (nodes s !! r).

(** ** Hosts that free nodes *)

(** The discipline of a host that also frees nodes: besides what
    [disciplined] asks of the other calls, [CSSNodeFree] is given a node that
    has no parent and no children, and [CSSNodeFreeRecursive] a node that has
    no parent. *)
Definition hostDisciplined (s : State) (c : HostCall) : Prop :=
  match c with
  | Calls c => disciplined s c
  | CallFree node => parentOf s node = None /\ children <$> nodes s !! node = Some []
  | CallFreeRecursive root => parentOf s root = None
  end.

(** The states between two calls of a host that keeps the discipline. *)
Inductive betweenCalls : State -> Prop :=
  | between_initial : betweenCalls initialState
  | between_call s c s' :
      betweenCalls s -> hostDisciplined s c -> performHost c s = Some (tt, s') ->
      betweenCalls s'.

(** The host keeps the discipline at every call of the sequence. *)
Fixpoint followsHost (cs : list HostCall) (s : State) : Prop :=
  match cs with
  | [] => True
  | c :: cs' =>
      hostDisciplined s c
      /\ match performHost c s with
         | Some (_, s') => followsHost cs' s'
         | None => True
         end
  end.

(** A host that builds a container with one child and a third node, has the
    container laid out, frees the third node and gives the child a height. *)
Definition freeingCalls : list HostCall :=
  [ Calls CallNew; Calls CallNew; Calls CallNew;
    Calls (CallInsertChild 0%nat 1%nat 0%nat);
    Calls (CallSetStyle 1%nat (PropWidth (F32.of_Z 50)));
    Calls (CallCalculateLayout 0%nat (F32.of_Z 100) (F32.of_Z 100) CSSDirectionLTR);
    CallFree 2%nat;
    Calls (CallSetStyle 1%nat (PropHeight (F32.of_Z 20))) ].

Definition freeingScenario : State :=
  default initialState (runHost freeingCalls initialState).

(** A host that frees a container whose child is dirty. *)
Definition orphanCalls : list HostCall :=
  [ Calls CallNew; Calls CallNew;
    Calls (CallInsertChild 0%nat 1%nat 0%nat);
    Calls (CallSetStyle 1%nat (PropWidth (F32.of_Z 50)));
    CallFree 0%nat ].

Definition orphanScenario : State :=
  default initialState (runHost orphanCalls initialState).

(** A host that removes the child [1] of the container [0] from the node
    [2], which does not hold it, and inserts it into the container again:
    the child list of the container is [1; 2; 1]. It then gives [2] a width
    and has the container laid out. *)
Definition twiceListedCalls : list HostCall :=
  [ Calls CallNew; Calls CallNew; Calls CallNew;
    Calls (CallInsertChild 0%nat 1%nat 0%nat);
    Calls (CallInsertChild 0%nat 2%nat 1%nat);
    Calls (CallRemoveChild 2%nat 1%nat);
    Calls (CallInsertChild 0%nat 1%nat 2%nat);
    Calls (CallSetStyle 2%nat (PropWidth (F32.of_Z 10)));
    Calls (CallCalculateLayout 0%nat (F32.of_Z 100) (F32.of_Z 100) CSSDirectionLTR) ].

Definition twiceListedScenario : State :=
  default initialState (runHost twiceListedCalls initialState).

(** * Verification *)

(** ** The trailing positions of STEP 11 *)

Lemma needsMainTrailingPos_spec mainAxis :
  needsMainTrailingPos mainAxis = true <->
  mainAxis = CSSFlexDirectionRowReverse \/ mainAxis = CSSFlexDirectionColumnReverse.
Proof. destruct mainAxis; cbv; intuition congruence. Qed.

Lemma needsCrossTrailingPos_always crossAxis : needsCrossTrailingPos crossAxis = true.
Proof. reflexivity. Qed.

(** C1. The trailing cross-axis positions are set on every full layout pass,
    whatever the cross axis: [needsCrossTrailingPos] is true even for the two
    directions that are not reversed. In the row container of 300 by 100,
    whose cross axis is Column, the first child ends with
    [position[Bottom] = 100 - 20 - 0 = 80], while [position[Right]], on the
    main axis Row, keeps the 0 that [setPosition] gave it. *)
Theorem C1_cross_trailing_position_set_when_not_reverse :
  needsCrossTrailingPos CSSFlexDirectionColumn = true
  /\ needsCrossTrailingPos CSSFlexDirectionRow = true
  /\ needsMainTrailingPos CSSFlexDirectionRow = false
  /\ (s ← spaceBetweenRow_laidOut CSSDirectionLTR;
      c ← node_of s 1%nat;
      Some (position_of c CSSEdgeBottom, position_of c CSSEdgeRight))
     = Some (F32.of_Z 80, F32.zero).
Proof. repeat split; vm_compute; reflexivity. Qed.

(** ** The invalidation of the caches *)

Lemma needToVisitNode_spec n g parentDirection :
  needToVisitNode n g parentDirection = true <->
  (isDirty n = true /\ generationCount (layout n) <> g)
  \/ lastParentDirection (layout n) <> Some parentDirection.
Proof.
  unfold needToVisitNode, differ, same.
  rewrite orb_true_iff, andb_true_iff, !negb_true_iff, Z.eqb_neq, bool_decide_eq_false.
  reflexivity.
Qed.

(** C2, as the code has it. On entry to [layoutNodeInternal] the caches of
    the node are invalidated (the cursor of the ring is reset to 0 and the
    measure modes of [cachedLayout] are set to the invalid value) exactly when
    the node is dirty and was not yet visited in the current generation, or
    its [lastParentDirection] differs from [parentDirection]; otherwise the
    node is left as it is. *)
Theorem C2_invalidation_on_entry s node n parentDirection :
  nodes s !! node = Some n ->
  exists s',
    enterNode node parentDirection s
    = Some (needToVisitNode n (gCurrentGenerationCount s) parentDirection, s')
    /\ (needToVisitNode n (gCurrentGenerationCount s) parentDirection = true <->
        (isDirty n = true /\ generationCount (layout n) <> gCurrentGenerationCount s)
        \/ lastParentDirection (layout n) <> Some parentDirection)
    /\ nodes s' !! node
       = Some (if needToVisitNode n (gCurrentGenerationCount s) parentDirection
               then set_layout invalidateCachedResults n else n)
    /\ (forall n', nodes s' !! node = Some n' ->
        needToVisitNode n (gCurrentGenerationCount s) parentDirection = true ->
        nextCachedMeasurementsIndex (layout n') = 0%nat
        /\ Cached.widthMeasureMode (cachedLayout (layout n')) = None
        /\ Cached.heightMeasureMode (cachedLayout (layout n')) = None).
Proof.
  intros Hn.
  unfold enterNode, bind, modify_state, get_state, deref, when, update, ret. cbn.
  rewrite Hn.
  pose proof (needToVisitNode_spec n (gCurrentGenerationCount s) parentDirection) as Hspec.
  destruct (needToVisitNode n (gCurrentGenerationCount s) parentDirection); cbn.
  - rewrite Hn. eexists. split; [reflexivity|].
    split; [exact Hspec|].
    cbn. rewrite lookup_insert_eq. split; [reflexivity|].
    intros n' [= <-] _. auto.
  - eexists. split; [reflexivity|].
    split; [exact Hspec|].
    cbn. split; [exact Hn|]. intros _ _ [=].
Qed.

Lemma C2_invalidation_on_entry_witness :
  exists s',
    enterNode 0%nat CSSDirectionLTR visitedDirtyState
    = Some (needToVisitNode visitedDirtyNode 7 CSSDirectionLTR, s')
    /\ nodes s' !! 0%nat = Some visitedDirtyNode.
Proof.
  destruct (C2_invalidation_on_entry visitedDirtyState 0%nat visitedDirtyNode
              CSSDirectionLTR eq_refl) as (s' & H1 & _ & H3 & _).
  exists s'. split; [exact H1 | exact H3].
Defined.

(** C2, as the claim states it, fails: a node that is dirty but was already
    visited in the current generation is not invalidated; its ring keeps its
    entry and its [cachedLayout] stays valid. *)
Lemma C2_dirty_node_not_invalidated :
  ~ (forall s node n parentDirection,
       nodes s !! node = Some n ->
       isDirty n = true \/ lastParentDirection (layout n) <> Some parentDirection ->
       exists b s' n',
         enterNode node parentDirection s = Some (b, s')
         /\ nodes s' !! node = Some n'
         /\ nextCachedMeasurementsIndex (layout n') = 0%nat
         /\ Cached.widthMeasureMode (cachedLayout (layout n')) = None).
Proof.
  intros H.
  destruct (H visitedDirtyState 0%nat visitedDirtyNode CSSDirectionLTR eq_refl
              (or_introl eq_refl)) as (b & s' & n' & Hrun & Hn' & Hidx & _).
  vm_compute in Hrun. injection Hrun as <- <-.
  vm_compute in Hn'. injection Hn' as <-.
  vm_compute in Hidx. discriminate.
Qed.

(** ** Two successive layouts *)

(** C3. A second [CSSNodeCalculateLayout] with the same arguments and no
    mutation in between does not always give the same layout. The leaf with
    a measure callback that was laid out, given a padding of 80 and laid out
    again is 160 by 160; one more layout with the same arguments runs the
    kernel on no node and leaves it 100 by 100, the size of the cache entry
    that the invalidation left usable. The padded leaf that is laid out for
    the first time in 0 by 0 is 20 by 20, and 0 by 0 the second time. *)
Theorem C3_second_layout_differs :
  (s1 ← exec repaddedLeaf initialState;
   s2 ← exec (CSSNodeCalculateLayout 0%nat (F32.of_Z 100) (F32.of_Z 100) CSSDirectionLTR) s1;
   Some (layoutBox s1 0%nat, layoutBox s2 0%nat,
         (length (gKernelTrace s2) - length (gKernelTrace s1))%nat))
  = Some (Some (F32.zero, F32.zero, F32.of_Z 160, F32.of_Z 160),
          Some (F32.zero, F32.zero, F32.of_Z 100, F32.of_Z 100), 0%nat)
  /\ (s0 ← exec paddedLeaf initialState;
      s1 ← exec (CSSNodeCalculateLayout 0%nat F32.zero F32.zero CSSDirectionLTR) s0;
      s2 ← exec (CSSNodeCalculateLayout 0%nat F32.zero F32.zero CSSDirectionLTR) s1;
      Some (layoutBox s1 0%nat, layoutBox s2 0%nat,
            (length (gKernelTrace s2) - length (gKernelTrace s1))%nat))
     = Some (Some (F32.zero, F32.zero, F32.of_Z 20, F32.of_Z 20),
             Some (F32.zero, F32.zero, F32.zero, F32.zero), 0%nat).
Proof. split; vm_compute; reflexivity. Qed.

(** ** The style setters *)

(** C4. Setting a float style field that is undefined to the undefined value
    marks the node dirty: the comparison [!=] of the setter is true between
    two NaNs. A new node is clean and has no width; after
    [CSSNodeStyleSetWidth (node, CSSUndefined)] its width is still undefined
    and the node is dirty. The same holds for the per-edge setters. *)
Theorem C4_setting_undefined_to_undefined_marks_dirty :
  (s0 ← exec CSSNodeNew initialState;
   n0 ← node_of s0 0%nat;
   s1 ← exec (CSSNodeStyleSetWidth 0%nat CSSUndefined) s0;
   n1 ← node_of s1 0%nat;
   Some (styleDim CSSDimensionWidth (style n0), isDirty n0,
         styleDim CSSDimensionWidth (style n1), isDirty n1))
  = Some (CSSUndefined, false, CSSUndefined, true)
  /\ (s0 ← exec CSSNodeNew initialState;
      n0 ← node_of s0 0%nat;
      s1 ← exec (CSSNodeStyleSetMargin 0%nat CSSEdgeLeft CSSUndefined) s0;
      n1 ← node_of s1 0%nat;
      Some (edge_get (margin (style n0)) CSSEdgeLeft, isDirty n0,
            edge_get (margin (style n1)) CSSEdgeLeft, isDirty n1))
     = Some (CSSUndefined, false, CSSUndefined, true).
Proof. split; vm_compute; reflexivity. Qed.

(** ** The row that justifies with space-between *)

(** C7. In the row container of 300 by 100 with [justifyContent =
    SpaceBetween] and three relative children of 50 by 20 without flex
    factors, [CSSNodeCalculateLayout] with no available size, under the
    parent direction LTR as under Inherit, places the children at (0,0),
    (125,0) and (250,0), each 50 by 20, in a root of 300 by 100. *)
Theorem C7_space_between_row :
  forall parentDirection,
    parentDirection = CSSDirectionLTR \/ parentDirection = CSSDirectionInherit ->
    (s ← spaceBetweenRow_laidOut parentDirection;
     Some (layoutBox s 0%nat, layoutBox s 1%nat, layoutBox s 2%nat, layoutBox s 3%nat))
    = Some (Some (F32.zero, F32.zero, F32.of_Z 300, F32.of_Z 100),
            Some (F32.zero, F32.zero, F32.of_Z 50, F32.of_Z 20),
            Some (F32.of_Z 125, F32.zero, F32.of_Z 50, F32.of_Z 20),
            Some (F32.of_Z 250, F32.zero, F32.of_Z 50, F32.of_Z 20)).
Proof. intros parentDirection [-> | ->]; vm_compute; reflexivity. Qed.

Lemma C7_space_between_row_witness :
  (s ← spaceBetweenRow_laidOut CSSDirectionLTR;
   Some (layoutBox s 0%nat, layoutBox s 1%nat, layoutBox s 2%nat, layoutBox s 3%nat))
  = Some (Some (F32.zero, F32.zero, F32.of_Z 300, F32.of_Z 100),
          Some (F32.zero, F32.zero, F32.of_Z 50, F32.of_Z 20),
          Some (F32.of_Z 125, F32.zero, F32.of_Z 50, F32.of_Z 20),
          Some (F32.of_Z 250, F32.zero, F32.of_Z 50, F32.of_Z 20)).
Proof. apply (C7_space_between_row CSSDirectionLTR). left. reflexivity. Defined.

(** ** The padding and border floor *)

(** C8, at the input where the code breaks it. After the third layout of the
    leaf that was given a padding of 80, its layout width is 100 although its
    padding and border on the row axis amount to 160. *)
Theorem C8_layout_smaller_than_padding :
  (s1 ← exec repaddedLeaf initialState;
   s2 ← exec (CSSNodeCalculateLayout 0%nat (F32.of_Z 100) (F32.of_Z 100) CSSDirectionLTR) s1;
   n ← node_of s2 0%nat;
   Some (dim_get (layout_dimensions (layout n)) CSSDimensionWidth,
         getPaddingAndBorderAxis n CSSFlexDirectionRow,
         F32.ge (dim_get (layout_dimensions (layout n)) CSSDimensionWidth)
                (getPaddingAndBorderAxis n CSSFlexDirectionRow)))
  = Some (F32.of_Z 100, F32.of_Z 160, false).
Proof. vm_compute; reflexivity. Qed.

(** ** The cache entry of a text node *)

(** C9. The entry that [canUseCachedMeasurement] updates is its own copy.
    After the first layout the text node holds, in the first slot of its
    ring, the measurement 80 by 50 taken under an available width of 100 (at
    most) and no height restriction. Asked again with the same width and a
    height of at most 30, [canUseCachedMeasurement] answers true and sets
    [computedHeight] of its copy to 30; [layoutNodeInternal] then reports the
    height 50 of the stored entry, which is unchanged. *)
Theorem C9_stored_entry_not_updated :
  (s ← exec textInRow initialState;
   text ← node_of s 1%nat;
   entry ← cachedMeasurements (layout text) !! 0%nat;
   let answer :=
     canUseCachedMeasurement (isTextNode text) (F32.of_Z 100) (F32.of_Z 30)
       (getMarginAxis text CSSFlexDirectionRow) (getMarginAxis text CSSFlexDirectionColumn)
       CSSMeasureModeAtMost CSSMeasureModeAtMost entry in
   '(visited, s') ← layoutNodeInternal 1 1%nat (F32.of_Z 100) (F32.of_Z 30) CSSDirectionLTR
                      CSSMeasureModeAtMost CSSMeasureModeAtMost false s;
   text' ← node_of s' 1%nat;
   entry' ← cachedMeasurements (layout text') !! 0%nat;
   Some (isWidthSame entry (F32.of_Z 100) CSSMeasureModeAtMost,
         Cached.computedHeight entry,
         fst answer, Cached.computedHeight (snd answer),
         visited, Cached.computedHeight entry',
         bool_decide (cachedMeasurements (layout text') = cachedMeasurements (layout text)),
         measured_of text' CSSDimensionHeight))
  = Some (true, F32.of_Z 50, true, F32.of_Z 30, false, F32.of_Z 50, true, F32.of_Z 50).
Proof. vm_compute; reflexivity. Qed.

(** ** Floats that are not negative *)

Lemma nonNegative_shape x :
  nonNegative x <->
  match x with
  | S754_zero _ | S754_infinity false | S754_finite false _ _ => True
  | _ => False
  end.
Proof.
  unfold nonNegative, F32.ge, F32.zero, SFleb.
  destruct x as [s | [] | | [] m e]; cbn; intuition discriminate.
Qed.

Lemma nonNegative_not_nan x : nonNegative x -> F32.isnan x = false.
Proof. rewrite nonNegative_shape. destruct x; [reflexivity..|tauto|reflexivity]. Qed.

Lemma nonNegative_zero : nonNegative F32.zero.
Proof. reflexivity. Qed.

Lemma shr_1_nonneg mrs : 0 <= shr_m mrs -> 0 <= shr_m (shr_1 mrs).
Proof.
  destruct mrs as [m r s]. cbn.
  destruct m as [| [p | p |] | p]; cbn; lia.
Qed.

Lemma iter_pos_invariant {A} (P : A -> Prop) (f : A -> A) :
  (forall x, P x -> P (f x)) -> forall p x, P x -> P (SpecFloat.iter_pos f p x).
Proof.
  intros Hf. induction p as [p IH | p IH |]; intros x Hx; cbn; auto.
Qed.

Lemma shr_nonneg mrs e n : 0 <= shr_m mrs -> 0 <= shr_m (fst (shr mrs e n)).
Proof.
  intros H. unfold shr. destruct n; cbn; try exact H.
  apply (iter_pos_invariant (fun r => 0 <= shr_m r)); [apply shr_1_nonneg | exact H].
Qed.

Lemma shr_fexp_nonneg prec emax m e l :
  0 <= m -> 0 <= shr_m (fst (shr_fexp prec emax m e l)).
Proof.
  intros H. unfold shr_fexp. apply shr_nonneg.
  destruct l as [| []]; cbn; exact H.
Qed.

Lemma round_nearest_even_nonneg m l : 0 <= m -> 0 <= round_nearest_even m l.
Proof.
  intros H. unfold round_nearest_even.
  destruct l as [| []]; try destruct (Z.even m); lia.
Qed.

Lemma binary_round_aux_nonNegative prec emax m e l :
  0 <= m -> nonNegative (binary_round_aux prec emax false m e l).
Proof.
  intros H. unfold binary_round_aux.
  pose proof (shr_fexp_nonneg prec emax m e l H) as H1.
  destruct (shr_fexp prec emax m e l) as [mrs' e'] eqn:E1. cbn [fst] in H1.
  pose proof (shr_fexp_nonneg prec emax
                (round_nearest_even (shr_m mrs') (loc_of_shr_record mrs')) e' loc_Exact
                (round_nearest_even_nonneg _ _ H1)) as H2.
  destruct (shr_fexp prec emax _ e' loc_Exact) as [mrs'' e''] eqn:E2. cbn [fst] in H2.
  apply nonNegative_shape.
  destruct (shr_m mrs'') as [| p | p]; [exact I | | lia].
  destruct (e'' <=? emax - prec); exact I.
Qed.

Lemma binary_normalize_nonNegative prec emax m e :
  0 <= m -> nonNegative (binary_normalize prec emax m e false).
Proof.
  intros H. unfold binary_normalize.
  destruct m as [| p | p]; [reflexivity | | lia].
  unfold binary_round.
  destruct (shl_align p e _) as [mz ez].
  apply binary_round_aux_nonNegative. lia.
Qed.

Lemma nonNegative_add a b : nonNegative a -> nonNegative b -> nonNegative (F32.add a b).
Proof.
  rewrite !nonNegative_shape.
  destruct a as [sa | [] | | [] ma ea]; try tauto;
    destruct b as [sb | [] | | [] mb eb]; try tauto; intros _ _;
    try (try destruct sa; try destruct sb; cbn; exact I).
  apply nonNegative_shape.
  unfold F32.add, SFadd. apply binary_normalize_nonNegative. cbn. lia.
Qed.

(** ** Order of the floats *)

Lemma SFcompare_refl x : F32.isnan x = false -> SFcompare x x = Some Eq.
Proof.
  destruct x as [s | [] | | [] m e]; cbn; intros H; try reflexivity; try discriminate.
  - rewrite Z.compare_refl, Pos.compare_cont_refl. reflexivity.
  - rewrite Z.compare_refl, Pos.compare_cont_refl. reflexivity.
Qed.

Lemma SFcompare_antisym x y : SFcompare y x = CompOpp <$> SFcompare x y.
Proof.
  destruct x as [sx | [] | | [] mx ex], y as [sy | [] | | [] my ey]; cbn; try reflexivity;
    try (destruct sx; reflexivity); try (destruct sy; reflexivity);
    pose proof (Pos.compare_cont_antisym mx my Eq) as H; cbn in H;
    rewrite (Z.compare_antisym ex ey), <- H;
    destruct (ex ?= ey), (Pos.compare_cont Eq mx my); reflexivity.
Qed.

Lemma fmaxf_ge_right a b : F32.isnan b = false -> F32.ge (F32.fmaxf a b) b = true.
Proof.
  intros Hb. unfold F32.fmaxf, F32.ge, F32.lt, SFleb, SFltb. rewrite Hb.
  destruct (F32.isnan a) eqn:Ha; [rewrite (SFcompare_refl b Hb); reflexivity|].
  destruct (SFcompare a b) as [[]|] eqn:Hc.
  - rewrite (SFcompare_antisym a b), Hc. reflexivity.
  - rewrite (SFcompare_refl b Hb). reflexivity.
  - rewrite (SFcompare_antisym a b), Hc. reflexivity.
  - destruct a, b; cbn in *; discriminate.
Qed.

(** ** The cache hit predicate *)

Lemma same_true {A} `{EqDecision A} (a b : A) : same a b = true <-> a = b.
Proof. unfold same. apply bool_decide_eq_true. Qed.

(** *** The mantissa of a difference

    The results of the rounding of [SpecFloat] have a mantissa of at most
    24 bits, whatever is rounded. *)

Lemma digits2_pos_bound m : Zpos m < 2 ^ Zpos (digits2_pos m).
Proof.
  induction m as [m IH | m IH |]; cbn [digits2_pos]; [| |reflexivity];
    rewrite Pos2Z.inj_succ, Z.pow_succ_r by lia; lia.
Qed.

Lemma Zdigits2_bound m : 0 <= m -> m < 2 ^ Zdigits2 m.
Proof. destruct m as [| p | p]; intros H; [reflexivity | apply digits2_pos_bound | lia]. Qed.

Lemma Zdigits2_nonneg m : 0 <= Zdigits2 m.
Proof. destruct m; cbn; lia. Qed.

Lemma shr_1_halves mrs : 0 <= shr_m mrs -> 2 * shr_m (shr_1 mrs) <= shr_m mrs.
Proof.
  destruct mrs as [m r s]. cbn. intros H.
  destruct m as [| [p | p |] | p]; cbn; lia.
Qed.

Lemma iter_shr_1_bound p :
  forall mrs, 0 <= shr_m mrs ->
              0 <= shr_m (SpecFloat.iter_pos shr_1 p mrs)
              /\ 2 ^ Zpos p * shr_m (SpecFloat.iter_pos shr_1 p mrs) <= shr_m mrs.
Proof.
  induction p as [p IH | p IH |]; intros mrs H; cbn [SpecFloat.iter_pos].
  - pose proof (shr_1_nonneg mrs H) as H0. pose proof (shr_1_halves mrs H) as H1.
    destruct (IH _ H0) as [H2 H3]. destruct (IH _ H2) as [H4 H5].
    split; [exact H4|].
    replace (Zpos p~1) with (Zpos p + Zpos p + 1) by lia.
    rewrite !Z.pow_add_r, Z.pow_1_r by lia.
    set (k := 2 ^ Zpos p) in *.
    assert (0 < k) by (apply Z.pow_pos_nonneg; lia).
    pose proof (Z.mul_le_mono_nonneg_l _ _ k ltac:(lia) H5). lia.
  - destruct (IH _ H) as [H2 H3]. destruct (IH _ H2) as [H4 H5].
    split; [exact H4|].
    replace (Zpos p~0) with (Zpos p + Zpos p) by lia.
    rewrite Z.pow_add_r by lia.
    set (k := 2 ^ Zpos p) in *.
    assert (0 < k) by (apply Z.pow_pos_nonneg; lia).
    pose proof (Z.mul_le_mono_nonneg_l _ _ k ltac:(lia) H5). lia.
  - split; [apply shr_1_nonneg, H|]. pose proof (shr_1_halves mrs H). lia.
Qed.

Lemma shr_record_of_loc_m m l : shr_m (shr_record_of_loc m l) = m.
Proof. destruct l as [| []]; reflexivity. Qed.

Lemma shr_fexp_bound prec emax m e l :
  0 < prec -> 0 <= m -> shr_m (fst (shr_fexp prec emax m e l)) < 2 ^ prec.
Proof.
  intros Hp Hm. unfold shr_fexp, shr.
  pose proof (Zdigits2_bound m Hm) as Hd. pose proof (Zdigits2_nonneg m) as Hd0.
  set (d := Zdigits2 m) in *.
  assert (d + e - prec <= fexp prec emax (d + e)) as Hf by (unfold fexp; lia).
  destruct (fexp prec emax (d + e) - e) as [| n | n] eqn:En; cbn [fst].
  - rewrite shr_record_of_loc_m. apply Z.lt_le_trans with (2 ^ d); [exact Hd|].
    apply Z.pow_le_mono_r; lia.
  - destruct (iter_shr_1_bound n (shr_record_of_loc m l)) as [H0 H1];
      [rewrite shr_record_of_loc_m; exact Hm|].
    rewrite shr_record_of_loc_m in H1.
    set (m' := shr_m (SpecFloat.iter_pos shr_1 n (shr_record_of_loc m l))) in *.
    assert (2 ^ d <= 2 ^ Zpos n * 2 ^ prec) as H2.
    { rewrite <- Z.pow_add_r by lia. apply Z.pow_le_mono_r; lia. }
    assert (0 < 2 ^ Zpos n) by (apply Z.pow_pos_nonneg; lia). nia.
  - rewrite shr_record_of_loc_m. apply Z.lt_le_trans with (2 ^ d); [exact Hd|].
    apply Z.pow_le_mono_r; lia.
Qed.

Lemma binary_round_aux_fits sx m e l :
  0 <= m -> fits (binary_round_aux F32.prec F32.emax sx m e l).
Proof.
  intros H. unfold binary_round_aux.
  pose proof (shr_fexp_nonneg F32.prec F32.emax m e l H) as H1.
  destruct (shr_fexp F32.prec F32.emax m e l) as [mrs' e'] eqn:E1. cbn [fst] in H1.
  pose proof (shr_fexp_bound F32.prec F32.emax
                (round_nearest_even (shr_m mrs') (loc_of_shr_record mrs')) e' loc_Exact
                ltac:(reflexivity) (round_nearest_even_nonneg _ _ H1)) as H2.
  destruct (shr_fexp F32.prec F32.emax _ e' loc_Exact) as [mrs'' e''] eqn:E2. cbn [fst] in H2.
  destruct (shr_m mrs'') as [| p | p]; [exact I | | exact I].
  destruct (e'' <=? F32.emax - F32.prec); [exact H2 | exact I].
Qed.

Lemma binary_normalize_fits m e sz : fits (binary_normalize F32.prec F32.emax m e sz).
Proof.
  unfold binary_normalize. destruct m as [| p | p]; [exact I | |];
    unfold binary_round; destruct (shl_align p e _) as [mz ez];
    apply binary_round_aux_fits; lia.
Qed.

Lemma sub_fits a b : fits a -> fits b -> fits (F32.sub a b).
Proof.
  intros Ha Hb. unfold F32.sub, SFsub.
  destruct a as [sa | sa | | sa ma ea], b as [sb | sb | | sb mb eb];
    try exact I; try exact Ha; try exact Hb;
    try (destruct sa, sb; exact I).
  apply binary_normalize_fits.
Qed.

Lemma valid_fits a : F32.valid a -> fits a.
Proof.
  unfold F32.valid. destruct a as [| | | s m e]; try (intros; exact I). cbn.
  unfold bounded, canonical_mantissa, fexp. intros H.
  apply andb_true_iff in H as [H _]. apply Z.eqb_eq in H.
  apply Z.lt_le_trans with (2 ^ Zpos (digits2_pos m)); [apply digits2_pos_bound|].
  apply Z.pow_le_mono_r; lia.
Qed.

Lemma lt_double_finite m1 e1 m2 e2 :
  F32.lt_double (S754_finite false m1 e1) (S754_finite false m2 e2) = true <->
  Zpos m1 * 2 ^ (e1 - Z.min e1 e2) < Zpos m2 * 2 ^ (e2 - Z.min e1 e2).
Proof.
  unfold F32.lt_double, F32.compare_values. cbn [cond_Zopp]. rewrite <- Z.compare_lt_iff.
  destruct (_ ?= _); split; congruence.
Qed.

(** No float lies between 1/10000 and the double constant [0.0001]. *)
Lemma below_tolerance s m e :
  Zpos m < 2 ^ F32.prec ->
  F32.lt_double (S754_finite false m e) F32.tolerance = true <->
  QArith_base.Qlt (Qabs.Qabs match e with
                             | Zneg p => QArith_base.Qmake (cond_Zopp s (Zpos m)) (2 ^ p)
                             | _ => QArith_base.Qmake (cond_Zopp s (Zpos m * 2 ^ e)) 1
                             end)
                  (QArith_base.Qmake 1 10000).
Proof.
  intros Hm. change (2 ^ F32.prec) with 16777216 in Hm.
  unfold F32.tolerance. rewrite lt_double_finite.
  assert (forall x, Z.abs (cond_Zopp s x) = Z.abs x) as Habs
      by (intros x; destruct s; cbn; lia).
  assert (2 ^ 66 = 73786976294838206464) as E66 by reflexivity.
  destruct (Z_le_gt_dec 0 e) as [He | He].
  - (* no float with a mantissa and no fraction is below the tolerance *)
    rewrite Z.min_r by lia.
    replace (-66 - -66) with 0 by lia. rewrite Z.pow_0_r, Z.mul_1_r.
    replace (e - -66) with (e + 66) by lia. rewrite Z.pow_add_r, E66 by lia.
    assert (0 < 2 ^ e) by (apply Z.pow_pos_nonneg; lia).
    assert (QArith_base.Qlt
              (Qabs.Qabs (QArith_base.Qmake (cond_Zopp s (Zpos m * 2 ^ e)) 1))
              (QArith_base.Qmake 1 10000) <-> False) as Hq.
    { unfold QArith_base.Qlt, Qabs.Qabs. cbn [QArith_base.Qnum QArith_base.Qden].
      rewrite Habs. nia. }
    destruct e as [| p | p]; [| |lia]; rewrite Hq; nia.
  - destruct e as [| p | p]; [lia | lia |].
    unfold QArith_base.Qlt, Qabs.Qabs. cbn [QArith_base.Qnum QArith_base.Qden].
    rewrite Habs, Pos2Z.inj_pow, Z.abs_eq by lia.
    assert (0 < 2 ^ Zpos p) by (apply Z.pow_pos_nonneg; lia).
    destruct (Z_le_gt_dec (Zpos p) 66) as [Hp | Hp].
    + rewrite Z.min_r by lia.
      replace (-66 - -66) with 0 by lia. rewrite Z.pow_0_r, Z.mul_1_r.
      replace (Z.neg p - -66) with (66 - Zpos p) by lia.
      assert (2 ^ (66 - Zpos p) * 2 ^ Zpos p = 73786976294838206464) as E.
      { rewrite <- Z.pow_add_r by lia. replace (66 - Zpos p + Zpos p) with 66 by lia. exact E66. }
      assert (0 < 2 ^ (66 - Zpos p)) by (apply Z.pow_pos_nonneg; lia).
      nia.
    + rewrite Z.min_l by lia.
      replace (Z.neg p - Z.neg p) with 0 by lia. rewrite Z.pow_0_r, Z.mul_1_r.
      replace (-66 - Z.neg p) with (Zpos p - 66) by lia.
      assert (0 < 2 ^ (Zpos p - 66)) by (apply Z.pow_pos_nonneg; lia).
      assert (2 ^ 66 * 2 ^ (Zpos p - 66) = 2 ^ Zpos p) as E.
      { rewrite <- Z.pow_add_r by lia. f_equal. lia. }
      nia.
Qed.

Lemma lt_double_tolerance d :
  fits d ->
  F32.lt_double (F32.fabs d) F32.tolerance = true <->
  exists q, rational d = Some q
            /\ QArith_base.Qlt (Qabs.Qabs q) (QArith_base.Qmake 1 10000).
Proof.
  intros Hd. destruct d as [s | s | | s m e]; cbn [F32.fabs SFabs rational].
  - split; [intros _; eexists; split; [reflexivity | reflexivity] | reflexivity].
  - split; [discriminate | intros (q & [=] & _)].
  - split; [discriminate | intros (q & [=] & _)].
  - rewrite (below_tolerance s m e Hd). split.
    + intros H. eexists. split; [reflexivity | exact H].
    + intros (q & [= <-] & H). exact H.
Qed.

(** [eq] is the tolerant equality of the specification, on the values of
    the binary32 format. *)
Lemma eq_float_spec a b : fits a -> fits b -> eq_float a b = true <-> toleranceEqual a b.
Proof.
  intros Ha Hb. unfold eq_float, toleranceEqual.
  rewrite <- (lt_double_tolerance (F32.sub a b)) by (apply sub_fits; assumption).
  destruct (CSSValueIsUndefined a) eqn:Ea.
  - destruct a; try discriminate Ea. cbn. split; [tauto|].
    intros [[_ H] | H]; [exact H | discriminate H].
  - split; [tauto|]. intros [[H _] | H]; [discriminate H | exact H].
Qed.

(** The floats 83.3f and 33.3f differ by 50 + 2^-18, which [eq] takes for
    50. *)
Example eq_float_example :
  eq_float (F32.of_Z 50)
           (F32.sub (S754_finite false 10918298 (-17)) (S754_finite false 8729395 (-18)))
  = true.
Proof. reflexivity. Qed.

Lemma isWidthValid_spec cached availableWidth marginRow widthMode :
  fits (Cached.computedWidth cached) -> fits availableWidth -> fits marginRow ->
  isWidthValid cached availableWidth marginRow widthMode = true <->
  validOnAxis (Cached.widthMeasureMode cached) (Cached.computedWidth cached)
    widthMode availableWidth marginRow.
Proof.
  intros Hc Ha Hm. unfold isWidthValid, validOnAxis.
  rewrite orb_true_iff, !andb_true_iff, !same_true, eq_float_spec
    by (try apply sub_fits; assumption).
  unfold F32.le. tauto.
Qed.

Lemma isHeightValid_spec cached availableHeight marginColumn heightMode :
  fits (Cached.computedHeight cached) -> fits availableHeight -> fits marginColumn ->
  isHeightValid cached availableHeight marginColumn heightMode = true <->
  validOnAxis (Cached.heightMeasureMode cached) (Cached.computedHeight cached)
    heightMode availableHeight marginColumn.
Proof.
  intros Hc Ha Hm. unfold isHeightValid, validOnAxis.
  rewrite orb_true_iff, !andb_true_iff, !same_true, eq_float_spec
    by (try apply sub_fits; assumption).
  unfold F32.le. tauto.
Qed.

Lemma isWidthSame_spec cached availableWidth widthMode :
  fits (Cached.availableWidth cached) -> fits availableWidth ->
  isWidthSame cached availableWidth widthMode = true <->
  sameOnAxis (Cached.widthMeasureMode cached) (Cached.availableWidth cached)
    widthMode availableWidth.
Proof.
  intros Hc Ha. unfold isWidthSame, sameOnAxis.
  rewrite orb_true_iff, !andb_true_iff, !same_true, eq_float_spec by assumption. tauto.
Qed.

Lemma isHeightSame_spec cached availableHeight heightMode :
  fits (Cached.availableHeight cached) -> fits availableHeight ->
  isHeightSame cached availableHeight heightMode = true <->
  sameOnAxis (Cached.heightMeasureMode cached) (Cached.availableHeight cached)
    heightMode availableHeight.
Proof.
  intros Hc Ha. unfold isHeightSame, sameOnAxis.
  rewrite orb_true_iff, !andb_true_iff, !same_true, eq_float_spec by assumption. tauto.
Qed.

(** The answer of [canUseCachedMeasurement] for a node that is not a text
    node: the four combinations of same and valid. *)
Lemma canUseCachedMeasurement_not_text aw ah mr mc wm hm cached :
  fst (canUseCachedMeasurement false aw ah mr mc wm hm cached)
  = (isHeightSame cached ah hm && isWidthSame cached aw wm)
    || (isWidthSame cached aw wm && isHeightValid cached ah mc hm)
    || (isHeightSame cached ah hm && isWidthValid cached aw mr wm)
    || (isHeightValid cached ah mc hm && isWidthValid cached aw mr wm).
Proof.
  unfold canUseCachedMeasurement.
  destruct (isHeightSame cached ah hm), (isWidthSame cached aw wm),
    (isHeightValid cached ah mc hm), (isWidthValid cached aw mr wm); reflexivity.
Qed.

(** C6. For a leaf with a measure function, the cache hit predicate takes a
    prior entry as valid on an axis exactly when the prior measurement used
    the mode Undefined, the new mode is AtMost and the prior computed size is
    at most the new available size minus the margin of the axis, or the new
    mode is Exactly and the prior computed size is tolerance-equal to the new
    available size minus the margin: both are undefined, or their difference
    as floats is a number whose absolute value is below 1/10000.
    [canUseCachedMeasurement] accepts the entry of a node that is not a text
    node exactly in the four combinations of same and valid. The floats are
    values of the binary32 format, as the floats of C are. *)
Theorem C6_valid_on_axis aw ah mr mc wm hm cached :
  F32.valid aw -> F32.valid ah -> F32.valid mr -> F32.valid mc -> validEntry cached ->
  (isWidthValid cached aw mr wm = true <->
   validOnAxis (Cached.widthMeasureMode cached) (Cached.computedWidth cached) wm aw mr)
  /\ (isHeightValid cached ah mc hm = true <->
      validOnAxis (Cached.heightMeasureMode cached) (Cached.computedHeight cached) hm ah mc)
  /\ (fst (canUseCachedMeasurement false aw ah mr mc wm hm cached) = true <->
      let sameWidth :=
        sameOnAxis (Cached.widthMeasureMode cached) (Cached.availableWidth cached) wm aw in
      let sameHeight :=
        sameOnAxis (Cached.heightMeasureMode cached) (Cached.availableHeight cached) hm ah in
      let validWidth :=
        validOnAxis (Cached.widthMeasureMode cached) (Cached.computedWidth cached) wm aw mr in
      let validHeight :=
        validOnAxis (Cached.heightMeasureMode cached) (Cached.computedHeight cached) hm ah mc in
      (sameHeight /\ sameWidth) \/ (sameWidth /\ validHeight)
      \/ (sameHeight /\ validWidth) \/ (validHeight /\ validWidth)).
Proof.
  intros Haw Hah Hmr Hmc (Hcaw & Hcah & Hccw & Hcch).
  apply valid_fits in Haw, Hah, Hmr, Hmc, Hcaw, Hcah, Hccw, Hcch.
  split; [apply isWidthValid_spec; assumption|].
  split; [apply isHeightValid_spec; assumption|].
  rewrite canUseCachedMeasurement_not_text, !orb_true_iff, !andb_true_iff.
  rewrite isWidthValid_spec, isHeightValid_spec, isWidthSame_spec, isHeightSame_spec
    by assumption.
  cbv zeta. tauto.
Qed.

(** The entry that was measured at 50 by 20 under no constraint, asked for
    again with the available width 83.3f, the margin 33.3f and the mode
    Exactly. *)
Lemma C6_valid_on_axis_witness :
  let cached :=
    {| Cached.availableWidth := CSSUndefined; Cached.availableHeight := CSSUndefined;
       Cached.widthMeasureMode := Some CSSMeasureModeUndefined;
       Cached.heightMeasureMode := Some CSSMeasureModeUndefined;
       Cached.computedWidth := F32.of_Z 50; Cached.computedHeight := F32.of_Z 20 |} in
  isWidthValid cached (S754_finite false 10918298 (-17)) (S754_finite false 8729395 (-18))
    CSSMeasureModeExactly = true
  /\ validOnAxis (Some CSSMeasureModeUndefined) (F32.of_Z 50) CSSMeasureModeExactly
       (S754_finite false 10918298 (-17)) (S754_finite false 8729395 (-18)).
Proof.
  intros cached.
  destruct (C6_valid_on_axis (S754_finite false 10918298 (-17)) CSSUndefined
              (S754_finite false 8729395 (-18)) F32.zero
              CSSMeasureModeExactly CSSMeasureModeUndefined cached) as (Hw & _);
    try reflexivity.
  - repeat split; reflexivity.
  - split; [reflexivity|]. apply Hw. reflexivity.
Defined.

(** ** The padding and border of a node *)

Ltac nonNegative_branches :=
  match goal with
  | |- nonNegative (if ?c then _ else _) =>
      let E := fresh "E" in
      destruct c eqn:E; [| nonNegative_branches]
  | |- nonNegative F32.zero => exact nonNegative_zero
  | _ => idtac
  end.

Lemma getLeadingPadding_nonNegative node axis : nonNegative (getLeadingPadding node axis).
Proof.
  unfold getLeadingPadding. nonNegative_branches.
  - apply andb_true_iff in E as [_ E]. exact E.
  - exact E0.
Qed.

Lemma getTrailingPadding_nonNegative node axis : nonNegative (getTrailingPadding node axis).
Proof.
  unfold getTrailingPadding. nonNegative_branches.
  - apply andb_true_iff in E as [_ E]. exact E.
  - exact E0.
Qed.

Lemma getLeadingBorder_nonNegative node axis : nonNegative (getLeadingBorder node axis).
Proof.
  unfold getLeadingBorder. nonNegative_branches.
  - apply andb_true_iff in E as [_ E]. exact E.
  - exact E0.
Qed.

Lemma getTrailingBorder_nonNegative node axis : nonNegative (getTrailingBorder node axis).
Proof.
  unfold getTrailingBorder. nonNegative_branches.
  - apply andb_true_iff in E as [_ E]. exact E.
  - exact E0.
Qed.

Lemma getPaddingAndBorderAxis_nonNegative node axis :
  nonNegative (getPaddingAndBorderAxis node axis).
Proof.
  unfold getPaddingAndBorderAxis, getLeadingPaddingAndBorder, getTrailingPaddingAndBorder.
  auto using nonNegative_add, getLeadingPadding_nonNegative, getTrailingPadding_nonNegative,
    getLeadingBorder_nonNegative, getTrailingBorder_nonNegative.
Qed.

(** The first half of C8: whatever the value, undefined and negative ones
    included, [boundAxis] answers at least the padding and border of the
    axis. *)
Lemma boundAxis_ge_paddingAndBorder node axis value :
  F32.ge (boundAxis node axis value) (getPaddingAndBorderAxis node axis) = true.
Proof.
  unfold boundAxis. apply fmaxf_ge_right, nonNegative_not_nan,
    getPaddingAndBorderAxis_nonNegative.
Qed.

(** ** The monad *)

Lemma bind_Some {A B} (c : M A) (k : A -> M B) s b s' :
  bind c k s = Some (b, s') <-> exists a s1, c s = Some (a, s1) /\ k a s1 = Some (b, s').
Proof.
  unfold bind. destruct (c s) as [[a s1]|]; split.
  - intros H. eauto.
  - intros (a' & s1' & [= <- <-] & H). exact H.
  - discriminate.
  - intros (a' & s1' & [=] & _).
Qed.

Lemma ret_Some {A} (a b : A) s s' : ret a s = Some (b, s') <-> b = a /\ s' = s.
Proof. unfold ret. split; [intros [= <- <-]; auto | intros [-> ->]; reflexivity]. Qed.

Lemma fail_Some {A} s (b : A) s' : fail s = Some (b, s') <-> False.
Proof. unfold fail. split; [discriminate | tauto]. Qed.

Lemma deref_Some r s n s' : deref r s = Some (n, s') <-> nodes s !! r = Some n /\ s' = s.
Proof.
  unfold deref. destruct (nodes s !! r) as [m|]; split.
  - intros [= <- <-]. auto.
  - intros [[= <-] ->]. reflexivity.
  - discriminate.
  - intros [[=] _].
Qed.

Lemma update_Some r f s u s' :
  update r f s = Some (u, s') <->
  exists n, nodes s !! r = Some n /\ s' = set_nodes (insert r (f n)) s.
Proof.
  unfold update. destruct (nodes s !! r) as [m|]; split.
  - intros [= <-]. eauto.
  - intros (n & [= <-] & ->). destruct u. reflexivity.
  - discriminate.
  - intros (n & [=] & _).
Qed.

Lemma when_Some b c s u s' :
  when b c s = Some (u, s') <-> (b = true /\ c s = Some (u, s')) \/ (b = false /\ s' = s).
Proof.
  unfold when. destruct b.
  - split; [auto | intros [[_ H] | [[=] _]]; exact H].
  - rewrite ret_Some. destruct u. split; [intros [_ ->]; auto | intros [[[=] _] | [_ ->]]; auto].
Qed.

Lemma CSS_ASSERT_Some X s u s' : CSS_ASSERT X s = Some (u, s') <-> X = true /\ s' = s.
Proof.
  unfold CSS_ASSERT. destruct X.
  - rewrite ret_Some. destruct u. intuition.
  - rewrite fail_Some. intuition discriminate.
Qed.

Lemma modify_state_Some f s u s' : modify_state f s = Some (u, s') <-> s' = f s.
Proof. unfold modify_state. destruct u. split; [intros [= <-] | intros ->]; reflexivity. Qed.

Lemma get_state_Some s a s' : get_state s = Some (a, s') <-> a = s /\ s' = s.
Proof. unfold get_state. split; [intros [= <- <-]; auto | intros [-> ->]; reflexivity]. Qed.

(** Decomposes the hypotheses that say that a computation has a result. *)
Ltac monadInv :=
  repeat match goal with
    | H : bind _ _ _ = Some _ |- _ =>
        let a := fresh "a" in
        let s := fresh "s" in
        let H1 := fresh "Hrun" in
        let H2 := fresh "Hrun" in
        apply bind_Some in H as (a & s & H1 & H2)
    | H : ret _ _ = Some _ |- _ => apply ret_Some in H as [? ?]; subst
    | H : fail _ = Some _ |- _ => apply fail_Some in H; destruct H
    | H : deref _ _ = Some _ |- _ => apply deref_Some in H as [? ?]; subst
    | H : CSS_ASSERT _ _ = Some _ |- _ => apply CSS_ASSERT_Some in H as [? ?]; subst
    | H : modify_state _ _ = Some _ |- _ => apply modify_state_Some in H; subst
    | H : get_state _ = Some _ |- _ => apply get_state_Some in H as [? ?]; subst
    end.

(** ** Dirty propagation *)

Lemma dirtyAt_marked s r n :
  nodes s !! r = Some n -> dirtyAt (set_nodes (insert r (marked n)) s) r.
Proof. intros _. exists (marked n). cbn. rewrite lookup_insert_eq. auto. Qed.

Lemma marks_refl s : marks s s.
Proof. split; auto. Qed.

Lemma marks_dirtyAt s s' r : marks s s' -> dirtyAt s r -> dirtyAt s' r.
Proof.
  intros Hm (n & Hn & Hd). destruct (marks_node _ _ Hm r) as [Heq | (m & Hm1 & Hm2 & Hm3 & _)].
  - exists n. rewrite Heq. auto.
  - exists (marked m). auto.
Qed.

Lemma marks_trans s1 s2 s3 : marks s1 s2 -> marks s2 s3 -> marks s1 s3.
Proof.
  intros H12 H23. split.
  - rewrite (marks_generation _ _ H23). apply (marks_generation _ _ H12).
  - rewrite (marks_nextRef _ _ H23). apply (marks_nextRef _ _ H12).
  - intros r.
    destruct (marks_node _ _ H23 r) as [Heq | (n & Hn & Hc & Hn' & Hp)].
    + rewrite Heq.
      destruct (marks_node _ _ H12 r) as [Heq' | (n & Hn & Hc & Hn' & Hp)]; [auto|].
      right. exists n. repeat split; auto.
      intros p Hpar. eapply marks_dirtyAt; eauto.
    + destruct (marks_node _ _ H12 r) as [Heq' | (m & Hm & Hc' & Hm' & _)].
      * right. exists n. rewrite <- Heq'. auto.
      * rewrite Hm' in Hn. injection Hn as <-. discriminate Hc.
Qed.

Lemma markDirty_steps_marks fuel :
  forall r s u s', markDirty_steps fuel r s = Some (u, s') -> marks s s' /\ dirtyAt s' r.
Proof.
  induction fuel as [| fuel IH]; intros r s u s' Hrun; cbn in Hrun; [monadInv|].
  apply bind_Some in Hrun as (n & s0 & Hn & Hrun). apply deref_Some in Hn as [H ->].
  destruct (isDirty n) eqn:Hd; cbn in Hrun.
  - monadInv. split; [apply marks_refl | exists n; auto].
  - apply bind_Some in Hrun as (u1 & s1' & Hup & Hrun1).
    apply update_Some in Hup as (n' & Hn' & ->).
    assert (n' = n) as -> by congruence.
    change (set_layout (set_computedFlexBasis CSSUndefined) (set_isDirty true n))
      with (marked n) in *.
    set (s1 := set_nodes (insert r (marked n)) s) in *.
    assert (forall s', marks s1 s' -> (forall p, parent n = Some p -> dirtyAt s' p) ->
                       marks s s' /\ dirtyAt s' r) as Hfinish.
    { intros s2 Hm Hp. split.
      - split.
        + rewrite (marks_generation _ _ Hm). reflexivity.
        + rewrite (marks_nextRef _ _ Hm). reflexivity.
        + intros r'. destruct (decide (r' = r)) as [-> | Hne].
          * right. exists n. repeat split; auto.
            destruct (marks_node _ _ Hm r) as [Heq | (m & Hm1 & Hm2 & _)].
            -- rewrite Heq. subst s1. cbn. apply lookup_insert_eq.
            -- subst s1. cbn in Hm1. rewrite lookup_insert_eq in Hm1.
               injection Hm1 as <-. discriminate Hm2.
          * destruct (marks_node _ _ Hm r') as [Heq | (m & Hm1 & Hm2 & Hm3 & Hm4)].
            -- left. rewrite Heq. subst s1. cbn. apply lookup_insert_ne. congruence.
            -- right. exists m. subst s1. cbn in Hm1.
               rewrite lookup_insert_ne in Hm1 by congruence. auto.
      - eapply marks_dirtyAt; [exact Hm|]. apply dirtyAt_marked. exact H. }
    destruct (parent n) as [p|] eqn:Hpar.
    + apply IH in Hrun1 as [Hm Hp]. apply Hfinish; [exact Hm|].
      intros p' [= <-]. exact Hp.
    + monadInv. apply Hfinish; [apply marks_refl|]. intros p [=].
Qed.

Lemma _CSSNodeMarkDirty_marks r s u s' :
  _CSSNodeMarkDirty r s = Some (u, s') -> marks s s' /\ dirtyAt s' r.
Proof. apply markDirty_steps_marks. Qed.

Lemma marks_lookup s s' r n' :
  marks s s' -> nodes s' !! r = Some n' ->
  exists n, nodes s !! r = Some n /\ (n' = n \/ (isDirty n = false /\ n' = marked n)).
Proof.
  intros Hm Hn'. destruct (marks_node _ _ Hm r) as [Heq | (n & Hn & Hc & Hn2 & _)].
  - exists n'. rewrite <- Heq. auto.
  - exists n. split; [exact Hn|]. right. split; [exact Hc | congruence].
Qed.

Lemma marks_lookup_inv s s' r n :
  marks s s' -> nodes s !! r = Some n ->
  nodes s' !! r = Some n \/ (isDirty n = false /\ nodes s' !! r = Some (marked n)).
Proof.
  intros Hm Hn. destruct (marks_node _ _ Hm r) as [Heq | (m & Hm1 & Hc & Hn2 & _)].
  - left. congruence.
  - right. assert (m = n) as -> by congruence. auto.
Qed.

Lemma marks_parentClosed s s' : marks s s' -> parentClosed s -> parentClosed s'.
Proof.
  intros Hm Hpc r n' p Hn' Hd Hp.
  destruct (marks_node _ _ Hm r) as [Heq | (n & Hn & Hc & Hn2 & Hpar)].
  - rewrite Heq in Hn'. eapply marks_dirtyAt; [exact Hm|]. eapply Hpc; eauto.
  - rewrite Hn2 in Hn'. injection Hn' as <-. apply Hpar. exact Hp.
Qed.

Lemma cleanCount_marked s r n :
  nodes s !! r = Some n -> isDirty n = false ->
  S (cleanCount (set_nodes (insert r (marked n)) s)) = cleanCount s.
Proof.
  intros Hn Hc. unfold cleanCount. cbn [nodes set_nodes].
  rewrite map_filter_insert_False by (cbn; discriminate).
  rewrite map_filter_delete.
  assert (filter (fun kv : CSSNodeRef * CSSNode => isDirty kv.2 = false) (nodes s) !! r
          = Some n) as Hf by (apply map_lookup_filter_Some_2; auto).
  rewrite map_size_delete_Some by eauto.
  assert (size (filter (fun kv : CSSNodeRef * CSSNode => isDirty kv.2 = false) (nodes s)) <> 0)%nat
    as Hne by (apply map_size_ne_0_lookup_2 with r; eauto).
  lia.
Qed.

Lemma cleanCount_le_size s : (cleanCount s <= size (nodes s))%nat.
Proof. unfold cleanCount. apply map_subseteq_size, map_filter_subseteq. Qed.

Lemma parentsAllocated_marked s r n :
  nodes s !! r = Some n -> parentsAllocated s ->
  parentsAllocated (set_nodes (insert r (marked n)) s).
Proof.
  intros Hn Hpa r' n' p Hn' Hp. cbn in *.
  assert (is_Some (nodes s !! p)) as [pn Hpn].
  { destruct (decide (r' = r)) as [-> | Hne].
    - rewrite lookup_insert_eq in Hn'. injection Hn' as <-. eapply Hpa; eauto.
    - rewrite lookup_insert_ne in Hn' by congruence. eapply Hpa; eauto. }
  destruct (decide (p = r)) as [-> | Hne].
  - rewrite lookup_insert_eq. eauto.
  - rewrite lookup_insert_ne by congruence. eauto.
Qed.

(** [_CSSNodeMarkDirty] ends on every store without dangling parent
    reference: the fuel it is given is never used up. *)
Lemma markDirty_steps_total fuel :
  forall r s, parentsAllocated s -> is_Some (nodes s !! r) -> (cleanCount s < fuel)%nat ->
              exists s', markDirty_steps fuel r s = Some (tt, s').
Proof.
  induction fuel as [| fuel IH]; intros r s Hpa [n Hn] Hlt; [lia|].
  cbn. unfold bind at 1. unfold deref at 1. rewrite Hn.
  destruct (isDirty n) eqn:Hd; cbn; [eexists; reflexivity|].
  unfold bind at 1. unfold update at 1. rewrite Hn.
  change (set_layout (set_computedFlexBasis CSSUndefined) (set_isDirty true n))
    with (marked n).
  destruct (parent n) as [p|] eqn:Hp; [|eexists; reflexivity].
  apply IH.
  - apply parentsAllocated_marked; auto.
  - destruct (Hpa r n p Hn Hp) as [pn Hpn]. cbn.
    destruct (decide (p = r)) as [-> | Hne].
    + rewrite lookup_insert_eq. eauto.
    + rewrite lookup_insert_ne by congruence. eauto.
  - pose proof (cleanCount_marked s r n Hn Hd). lia.
Qed.

Lemma _CSSNodeMarkDirty_total r s :
  parentsAllocated s -> is_Some (nodes s !! r) ->
  exists s', _CSSNodeMarkDirty r s = Some (tt, s').
Proof.
  intros Hpa Hr. apply markDirty_steps_total; auto.
  pose proof (cleanCount_le_size s). lia.
Qed.

Lemma marks_parentsAllocated s s' : marks s s' -> parentsAllocated s -> parentsAllocated s'.
Proof.
  intros Hm Hpa r n' p Hn' Hp.
  destruct (marks_lookup _ _ _ _ Hm Hn') as (n & Hn & Hshape).
  assert (parent n = Some p) as Hp' by (destruct Hshape as [-> | [_ ->]]; exact Hp).
  destruct (Hpa r n p Hn Hp') as [pn Hpn].
  destruct (marks_lookup_inv _ _ _ _ Hm Hpn) as [H | [_ H]]; eauto.
Qed.

(** ** The setters *)

Lemma parentsAllocated_set_style s r n f :
  nodes s !! r = Some n -> parentsAllocated s ->
  parentsAllocated (set_nodes (insert r (set_style f n)) s).
Proof.
  intros Hn Hpa r' n' p Hn' Hp. cbn in *.
  assert (is_Some (nodes s !! p)) as [pn Hpn].
  { destruct (decide (r' = r)) as [-> | Hne].
    - rewrite lookup_insert_eq in Hn'. injection Hn' as <-. eapply Hpa; eauto.
    - rewrite lookup_insert_ne in Hn' by congruence. eapply Hpa; eauto. }
  destruct (decide (p = r)) as [-> | Hne].
  - rewrite lookup_insert_eq. eauto.
  - rewrite lookup_insert_ne by congruence. eauto.
Qed.

Lemma marks_style s s' r n :
  marks s s' -> nodes s !! r = Some n ->
  exists n', nodes s' !! r = Some n' /\ style n' = style n.
Proof.
  intros Hm Hn. destruct (marks_lookup_inv _ _ _ _ Hm Hn) as [H | [_ H]]; eauto.
Qed.

(** A setter ends, on a store without dangling parent reference, and assigns
    the field when the value differs from the one it holds. *)
Lemma CSS_NODE_STYLE_PROPERTY_IMPL_total {T} (differs : T -> T -> bool) field assign
    node v s n :
  parentsAllocated s -> nodes s !! node = Some n ->
  exists s',
    CSS_NODE_STYLE_PROPERTY_IMPL differs field assign node v s = Some (tt, s')
    /\ parentsAllocated s'
    /\ exists n', nodes s' !! node = Some n'
                  /\ style n' = if differs (field (style n)) v
                                then assign v (style n) else style n.
Proof.
  intros Hpa Hn. unfold CSS_NODE_STYLE_PROPERTY_IMPL.
  unfold bind at 1. unfold deref at 1. rewrite Hn.
  destruct (differs (field (style n)) v).
  - unfold bind, update. rewrite Hn.
    set (s1 := set_nodes (insert node (set_style (assign v) n)) s).
    assert (parentsAllocated s1) as Hpa1 by (apply parentsAllocated_set_style; auto).
    assert (nodes s1 !! node = Some (set_style (assign v) n)) as Hn1
        by (subst s1; cbn; apply lookup_insert_eq).
    destruct (_CSSNodeMarkDirty_total node s1 Hpa1) as [s' Hs']; [eauto|].
    exists s'. rewrite Hs'. split; [reflexivity|].
    apply _CSSNodeMarkDirty_marks in Hs' as [Hm _].
    split; [eapply marks_parentsAllocated; eauto|].
    destruct (marks_style _ _ _ _ Hm Hn1) as (n' & Hn' & Hst). eauto.
  - exists s. split; [reflexivity|]. split; [exact Hpa|]. eauto.
Qed.

Lemma eqb_after_assign (old new : float) :
  F32.isnan new = false ->
  F32.eqb (if F32.neb old new then new else old) new = true.
Proof.
  intros Hnan. unfold F32.neb. destruct (SFeqb old new) eqn:E; cbn; [exact E|].
  unfold F32.eqb, SFeqb. rewrite SFcompare_refl by exact Hnan. reflexivity.
Qed.

Lemma undefined_after_assign (old : float) :
  CSSValueIsUndefined (if F32.neb old CSSUndefined then CSSUndefined else old) = true.
Proof.
  assert (F32.neb old CSSUndefined = true) as ->; [|reflexivity].
  unfold F32.neb, SFeqb. destruct old; reflexivity.
Qed.

Lemma gt_zero_not_nan (x : float) : F32.gt x F32.zero = true -> F32.isnan x = false.
Proof. destruct x; cbn; auto; discriminate. Qed.

Lemma lt_zero_cases (x : float) :
  F32.lt x F32.zero = true ->
  F32.isnan x = false /\ F32.eqb x F32.zero = false /\ F32.gt x F32.zero = false.
Proof. destruct x as [| [] | | [] ? ?]; cbn; auto; discriminate. Qed.

Lemma isnan_neg (x : float) : F32.isnan (F32.neg x) = F32.isnan x.
Proof. destruct x; reflexivity. Qed.



(** ** Later states of a layout *)

Lemma static_inv n n' :
  static n' = static n ->
  style n' = style n /\ parent n' = parent n /\ children n' = children n
  /\ measure n' = measure n /\ isTextNode n' = isTextNode n.
Proof. unfold static. intros [= -> -> -> -> ->]. auto. Qed.

Lemma nodeStep_refl g n : nodeStep g n n.
Proof. unfold nodeStep. auto. Qed.

Lemma nodeStep_trans g n1 n2 n3 : nodeStep g n1 n2 -> nodeStep g n2 n3 -> nodeStep g n1 n3.
Proof.
  intros (S1 & D1 & G1 & C1) (S2 & D2 & G2 & C2). unfold nodeStep.
  split; [congruence|]. split; [auto|]. split.
  - destruct G2 as [-> | ->]; auto.
  - intros Hd. destruct (C2 Hd) as [H | ->]; auto.
Qed.

Lemma nodeStep_quiet g n n' :
  static n' = static n -> isDirty n' = isDirty n ->
  generationCount (layout n') = generationCount (layout n) ->
  cachedLayout (layout n') = cachedLayout (layout n) ->
  nodeStep g n n'.
Proof. intros Hs Hd Hg Hc. unfold nodeStep. rewrite Hd. auto. Qed.

Lemma evolves_refl s : evolves s s.
Proof.
  split; auto; try tauto.
  intros r n n' Hn Hn'. assert (n' = n) as -> by congruence. apply nodeStep_refl.
Qed.

Lemma evolves_lookup s s' r n :
  evolves s s' -> nodes s !! r = Some n ->
  exists n', nodes s' !! r = Some n' /\ nodeStep (gCurrentGenerationCount s) n n'.
Proof.
  intros He Hn. destruct (nodes s' !! r) as [n'|] eqn:Hn'.
  - exists n'. split; [reflexivity|]. eapply ev_node; eauto.
  - apply (ev_dom _ _ He) in Hn'. congruence.
Qed.

Lemma evolves_lookup_inv s s' r n' :
  evolves s s' -> nodes s' !! r = Some n' ->
  exists n, nodes s !! r = Some n /\ nodeStep (gCurrentGenerationCount s) n n'.
Proof.
  intros He Hn'. destruct (nodes s !! r) as [n|] eqn:Hn.
  - exists n. split; [reflexivity|]. eapply ev_node; eauto.
  - apply (ev_dom _ _ He) in Hn. congruence.
Qed.

Lemma evolves_trans s1 s2 s3 : evolves s1 s2 -> evolves s2 s3 -> evolves s1 s3.
Proof.
  intros H12 H23. split.
  - rewrite (ev_generation _ _ H23). apply (ev_generation _ _ H12).
  - rewrite (ev_nextRef _ _ H23). apply (ev_nextRef _ _ H12).
  - intros r. rewrite (ev_dom _ _ H23). apply (ev_dom _ _ H12).
  - intros r n n'' Hn Hn''.
    destruct (evolves_lookup _ _ _ _ H12 Hn) as (n' & Hn' & Hstep).
    pose proof (ev_node _ _ H23 r n' n'' Hn' Hn'') as Hstep'.
    rewrite (ev_generation _ _ H12) in Hstep'.
    eapply nodeStep_trans; eauto.
Qed.

Lemma evolves_parentOf s s' r : evolves s s' -> parentOf s' r = parentOf s r.
Proof.
  intros He. unfold parentOf. destruct (nodes s !! r) as [n|] eqn:Hn.
  - destruct (evolves_lookup _ _ _ _ He Hn) as (n' & Hn' & Hs & _). rewrite Hn'. cbn.
    apply static_inv in Hs. tauto.
  - apply (ev_dom _ _ He) in Hn. rewrite Hn. reflexivity.
Qed.

Lemma ancestor_parentOf s s' a r :
  (forall r, parentOf s' r = parentOf s r) -> ancestor s a r -> ancestor s' a r.
Proof.
  intros Hp H. induction H as [r H | r p H _ IH].
  - apply ancestor_parent. rewrite Hp. exact H.
  - eapply ancestor_step; [rewrite Hp; exact H | exact IH].
Qed.

Lemma ancestor_evolves s s' a r : evolves s s' -> ancestor s a r <-> ancestor s' a r.
Proof.
  intros He. split; apply ancestor_parentOf; intros r'.
  - apply evolves_parentOf, He.
  - symmetry. apply evolves_parentOf, He.
Qed.

Lemma ancestor_trans s a b c : ancestor s a b -> ancestor s b c -> ancestor s a c.
Proof.
  intros Hab Hbc. induction Hbc as [r H | r p H _ IH].
  - eapply ancestor_step; eauto.
  - eapply ancestor_step; eauto.
Qed.

Lemma cleanAt_evolves s s' r : evolves s s' -> cleanAt s r -> cleanAt s' r.
Proof.
  intros He (n & Hn & Hc).
  destruct (evolves_lookup _ _ _ _ He Hn) as (n' & Hn' & _ & Hd & _).
  exists n'. split; [exact Hn'|]. destruct (isDirty n'); [|reflexivity].
  rewrite Hd in Hc by reflexivity. discriminate.
Qed.

Lemma wellFormed_evolves s s' : evolves s s' -> wellFormed s -> wellFormed s'.
Proof.
  intros He Hwf. split.
  - intros r n' c Hn' Hc.
    destruct (evolves_lookup_inv _ _ _ _ He Hn') as (n & Hn & Hs & _).
    apply static_inv in Hs as (_ & _ & Hch & _).
    rewrite (evolves_parentOf _ _ _ He). eapply wf_children; eauto. congruence.
  - intros c p Hp. rewrite (evolves_parentOf _ _ _ He) in Hp.
    destruct (wf_parent _ Hwf c p Hp) as (pn & Hpn & Hc).
    destruct (evolves_lookup _ _ _ _ He Hpn) as (pn' & Hpn' & Hs & _).
    apply static_inv in Hs as (_ & _ & Hch & _).
    exists pn'. split; [exact Hpn' | congruence].
  - intros r n' Hn'.
    destruct (evolves_lookup_inv _ _ _ _ He Hn') as (n & Hn & Hs & _).
    apply static_inv in Hs as (_ & _ & Hch & _).
    rewrite Hch. eapply wf_NoDup; eauto.
  - intros r Hr. apply (wf_acyclic _ Hwf r). eapply ancestor_evolves; eauto.
  - intros r [n' Hn']. rewrite (ev_nextRef _ _ He).
    destruct (evolves_lookup_inv _ _ _ _ He Hn') as (n & Hn & _).
    apply (wf_fresh _ Hwf). eauto.
  - rewrite (ev_generation _ _ He). apply (wf_generation _ Hwf).
  - intros r n' Hn'. rewrite (ev_generation _ _ He).
    destruct (evolves_lookup_inv _ _ _ _ He Hn') as (n & Hn & _ & _ & Hg & _).
    pose proof (wf_generations _ Hwf r n Hn). pose proof (wf_generation _ Hwf).
    destruct Hg as [-> | ->]; lia.
Qed.

(** The replacement of one node. *)
Lemma evolves_insert s r n n' :
  nodes s !! r = Some n -> nodeStep (gCurrentGenerationCount s) n n' ->
  evolves s (set_nodes (insert r n') s).
Proof.
  intros Hn Hstep. split; cbn; auto.
  - intros r'. destruct (decide (r' = r)) as [-> | Hne].
    + rewrite lookup_insert_eq, Hn. split; discriminate.
    + rewrite lookup_insert_ne by congruence. tauto.
  - intros r' m m' Hm Hm'. destruct (decide (r' = r)) as [-> | Hne].
    + rewrite lookup_insert_eq in Hm'. injection Hm' as <-.
      assert (m = n) as -> by congruence. exact Hstep.
    + rewrite lookup_insert_ne in Hm' by congruence.
      assert (m' = m) as -> by congruence. apply nodeStep_refl.
Qed.

(** ** Steps of the kernel *)

Lemma nextOnly_refl W s : nextOnly W s s.
Proof. intros r _. reflexivity. Qed.

Lemma nextOnly_trans W s1 s2 s3 : nextOnly W s1 s2 -> nextOnly W s2 s3 -> nextOnly W s1 s3.
Proof. intros H12 H23 r Hr. rewrite (H23 r Hr). apply (H12 r Hr). Qed.

Lemma kstep_refl W s : Good s -> kstep W s s.
Proof. intros H. split; [exact H | apply evolves_refl | apply nextOnly_refl]. Qed.

Lemma kstep_trans W s1 s2 s3 : kstep W s1 s2 -> kstep W s2 s3 -> kstep W s1 s3.
Proof.
  intros H12 H23. split.
  - apply (ks_good _ _ _ H23).
  - eapply evolves_trans; [apply (ks_evolves _ _ _ H12) | apply (ks_evolves _ _ _ H23)].
  - eapply nextOnly_trans; [apply (ks_next _ _ _ H12) | apply (ks_next _ _ _ H23)].
Qed.

Lemma kstep_weaken (W W' : CSSNodeRef -> Prop) s s' :
  (forall r, W r -> W' r) -> kstep W s s' -> kstep W' s s'.
Proof.
  intros HW H. split; [apply (ks_good _ _ _ H) | apply (ks_evolves _ _ _ H) |].
  intros r Hr. apply (ks_next _ _ _ H). auto.
Qed.

(** The replacement of a node by one that differs in fields the invariant
    is not about. *)
Lemma kstep_insert W s r n n' :
  Good s -> nodes s !! r = Some n ->
  static n' = static n -> isDirty n' = isDirty n ->
  generationCount (layout n') = generationCount (layout n) ->
  cachedLayout (layout n') = cachedLayout (layout n) ->
  W r \/ nextChild n' = nextChild n ->
  kstep W s (set_nodes (insert r n') s).
Proof.
  intros Hgood Hn Hs Hd Hg Hc Hnext.
  assert (evolves s (set_nodes (insert r n') s)) as He
      by (apply evolves_insert with n; auto using nodeStep_quiet).
  split; [|exact He|].
  - split.
    + eapply wellFormed_evolves; [exact He | apply (good_wf _ Hgood)].
    + intros r' m Hm Hdirty Hgen. cbn in *. destruct (decide (r' = r)) as [-> | Hne].
      * rewrite lookup_insert_eq in Hm. injection Hm as <-. rewrite Hc.
        apply (good_visited _ Hgood r n Hn); congruence.
      * rewrite lookup_insert_ne in Hm by congruence.
        apply (good_visited _ Hgood r' m Hm); auto.
    + intros r' m p Hm Hdirty Hp. cbn in Hm.
      assert (exists m0, nodes s !! r' = Some m0 /\ isDirty m0 = true /\ parent m0 = Some p)
        as (m0 & Hm0 & Hd0 & Hp0).
      { destruct (decide (r' = r)) as [-> | Hne].
        - rewrite lookup_insert_eq in Hm. injection Hm as <-.
          apply static_inv in Hs as (_ & Hpar & _).
          exists n. split; [exact Hn|]. split; congruence.
        - rewrite lookup_insert_ne in Hm by congruence. eauto. }
      destruct (good_closed _ Hgood r' m0 p Hm0 Hd0 Hp0) as (pn & Hpn & Hpd).
      destruct (decide (p = r)) as [-> | Hne].
      * exists n'. cbn. rewrite lookup_insert_eq. split; [reflexivity|]. congruence.
      * exists pn. cbn. rewrite lookup_insert_ne by congruence. auto.
  - intros r' Hr'. cbn. destruct (decide (r' = r)) as [-> | Hne].
    + rewrite lookup_insert_eq, Hn. cbn. destruct Hnext as [HW | ->]; [tauto | reflexivity].
    + rewrite lookup_insert_ne by congruence. reflexivity.
Qed.

Lemma kstep_update W s r f u s' :
  update r f s = Some (u, s') -> Good s -> quiet f ->
  W r \/ (forall n, nextChild (f n) = nextChild n) ->
  kstep W s s'.
Proof.
  intros Hrun Hgood Hq Hnext. apply update_Some in Hrun as (n & Hn & ->).
  destruct (Hq n) as (Hs & Hd & Hg & Hc).
  apply kstep_insert with n; auto. destruct Hnext; auto.
Qed.

Lemma quiet_assign_position e v : quiet (assign_position e v).
Proof. intros n. repeat split. Qed.

Lemma quiet_assign_measured d v : quiet (assign_measured d v).
Proof. intros n. repeat split. Qed.

Lemma quiet_assign_computedFlexBasis v : quiet (assign_computedFlexBasis v).
Proof. intros n. repeat split. Qed.

Lemma quiet_set_layout_direction v : quiet (set_layout (set_layout_direction v)).
Proof. intros n. repeat split. Qed.

Lemma quiet_set_lineIndex v : quiet (set_lineIndex v).
Proof. intros n. repeat split. Qed.

Lemma quiet_set_nextChild v : quiet (set_nextChild v).
Proof. intros n. repeat split. Qed.

(** ** Computations that keep the invariant *)

Lemma preserves_ret s0 W {A} (a : A) : preserves s0 W (ret a).
Proof. intros s b s' H%ret_Some Hg _. destruct H as [_ ->]. apply kstep_refl, Hg. Qed.

Lemma preserves_fail s0 W {A} : preserves s0 W (@fail A).
Proof. intros s b s' H%fail_Some. destruct H. Qed.

Lemma preserves_bind s0 W {A B} (c : M A) (k : A -> M B) :
  preserves s0 W c -> (forall a, preserves s0 W (k a)) -> preserves s0 W (bind c k).
Proof.
  intros Hc Hk s b s' H Hg He. apply bind_Some in H as (a & s1 & H1 & H2).
  pose proof (Hc _ _ _ H1 Hg He) as K1.
  eapply kstep_trans; [exact K1|].
  apply (Hk a _ _ _ H2 (ks_good _ _ _ K1)).
  eapply evolves_trans; [exact He | apply (ks_evolves _ _ _ K1)].
Qed.

Lemma preserves_deref s0 W r : preserves s0 W (deref r).
Proof. intros s b s' H%deref_Some Hg _. destruct H as [_ ->]. apply kstep_refl, Hg. Qed.

Lemma preserves_CSS_ASSERT s0 W X : preserves s0 W (CSS_ASSERT X).
Proof. intros s b s' H%CSS_ASSERT_Some Hg _. destruct H as [_ ->]. apply kstep_refl, Hg. Qed.

Lemma preserves_update s0 W r f :
  quiet f -> W r \/ (forall n, nextChild (f n) = nextChild n) -> preserves s0 W (update r f).
Proof. intros Hq Hn s b s' H Hg _. eapply kstep_update; eauto. Qed.

Lemma preserves_when s0 W b c : preserves s0 W c -> preserves s0 W (when b c).
Proof. intros Hc. destruct b; [exact Hc | apply preserves_ret]. Qed.

Lemma preserves_foldM s0 W {A S} (f : S -> A -> M S) l :
  (forall acc a, a ∈ l -> preserves s0 W (f acc a)) -> forall acc, preserves s0 W (foldM f acc l).
Proof.
  induction l as [|a l IH]; intros Hf acc; cbn.
  - apply preserves_ret.
  - apply preserves_bind.
    + apply Hf. left.
    + intros acc'. apply IH. intros acc0 a0 Ha0. apply Hf. right. exact Ha0.
Qed.

Lemma preserves_forM s0 W {A} (f : A -> M unit) l :
  (forall a, a ∈ l -> preserves s0 W (f a)) -> preserves s0 W (forM l f).
Proof. intros Hf. apply preserves_foldM. intros _ a Ha. apply Hf, Ha. Qed.

Lemma preserves_call s0 W rec child aw ah pd wm hm pl :
  layoutSpec rec -> covers W s0 child -> preserves s0 W (rec child aw ah pd wm hm pl).
Proof.
  intros Hrec Hcov s b s' H Hg He.
  destruct (Hrec _ _ _ _ _ _ _ _ _ _ H Hg) as [K _].
  eapply kstep_weaken; [|exact K].
  intros r Hr. apply Hcov. eapply ancestor_evolves; eauto.
Qed.

(** Decomposes a goal [preserves] along the structure of the computation. *)
Ltac preserves_step :=
  match goal with
  | |- preserves _ _ (bind _ _) => apply preserves_bind; [|intros ?]
  | |- preserves _ _ (ret _) => apply preserves_ret
  | |- preserves _ _ fail => apply preserves_fail
  | |- preserves _ _ (deref _) => apply preserves_deref
  | |- preserves _ _ (CSS_ASSERT _) => apply preserves_CSS_ASSERT
  | |- preserves _ _ (when _ _) => apply preserves_when
  | |- preserves _ _ (update _ (assign_position _ _)) =>
      apply preserves_update; [apply quiet_assign_position | right; reflexivity]
  | |- preserves _ _ (update _ (assign_measured _ _)) =>
      apply preserves_update; [apply quiet_assign_measured | right; reflexivity]
  | |- preserves _ _ (update _ (assign_computedFlexBasis _)) =>
      apply preserves_update; [apply quiet_assign_computedFlexBasis | right; reflexivity]
  | |- preserves _ _ (update _ (set_lineIndex _)) =>
      apply preserves_update; [apply quiet_set_lineIndex | right; reflexivity]
  | |- preserves _ _ (update _ (set_layout (set_layout_direction _))) =>
      apply preserves_update; [apply quiet_set_layout_direction | right; reflexivity]
  | |- preserves _ _ (if ?b then _ else _) => destruct b
  | |- preserves _ _ (match ?x with _ => _ end) => destruct x
  | |- preserves _ _ (let (_, _) := ?x in _) => destruct x
  end.

Lemma setTrailingPosition_preserves s0 W node child axis :
  preserves s0 W (setTrailingPosition node child axis).
Proof. unfold setTrailingPosition. repeat preserves_step. Qed.

Lemma setPosition_preserves s0 W node direction :
  preserves s0 W (setPosition node direction).
Proof. unfold setPosition. repeat preserves_step. Qed.

Lemma computeChildFlexBasis_preserves s0 W rec node child w wm h hm direction :
  layoutSpec rec -> covers W s0 child ->
  preserves s0 W (computeChildFlexBasis rec node child w wm h hm direction).
Proof.
  intros Hrec Hcov. unfold computeChildFlexBasis.
  repeat first [apply preserves_call; [exact Hrec | exact Hcov] | preserves_step].
Qed.

Lemma absoluteLayoutChild_preserves s0 W rec node child w wm direction :
  layoutSpec rec -> covers W s0 child ->
  preserves s0 W (absoluteLayoutChild rec node child w wm direction).
Proof.
  intros Hrec Hcov. unfold absoluteLayoutChild.
  repeat first [apply preserves_call; [exact Hrec | exact Hcov] | preserves_step].
Qed.

(** [absoluteLayoutChild] leaves the child clean. *)
Lemma absoluteLayoutChild_clean rec node child w wm direction s u s' :
  layoutSpec rec -> Good s ->
  absoluteLayoutChild rec node child w wm direction s = Some (u, s') ->
  cleanAt s' child.
Proof.
  intros Hrec Hg H. unfold absoluteLayoutChild in H.
  apply bind_Some in H as (n & s1 & Hn & H). apply deref_Some in Hn as [Hn ->].
  apply bind_Some in H as (c & s1 & Hc & H). apply deref_Some in Hc as [Hc ->].
  apply bind_Some in H as ([cw ch] & s1 & H1 & H).
  assert (kstep (fun _ => True) s s1) as K1.
  { match type of H1 with ?c _ = _ => assert (preserves s (fun _ => True) c) as P end.
    { repeat first [apply preserves_call; [exact Hrec | intros r _; exact I] | preserves_step]. }
    apply (P _ _ _ H1 Hg (evolves_refl s)). }
  apply bind_Some in H as (b & s2 & H2 & H).
  destruct (Hrec _ _ _ _ _ _ _ _ _ _ H2 (ks_good _ _ _ K1)) as [K2 Hclean].
  specialize (Hclean eq_refl).
  match type of H with ?c _ = _ => assert (preserves s2 (fun _ => True) c) as P end.
  { repeat preserves_step. }
  pose proof (P _ _ _ H (ks_good _ _ _ K2) (evolves_refl s2)) as K3.
  eapply cleanAt_evolves; [apply (ks_evolves _ _ _ K3) | exact Hclean].
Qed.

(** ** The forest and the private lists *)

Lemma ancestor_inv s a r p :
  ancestor s a r -> parentOf s r = Some p -> a = p \/ ancestor s a p.
Proof.
  intros H Hp. inversion H as [r' H' | r' p' H' H'']; subst;
    rewrite Hp in H'; injection H' as ->; auto.
Qed.

(** A child of a node is not below another child of it, or below itself. *)
Lemma sibling_not_under s X c c' :
  wellFormed s -> parentOf s c = Some X -> parentOf s c' = Some X -> ~ ancestor s c' c.
Proof.
  intros Hwf Hc Hc' H. apply (wf_acyclic _ Hwf X).
  destruct (ancestor_inv _ _ _ _ H Hc) as [-> | HX].
  - apply ancestor_parent. exact Hc'.
  - eapply ancestor_trans; [apply ancestor_parent; exact Hc' | exact HX].
Qed.

Lemma chain_ext s s' first l :
  chain s first l ->
  (forall c, c ∈ l -> nextChild <$> nodes s' !! c = nextChild <$> nodes s !! c) ->
  chain s' first l.
Proof.
  intros Hch. induction Hch as [|c n l Hc Hch IH]; intros Hn.
  - constructor.
  - pose proof (Hn c ltac:(left)) as E. rewrite Hc in E. cbn in E.
    apply fmap_Some in E as (n' & Hn' & E).
    apply chain_cons with n'; [exact Hn'|]. rewrite <- E.
    apply IH. intros c' Hc'. apply Hn. right. exact Hc'.
Qed.

Lemma chain_nextOnly W s s' first l :
  chain s first l -> nextOnly W s s' -> (forall c, c ∈ l -> ~ W c) -> chain s' first l.
Proof. intros Hch Hn HW. eapply chain_ext; [exact Hch|]. intros c Hc. apply Hn, HW, Hc. Qed.

Lemma chain_None_inv s l : chain s None l -> l = [].
Proof. intros H. inversion H. reflexivity. Qed.

Lemma chain_Some_inv s c l :
  chain s (Some c) l ->
  exists n l', l = c :: l' /\ nodes s !! c = Some n /\ chain s (nextChild n) l'.
Proof. intros H. inversion H; subst. eauto. Qed.

(** The effect of [append_nextChild] on the list that ends in [current]. *)
Lemma append_nextChild_chain s s' child first l :
  chain s first l ->
  append_nextChild (last l) child s = Some (tt, s') ->
  NoDup (l ++ [child]) ->
  chain s' (first_or first child) (l ++ [child]).
Proof.
  intros Hch. induction Hch as [|c n l Hc Hch IH]; intros Happ Hnd.
  - unfold append_nextChild in Happ. cbn [last] in Happ. cbn [app first_or].
    apply bind_Some in Happ as (u & s1 & H1 & H2). apply ret_Some in H1 as [_ ->].
    apply update_Some in H2 as (nc & Hnc & ->).
    apply chain_cons with (set_nextChild None nc).
    + cbn. apply lookup_insert_eq.
    + cbn. constructor.
  - cbn [app] in Hnd. apply NoDup_cons in Hnd as [Hc_notin Hnd].
    assert (c <> child) as Hcc.
    { intros ->. apply Hc_notin. apply elem_of_app. right. left. }
    destruct l as [|c2 l'].
    + inversion Hch as [E|]; subst.
      unfold append_nextChild in Happ. cbn [last] in Happ. cbn [app first_or].
      apply bind_Some in Happ as (u & s1 & H1 & H2).
      apply update_Some in H1 as (n1 & Hn1 & ->).
      apply update_Some in H2 as (nc & Hnc & ->).
      cbn in Hnc. rewrite lookup_insert_ne in Hnc by exact Hcc.
      assert (n1 = n) as -> by congruence.
      apply chain_cons with (set_nextChild (Some child) n).
      * cbn. rewrite lookup_insert_ne by congruence. apply lookup_insert_eq.
      * cbn. apply chain_cons with (set_nextChild None nc).
        -- cbn. apply lookup_insert_eq.
        -- cbn. constructor.
    + assert (last (c :: c2 :: l') = last (c2 :: l')) as El by reflexivity.
      rewrite El in Happ. specialize (IH Happ Hnd).
      assert (exists c2', nextChild n = Some c2') as [c2' Enext].
      { inversion Hch; subst. eauto. }
      rewrite Enext in IH. cbn [first_or] in IH. cbn [first_or app].
      assert (exists n', nodes s' !! c = Some n' /\ nextChild n' = nextChild n)
        as (n' & Hn' & En').
      { assert (exists cur, last (c2 :: l') = Some cur /\ cur ∈ c2 :: l') as (cur & Ecur & Hin).
        { destruct (last (c2 :: l')) as [cur|] eqn:E.
          - exists cur. split; [reflexivity|]. apply last_Some in E as [l0 ->].
            apply elem_of_app. right. left.
          - apply last_None in E. discriminate. }
        assert (c <> cur) as Hccur.
        { intros ->. apply Hc_notin. apply elem_of_app. left. exact Hin. }
        rewrite Ecur in Happ. unfold append_nextChild in Happ.
        apply bind_Some in Happ as (u & s1 & H1 & H2).
        apply update_Some in H1 as (n1 & Hn1 & ->).
        apply update_Some in H2 as (nc & Hnc & ->).
        exists n. split; [|reflexivity]. cbn.
        rewrite !lookup_insert_ne by congruence. exact Hc. }
      apply chain_cons with n'; [exact Hn'|]. rewrite En', Enext. exact IH.
Qed.

Lemma append_nextChild_preserves s0 (W : CSSNodeRef -> Prop) current child :
  W child -> (forall cur, current = Some cur -> W cur) ->
  preserves s0 W (append_nextChild current child).
Proof.
  intros Hc Hcur. unfold append_nextChild. apply preserves_bind.
  - destruct current as [cur|]; [|apply preserves_ret].
    apply preserves_update; [apply quiet_set_nextChild | left; auto].
  - intros _. apply preserves_update; [apply quiet_set_nextChild | left; auto].
Qed.

Lemma relativeIn_evolves s0 s r n :
  evolves s0 s -> nodes s !! r = Some n -> relativeIn s0 r = isRelative n.
Proof.
  intros He Hn. destruct (evolves_lookup_inv _ _ _ _ He Hn) as (n0 & Hn0 & Hs & _).
  unfold relativeIn. rewrite Hn0. apply static_inv in Hs as (Hst & _).
  unfold isRelative. rewrite Hst. reflexivity.
Qed.

Lemma absoluteIn_evolves s0 s r n :
  evolves s0 s -> nodes s !! r = Some n ->
  absoluteIn s0 r = same (positionType (style n)) CSSPositionTypeAbsolute.
Proof.
  intros He Hn. destruct (evolves_lookup_inv _ _ _ _ He Hn) as (n0 & Hn0 & Hs & _).
  unfold absoluteIn. rewrite Hn0. apply static_inv in Hs as (Hst & _).
  rewrite Hst. reflexivity.
Qed.

Lemma stretchedIn_evolves s0 s node crossAxis r n :
  evolves s0 s -> nodes s !! r = Some n ->
  stretchedIn s0 node crossAxis r = requiresStretchLayout node crossAxis n.
Proof.
  intros He Hn. destruct (evolves_lookup_inv _ _ _ _ He Hn) as (n0 & Hn0 & Hs & _).
  unfold stretchedIn. rewrite Hn0. apply static_inv in Hs as (Hst & _).
  unfold requiresStretchLayout, isStyleDimDefined, getAlignItem. rewrite Hst. reflexivity.
Qed.

Lemma chain_update s r f u s1 first l :
  update r f s = Some (u, s1) -> (forall n, nextChild (f n) = nextChild n) ->
  chain s first l -> chain s1 first l.
Proof.
  intros H Hf Hch. apply update_Some in H as (n & Hn & ->).
  eapply chain_ext; [exact Hch|]. intros c _. cbn.
  destruct (decide (c = r)) as [-> | Hne].
  - rewrite lookup_insert_eq, Hn. cbn. rewrite Hf. reflexivity.
  - rewrite lookup_insert_ne by congruence. reflexivity.
Qed.

(** STEP 4 appends the relative children of the line to the private list. *)
Lemma collectLine_spec s0 (W : CSSNodeRef -> Prop) mainAxis avail wrap lineCount rest :
  forall acc L0 s items s',
    collectLine mainAxis avail wrap lineCount rest acc s = Some (items, s') ->
    Good s -> evolves s0 s ->
    chain s (firstRelativeChild acc) L0 -> currentRelativeChild acc = last L0 ->
    NoDup (L0 ++ rest) ->
    (forall c, c ∈ L0 -> W c) ->
    (forall c, c ∈ rest -> relativeIn s0 c = true -> W c) ->
    exists k, endOfLineIndex items = (endOfLineIndex acc + k)%nat
              /\ kstep W s s'
              /\ chain s' (firstRelativeChild items)
                   (L0 ++ List.filter (relativeIn s0) (take k rest)).
Proof.
  induction rest as [|child rest' IH]; intros acc L0 s items s' H Hg He Hch Hcur Hnd HW0 HW.
  - cbn in H. apply ret_Some in H as [-> ->]. exists 0%nat.
    split; [lia|]. split; [apply kstep_refl, Hg|]. cbn. rewrite app_nil_r. exact Hch.
  - cbn [collectLine] in H.
    apply bind_Some in H as (u & s1 & H1 & H).
    assert (kstep W s s1) as K1.
    { eapply kstep_update; [exact H1 | exact Hg | apply quiet_set_lineIndex | right; reflexivity]. }
    pose proof (chain_update _ _ _ _ _ _ _ H1 ltac:(reflexivity) Hch) as Hch1.
    assert (evolves s0 s1) as He1
        by (eapply evolves_trans; [exact He | apply (ks_evolves _ _ _ K1)]).
    apply bind_Some in H as (c & s1' & Hc & H). apply deref_Some in Hc as [Hc ->].
    pose proof (relativeIn_evolves _ _ _ _ He1 Hc) as Hrel. unfold isRelative in Hrel.
    destruct (differ (positionType (style c)) CSSPositionTypeAbsolute).
    + match type of H with (if ?b then _ else _) _ = _ => destruct b end.
      * apply ret_Some in H as [-> ->]. exists 0%nat.
        split; [lia|]. split; [exact K1|]. cbn. rewrite app_nil_r. exact Hch1.
      * apply bind_Some in H as ([] & s2 & H2 & H3).
        assert (kstep W s1 s2) as K2.
        { eapply (append_nextChild_preserves s0 W); [| |exact H2|apply (ks_good _ _ _ K1)|exact He1].
          - apply HW; [left | exact Hrel].
          - intros cur Ecur. apply HW0. rewrite Hcur in Ecur.
            apply last_Some in Ecur as [l0 ->]. apply elem_of_app. right. left. }
        assert (NoDup (L0 ++ [child]) /\ NoDup ((L0 ++ [child]) ++ rest')) as [Hnd1 Hnd2].
        { rewrite <- app_assoc. cbn. split; [|exact Hnd].
          apply NoDup_app in Hnd as (N1 & N2 & N3). apply NoDup_app.
          split; [exact N1|]. split; [|apply NoDup_singleton].
          intros x Hx Hx'. apply (N2 x Hx). apply list_elem_of_singleton in Hx' as ->. left. }
        rewrite Hcur in H2.
        pose proof (append_nextChild_chain _ _ _ _ _ Hch1 H2 Hnd1) as Hch2.
        eapply IH in H3 as (k & Ek & K3 & Hch3);
          [| apply (ks_good _ _ _ K2)
           | eapply evolves_trans; [exact He1 | apply (ks_evolves _ _ _ K2)]
           | exact Hch2 | cbn; symmetry; apply last_snoc | exact Hnd2 | | ].
        -- exists (S k). cbn in Ek. split; [lia|].
           split; [eapply kstep_trans; [exact K1|]; eapply kstep_trans; eauto|].
           cbn [take List.filter]. rewrite Hrel. cbn in Hch3.
           rewrite <- app_assoc in Hch3. exact Hch3.
        -- intros x Hx. apply elem_of_app in Hx as [Hx | Hx]; [auto|].
           apply list_elem_of_singleton in Hx as ->. apply HW; [left | exact Hrel].
        -- intros x Hx. apply HW. right. exact Hx.
    + eapply IH in H as (k & Ek & K3 & Hch3);
        [| apply (ks_good _ _ _ K1) | exact He1 | exact Hch1 | exact Hcur | | exact HW0 | ].
      * exists (S k). cbn in Ek. split; [lia|].
        split; [eapply kstep_trans; eauto|].
        cbn [take List.filter]. rewrite Hrel. exact Hch3.
      * apply NoDup_app in Hnd as (N1 & N2 & N3). apply NoDup_app.
        split; [exact N1|]. split; [|apply NoDup_cons in N3; tauto].
        intros x Hx Hx'. apply (N2 x Hx). right. exact Hx'.
      * intros x Hx. apply HW. right. exact Hx.
Qed.

(** The first pass of STEP 5 only reads. *)
Lemma flexFirstPass_state mainAxis rfs tfs tfg bound :
  forall cur acc s r s',
    flexFirstPass mainAxis rfs tfs tfg bound cur acc s = Some (r, s') -> s' = s.
Proof.
  induction bound as [|bound IH]; intros cur acc s r s' H; destruct cur as [cur|]; cbn in H.
  - apply fail_Some in H. destruct H.
  - apply ret_Some in H. tauto.
  - apply bind_Some in H as (c & s1 & Hc & H). apply deref_Some in Hc as [_ ->].
    destruct acc as [[d1 d2] d3]. apply IH in H. exact H.
  - apply ret_Some in H. tauto.
Qed.

(** The second pass of STEP 5 lays out every child of the private list, and
    leaves clean the ones it asks a layout of. *)
Lemma flexSecondPass_spec rec s0 (W : CSSNodeRef -> Prop) X node mainAxis crossAxis direction
    pl wm hm aic rfs tfs tfg :
  layoutSpec rec ->
  forall bound cur delta L s r s',
    flexSecondPass rec node mainAxis crossAxis direction pl wm hm aic rfs tfs tfg
      bound cur delta s = Some (r, s') ->
    Good s -> evolves s0 s -> chain s cur L ->
    (forall c, c ∈ L -> parentOf s0 c = Some X) ->
    (forall c, c ∈ L -> covers W s0 c) ->
    kstep W s s'
    /\ (pl = true ->
        forall c, c ∈ L -> stretchedIn s0 node crossAxis c = false -> cleanAt s' c).
Proof.
  intros Hrec. induction bound as [|bound IH]; intros cur delta L s r s' H Hg He Hch HX HW;
    destruct cur as [cur|]; cbn [flexSecondPass] in H.
  - apply fail_Some in H. destruct H.
  - apply ret_Some in H as [_ ->]. apply chain_None_inv in Hch as ->.
    split; [apply kstep_refl, Hg|]. intros _ c Hc. inversion Hc.
  - apply chain_Some_inv in Hch as Hinv. destruct Hinv as (n & L' & -> & Hn & Hch').
    apply bind_Some in H as (c & s1 & Hc & H). apply deref_Some in Hc as [Hc ->].
    assert (c = n) as -> by congruence.
    match type of H with
    | (match ?x with _ => _ end) _ = _ => destruct x as [[[cw cwm] ch] chm]
    end.
    apply bind_Some in H as (b & s1 & H1 & H).
    destruct (Hrec _ _ _ _ _ _ _ _ _ _ H1 Hg) as [K1 Hclean].
    assert (wellFormed s) as Hwf by apply (good_wf _ Hg).
    assert (forall c, c ∈ cur :: L' -> ~ ancestor s cur c) as Hsib.
    { intros c Hc'. apply (sibling_not_under s X); [exact Hwf | |].
      - rewrite (evolves_parentOf _ _ _ He). apply HX, Hc'.
      - rewrite (evolves_parentOf _ _ _ He). apply HX. left. }
    pose proof (chain_nextOnly _ _ _ _ _ Hch (ks_next _ _ _ K1) Hsib) as Hch1.
    apply bind_Some in H as (c1 & s1' & Hc1 & H). apply deref_Some in Hc1 as [Hc1 ->].
    apply chain_Some_inv in Hch1 as (n1 & L1 & [= <-] & Hn1 & Hch1).
    assert (c1 = n1) as -> by congruence.
    assert (evolves s0 s1) as He1
        by (eapply evolves_trans; [exact He | apply (ks_evolves _ _ _ K1)]).
    eapply IH in H as [K2 Hpost];
      [| apply (ks_good _ _ _ K1) | exact He1 | exact Hch1
       | intros x Hx; apply HX; right; exact Hx
       | intros x Hx; apply HW; right; exact Hx].
    split.
    + eapply kstep_trans; [|exact K2]. eapply kstep_weaken; [|exact K1].
      intros x Hx. apply (HW cur ltac:(left)).
      apply (ancestor_evolves s0 s cur x He). exact Hx.
    + intros -> x Hx Hstr. apply elem_of_cons in Hx as [-> | Hx]; [|auto].
      eapply cleanAt_evolves; [apply (ks_evolves _ _ _ K2)|]. apply Hclean.
      rewrite (stretchedIn_evolves _ _ _ _ _ _ He Hn) in Hstr.
      unfold requiresStretchLayout in Hstr. rewrite Hstr. reflexivity.
  - apply ret_Some in H as [_ ->]. apply chain_None_inv in Hch as ->.
    split; [apply kstep_refl, Hg|]. intros _ c Hc. inversion Hc.
Qed.

Lemma foldM_post s0 W {A S} (f : S -> A -> M S) (Q : A -> State -> Prop) l :
  (forall a s s', evolves s s' -> Q a s -> Q a s') ->
  (forall acc a s acc' s',
      a ∈ l -> f acc a s = Some (acc', s') -> Good s -> evolves s0 s ->
      kstep W s s' /\ Q a s') ->
  forall acc s r s',
    foldM f acc l s = Some (r, s') -> Good s -> evolves s0 s ->
    kstep W s s' /\ forall a, a ∈ l -> Q a s'.
Proof.
  intros Hstable. induction l as [|a l IH]; intros Hf acc s r s' H Hg He; cbn in H.
  - apply ret_Some in H as [_ ->]. split; [apply kstep_refl, Hg|]. intros a Ha. inversion Ha.
  - apply bind_Some in H as (acc1 & s1 & H1 & H).
    destruct (Hf _ _ _ _ _ ltac:(left) H1 Hg He) as [K1 Q1].
    eapply IH in H as [K2 Q2];
      [| intros acc0 a0 t acc0' t' Ha0; apply Hf; right; exact Ha0
       | apply (ks_good _ _ _ K1)
       | eapply evolves_trans; [exact He | apply (ks_evolves _ _ _ K1)]].
    split; [eapply kstep_trans; eauto|].
    intros x Hx. apply elem_of_cons in Hx as [-> | Hx]; [|auto].
    eapply Hstable; [apply (ks_evolves _ _ _ K2) | exact Q1].
Qed.

Lemma placeOnMainAxis_preserves s0 W node mainAxis crossAxis pl canSkipFlex between aic line init :
  preserves s0 W
    (placeOnMainAxis node mainAxis crossAxis pl canSkipFlex between aic line init).
Proof.
  unfold placeOnMainAxis. apply preserves_foldM. intros [mainDim crossDim] child _.
  repeat preserves_step.
Qed.

Lemma lineExtent_preserves s0 W crossAxis i rest :
  forall ii lineHeight, preserves s0 W (lineExtent crossAxis i rest ii lineHeight).
Proof.
  induction rest as [|child rest IH]; intros ii lineHeight; cbn [lineExtent].
  - apply preserves_ret.
  - repeat first [apply IH | preserves_step].
Qed.

Lemma alignLines_preserves s0 W node childList crossAxis lineCount aic total lead :
  preserves s0 W (alignLines node childList crossAxis lineCount aic total lead).
Proof.
  unfold alignLines.
  match goal with |- preserves _ _ (let '(_, _) := ?x in _) => destruct x as [crossDimLead currentLead] end.
  apply preserves_bind; [|intros ?; apply preserves_ret].
  apply preserves_foldM. intros [startIndex lead'] i _.
  apply preserves_bind; [apply lineExtent_preserves|]. intros [endIndex lineHeight].
  apply preserves_bind; [|intros ?; apply preserves_ret].
  apply preserves_forM. intros child _. repeat preserves_step.
Qed.

Lemma setTrailingPositions_preserves s0 W node childList mainAxis crossAxis :
  preserves s0 W (setTrailingPositions node childList mainAxis crossAxis).
Proof.
  unfold setTrailingPositions. apply preserves_when, preserves_forM. intros child _.
  apply preserves_bind; [|intros ?]; apply preserves_when, setTrailingPosition_preserves.
Qed.

Lemma isStyleDimDefined_cross c mainAxis direction :
  isStyleDimDefined c (getCrossFlexDirection mainAxis direction)
  = (isRowDirection mainAxis && isStyleDimDefined c CSSFlexDirectionColumn)
    || (negb (isRowDirection mainAxis) && isStyleDimDefined c CSSFlexDirectionRow).
Proof. destruct mainAxis, direction; cbn; rewrite ?orb_false_r; reflexivity. Qed.

(** STEP 7 lays out the stretched children of the line. *)
Lemma alignOnCrossAxis_spec rec s0 (W : CSSNodeRef -> Prop) node mainAxis direction
    lead crossDim container total line :
  layoutSpec rec -> (forall c, c ∈ line -> covers W s0 c) ->
  forall s u s',
    alignOnCrossAxis rec node mainAxis (getCrossFlexDirection mainAxis direction) direction
      lead crossDim container total line s = Some (u, s') ->
    Good s -> evolves s0 s ->
    kstep W s s'
    /\ forall c, c ∈ line -> relativeIn s0 c = true ->
                 stretchedIn s0 node (getCrossFlexDirection mainAxis direction) c = true ->
                 cleanAt s' c.
Proof.
  intros Hrec Hcov s u s' H Hg He. unfold alignOnCrossAxis, forM in H.
  eapply (foldM_post s0 W _
            (fun c t => relativeIn s0 c = true ->
                        stretchedIn s0 node (getCrossFlexDirection mainAxis direction) c = true ->
                        cleanAt t c)) in H; [exact H | | | exact Hg | exact He].
  - intros c t t' Ht Hq Hr Hs. eapply cleanAt_evolves; eauto.
  - clear H s s' Hg He u. intros [] child s [] s' Hin H Hg He. split.
    + cbn beta in H.
      match type of H with ?c _ = _ => assert (preserves s0 W c) as P end.
      { repeat first [apply preserves_call; [exact Hrec | apply Hcov, Hin] | preserves_step]. }
      exact (P _ _ _ H Hg He).
    + intros Hrel Hstr.
      apply bind_Some in H as (c & s1 & Hc & H). apply deref_Some in Hc as [Hc ->].
      rewrite (relativeIn_evolves _ _ _ _ He Hc) in Hrel.
      rewrite (stretchedIn_evolves _ _ _ _ _ _ He Hc) in Hstr.
      unfold isRelative, differ in Hrel. apply negb_true_iff in Hrel. rewrite Hrel in H.
      unfold requiresStretchLayout in Hstr. apply andb_true_iff in Hstr as [Hdim Hal].
      rewrite Hal in H. rewrite isStyleDimDefined_cross in Hdim.
      apply negb_true_iff in Hdim. rewrite Hdim in H. cbn [negb when] in H.
      apply bind_Some in H as (lc & s2 & H1 & H).
      match type of H1 with
      | (match ?x with _ => _ end) _ = _ => destruct x as [cw ch]
      end.
      apply bind_Some in H1 as ([] & s3 & H1 & H3). apply ret_Some in H3 as [_ ->].
      apply bind_Some in H1 as (b & s4 & H1 & H3). apply ret_Some in H3 as [_ ->].
      destruct (Hrec _ _ _ _ _ _ _ _ _ _ H1 Hg) as [K1 Hclean]. specialize (Hclean eq_refl).
      match type of H with ?c _ = _ => assert (preserves s4 (fun _ => True) c) as P end.
      { repeat preserves_step. }
      pose proof (P _ _ _ H (ks_good _ _ _ K1) (evolves_refl s4)) as K3.
      eapply cleanAt_evolves; [apply (ks_evolves _ _ _ K3) | exact Hclean].
Qed.

Lemma elem_of_drop_in {A} (x : A) n l : x ∈ drop n l -> x ∈ l.
Proof. intros H. rewrite <- (take_drop n l). apply elem_of_app. right. exact H. Qed.

Lemma elem_of_take_in {A} (x : A) n l : x ∈ take n l -> x ∈ l.
Proof. intros H. rewrite <- (take_drop n l). apply elem_of_app. left. exact H. Qed.

Lemma NoDup_drop_in {A} n (l : list A) : NoDup l -> NoDup (drop n l).
Proof. intros H. rewrite <- (take_drop n l) in H. apply NoDup_app in H. tauto. Qed.

Lemma elem_of_drop_split {A} (x : A) e k l :
  x ∈ drop e l -> x ∈ take k (drop e l) \/ x ∈ drop (e + k) l.
Proof.
  intros H. rewrite <- (take_drop k (drop e l)) in H. rewrite drop_drop in H.
  apply elem_of_app in H. exact H.
Qed.

Lemma elem_of_filter_relative s0 c l :
  c ∈ l -> relativeIn s0 c = true -> c ∈ List.filter (relativeIn s0) l.
Proof. intros H Hr. apply list_elem_of_In, filter_In. split; [apply list_elem_of_In, H | exact Hr]. Qed.

Lemma elem_of_filter_relative_inv s0 c l :
  c ∈ List.filter (relativeIn s0) l -> c ∈ l /\ relativeIn s0 c = true.
Proof. intros H. apply list_elem_of_In, filter_In in H as [H Hr]. split; [apply list_elem_of_In, H | exact Hr]. Qed.

(** STEPS 4 to 7 for one line: with [performLayout] every relative child
    of the line ends clean. *)
Lemma layoutLine_spec rec s0 (W : CSSNodeRef -> Prop) X node childList pl direction
    wm hm aiw aih start lineCount total :
  layoutSpec rec -> NoDup childList ->
  (forall c, c ∈ childList -> parentOf s0 c = Some X) ->
  (forall c, c ∈ childList -> covers W s0 c) ->
  (forall c, c ∈ childList -> relativeIn s0 c = true -> W c) ->
  forall s r s',
    layoutLine rec node childList pl direction wm hm aiw aih start lineCount total s
    = Some (r, s') ->
    Good s -> evolves s0 s ->
    kstep W s s'
    /\ (start <= r.1.1)%nat
    /\ (pl = true ->
        forall c, c ∈ take (r.1.1 - start) (drop start childList) ->
                  relativeIn s0 c = true -> cleanAt s' c).
Proof.
  intros Hrec Hnd HX Hcov HW s r s' H Hg He. unfold layoutLine in H. cbv zeta in H.
  apply bind_Some in H as (items & s1 & H1 & H).
  eapply (collectLine_spec s0 W) with (L0 := []) in H1 as (k & Ek & K1 & Hch);
    [| exact Hg | exact He | constructor | reflexivity | apply NoDup_drop_in, Hnd
     | intros c Hc; inversion Hc
     | intros c Hc; apply HW; eapply elem_of_drop_in; exact Hc].
  cbn [endOfLineIndex app] in Ek, Hch.
  assert (evolves s0 s1) as He1
      by (eapply evolves_trans; [exact He | apply (ks_evolves _ _ _ K1)]).
  set (crossAxis := getCrossFlexDirection (resolveAxis (flexDirection (style node)) direction)
                      direction) in *.
  set (L := List.filter (relativeIn s0) (take k (drop start childList))) in *.
  assert (forall c, c ∈ L -> c ∈ childList) as HL.
  { intros c Hc. apply elem_of_filter_relative_inv in Hc as [Hc _].
    eapply elem_of_drop_in, elem_of_take_in, Hc. }
  apply bind_Some in H as (delta & s2 & H2 & H).
  assert (kstep W s1 s2
          /\ (pl = true -> forall c, c ∈ L -> stretchedIn s0 node crossAxis c = false ->
                                     cleanAt s2 c)) as [K2 Hpost2].
  { destruct pl.
    - cbn [negb andb] in H2.
      apply bind_Some in H2 as ([[d1 d2] d3] & s1' & Hf & H2).
      apply flexFirstPass_state in Hf as ->.
      eapply (flexSecondPass_spec rec s0 W X) in H2;
        [exact H2 | exact Hrec | apply (ks_good _ _ _ K1) | exact He1 | exact Hch
         | intros c Hc; apply HX, HL, Hc | intros c Hc; apply Hcov, HL, Hc].
    - split; [|discriminate].
      match type of H2 with (if ?b then _ else _) _ = _ => destruct b end.
      + apply bind_Some in H2 as ([[d1 d2] d3] & s1' & Hf & H2).
        apply flexFirstPass_state in Hf as ->.
        eapply (flexSecondPass_spec rec s0 W X) in H2;
          [apply H2 | exact Hrec | apply (ks_good _ _ _ K1) | exact He1 | exact Hch
           | intros c Hc; apply HX, HL, Hc | intros c Hc; apply Hcov, HL, Hc].
      + apply ret_Some in H2 as [_ ->]. apply kstep_refl, (ks_good _ _ _ K1). }
  assert (evolves s0 s2) as He2
      by (eapply evolves_trans; [exact He1 | apply (ks_evolves _ _ _ K2)]).
  match type of H with
  | (match ?x with _ => _ end) _ = _ => destruct x as [leadingMainDim betweenMainDim]
  end.
  apply bind_Some in H as ([mainDim crossDim] & s3 & H3 & H).
  pose proof (placeOnMainAxis_preserves s0 W _ _ _ _ _ _ _ _ _ _ _ _ H3
                (ks_good _ _ _ K2) He2) as K3.
  assert (evolves s0 s3) as He3
      by (eapply evolves_trans; [exact He2 | apply (ks_evolves _ _ _ K3)]).
  apply bind_Some in H as ([] & s4 & H4 & H). apply ret_Some in H as [-> ->].
  cbn [fst]. rewrite Ek in H4 |- *.
  replace (start + k - start)%nat with k in H4 |- * by lia.
  apply when_Some in H4 as [[-> H4] | [-> ->]].
  - eapply (alignOnCrossAxis_spec rec s0 W) in H4 as [K4 Hpost4];
      [| exact Hrec
       | intros c Hc; eapply Hcov, elem_of_drop_in, elem_of_take_in, Hc
       | apply (ks_good _ _ _ K3) | exact He3].
    split; [eapply kstep_trans; [exact K1|]; eapply kstep_trans; [exact K2|];
            eapply kstep_trans; eauto|].
    split; [lia|]. intros _ c Hc Hrel.
    destruct (stretchedIn s0 node crossAxis c) eqn:Hstr.
    + apply Hpost4; auto.
    + eapply cleanAt_evolves; [apply (ks_evolves _ _ _ K4)|].
      eapply cleanAt_evolves; [apply (ks_evolves _ _ _ K3)|].
      apply Hpost2; [reflexivity | | exact Hstr].
      apply elem_of_filter_relative; assumption.
  - split; [eapply kstep_trans; [exact K1|]; eapply kstep_trans; eauto|].
    split; [lia | discriminate].
Qed.

(** The loop over the lines: with [performLayout] every relative child ends
    clean. *)
Lemma layoutLines_spec rec s0 (W : CSSNodeRef -> Prop) X node childList pl direction
    wm hm aiw aih :
  layoutSpec rec -> NoDup childList ->
  (forall c, c ∈ childList -> parentOf s0 c = Some X) ->
  (forall c, c ∈ childList -> covers W s0 c) ->
  (forall c, c ∈ childList -> relativeIn s0 c = true -> W c) ->
  forall bound e lineCount total maxMain s r s',
    layoutLines rec node childList pl direction wm hm aiw aih bound e lineCount total maxMain s
    = Some (r, s') ->
    Good s -> evolves s0 s ->
    kstep W s s'
    /\ (pl = true ->
        forall c, c ∈ drop e childList -> relativeIn s0 c = true -> cleanAt s' c).
Proof.
  intros Hrec Hnd HX Hcov HW.
  assert (forall e s, Good s -> (e <? length childList)%nat = false ->
            kstep W s s
            /\ (pl = true -> forall c, c ∈ drop e childList -> relativeIn s0 c = true ->
                                       cleanAt s c)) as Hdone.
  { intros e s Hg Hlt. apply Nat.ltb_ge in Hlt. split; [apply kstep_refl, Hg|].
    intros _ c Hc. rewrite drop_ge in Hc by exact Hlt. inversion Hc. }
  induction bound as [|bound IH]; intros e lineCount total maxMain s r s' H Hg He;
    cbn [layoutLines] in H;
    destruct (e <? length childList)%nat eqn:Hlt;
    try (apply ret_Some in H as [_ ->]; apply Hdone; assumption).
  - apply fail_Some in H. destruct H.
  - apply bind_Some in H as ([[e' crossDim] mainDim] & s1 & H1 & H).
    eapply (layoutLine_spec rec s0 W X) in H1 as (K1 & Hle & Hpost1);
      [| exact Hrec | exact Hnd | exact HX | exact Hcov | exact HW | exact Hg | exact He].
    cbn [fst] in Hle, Hpost1.
    eapply IH in H as [K2 Hpost2];
      [| apply (ks_good _ _ _ K1)
       | eapply evolves_trans; [exact He | apply (ks_evolves _ _ _ K1)]].
    split; [eapply kstep_trans; eauto|].
    intros Hpl c Hc Hrel.
    apply (elem_of_drop_split _ _ (e' - e)) in Hc as [Hc | Hc].
    + eapply cleanAt_evolves; [apply (ks_evolves _ _ _ K2)|]. apply Hpost1; assumption.
    + replace (e + (e' - e))%nat with e' in Hc by lia. apply Hpost2; assumption.
Qed.

Lemma elem_of_filter_absolute s0 c l :
  c ∈ List.filter (absoluteIn s0) l <-> c ∈ l /\ absoluteIn s0 c = true.
Proof. rewrite !list_elem_of_In. apply filter_In. Qed.

(** STEP 3 for one child: an absolute child is appended to the private
    list. *)
Lemma flexBasisOfChild_spec rec s0 (W : CSSNodeRef -> Prop) X node pl direction aiw wm aih hm
    acc child L0 s acc' s' :
  layoutSpec rec ->
  flexBasisOfChild rec node pl direction aiw wm aih hm acc child s = Some (acc', s') ->
  Good s -> evolves s0 s ->
  chain s (fst acc) L0 -> snd acc = last L0 -> NoDup (L0 ++ [child]) ->
  (forall c, c ∈ L0 ++ [child] -> parentOf s0 c = Some X) ->
  (forall c, c ∈ L0 ++ [child] -> W c) ->
  covers W s0 child ->
  kstep W s s'
  /\ chain s' (fst acc') (L0 ++ List.filter (absoluteIn s0) [child])
  /\ snd acc' = last (L0 ++ List.filter (absoluteIn s0) [child]).
Proof.
  intros Hrec H Hg He Hch Hcur Hnd HX HW Hcov. destruct acc as [first current].
  cbn [fst snd] in *. unfold flexBasisOfChild in H.
  apply bind_Some in H as ([] & s1 & H1 & H).
  assert (kstep (fun _ => False) s s1) as K1.
  { match type of H1 with ?c _ = _ => assert (preserves s (fun _ => False) c) as P end.
    { apply preserves_when, preserves_bind; [apply preserves_deref|].
      intros c. apply setPosition_preserves. }
    apply (P _ _ _ H1 Hg (evolves_refl s)). }
  pose proof (chain_nextOnly _ _ _ _ _ Hch (ks_next _ _ _ K1) ltac:(tauto)) as Hch1.
  apply (kstep_weaken _ W) in K1; [|tauto].
  assert (evolves s0 s1) as He1
      by (eapply evolves_trans; [exact He | apply (ks_evolves _ _ _ K1)]).
  apply bind_Some in H as (c & s1' & Hc & H). apply deref_Some in Hc as [Hc ->].
  cbn [List.filter]. rewrite (absoluteIn_evolves _ _ _ _ He1 Hc).
  destruct (same (positionType (style c)) CSSPositionTypeAbsolute).
  - apply bind_Some in H as ([] & s2 & H2 & H). apply ret_Some in H as [-> ->].
    cbn [fst snd]. rewrite last_snoc. split; [|split; [|reflexivity]].
    + eapply kstep_trans; [exact K1|].
      eapply (append_nextChild_preserves s0 W);
        [| | exact H2 | apply (ks_good _ _ _ K1) | exact He1].
      * apply HW. apply elem_of_app. right. left.
      * intros cur Ecur. apply HW. rewrite Hcur in Ecur.
        apply last_Some in Ecur as [l0 ->]. rewrite <- app_assoc.
        apply elem_of_app. right. left.
    + rewrite Hcur in H2. eapply append_nextChild_chain; eauto.
  - apply bind_Some in H as ([] & s2 & H2 & H). apply ret_Some in H as [-> ->].
    cbn [fst snd]. rewrite app_nil_r. split; [|split; [|exact Hcur]].
    + eapply kstep_trans; [exact K1|].
      eapply (computeChildFlexBasis_preserves s0 W);
        [exact Hrec | exact Hcov | exact H2 | apply (ks_good _ _ _ K1) | exact He1].
    + assert (kstep (ancestor s1 child) s1 s2) as K2.
      { eapply (computeChildFlexBasis_preserves s1 (ancestor s1 child));
          [exact Hrec | intros r Hr; exact Hr | exact H2 | apply (ks_good _ _ _ K1)
           | apply evolves_refl]. }
      eapply chain_nextOnly; [exact Hch1 | apply (ks_next _ _ _ K2)|].
      intros x Hx. apply (sibling_not_under s1 X).
      * apply (good_wf _ (ks_good _ _ _ K1)).
      * rewrite (evolves_parentOf _ _ _ He1). apply HX. apply elem_of_app. left. exact Hx.
      * rewrite (evolves_parentOf _ _ _ He1). apply HX. apply elem_of_app. right. left.
Qed.

(** STEP 3 leaves the absolute children in the private list that starts at
    [firstAbsoluteChild]. *)
Lemma determineFlexBasis_spec rec s0 (W : CSSNodeRef -> Prop) X node childList pl direction
    aiw wm aih hm s first s' :
  layoutSpec rec ->
  determineFlexBasis rec node childList pl direction aiw wm aih hm s = Some (first, s') ->
  Good s -> evolves s0 s -> NoDup childList ->
  (forall c, c ∈ childList -> parentOf s0 c = Some X) ->
  (forall c, c ∈ childList -> W c) ->
  (forall c, c ∈ childList -> covers W s0 c) ->
  kstep W s s' /\ chain s' first (List.filter (absoluteIn s0) childList).
Proof.
  intros Hrec H Hg He Hnd HX HW Hcov. unfold determineFlexBasis in H.
  apply bind_Some in H as (r & s1 & H & Hr). apply ret_Some in Hr as [-> ->].
  assert (forall l acc L0 s r s',
             foldM (flexBasisOfChild rec node pl direction aiw wm aih hm) acc l s
             = Some (r, s') ->
             Good s -> evolves s0 s ->
             chain s (fst acc) L0 -> snd acc = last L0 -> NoDup (L0 ++ l) ->
             (forall c, c ∈ L0 ++ l -> parentOf s0 c = Some X) ->
             (forall c, c ∈ L0 ++ l -> W c) ->
             (forall c, c ∈ l -> covers W s0 c) ->
             kstep W s s' /\ chain s' (fst r) (L0 ++ List.filter (absoluteIn s0) l)) as Hfold.
  { clear - Hrec. intros l. induction l as [|child l IH];
      intros acc L0 s r s' H Hg He Hch Hcur Hnd HX HW Hcov; cbn [foldM] in H.
    - apply ret_Some in H as [-> ->]. cbn. rewrite app_nil_r.
      split; [apply kstep_refl, Hg | exact Hch].
    - apply bind_Some in H as (acc1 & s1 & H1 & H).
      assert (L0 ++ child :: l = (L0 ++ [child]) ++ l) as El
          by (rewrite <- app_assoc; reflexivity).
      rewrite El in Hnd, HX, HW.
      eapply (flexBasisOfChild_spec rec s0 W X) in H1 as (K1 & Hch1 & Hcur1);
        [| exact Hrec | exact Hg | exact He | exact Hch | exact Hcur
         | apply NoDup_app in Hnd; tauto
         | intros c Hc; apply HX, elem_of_app; left; exact Hc
         | intros c Hc; apply HW, elem_of_app; left; exact Hc
         | apply Hcov; left].
      eapply IH in H as [K2 Hch2];
        [| apply (ks_good _ _ _ K1)
         | eapply evolves_trans; [exact He | apply (ks_evolves _ _ _ K1)]
         | exact Hch1 | exact Hcur1 | | | | intros c Hc; apply Hcov; right; exact Hc].
      + split; [eapply kstep_trans; eauto|].
        rewrite <- app_assoc in Hch2. cbn [List.filter] in Hch2 |- *.
        destruct (absoluteIn s0 child); exact Hch2.
      + cbn [List.filter]. destruct (absoluteIn s0 child); [exact Hnd|].
        rewrite app_nil_r. apply NoDup_app in Hnd as (N1 & N2 & N3).
        apply NoDup_app in N1 as (N1 & _ & _). apply NoDup_app.
        split; [exact N1|]. split; [|exact N3].
        intros x Hx. apply N2. apply elem_of_app. left. exact Hx.
      + intros c Hc. apply HX. apply elem_of_app in Hc as [Hc | Hc].
        * apply elem_of_app. left. apply elem_of_app in Hc as [Hc | Hc].
          -- apply elem_of_app. left. exact Hc.
          -- apply elem_of_filter_absolute in Hc as [Hc _]. apply elem_of_app. right. exact Hc.
        * apply elem_of_app. right. exact Hc.
      + intros c Hc. apply HW. apply elem_of_app in Hc as [Hc | Hc].
        * apply elem_of_app. left. apply elem_of_app in Hc as [Hc | Hc].
          -- apply elem_of_app. left. exact Hc.
          -- apply elem_of_filter_absolute in Hc as [Hc _]. apply elem_of_app. right. exact Hc.
        * apply elem_of_app. right. exact Hc. }
  eapply (Hfold childList (None, None) []) in H;
    [exact H | exact Hg | exact He | constructor | reflexivity | exact Hnd | exact HX | exact HW
     | exact Hcov].
Qed.

(** STEP 10 leaves every child of the private list clean. *)
Lemma layoutAbsoluteChildren_spec rec s0 (W : CSSNodeRef -> Prop) X node aiw wm direction :
  layoutSpec rec ->
  forall bound cur L s u s',
    layoutAbsoluteChildren rec node aiw wm direction bound cur s = Some (u, s') ->
    Good s -> evolves s0 s -> chain s cur L ->
    (forall c, c ∈ L -> parentOf s0 c = Some X) ->
    (forall c, c ∈ L -> covers W s0 c) ->
    kstep W s s' /\ forall c, c ∈ L -> cleanAt s' c.
Proof.
  intros Hrec. induction bound as [|bound IH]; intros cur L s u s' H Hg He Hch HX HW;
    destruct cur as [cur|]; cbn [layoutAbsoluteChildren] in H.
  - apply fail_Some in H. destruct H.
  - apply ret_Some in H as [_ ->]. apply chain_None_inv in Hch as ->.
    split; [apply kstep_refl, Hg|]. intros c Hc. inversion Hc.
  - apply chain_Some_inv in Hch as Hinv. destruct Hinv as (n & L' & -> & Hn & Hch').
    apply bind_Some in H as ([] & s1 & H1 & H).
    assert (kstep (ancestor s cur) s s1) as K1.
    { eapply (absoluteLayoutChild_preserves s (ancestor s cur));
        [exact Hrec | intros r Hr; exact Hr | exact H1 | exact Hg | apply evolves_refl]. }
    pose proof (absoluteLayoutChild_clean _ _ _ _ _ _ _ _ _ Hrec Hg H1) as Hclean.
    assert (forall c, c ∈ cur :: L' -> ~ ancestor s cur c) as Hsib.
    { intros c Hc'. apply (sibling_not_under s X); [apply (good_wf _ Hg) | |].
      - rewrite (evolves_parentOf _ _ _ He). apply HX, Hc'.
      - rewrite (evolves_parentOf _ _ _ He). apply HX. left. }
    pose proof (chain_nextOnly _ _ _ _ _ Hch (ks_next _ _ _ K1) Hsib) as Hch1.
    apply bind_Some in H as (c1 & s1' & Hc1 & H). apply deref_Some in Hc1 as [Hc1 ->].
    apply chain_Some_inv in Hch1 as (n1 & L1 & [= <-] & Hn1 & Hch1).
    assert (c1 = n1) as -> by congruence.
    eapply IH in H as [K2 Hpost];
      [| apply (ks_good _ _ _ K1)
       | eapply evolves_trans; [exact He | apply (ks_evolves _ _ _ K1)]
       | exact Hch1
       | intros x Hx; apply HX; right; exact Hx
       | intros x Hx; apply HW; right; exact Hx].
    split.
    + eapply kstep_trans; [|exact K2]. eapply kstep_weaken; [|exact K1].
      intros x Hx. apply (HW cur ltac:(left)).
      apply (ancestor_evolves s0 s cur x He). exact Hx.
    + intros x Hx. apply elem_of_cons in Hx as [-> | Hx]; [|auto].
      eapply cleanAt_evolves; [apply (ks_evolves _ _ _ K2) | exact Hclean].
  - apply ret_Some in H as [_ ->]. apply chain_None_inv in Hch as ->.
    split; [apply kstep_refl, Hg|]. intros c Hc. inversion Hc.
Qed.

Lemma relative_or_absolute s r :
  is_Some (nodes s !! r) -> relativeIn s r = true \/ absoluteIn s r = true.
Proof.
  intros [n Hn]. unfold relativeIn, absoluteIn, isRelative, differ. rewrite Hn.
  destruct (same (positionType (style n)) CSSPositionTypeAbsolute); auto.
Qed.

Lemma relative_not_absolute s r : relativeIn s r = true -> absoluteIn s r = true -> False.
Proof.
  unfold relativeIn, absoluteIn, isRelative, differ. destruct (nodes s !! r) as [n|]; [|discriminate].
  destruct (same (positionType (style n)) CSSPositionTypeAbsolute); discriminate.
Qed.

(** [layoutNodeImpl] keeps the invariant and, with [performLayout], leaves
    every child of the node clean. *)
Lemma layoutNodeImpl_spec rec X aw ah pd wm hm pl s u s' :
  layoutSpec rec ->
  layoutNodeImpl rec X aw ah pd wm hm pl s = Some (u, s') ->
  Good s ->
  kstep (ancestor s X) s s'
  /\ (pl = true ->
      forall n c, nodes s !! X = Some n -> c ∈ children n -> cleanAt s' c).
Proof.
  intros Hrec H Hg. unfold layoutNodeImpl in H.
  apply bind_Some in H as ([] & s1 & H1 & H). apply CSS_ASSERT_Some in H1 as [_ ->].
  apply bind_Some in H as ([] & s1 & H1 & H). apply CSS_ASSERT_Some in H1 as [_ ->].
  apply bind_Some in H as (n & s1 & Hn & H). apply deref_Some in Hn as [Hn ->].
  apply bind_Some in H as ([] & s1 & H1 & H).
  assert (kstep (ancestor s X) s s1) as K0.
  { eapply kstep_update; [exact H1 | exact Hg | apply quiet_set_layout_direction
                          | right; reflexivity]. }
  assert (evolves s s1) as He1 by apply (ks_evolves _ _ _ K0).
  assert (Good s1) as Hg1 by apply (ks_good _ _ _ K0).
  clear H1.
  assert (forall c, c ∈ children n -> parentOf s c = Some X) as HX
      by (intros c Hc; eapply wf_children; [apply (good_wf _ Hg) | exact Hn | exact Hc]).
  assert (NoDup (children n)) as Hnd
      by (eapply wf_NoDup; [apply (good_wf _ Hg) | exact Hn]).
  destruct (CSSNodeListCount (children n)) as [|k] eqn:Hcount.
  { assert (children n = []) as Hnil by (destruct (children n); [reflexivity | discriminate]).
    split.
    - eapply kstep_trans; [exact K0|].
      match type of H with ?c _ = _ => assert (preserves s1 (ancestor s X) c) as P end.
      { repeat preserves_step. }
      apply (P _ _ _ H Hg1 (evolves_refl s1)).
    - intros _ n' c Hn' Hc. assert (n' = n) as -> by congruence.
      rewrite Hnil in Hc. inversion Hc. }
  match type of H with
  | (match measure n with Some _ => ?c | None => _ end) _ = _ =>
      assert (c s1 = Some (u, s')) as Hmain by (destruct (measure n); exact H)
  end.
  clear H.
  assert (forall c, c ∈ children n -> ancestor s X c) as HWc
      by (intros c Hc; apply ancestor_parent, HX, Hc).
  assert (forall c, c ∈ children n -> covers (ancestor s X) s c) as Hcov
      by (intros c Hc r Hr; eapply ancestor_trans; [apply HWc, Hc | exact Hr]).
  repeat match type of Hmain with
  | (if ?b then _ else _) _ = _ =>
      destruct b eqn:E;
      [ split;
        [ eapply kstep_trans; [exact K0|];
          match type of Hmain with
          | ?c _ = _ =>
              assert (preserves s1 (ancestor s X) c) as P by (repeat preserves_step)
          end;
          apply (P _ _ _ Hmain Hg1 (evolves_refl s1))
        | intros ->; cbn in E; discriminate E ]
      | clear E ]
  end.
  (* STEP 3 *)
  apply bind_Some in Hmain as (firstAbsoluteChild & s2 & H2 & H).
  eapply (determineFlexBasis_spec rec s (ancestor s X) X) in H2 as [K2 Hch2];
    [| exact Hrec | exact Hg1 | exact He1 | exact Hnd | exact HX | exact HWc | exact Hcov].
  assert (evolves s s2) as He2
      by (eapply evolves_trans; [exact He1 | apply (ks_evolves _ _ _ K2)]).
  (* STEPS 4 to 7 *)
  pose (Wl := fun r => (r ∈ children n /\ relativeIn s r = true)
                       \/ (exists c, c ∈ children n /\ ancestor s c r)).
  apply bind_Some in H as ([[lineCount total] maxMain] & s3 & H3 & H).
  eapply (layoutLines_spec rec s Wl X) in H3 as [K3 Hpost3];
    [| exact Hrec | exact Hnd | exact HX
     | intros c Hc r Hr; right; exists c; split; assumption
     | intros c Hc Hr; left; split; assumption
     | apply (ks_good _ _ _ K2) | exact He2].
  rewrite drop_0 in Hpost3.
  assert (chain s3 firstAbsoluteChild (List.filter (absoluteIn s) (children n))) as Hch3.
  { eapply chain_nextOnly; [exact Hch2 | apply (ks_next _ _ _ K3)|].
    intros c Hc [[_ Hrel] | (c' & Hc' & Hanc)]; apply elem_of_filter_absolute in Hc as [Hc Habs].
    - exact (relative_not_absolute _ _ Hrel Habs).
    - apply (sibling_not_under s X c c'); auto. apply (good_wf _ Hg). }
  apply (kstep_weaken _ (ancestor s X)) in K3;
    [| intros r [[Hr _] | (c & Hc & Hr)]; [apply HWc, Hr | eapply Hcov; eauto]].
  assert (kstep (ancestor s X) s s3) as K03
      by (eapply kstep_trans; [exact K0|]; eapply kstep_trans; eauto).
  clear K0 K2 K3 He1 He2 Hg1 Hch2.
  (* STEPS 8 and 9 *)
  assert (exists s8, kstep (fun _ => False) s3 s8
                     /\ when pl (layoutAbsoluteChildren rec X
                                   (F32.sub (F32.sub aw (getMarginAxis n CSSFlexDirectionRow))
                                      (getPaddingAndBorderAxis n CSSFlexDirectionRow))
                                   wm (resolveDirection n pd)
                                   (CSSNodeListCount (children n)) firstAbsoluteChild >>
                                 setTrailingPositions X (children n)
                                   (resolveAxis (flexDirection (style n)) (resolveDirection n pd))
                                   (getCrossFlexDirection
                                      (resolveAxis (flexDirection (style n))
                                         (resolveDirection n pd))
                                      (resolveDirection n pd))) s8 = Some (u, s'))
    as (s8 & K8 & Hlast).
  { apply bind_Some in H as ([] & s4 & H4 & H).
    apply bind_Some in H as ([] & s5 & H5 & H).
    apply bind_Some in H as ([] & s6 & H6 & H).
    apply bind_Some in H as ([] & s7 & H7 & H).
    apply bind_Some in H as ([] & s8 & H8 & H).
    exists s8. split; [|rewrite Hcount; exact H].
    assert (forall {A} (c : M A) t a t',
               c t = Some (a, t') -> preserves t (fun _ => False) c -> Good t ->
               kstep (fun _ => False) t t') as Hq
        by (intros A c t a t' Hc P Hgt; exact (P _ _ _ Hc Hgt (evolves_refl t))).
    pose proof (ks_good _ _ _ K03) as Hg3.
    assert (kstep (fun _ => False) s3 s4) as K4.
    { eapply Hq; [exact H4 | | exact Hg3]. apply preserves_when, alignLines_preserves. }
    assert (kstep (fun _ => False) s4 s5) as K5.
    { eapply Hq; [exact H5 | | apply (ks_good _ _ _ K4)]. repeat preserves_step. }
    assert (kstep (fun _ => False) s5 s6) as K6.
    { eapply Hq; [exact H6 | | apply (ks_good _ _ _ K5)]. repeat preserves_step. }
    assert (kstep (fun _ => False) s6 s7) as K7.
    { eapply Hq; [exact H7 | | apply (ks_good _ _ _ K6)]. repeat preserves_step. }
    assert (kstep (fun _ => False) s7 s8) as K8.
    { eapply Hq; [exact H8 | | apply (ks_good _ _ _ K7)]. repeat preserves_step. }
    eapply kstep_trans; [exact K4|]. eapply kstep_trans; [exact K5|].
    eapply kstep_trans; [exact K6|]. eapply kstep_trans; eauto. }
  clear H.
  pose proof (chain_nextOnly _ _ _ _ _ Hch3 (ks_next _ _ _ K8) ltac:(tauto)) as Hch8.
  apply (kstep_weaken _ (ancestor s X)) in K8; [|tauto].
  assert (kstep (ancestor s X) s s8) as K08 by (eapply kstep_trans; eauto).
  assert (forall c, c ∈ children n -> relativeIn s c = true -> pl = true -> cleanAt s8 c)
    as Hrel8.
  { intros c Hc Hr Hpl. eapply cleanAt_evolves; [apply (ks_evolves _ _ _ K8)|].
    apply Hpost3; assumption. }
  clear Hpost3 Hch3 K03 K8.
  apply when_Some in Hlast as [[-> Hlast] | [-> ->]]; [|split; [exact K08 | discriminate]].
  (* STEPS 10 and 11 *)
  apply bind_Some in Hlast as ([] & s9 & H9 & H10).
  eapply (layoutAbsoluteChildren_spec rec s (ancestor s X) X) in H9 as [K9 Hpost9];
    [| exact Hrec | apply (ks_good _ _ _ K08) | apply (ks_evolves _ _ _ K08) | exact Hch8
     | intros c Hc; apply elem_of_filter_absolute in Hc as [Hc _]; apply HX, Hc
     | intros c Hc; apply elem_of_filter_absolute in Hc as [Hc _]; apply Hcov, Hc].
  assert (kstep (ancestor s X) s s9) as K09 by (eapply kstep_trans; eauto).
  pose proof (setTrailingPositions_preserves s (ancestor s X) _ _ _ _ _ _ _ H10
                (ks_good _ _ _ K09) (ks_evolves _ _ _ K09)) as K10.
  split; [eapply kstep_trans; eauto|].
  intros _ n' c Hn' Hc. assert (n' = n) as -> by congruence.
  eapply cleanAt_evolves; [apply (ks_evolves _ _ _ K10)|].
  destruct (relative_or_absolute s c) as [Hr | Ha].
  - specialize (HX c Hc). unfold parentOf in HX.
    destruct (nodes s !! c); [eauto | discriminate].
  - eapply cleanAt_evolves; [apply (ks_evolves _ _ _ K9)|]. apply Hrel8; auto.
  - apply Hpost9. apply elem_of_filter_absolute. auto.
Qed.

(** ** [layoutNodeInternal] keeps the invariant *)

Lemma nodeSet_init s r n : nodes s !! r = Some n -> nodeSet s s r n.
Proof. intros Hn. unfold nodeSet. rewrite insert_id by exact Hn. auto. Qed.

Lemma nodeSet_lookup s t r m : nodeSet s t r m -> nodes t !! r = Some m.
Proof. intros (E & _). rewrite E. apply lookup_insert_eq. Qed.

Lemma nodeSet_update s t r m f u t' :
  nodeSet s t r m -> update r f t = Some (u, t') -> nodeSet s t' r (f m).
Proof.
  intros (E & Eg & En) H. apply update_Some in H as (m' & Hm' & ->).
  rewrite E, lookup_insert_eq in Hm'. injection Hm' as <-.
  unfold nodeSet. cbn. rewrite E, insert_insert_eq. auto.
Qed.

Lemma nodeSet_when s t r m (b : bool) f u t' :
  nodeSet s t r m -> when b (update r f) t = Some (u, t') ->
  nodeSet s t' r (if b then f m else m).
Proof.
  intros Hs H. apply when_Some in H as [[-> H] | [-> ->]]; [|exact Hs].
  eapply nodeSet_update; eauto.
Qed.

Lemma nodeSet_add_gDepth s t r m d : nodeSet s t r m -> nodeSet s (add_gDepth d t) r m.
Proof. intros H. exact H. Qed.

(** The children of a clean node are clean. *)
Lemma clean_children s X n c :
  Good s -> nodes s !! X = Some n -> isDirty n = false -> c ∈ children n -> cleanAt s c.
Proof.
  intros Hg Hn Hclean Hc.
  pose proof (wf_children _ (good_wf _ Hg) _ _ _ Hn Hc) as Hp. unfold parentOf in Hp.
  destruct (nodes s !! c) as [m|] eqn:Hm; [|discriminate]. cbn in Hp.
  exists m. split; [exact Hm|]. destruct (isDirty m) eqn:Hd; [|reflexivity].
  destruct (good_closed _ Hg c m X Hm Hd Hp) as (n' & Hn' & Hd'). congruence.
Qed.

(** The replacement of one node by a later version of it. *)
Lemma kstep_node W s s' r n n' :
  Good s -> nodes s !! r = Some n -> nodeSet s s' r n' ->
  nodeStep (gCurrentGenerationCount s) n n' ->
  (isDirty n' = true -> generationCount (layout n') = gCurrentGenerationCount s ->
   Cached.widthMeasureMode (cachedLayout (layout n')) = None) ->
  (isDirty n' = false -> forall c, c ∈ children n -> cleanAt s c) ->
  W r \/ nextChild n' = nextChild n ->
  kstep W s s'.
Proof.
  intros Hg Hn (E & Eg & En) Hstep HK Hch Hnext.
  assert (evolves s s') as He.
  { split; auto.
    - intros r'. rewrite E. destruct (decide (r' = r)) as [-> | Hne].
      + rewrite lookup_insert_eq, Hn. split; discriminate.
      + rewrite lookup_insert_ne by congruence. tauto.
    - intros r' m m' Hm Hm'. rewrite E in Hm'. destruct (decide (r' = r)) as [-> | Hne].
      + rewrite lookup_insert_eq in Hm'. injection Hm' as <-.
        assert (m = n) as -> by congruence. exact Hstep.
      + rewrite lookup_insert_ne in Hm' by congruence.
        assert (m' = m) as -> by congruence. apply nodeStep_refl. }
  split; [|exact He|].
  - split.
    + eapply wellFormed_evolves; [exact He | apply (good_wf _ Hg)].
    + intros r' m Hm Hd Hgen. rewrite Eg in Hgen. rewrite E in Hm.
      destruct (decide (r' = r)) as [-> | Hne].
      * rewrite lookup_insert_eq in Hm. injection Hm as <-. auto.
      * rewrite lookup_insert_ne in Hm by congruence.
        apply (good_visited _ Hg r' m Hm); auto.
    + intros r' m p Hm Hd Hp. unfold dirtyAt. rewrite E in Hm |- *.
      destruct (decide (p = r)) as [-> | Hpr].
      * exists n'. rewrite lookup_insert_eq. split; [reflexivity|].
        destruct (isDirty n') eqn:Hd'; [reflexivity|]. exfalso.
        destruct (decide (r' = r)) as [-> | Hne].
        -- rewrite lookup_insert_eq in Hm. congruence.
        -- rewrite lookup_insert_ne in Hm by congruence.
           assert (parentOf s r' = Some r) as Hpar by (unfold parentOf; rewrite Hm; exact Hp).
           destruct (wf_parent _ (good_wf _ Hg) _ _ Hpar) as (pn & Hpn & Hin).
           assert (pn = n) as -> by congruence.
           destruct (Hch eq_refl r' Hin) as (m' & Hm' & Hc'). congruence.
      * rewrite lookup_insert_ne by congruence.
        destruct (decide (r' = r)) as [-> | Hne].
        -- rewrite lookup_insert_eq in Hm. injection Hm as <-.
           destruct Hstep as (Hs & Hdd & _). apply static_inv in Hs as (_ & Hpar & _).
           apply (good_closed _ Hg r n p Hn); [auto | congruence].
        -- rewrite lookup_insert_ne in Hm by congruence.
           apply (good_closed _ Hg r' m p Hm Hd Hp).
  - intros r' Hr'. rewrite E. destruct (decide (r' = r)) as [-> | Hne].
    + rewrite lookup_insert_eq, Hn. cbn. destruct Hnext as [HW | ->]; [tauto | reflexivity].
    + rewrite lookup_insert_ne by congruence. reflexivity.
Qed.

(** The invalidation at the entry of [layoutNodeInternal]. *)
Lemma enterNode_spec X pd s b s1 :
  enterNode X pd s = Some (b, s1) -> Good s ->
  exists n, nodes s !! X = Some n
            /\ b = needToVisitNode n (gCurrentGenerationCount s) pd
            /\ nodeSet s s1 X (if b then set_layout invalidateCachedResults n else n)
            /\ kstep (fun _ => False) s s1.
Proof.
  intros H Hg. unfold enterNode in H.
  apply bind_Some in H as ([] & t & H1 & H). apply modify_state_Some in H1 as ->.
  apply bind_Some in H as (t & t' & H1 & H). apply get_state_Some in H1 as [-> ->].
  apply bind_Some in H as (n & t & Hn & H). apply deref_Some in Hn as [Hn ->].
  apply bind_Some in H as ([] & t & H1 & H). apply ret_Some in H as [-> E]. subst t.
  cbn in Hn. exists n. split; [exact Hn|]. split; [reflexivity|].
  assert (nodeSet s s1 X (if needToVisitNode n (gCurrentGenerationCount s) pd
                          then set_layout invalidateCachedResults n else n)) as Hset.
  { eapply nodeSet_when; [|exact H1]. apply nodeSet_add_gDepth, nodeSet_init, Hn. }
  split; [exact Hset|].
  eapply kstep_node; [exact Hg | exact Hn | exact Hset | | | | right].
  - destruct (needToVisitNode n (gCurrentGenerationCount s) pd);
      [|apply nodeStep_refl].
    unfold nodeStep. cbn. auto.
  - destruct (needToVisitNode n (gCurrentGenerationCount s) pd); [reflexivity|].
    intros Hd Hgen. apply (good_visited _ Hg X n Hn Hd Hgen).
  - destruct (needToVisitNode n (gCurrentGenerationCount s) pd); cbn;
      intros Hd c Hc; eapply clean_children; eauto.
  - destruct (needToVisitNode n (gCurrentGenerationCount s) pd); reflexivity.
Qed.

Lemma kstep_same W s s' :
  Good s -> nodes s' = nodes s ->
  gCurrentGenerationCount s' = gCurrentGenerationCount s -> nextRef s' = nextRef s ->
  kstep W s s'.
Proof.
  intros Hg E Eg En.
  assert (evolves s s') as He.
  { split; auto.
    - intros r. rewrite E. tauto.
    - intros r n n' Hn Hn'. rewrite E in Hn'. assert (n' = n) as -> by congruence.
      apply nodeStep_refl. }
  split; [|exact He|].
  - split.
    + eapply wellFormed_evolves; [exact He | apply (good_wf _ Hg)].
    + intros r n. rewrite E, Eg. apply (good_visited _ Hg).
    + intros r n p. unfold dirtyAt. rewrite E. apply (good_closed _ Hg).
  - intros r _. rewrite E. reflexivity.
Qed.

(** The last statements of [layoutNodeInternal]: with [performLayout] the
    node is made clean, and its generation is set; [h] stands for the
    assignments to the caches that come before. *)
Lemma leaveNode_spec W s X n (pl : bool) (h : CSSNode -> CSSNode) s' :
  Good s -> nodes s !! X = Some n ->
  nodeSet s s' X
    (set_layout (set_generationCount (gCurrentGenerationCount s))
       ((if pl
         then fun m : CSSNode =>
                set_isDirty false
                  (set_hasNewLayout true
                     (set_layout (fun l => set_layout_dimensions (measuredDimensions l) l) m))
         else fun m => m) (h n))) ->
  (forall m, static (h m) = static m /\ isDirty (h m) = isDirty m
             /\ nextChild (h m) = nextChild m
             /\ (pl = false -> cachedLayout (layout (h m)) = cachedLayout (layout m))) ->
  (isDirty n = true -> Cached.widthMeasureMode (cachedLayout (layout n)) = None) ->
  (pl = true -> isDirty n = true -> forall c, c ∈ children n -> cleanAt s c) ->
  kstep W s s' /\ (pl = true -> cleanAt s' X).
Proof.
  intros Hg Hn Hset Hh Hcl Hch. destruct (Hh n) as (Hs & Hd & Hnx & Hc). split.
  - eapply kstep_node; [exact Hg | exact Hn | exact Hset | | | | right].
    + unfold nodeStep. destruct pl; cbn.
      * split; [exact Hs|]. split; [discriminate|]. split; [auto | discriminate].
      * split; [exact Hs|]. split; [congruence|]. split; [auto|].
        intros _. right. auto.
    + destruct pl; cbn; [discriminate|]. intros Hdirty _.
      rewrite Hc by reflexivity. apply Hcl. congruence.
    + intros HF c Hin. destruct (isDirty n) eqn:Hdn.
      * destruct pl; [auto|]. cbn in HF. congruence.
      * eapply clean_children; eauto.
    + destruct pl; cbn; exact Hnx.
  - intros ->. eexists. split; [apply (nodeSet_lookup _ _ _ _ Hset)|]. reflexivity.
Qed.

Lemma layoutNodeInternal_body_spec rec : layoutSpec rec -> layoutSpec (layoutNodeInternal_body rec).
Proof.
  intros Hrec X aw ah pd wm hm pl s b s' H Hg. unfold layoutNodeInternal_body in H.
  apply bind_Some in H as (ntv & s1 & H1 & H).
  apply enterNode_spec in H1 as (n & Hn & Entv & Hset1 & K1); [|exact Hg].
  apply bind_Some in H as (n1 & t & Hn1 & H). apply deref_Some in Hn1 as [Hn1 ->].
  pose proof (nodeSet_lookup _ _ _ _ Hset1) as Hn1'.
  assert (isDirty n1 = true -> Cached.widthMeasureMode (cachedLayout (layout n1)) = None) as HD.
  { assert (n1 = if ntv then set_layout invalidateCachedResults n else n) as -> by congruence.
    destruct ntv; [reflexivity|]. intros Hd. apply (good_visited _ Hg X n Hn Hd).
    symmetry in Entv. unfold needToVisitNode in Entv. rewrite Hd in Entv.
    apply orb_false_iff in Entv as [Entv _]. cbn in Entv.
    apply negb_false_iff, Z.eqb_eq in Entv. exact Entv. }
  clear Hn1' Hset1.
  pose proof (ks_good _ _ _ K1) as Hg1.
  apply (kstep_weaken _ (ancestor s X)) in K1; [|tauto].
  match type of H with context [bool_decide (?c = None)] => set (cr := c) in * end.
  assert (forall target, cr = Some target -> pl = true ->
            children n1 = []
            \/ Cached.widthMeasureMode (cachedLayout (layout n1)) = Some wm) as Hcr.
  { subst cr. intros target E ->.
    assert (forall (x y : bool) (a : option CSSMeasureMode) z,
              (if x && y && same a (Some wm) && z then Some inCachedLayout else None)
              = Some target -> a = Some wm) as Ht.
    { intros x y a z Hif. destruct (x && y && same a (Some wm) && z) eqn:T; [|discriminate].
      apply andb_true_iff in T as [T _]. apply andb_true_iff in T as [_ T].
      exact (proj1 (same_true _ _) T). }
    destruct (measure n1); [destruct (children n1) eqn:Echildren; cbn in E|];
      eauto. }
  apply bind_Some in H as ([] & s2 & H2 & H).
  assert (forall sm m2, nodeSet sm s2 X m2 ->
            nodeSet sm s' X
              (set_layout (set_generationCount (gCurrentGenerationCount sm))
                 ((if pl
                   then fun m : CSSNode =>
                          set_isDirty false
                            (set_hasNewLayout true
                               (set_layout
                                  (fun l => set_layout_dimensions (measuredDimensions l) l) m))
                   else fun m => m) m2))) as Htail.
  { intros sm m2 Hset.
    apply bind_Some in H as ([] & t1 & T1 & H).
    pose proof (nodeSet_when _ _ _ _ _ _ _ _ Hset T1) as Hset1.
    apply bind_Some in H as ([] & t2 & T2 & H). apply modify_state_Some in T2 as ->.
    apply bind_Some in H as (st & t2 & T2 & H). apply get_state_Some in T2 as [-> ->].
    apply bind_Some in H as ([] & t3 & T3 & H). apply ret_Some in H as [_ E]. subst t3.
    pose proof (nodeSet_update _ _ _ _ _ _ _ (nodeSet_add_gDepth _ _ _ _ (-1) Hset1) T3)
      as Hset3.
    destruct Hset1 as (_ & Eg & _). cbn [add_gDepth gCurrentGenerationCount] in Hset3.
    rewrite Eg in Hset3. destruct pl; exact Hset3. }
  clear H.
  assert (forall sm nm, evolves s1 sm -> nodes sm !! X = Some nm ->
            (isDirty nm = true -> Cached.widthMeasureMode (cachedLayout (layout nm)) = None)
            /\ children nm = children n1) as Hlater.
  { intros sm nm He Hnm. pose proof (ev_node _ _ He X n1 nm Hn1 Hnm) as (Hs & Hd & _ & Hc).
    split; [|apply static_inv in Hs; tauto].
    intros Hdm. destruct (Hc Hdm) as [E | E]; [exact E|]. rewrite E. auto. }
  destruct (if ntv then None else cr) as [target|] eqn:Ehit.
  - (* the cached results are used *)
    assert (cr = Some target) as Ecr by (destruct ntv; [discriminate | exact Ehit]).
    assert (kstep (ancestor s X) s1 s2) as K2.
    { match type of H2 with ?c _ = _ => assert (preserves s1 (ancestor s X) c) as P end.
      { repeat preserves_step. }
      apply (P _ _ _ H2 Hg1 (evolves_refl s1)). }
    destruct (evolves_lookup _ _ _ _ (ks_evolves _ _ _ K2) Hn1) as (n2 & Hn2 & _).
    destruct (Hlater s2 n2 (ks_evolves _ _ _ K2) Hn2) as [HD2 Hch2].
    destruct (leaveNode_spec (ancestor s X) s2 X n2 pl (fun m => m) s') as [K3 Hclean];
      [apply (ks_good _ _ _ K2) | exact Hn2 | apply Htail, nodeSet_init, Hn2
       | intros m; auto | exact HD2 | |].
    + intros Hpl Hd2 c Hc. rewrite Hch2 in Hc.
      destruct (Hcr target Ecr Hpl) as [E | E].
      * rewrite E in Hc. inversion Hc.
      * pose proof (ev_node _ _ (ks_evolves _ _ _ K2) X n1 n2 Hn1 Hn2) as (_ & Hd & _).
        rewrite (HD (Hd Hd2)) in E. discriminate.
    + split; [|exact Hclean]. eapply kstep_trans; [exact K1|]. eapply kstep_trans; eauto.
  - (* the kernel runs *)
    apply bind_Some in H2 as ([] & sT & HT & H2). apply modify_state_Some in HT as ->.
    assert (kstep (ancestor s X) s1 (trace_kernel X s1)) as KT
        by (apply kstep_same; [exact Hg1 | reflexivity..]).
    apply bind_Some in H2 as ([] & si & Hi & H2).
    destruct (layoutNodeImpl_spec _ _ _ _ _ _ _ _ _ _ _ Hrec Hi (ks_good _ _ _ KT))
      as [Ki Hposti].
    assert (evolves s (trace_kernel X s1)) as HeT
        by (eapply evolves_trans; [apply (ks_evolves _ _ _ K1) | apply (ks_evolves _ _ _ KT)]).
    apply (kstep_weaken _ (ancestor s X)) in Ki;
      [| intros r Hr; apply (ancestor_evolves s _ X r HeT); exact Hr].
    assert (kstep (ancestor s X) s1 si) as K1i by (eapply kstep_trans; eauto).
    destruct (evolves_lookup _ _ _ _ (ks_evolves _ _ _ K1i) Hn1) as (ni & Hni & _).
    destruct (Hlater si ni (ks_evolves _ _ _ K1i) Hni) as [HDi Hchi].
    apply bind_Some in H2 as ([] & t1 & T1 & H2).
    pose proof (nodeSet_update _ _ _ _ _ _ _ (nodeSet_init _ _ _ Hni) T1) as Hset1.
    pose proof (nodeSet_when _ _ _ _ _ _ _ _ Hset1 H2) as Hset2.
    match type of Hset2 with
    | nodeSet _ _ _ (if ?bd then ?f (?g ni) else _) =>
        pose (h := fun m : CSSNode => if bd then f (g m) else g m)
    end.
    destruct (leaveNode_spec (ancestor s X) si X ni pl h s') as [K3 Hclean];
      [apply (ks_good _ _ _ K1i) | exact Hni | apply Htail; exact Hset2
       | | exact HDi | |].
    + intros m. subst h. cbn beta.
      destruct (bool_decide (cr = None)); [|cbn; auto].
      destruct pl; cbn; repeat split; try discriminate; intros _;
        destruct (bool_decide _); reflexivity.
    + intros Hpl _ c Hc. rewrite Hchi in Hc. apply (Hposti Hpl n1 c); [exact Hn1 | exact Hc].
    + split; [|exact Hclean]. eapply kstep_trans; [exact K1|]. eapply kstep_trans; eauto.
Qed.

(** The invariant of the layout, for any bound on the depth of the
    recursion. *)
Lemma layoutNodeInternal_spec fuel : layoutSpec (layoutNodeInternal fuel).
Proof.
  induction fuel as [|fuel IH].
  - intros X aw ah pd wm hm pl s b s' H. discriminate H.
  - apply layoutNodeInternal_body_spec, IH.
Qed.

(** ** The invariant between the calls of the host *)

Lemma parentClosed_upwardClosed s : parentClosed s -> upwardClosed s.
Proof.
  intros Hpc r a Hd Ha. induction Ha as [r Hp | r p Hp _ IH].
  - destruct Hd as (n & Hn & Hd). unfold parentOf in Hp. rewrite Hn in Hp. eapply Hpc; eauto.
  - apply IH. destruct Hd as (n & Hn & Hd). unfold parentOf in Hp. rewrite Hn in Hp.
    eapply Hpc; eauto.
Qed.

Lemma shape_parentOf s s' :
  (forall r, shape <$> nodes s' !! r = shape <$> nodes s !! r) ->
  forall r, parentOf s' r = parentOf s r.
Proof.
  intros Hsh r. specialize (Hsh r). unfold parentOf.
  destruct (nodes s' !! r) as [n'|], (nodes s !! r) as [n|]; unfold shape in *; cbn in *;
    congruence.
Qed.

Lemma wellFormed_shape s s' :
  gCurrentGenerationCount s' = gCurrentGenerationCount s -> nextRef s' = nextRef s ->
  (forall r, shape <$> nodes s' !! r = shape <$> nodes s !! r) ->
  wellFormed s -> wellFormed s'.
Proof.
  intros Eg En Hsh Hwf. pose proof (shape_parentOf _ _ Hsh) as Hp.
  assert (forall r n', nodes s' !! r = Some n' ->
            exists n, nodes s !! r = Some n /\ shape n' = shape n) as Hinv.
  { intros r n' Hn'. specialize (Hsh r). rewrite Hn' in Hsh. cbn in Hsh.
    symmetry in Hsh. apply fmap_Some in Hsh as (n & Hn & E). eauto. }
  assert (forall r n, nodes s !! r = Some n ->
            exists n', nodes s' !! r = Some n' /\ shape n' = shape n) as Hfwd.
  { intros r n Hn. specialize (Hsh r). rewrite Hn in Hsh. cbn in Hsh.
    apply fmap_Some in Hsh as (n' & Hn' & E). eauto. }
  split.
  - intros r n' c Hn' Hc. destruct (Hinv _ _ Hn') as (n & Hn & [= _ E _]).
    rewrite Hp. eapply wf_children; eauto. congruence.
  - intros c p Hpar. rewrite Hp in Hpar.
    destruct (wf_parent _ Hwf c p Hpar) as (pn & Hpn & Hc).
    destruct (Hfwd _ _ Hpn) as (pn' & Hpn' & [= _ E _]). exists pn'. split; congruence.
  - intros r n' Hn'. destruct (Hinv _ _ Hn') as (n & Hn & [= _ E _]). rewrite E.
    eapply wf_NoDup; eauto.
  - intros r Hr. apply (wf_acyclic _ Hwf r). eapply ancestor_parentOf; [|exact Hr]. auto.
  - intros r [n' Hn']. rewrite En. destruct (Hinv _ _ Hn') as (n & Hn & _).
    apply (wf_fresh _ Hwf). eauto.
  - rewrite Eg. apply (wf_generation _ Hwf).
  - intros r n' Hn'. rewrite Eg. destruct (Hinv _ _ Hn') as (n & Hn & [= _ _ E]). rewrite E.
    eapply wf_generations; eauto.
Qed.

Lemma marks_shape s s' : marks s s' -> forall r, shape <$> nodes s' !! r = shape <$> nodes s !! r.
Proof.
  intros Hm r. destruct (marks_node _ _ Hm r) as [-> | (n & Hn & _ & -> & _)]; [reflexivity|].
  rewrite Hn. reflexivity.
Qed.

Lemma marks_treeInvariant s s' : marks s s' -> treeInvariant s -> treeInvariant s'.
Proof.
  intros Hm [Hwf Hpc]. split.
  - eapply wellFormed_shape; [apply (marks_generation _ _ Hm) | apply (marks_nextRef _ _ Hm)
                              | apply marks_shape, Hm | exact Hwf].
  - eapply marks_parentClosed; eauto.
Qed.

(** An assignment to fields that the invariant is not about. *)
Lemma update_treeInvariant r f s u s' :
  update r f s = Some (u, s') ->
  (forall n, shape (f n) = shape n /\ isDirty (f n) = isDirty n) ->
  treeInvariant s -> treeInvariant s'.
Proof.
  intros H Hf [Hwf Hpc]. apply update_Some in H as (n & Hn & ->).
  destruct (Hf n) as [Hsh Hd]. split.
  - apply (wellFormed_shape s); [reflexivity | reflexivity | | exact Hwf].
    intros r'. cbn. destruct (decide (r' = r)) as [-> | Hne].
    + rewrite lookup_insert_eq, Hn. cbn. rewrite Hsh. reflexivity.
    + rewrite lookup_insert_ne by congruence. reflexivity.
  - intros r' m p Hm Hdm Hp. cbn in Hm.
    assert (exists m0, nodes s !! r' = Some m0 /\ isDirty m0 = true /\ parent m0 = Some p)
      as (m0 & Hm0 & Hd0 & Hp0).
    { destruct (decide (r' = r)) as [-> | Hne].
      - rewrite lookup_insert_eq in Hm. injection Hm as <-.
        injection Hsh as Hpar _ _. exists n. split; [exact Hn|]. split; congruence.
      - rewrite lookup_insert_ne in Hm by congruence. eauto. }
    destruct (Hpc r' m0 p Hm0 Hd0 Hp0) as (pn & Hpn & Hpd). unfold dirtyAt. cbn.
    destruct (decide (p = r)) as [-> | Hne].
    + exists (f n). rewrite lookup_insert_eq. split; [reflexivity|]. congruence.
    + exists pn. rewrite lookup_insert_ne by congruence. auto.
Qed.

Lemma _CSSNodeMarkDirty_treeInvariant r s u s' :
  _CSSNodeMarkDirty r s = Some (u, s') -> treeInvariant s -> treeInvariant s'.
Proof. intros H Hinv. apply _CSSNodeMarkDirty_marks in H as [Hm _]. eapply marks_treeInvariant; eauto. Qed.

Lemma CSS_NODE_STYLE_PROPERTY_IMPL_treeInvariant {T} (differs : T -> T -> bool) field assign
    node v s u s' :
  CSS_NODE_STYLE_PROPERTY_IMPL differs field assign node v s = Some (u, s') ->
  treeInvariant s -> treeInvariant s'.
Proof.
  intros H Hinv. unfold CSS_NODE_STYLE_PROPERTY_IMPL in H.
  apply bind_Some in H as (n & s1 & Hn & H). apply deref_Some in Hn as [Hn ->].
  destruct (differs (field (style n)) v); [|apply ret_Some in H as [_ ->]; exact Hinv].
  apply bind_Some in H as ([] & s1 & H1 & H).
  eapply _CSSNodeMarkDirty_treeInvariant; [exact H|].
  eapply update_treeInvariant; [exact H1 | | exact Hinv]. intros m. split; reflexivity.
Qed.

Lemma CSS_NODE_STYLE_EDGE_PROPERTY_IMPL_treeInvariant field assign node edge v s u s' :
  CSS_NODE_STYLE_EDGE_PROPERTY_IMPL field assign node edge v s = Some (u, s') ->
  treeInvariant s -> treeInvariant s'.
Proof.
  intros H Hinv. unfold CSS_NODE_STYLE_EDGE_PROPERTY_IMPL in H.
  apply bind_Some in H as (n & s1 & Hn & H). apply deref_Some in Hn as [Hn ->].
  destruct (F32.neb (edge_get (field (style n)) edge) v);
    [|apply ret_Some in H as [_ ->]; exact Hinv].
  apply bind_Some in H as ([] & s1 & H1 & H).
  eapply _CSSNodeMarkDirty_treeInvariant; [exact H|].
  eapply update_treeInvariant; [exact H1 | | exact Hinv]. intros m. split; reflexivity.
Qed.

Lemma setStyle_treeInvariant node p s u s' :
  setStyle node p s = Some (u, s') -> treeInvariant s -> treeInvariant s'.
Proof.
  destruct p; cbn [setStyle];
    first [apply CSS_NODE_STYLE_PROPERTY_IMPL_treeInvariant
          | apply CSS_NODE_STYLE_EDGE_PROPERTY_IMPL_treeInvariant].
Qed.

Lemma CSSNodeStyleSetFlex_treeInvariant node flex s u s' :
  CSSNodeStyleSetFlex node flex s = Some (u, s') -> treeInvariant s -> treeInvariant s'.
Proof.
  intros H Hinv. unfold CSSNodeStyleSetFlex in H.
  repeat match type of H with (if ?b then _ else _) _ = _ => destruct b end;
    apply bind_Some in H as ([] & s1 & H1 & H);
    apply bind_Some in H as ([] & s2 & H2 & H);
    eapply CSS_NODE_STYLE_PROPERTY_IMPL_treeInvariant; [exact H| | exact H| | exact H|];
    (eapply CSS_NODE_STYLE_PROPERTY_IMPL_treeInvariant; [exact H2|]);
    (eapply CSS_NODE_STYLE_PROPERTY_IMPL_treeInvariant; [exact H1|]); exact Hinv.
Qed.

Lemma ancestor_mono s s' a r :
  (forall r p, parentOf s' r = Some p -> parentOf s r = Some p) ->
  ancestor s' a r -> ancestor s a r.
Proof.
  intros Hp H. induction H as [r H | r p H _ IH].
  - apply ancestor_parent. auto.
  - eapply ancestor_step; eauto.
Qed.

Lemma initialState_treeInvariant : treeInvariant initialState.
Proof.
  split; [split|].
  - intros r n c Hn. cbn in Hn. rewrite lookup_empty in Hn. discriminate.
  - intros c p Hp. unfold parentOf in Hp. cbn in Hp. rewrite lookup_empty in Hp. discriminate.
  - intros r n Hn. cbn in Hn. rewrite lookup_empty in Hn. discriminate.
  - intros r Hr. assert (forall a r, ancestor initialState a r -> False) as Hno.
    { clear. intros a r H. destruct H as [r H | r p H _];
        unfold parentOf in H; cbn in H; rewrite lookup_empty in H; discriminate. }
    eapply Hno, Hr.
  - intros r [n Hn]. cbn in Hn. rewrite lookup_empty in Hn. discriminate.
  - cbn. lia.
  - intros r n Hn. cbn in Hn. rewrite lookup_empty in Hn. discriminate.
  - intros r n p Hn. cbn in Hn. rewrite lookup_empty in Hn. discriminate.
Qed.

Lemma CSSNodeNew_treeInvariant s r s' :
  CSSNodeNew s = Some (r, s') -> treeInvariant s -> treeInvariant s'.
Proof.
  intros H [Hwf Hpc]. unfold CSSNodeNew in H. injection H as <- <-.
  set (f := nextRef s).
  assert (nodes s !! f = None) as Hf.
  { destruct (nodes s !! f) eqn:E; [|reflexivity].
    pose proof (wf_fresh _ Hwf f ltac:(eauto)). subst f. lia. }
  match goal with |- treeInvariant ?t => set (s' := t) end.
  assert (forall r, parentOf s' r = parentOf s r) as Hp.
  { intros r. unfold parentOf. cbn. destruct (decide (r = f)) as [-> | Hne].
    - rewrite lookup_insert_eq, Hf. reflexivity.
    - rewrite lookup_insert_ne by congruence. reflexivity. }
  assert (forall r n, nodes s !! r = Some n -> nodes s' !! r = Some n) as Hold.
  { intros r n Hn. cbn. rewrite lookup_insert_ne by congruence. exact Hn. }
  assert (forall r n, nodes s' !! r = Some n ->
            (r = f /\ n = CSSNodeInit_value) \/ (r <> f /\ nodes s !! r = Some n)) as Hnew.
  { intros r n Hn. cbn in Hn. destruct (decide (r = f)) as [-> | Hne].
    - rewrite lookup_insert_eq in Hn. left. split; congruence.
    - rewrite lookup_insert_ne in Hn by congruence. auto. }
  split; [split|].
  - intros r n c Hn Hc. rewrite Hp. apply Hnew in Hn as [[-> ->] | [_ Hn]].
    + inversion Hc.
    + eapply wf_children; eauto.
  - intros c p Hpar. rewrite Hp in Hpar.
    destruct (wf_parent _ Hwf c p Hpar) as (pn & Hpn & Hc). eauto.
  - intros r n Hn. apply Hnew in Hn as [[-> ->] | [_ Hn]].
    + constructor.
    + eapply wf_NoDup; eauto.
  - intros r Hr. apply (wf_acyclic _ Hwf r). eapply ancestor_parentOf; [|exact Hr]. auto.
  - intros r [n Hn]. apply Hnew in Hn as [[-> ->] | [_ Hn]]; cbn.
    + subst f. lia.
    + pose proof (wf_fresh _ Hwf r ltac:(eauto)). lia.
  - apply (wf_generation _ Hwf).
  - intros r n Hn. apply Hnew in Hn as [[-> ->] | [_ Hn]].
    + cbn. pose proof (wf_generation _ Hwf). lia.
    + apply (wf_generations _ Hwf r n Hn).
  - intros r n p Hn Hd Hpar. apply Hnew in Hn as [[-> ->] | [_ Hn]]; [discriminate|].
    destruct (Hpc r n p Hn Hd Hpar) as (pn & Hpn & Hpd). exists pn. split; [apply Hold, Hpn | exact Hpd].
Qed.

Lemma ancestor_added_edge s s2 node child :
  (forall r, r <> child -> parentOf s2 r = parentOf s r) ->
  parentOf s2 child = Some node ->
  forall a r, ancestor s2 a r ->
              ancestor s a r
              \/ ((a = node \/ ancestor s a node) /\ (r = child \/ ancestor s child r)).
Proof.
  intros Hother Hchild a r H. induction H as [r H | r p H _ IH].
  - destruct (decide (r = child)) as [-> | Hne].
    + right. split; [left; congruence | left; reflexivity].
    + left. apply ancestor_parent. rewrite <- Hother by exact Hne. exact H.
  - destruct (decide (r = child)) as [-> | Hne].
    + right. split; [|left; reflexivity].
      assert (p = node) as -> by congruence. destruct IH as [IH | [IH _]]; auto.
    + rewrite Hother in H by exact Hne. destruct IH as [IH | [IH1 IH2]].
      * left. eapply ancestor_step; eauto.
      * right. split; [exact IH1|]. right. destruct IH2 as [-> | IH2].
        -- apply ancestor_parent. exact H.
        -- eapply ancestor_step; eauto.
Qed.

Lemma elem_of_CSSNodeListInsert l child index c :
  c ∈ CSSNodeListInsert l child index <-> c = child \/ c ∈ l.
Proof.
  unfold CSSNodeListInsert. rewrite elem_of_app, elem_of_cons. split.
  - intros [H | [-> | H]];
      [right; eapply elem_of_take_in, H | left; reflexivity | right; eapply elem_of_drop_in, H].
  - intros [-> | H]; [right; left; reflexivity|].
    rewrite <- (take_drop index l) in H. apply elem_of_app in H as [H | H]; auto.
Qed.

Lemma NoDup_CSSNodeListInsert l child index :
  NoDup l -> child ∉ l -> NoDup (CSSNodeListInsert l child index).
Proof.
  intros Hnd Hc. unfold CSSNodeListInsert. rewrite <- (take_drop index l) in Hnd, Hc.
  apply NoDup_app in Hnd as (N1 & N2 & N3). apply not_elem_of_app in Hc as [C1 C2].
  apply NoDup_app. split; [exact N1|]. split.
  - intros x Hx Hx'. apply elem_of_cons in Hx' as [-> | Hx']; [auto | eapply N2; eauto].
  - apply NoDup_cons. auto.
Qed.

Lemma elem_of_CSSNodeListDelete l child c :
  NoDup l -> c ∈ CSSNodeListDelete l child <-> c ∈ l /\ c <> child.
Proof.
  induction l as [|x l IH]; intros Hnd; cbn.
  - split; [intros H; inversion H | intros [H _]; inversion H].
  - apply NoDup_cons in Hnd as [Hx Hnd]. destruct (bool_decide_reflect (x = child)) as [-> | Hne].
    + rewrite elem_of_cons. split.
      * intros H. split; [auto|]. intros ->. auto.
      * intros [[-> | H] Hc]; [congruence | exact H].
    + rewrite !elem_of_cons, IH by exact Hnd. split.
      * intros [-> | [H Hc]]; auto.
      * intros [[-> | H] Hc]; auto.
Qed.

Lemma NoDup_CSSNodeListDelete l child : NoDup l -> NoDup (CSSNodeListDelete l child).
Proof.
  induction l as [|x l IH]; intros Hnd; cbn; [constructor|].
  apply NoDup_cons in Hnd as [Hx Hnd]. destruct (bool_decide (x = child)); [exact Hnd|].
  apply NoDup_cons. split; [|auto]. intros H. apply elem_of_CSSNodeListDelete in H; tauto.
Qed.

Lemma marks_closes s s' :
  marks s s' ->
  (forall r n p, nodes s !! r = Some n -> isDirty n = true -> parent n = Some p ->
                 dirtyAt s' p) ->
  parentClosed s'.
Proof.
  intros Hm Hpc r n' p Hn' Hd Hp.
  destruct (marks_node _ _ Hm r) as [Heq | (n & Hn & Hc & Hn2 & Hpar)].
  - rewrite Heq in Hn'. eapply Hpc; eauto.
  - rewrite Hn2 in Hn'. injection Hn' as <-. apply Hpar. exact Hp.
Qed.

Lemma dirtyAt_same s s' r :
  (forall r, isDirty <$> nodes s' !! r = isDirty <$> nodes s !! r) ->
  dirtyAt s r -> dirtyAt s' r.
Proof.
  intros Hsame (n & Hn & Hd). specialize (Hsame r). rewrite Hn in Hsame. cbn in Hsame.
  apply fmap_Some in Hsame as (n' & Hn' & E). exists n'. split; [exact Hn' | congruence].
Qed.

Lemma CSSNodeInsertChild_treeInvariant node child index s u s' :
  CSSNodeInsertChild node child index s = Some (u, s') ->
  node <> child -> ~ ancestor s child node ->
  treeInvariant s -> treeInvariant s'.
Proof.
  intros H Hne Hanc [Hwf Hpc]. unfold CSSNodeInsertChild in H.
  apply bind_Some in H as (c & t & Hc & H). apply deref_Some in Hc as [Hc ->].
  apply bind_Some in H as ([] & t & Ha & H). apply CSS_ASSERT_Some in Ha as [Ha ->].
  apply bool_decide_eq_true in Ha.
  apply bind_Some in H as ([] & s1 & H1 & H). apply update_Some in H1 as (nn & Hnn & ->).
  apply bind_Some in H as ([] & s2 & H2 & H3). apply update_Some in H2 as (c1 & Hc1 & E2).
  cbn in Hc1. rewrite lookup_insert_ne in Hc1 by exact Hne.
  assert (c1 = c) as -> by congruence.
  set (nn' := set_children (CSSNodeListInsert (children nn) child index) nn) in *.
  set (c' := set_parent (Some node) c) in *.
  assert (forall r, nodes s2 !! r
                    = if decide (r = child) then Some c'
                      else if decide (r = node) then Some nn' else nodes s !! r) as Hlook.
  { intros r. rewrite E2. cbn. destruct (decide (r = child)) as [-> | N1].
    - apply lookup_insert_eq.
    - rewrite lookup_insert_ne by congruence. destruct (decide (r = node)) as [-> | N2].
      + apply lookup_insert_eq.
      + rewrite lookup_insert_ne by congruence. reflexivity. }
  assert (gCurrentGenerationCount s2 = gCurrentGenerationCount s /\ nextRef s2 = nextRef s)
    as [Eg En] by (rewrite E2; auto).
  assert (parent nn' = parent nn /\ isDirty nn' = isDirty nn
          /\ generationCount (layout nn') = generationCount (layout nn)
          /\ children nn' = CSSNodeListInsert (children nn) child index
          /\ parent c' = Some node /\ isDirty c' = isDirty c
          /\ generationCount (layout c') = generationCount (layout c)
          /\ children c' = children c)
    as (Pn & Dn & Gn & Cn & Pc & Dc & Gc & Cc) by (subst nn' c'; cbn; auto 10).
  clearbody nn' c'. clear E2.
  assert (parentOf s child = None) as Hpc0 by (unfold parentOf; rewrite Hc; exact Ha).
  assert (parentOf s2 child = Some node) as Hpc2.
  { unfold parentOf. rewrite Hlook. rewrite decide_True by reflexivity. exact Pc. }
  assert (forall r, r <> child -> parentOf s2 r = parentOf s r) as Hpo.
  { intros r Hr. unfold parentOf. rewrite Hlook. rewrite decide_False by exact Hr.
    destruct (decide (r = node)) as [-> | N2]; [|reflexivity]. rewrite Hnn. exact Pn. }
  assert (child ∉ children nn) as Hnotin.
  { intros Hin. pose proof (wf_children _ Hwf _ _ _ Hnn Hin). congruence. }
  assert (wellFormed s2) as Hwf2.
  { split.
    - intros r n c0 Hn Hc0. rewrite Hlook in Hn. destruct (decide (r = child)) as [-> | N1].
      + injection Hn as <-. rewrite Cc in Hc0.
        pose proof (wf_children _ Hwf _ _ _ Hc Hc0) as Hp0.
        rewrite Hpo; [exact Hp0 | congruence].
      + destruct (decide (r = node)) as [-> | N2].
        * injection Hn as <-. rewrite Cn in Hc0.
          apply elem_of_CSSNodeListInsert in Hc0 as [-> | Hc0]; [exact Hpc2|].
          pose proof (wf_children _ Hwf _ _ _ Hnn Hc0) as Hp0.
          rewrite Hpo; [exact Hp0 | congruence].
        * pose proof (wf_children _ Hwf _ _ _ Hn Hc0) as Hp0.
          rewrite Hpo; [exact Hp0 | congruence].
    - intros c0 p Hp. destruct (decide (c0 = child)) as [-> | N1].
      + assert (p = node) as -> by congruence. exists nn'. split.
        * rewrite Hlook, decide_False by exact Hne. rewrite decide_True by reflexivity.
          reflexivity.
        * rewrite Cn. apply elem_of_CSSNodeListInsert. auto.
      + rewrite Hpo in Hp by exact N1.
        destruct (wf_parent _ Hwf c0 p Hp) as (pn & Hpn & Hin). rewrite Hlook.
        destruct (decide (p = child)) as [-> | N2].
        * exists c'. split; [reflexivity|]. rewrite Cc. congruence.
        * destruct (decide (p = node)) as [-> | N3]; [|eauto].
          exists nn'. split; [reflexivity|]. rewrite Cn.
          apply elem_of_CSSNodeListInsert. right. congruence.
    - intros r n Hn. rewrite Hlook in Hn. destruct (decide (r = child)) as [-> | N1].
      + injection Hn as <-. rewrite Cc. eapply wf_NoDup; eauto.
      + destruct (decide (r = node)) as [-> | N2]; [|eapply wf_NoDup; eauto].
        injection Hn as <-. rewrite Cn. apply NoDup_CSSNodeListInsert; [|exact Hnotin].
        eapply wf_NoDup; eauto.
    - intros r Hr.
      destruct (ancestor_added_edge s s2 node child Hpo Hpc2 r r Hr) as [Hc0 | [H1 H2]].
      + exact (wf_acyclic _ Hwf r Hc0).
      + apply Hanc. destruct H1 as [-> | H1], H2 as [E | H2].
        * congruence.
        * exact H2.
        * subst r. exact H1.
        * eapply ancestor_trans; eauto.
    - intros r [n Hn]. rewrite En. apply (wf_fresh _ Hwf). rewrite Hlook in Hn.
      repeat case_decide; subst; eexists; eassumption.
    - rewrite Eg. apply (wf_generation _ Hwf).
    - intros r n Hn. rewrite Eg. rewrite Hlook in Hn.
      destruct (decide (r = child)) as [-> | N1].
      + injection Hn as <-. rewrite Gc. eapply wf_generations; eauto.
      + destruct (decide (r = node)) as [-> | N2]; [|eapply wf_generations; eauto].
        injection Hn as <-. rewrite Gn. eapply wf_generations; eauto. }
  assert (forall r, isDirty <$> nodes s2 !! r = isDirty <$> nodes s !! r) as Hsame.
  { intros r. rewrite Hlook. destruct (decide (r = child)) as [-> | N1].
    - rewrite Hc. cbn. congruence.
    - destruct (decide (r = node)) as [-> | N2]; [|reflexivity]. rewrite Hnn. cbn. congruence. }
  apply _CSSNodeMarkDirty_marks in H3 as [Hm Hdn]. split.
  - eapply wellFormed_shape; [apply (marks_generation _ _ Hm) | apply (marks_nextRef _ _ Hm)
                              | apply marks_shape, Hm | exact Hwf2].
  - apply (marks_closes _ _ Hm). intros r n p Hn Hd Hp.
    destruct (decide (r = child)) as [-> | N1].
    + assert (p = node) as ->; [|exact Hdn].
      unfold parentOf in Hpc2. rewrite Hn in Hpc2. cbn in Hpc2. congruence.
    + eapply marks_dirtyAt; [exact Hm|]. apply (dirtyAt_same s s2 p Hsame).
      pose proof (Hpo r N1) as Hpar. unfold parentOf in Hpar. rewrite Hn in Hpar. cbn in Hpar.
      pose proof (Hsame r) as Hdr. rewrite Hn in Hdr. cbn in Hdr.
      destruct (nodes s !! r) as [n0|] eqn:Hn0; [|discriminate]. cbn in Hpar, Hdr.
      apply (Hpc r n0 p Hn0); congruence.
Qed.

Lemma CSSNodeRemoveChild_treeInvariant node child s u s' :
  CSSNodeRemoveChild node child s = Some (u, s') ->
  parentOf s child = Some node ->
  treeInvariant s -> treeInvariant s'.
Proof.
  intros H Hpar [Hwf Hpc]. unfold CSSNodeRemoveChild in H.
  assert (node <> child) as Hne.
  { intros ->. apply (wf_acyclic _ Hwf child). apply ancestor_parent. exact Hpar. }
  apply bind_Some in H as ([] & s1 & H1 & H). apply update_Some in H1 as (nn & Hnn & ->).
  apply bind_Some in H as ([] & s2 & H2 & H3). apply update_Some in H2 as (c & Hc & E2).
  cbn in Hc. rewrite lookup_insert_ne in Hc by exact Hne.
  set (nn' := set_children (CSSNodeListDelete (children nn) child) nn) in *.
  set (c' := set_parent None c) in *.
  assert (forall r, nodes s2 !! r
                    = if decide (r = child) then Some c'
                      else if decide (r = node) then Some nn' else nodes s !! r) as Hlook.
  { intros r. rewrite E2. cbn. destruct (decide (r = child)) as [-> | N1].
    - apply lookup_insert_eq.
    - rewrite lookup_insert_ne by congruence. destruct (decide (r = node)) as [-> | N2].
      + apply lookup_insert_eq.
      + rewrite lookup_insert_ne by congruence. reflexivity. }
  assert (gCurrentGenerationCount s2 = gCurrentGenerationCount s /\ nextRef s2 = nextRef s)
    as [Eg En] by (rewrite E2; auto).
  assert (parent nn' = parent nn /\ isDirty nn' = isDirty nn
          /\ generationCount (layout nn') = generationCount (layout nn)
          /\ children nn' = CSSNodeListDelete (children nn) child
          /\ parent c' = None /\ isDirty c' = isDirty c
          /\ generationCount (layout c') = generationCount (layout c)
          /\ children c' = children c)
    as (Pn & Dn & Gn & Cn & Pc & Dc & Gc & Cc) by (subst nn' c'; cbn; auto 10).
  clearbody nn' c'. clear E2.
  assert (parentOf s2 child = None) as Hpc2.
  { unfold parentOf. rewrite Hlook. rewrite decide_True by reflexivity. exact Pc. }
  assert (forall r, r <> child -> parentOf s2 r = parentOf s r) as Hpo.
  { intros r Hr. unfold parentOf. rewrite Hlook. rewrite decide_False by exact Hr.
    destruct (decide (r = node)) as [-> | N2]; [|reflexivity]. rewrite Hnn. exact Pn. }
  assert (forall r p, parentOf s2 r = Some p -> parentOf s r = Some p) as Hsub.
  { intros r p Hp. destruct (decide (r = child)) as [-> | N1]; [congruence|].
    rewrite <- Hpo by exact N1. exact Hp. }
  pose proof (wf_NoDup _ Hwf _ _ Hnn) as Hndn.
  assert (wellFormed s2) as Hwf2.
  { split.
    - intros r n c0 Hn Hc0. rewrite Hlook in Hn.
      assert (parentOf s c0 = Some r /\ c0 <> child) as [Hp0 N0].
      { repeat case_decide; subst.
        - injection Hn as <-. rewrite Cc in Hc0.
          pose proof (wf_children _ Hwf _ _ _ Hc Hc0) as Hp0. split; [exact Hp0|].
          intros ->. congruence.
        - injection Hn as <-. rewrite Cn in Hc0.
          apply elem_of_CSSNodeListDelete in Hc0 as [Hc0 N0]; [|exact Hndn].
          split; [|exact N0]. eapply wf_children; eauto.
        - pose proof (wf_children _ Hwf _ _ _ Hn Hc0) as Hp0. split; [exact Hp0|].
          intros ->. congruence. }
      rewrite Hpo by exact N0. exact Hp0.
    - intros c0 p Hp. assert (c0 <> child) as N0 by (intros ->; congruence).
      rewrite Hpo in Hp by exact N0.
      destruct (wf_parent _ Hwf c0 p Hp) as (pn & Hpn & Hin). rewrite Hlook.
      repeat case_decide; subst.
      + exists c'. split; [reflexivity|]. rewrite Cc.
        assert (pn = c) as -> by congruence. exact Hin.
      + exists nn'. split; [reflexivity|]. rewrite Cn.
        apply elem_of_CSSNodeListDelete; [exact Hndn|]. split; [|exact N0].
        assert (pn = nn) as -> by congruence. exact Hin.
      + eauto.
    - intros r n Hn. rewrite Hlook in Hn. repeat case_decide; subst.
      + injection Hn as <-. rewrite Cc. eapply wf_NoDup; eauto.
      + injection Hn as <-. rewrite Cn. apply NoDup_CSSNodeListDelete, Hndn.
      + eapply wf_NoDup; eauto.
    - intros r Hr. apply (wf_acyclic _ Hwf r). eapply ancestor_mono; eauto.
    - intros r [n Hn]. rewrite En. apply (wf_fresh _ Hwf). rewrite Hlook in Hn.
      repeat case_decide; subst; eexists; eassumption.
    - rewrite Eg. apply (wf_generation _ Hwf).
    - intros r n Hn. rewrite Eg. rewrite Hlook in Hn. repeat case_decide; subst.
      + injection Hn as <-. rewrite Gc. eapply wf_generations; eauto.
      + injection Hn as <-. rewrite Gn. eapply wf_generations; eauto.
      + eapply wf_generations; eauto. }
  assert (forall r, isDirty <$> nodes s2 !! r = isDirty <$> nodes s !! r) as Hsame.
  { intros r. rewrite Hlook. repeat case_decide; subst.
    - rewrite Hc. cbn. congruence.
    - rewrite Hnn. cbn. congruence.
    - reflexivity. }
  eapply _CSSNodeMarkDirty_treeInvariant; [exact H3|]. split; [exact Hwf2|].
  intros r n p Hn Hd Hp.
  assert (r <> child) as N1.
  { intros ->. unfold parentOf in Hpc2. rewrite Hn in Hpc2. cbn in Hpc2. congruence. }
  apply (dirtyAt_same s s2 p Hsame).
  pose proof (Hpo r N1) as Hpar'. unfold parentOf in Hpar'. rewrite Hn in Hpar'. cbn in Hpar'.
  pose proof (Hsame r) as Hdr. rewrite Hn in Hdr. cbn in Hdr.
  destruct (nodes s !! r) as [n0|] eqn:Hn0; [|discriminate]. cbn in Hpar', Hdr.
  apply (Hpc r n0 p Hn0); congruence.
Qed.

Lemma CSSNodeMarkDirty_treeInvariant node s u s' :
  CSSNodeMarkDirty node s = Some (u, s') -> treeInvariant s -> treeInvariant s'.
Proof.
  intros H Hinv. unfold CSSNodeMarkDirty in H.
  apply bind_Some in H as (n & t & Hn & H). apply deref_Some in Hn as [Hn ->].
  apply bind_Some in H as ([] & t & Ha & H). apply CSS_ASSERT_Some in Ha as [_ ->].
  eapply _CSSNodeMarkDirty_treeInvariant; eauto.
Qed.

(** After the increment of the generation no node has been visited. *)
Lemma bump_generation_Good s :
  gCurrentGenerationCount s + 1 < 2 ^ 32 -> treeInvariant s -> Good (bump_generation s).
Proof.
  intros Hlt [Hwf Hpc]. pose proof (wf_generation _ Hwf) as Hg.
  assert (gCurrentGenerationCount (bump_generation s) = gCurrentGenerationCount s + 1) as Eg.
  { cbn. unfold wrap32. apply Z.mod_small. lia. }
  split; [split|..].
  - apply (wf_children _ Hwf).
  - apply (wf_parent _ Hwf).
  - apply (wf_NoDup _ Hwf).
  - intros r Hr. apply (wf_acyclic _ Hwf r). eapply ancestor_parentOf; [|exact Hr]. reflexivity.
  - apply (wf_fresh _ Hwf).
  - rewrite Eg. lia.
  - intros r n Hn. rewrite Eg. pose proof (wf_generations _ Hwf r n Hn). lia.
  - intros r n Hn _ Hgen. rewrite Eg in Hgen. pose proof (wf_generations _ Hwf r n Hn). lia.
  - exact Hpc.
Qed.

Lemma Good_treeInvariant s : Good s -> treeInvariant s.
Proof. intros Hg. split; [apply (good_wf _ Hg) | apply (good_closed _ Hg)]. Qed.

Lemma calculateLayout_Good fuel node aw ah pd s u s' :
  calculateLayout fuel node aw ah pd s = Some (u, s') ->
  gCurrentGenerationCount s + 1 < 2 ^ 32 -> treeInvariant s -> Good s'.
Proof.
  intros H Hlt Hinv. unfold calculateLayout in H.
  apply bind_Some in H as ([] & sb & Hb & H). apply modify_state_Some in Hb as ->.
  pose proof (bump_generation_Good s Hlt Hinv) as Hgb.
  apply bind_Some in H as (n & t & Hn & H). apply deref_Some in Hn as [Hn ->].
  repeat match type of H with
  | (match ?x with _ => _ end) _ = _ => destruct x
  end.
  apply bind_Some in H as (visited & s2 & H2 & H).
  destruct (layoutNodeInternal_spec fuel _ _ _ _ _ _ _ _ _ _ H2 Hgb) as [K2 _].
  match type of H with ?c _ = _ => assert (preserves s2 (fun _ => False) c) as P end.
  { apply preserves_when, preserves_bind; [apply preserves_deref|].
    intros m. apply setPosition_preserves. }
  apply (ks_good _ _ _ (P _ _ _ H (ks_good _ _ _ K2) (evolves_refl s2))).
Qed.

Lemma CSSNodeCalculateLayout_treeInvariant node aw ah pd s u s' :
  CSSNodeCalculateLayout node aw ah pd s = Some (u, s') ->
  gCurrentGenerationCount s + 1 < 2 ^ 32 -> treeInvariant s -> treeInvariant s'.
Proof.
  intros H Hlt Hinv. apply Good_treeInvariant. eapply calculateLayout_Good; eauto.
Qed.

(** Every call of a disciplined host keeps the invariant. *)
Lemma perform_treeInvariant c s u s' :
  perform c s = Some (u, s') -> disciplined s c -> treeInvariant s -> treeInvariant s'.
Proof.
  intros H Hd Hinv. destruct c; cbn [perform disciplined] in *.
  - apply bind_Some in H as (r & s1 & H1 & H). apply ret_Some in H as [_ ->].
    eapply CSSNodeNew_treeInvariant; eauto.
  - destruct Hd. eapply CSSNodeInsertChild_treeInvariant; eauto.
  - eapply CSSNodeRemoveChild_treeInvariant; eauto.
  - eapply CSSNodeMarkDirty_treeInvariant; eauto.
  - eapply setStyle_treeInvariant; eauto.
  - eapply CSSNodeStyleSetFlex_treeInvariant; eauto.
  - eapply update_treeInvariant; [exact H | | exact Hinv]. intros m. split; reflexivity.
  - eapply update_treeInvariant; [exact H | | exact Hinv]. intros m. split; reflexivity.
  - eapply update_treeInvariant; [exact H | | exact Hinv]. intros m. split; reflexivity.
  - eapply CSSNodeCalculateLayout_treeInvariant; eauto.
Qed.

Lemma reachable_treeInvariant s : reachable s -> treeInvariant s.
Proof.
  induction 1 as [|s c s' _ IH Hd H|s fuel node aw ah pd s' _ IH Hlt H].
  - apply initialState_treeInvariant.
  - eapply perform_treeInvariant; eauto.
  - apply Good_treeInvariant. eapply calculateLayout_Good; eauto.
Qed.

(** ** The dirty flags between the calls of the host *)

Lemma wellFormed_parentsAllocated s : wellFormed s -> parentsAllocated s.
Proof.
  intros Hwf r n p Hn Hp.
  destruct (wf_parent _ Hwf r p) as (pn & Hpn & _); [|eauto].
  unfold parentOf. rewrite Hn. exact Hp.
Qed.

Lemma CSS_NODE_STYLE_PROPERTY_IMPL_dirties {T} (differs : T -> T -> bool) field assign
    node v s n :
  parentsAllocated s -> nodes s !! node = Some n -> differs (field (style n)) v = true ->
  exists s', CSS_NODE_STYLE_PROPERTY_IMPL differs field assign node v s = Some (tt, s')
             /\ dirtyAt s' node.
Proof.
  intros Hpa Hn Hd. unfold CSS_NODE_STYLE_PROPERTY_IMPL.
  unfold bind at 1. unfold deref at 1. rewrite Hn, Hd. unfold bind, update. rewrite Hn.
  set (s1 := set_nodes (insert node (set_style (assign v) n)) s).
  assert (parentsAllocated s1) as Hpa1 by (apply parentsAllocated_set_style; auto).
  assert (nodes s1 !! node = Some (set_style (assign v) n)) as Hn1
      by (subst s1; cbn; apply lookup_insert_eq).
  destruct (_CSSNodeMarkDirty_total node s1 Hpa1) as [s' Hs']; [eauto|].
  exists s'. rewrite Hs'. split; [reflexivity|].
  apply _CSSNodeMarkDirty_marks in Hs' as [_ Hdirty]. exact Hdirty.
Qed.

Lemma CSS_NODE_STYLE_EDGE_PROPERTY_IMPL_dirties field assign node edge v s n :
  parentsAllocated s -> nodes s !! node = Some n ->
  F32.neb (edge_get (field (style n)) edge) v = true ->
  exists s', CSS_NODE_STYLE_EDGE_PROPERTY_IMPL field assign node edge v s = Some (tt, s')
             /\ dirtyAt s' node.
Proof.
  intros Hpa Hn Hd. unfold CSS_NODE_STYLE_EDGE_PROPERTY_IMPL.
  unfold bind at 1. unfold deref at 1. rewrite Hn, Hd. unfold bind, update. rewrite Hn.
  match goal with |- context [set_nodes (insert node (set_style ?f n)) s] =>
    set (s1 := set_nodes (insert node (set_style f n)) s);
    assert (parentsAllocated s1) as Hpa1 by (apply parentsAllocated_set_style; auto);
    assert (nodes s1 !! node = Some (set_style f n)) as Hn1
        by (subst s1; cbn; apply lookup_insert_eq)
  end.
  destruct (_CSSNodeMarkDirty_total node s1 Hpa1) as [s' Hs']; [eauto|].
  exists s'. rewrite Hs'. split; [reflexivity|].
  apply _CSSNodeMarkDirty_marks in Hs' as [_ Hdirty]. exact Hdirty.
Qed.

(** A setter that is given a value that differs from the one of the style
    returns and leaves the node dirty. *)
Lemma setStyle_dirties node p s n :
  parentsAllocated s -> nodes s !! node = Some n -> differsFromStyle (style n) p = true ->
  exists s', setStyle node p s = Some (tt, s') /\ dirtyAt s' node.
Proof.
  intros Hpa Hn. destruct p; cbn [setStyle differsFromStyle];
    first [apply CSS_NODE_STYLE_PROPERTY_IMPL_dirties; assumption
          | apply CSS_NODE_STYLE_EDGE_PROPERTY_IMPL_dirties; assumption].
Qed.

Lemma reachable_runCalls cs :
  forall s s', reachable s -> followsRun disciplined cs s -> runCalls cs s = Some s' ->
               reachable s'.
Proof.
  induction cs as [|c cs IH]; intros s s' Hr Hd Hrun; cbn in Hd, Hrun.
  - injection Hrun as <-. exact Hr.
  - destruct Hd as [Hd Hrest]. destruct (perform c s) as [[[] s1]|] eqn:Hp; [|discriminate].
    eapply IH; [|exact Hrest|exact Hrun]. eapply reachable_call; eauto.
Qed.

(** ** The generation counter after 2^32 layout passes *)

Lemma reachableUnbounded_runCalls cs :
  forall s s', reachableUnbounded s -> followsRun keepsForest cs s ->
               runCalls cs s = Some s' -> reachableUnbounded s'.
Proof.
  induction cs as [|c cs IH]; intros s s' Hr Hd Hrun; cbn in Hd, Hrun.
  - injection Hrun as <-. exact Hr.
  - destruct Hd as [Hd Hrest]. destruct (perform c s) as [[[] s1]|] eqn:Hp; [|discriminate].
    eapply IH; [|exact Hrest|exact Hrun]. eapply unbounded_call; eauto.
Qed.

(** Refutes [H : ancestor s a r] for a concrete store [s]. *)
Ltac refute_ancestor H :=
  let Hp := fresh "Hp" in
  let H' := fresh "H" in
  inversion H as [? Hp | ? ? Hp H']; vm_compute in Hp;
  [ discriminate | first [discriminate | injection Hp as <-; refute_ancestor H'] ].

Lemma lineage_reachable : reachableUnbounded lineage.
Proof.
  apply (reachableUnbounded_runCalls lineageCalls initialState).
  - constructor.
  - vm_compute. repeat split; try discriminate; intros H; refute_ancestor H.
  - vm_compute. reflexivity.
Qed.

(** A layout pass of the tree that was laid out before finds the result of
    the container in its cache: it increments the generation counter, sets
    the generation of the container, and visits no other node. *)
Lemma bump_generation_atGeneration g s :
  bump_generation (atGeneration g s) = atGenerations g (wrap32 (g + 1)) s.
Proof. reflexivity. Qed.

Lemma layoutAgain_atGeneration g :
  perform layoutAgain (atGeneration g lineage)
  = Some (tt, atGeneration (wrap32 (g + 1)) lineage).
Proof.
  unfold layoutAgain, perform, CSSNodeCalculateLayout, calculateLayout.
  apply bind_Some. exists tt, (bump_generation (atGeneration g lineage)).
  split; [reflexivity|].
  rewrite bump_generation_atGeneration. unfold atGeneration.
  generalize (wrap32 (g + 1)). intros g'.
  vm_compute. reflexivity.
Qed.

Lemma atGeneration_reachable (k : nat) :
  reachableUnbounded (atGeneration (wrap32 (1 + Z.of_nat k)) lineage).
Proof.
  induction k as [|k IH].
  - replace (atGeneration (wrap32 (1 + Z.of_nat 0)) lineage) with lineage
      by (vm_compute; reflexivity).
    apply lineage_reachable.
  - replace (wrap32 (1 + Z.of_nat (S k))) with (wrap32 (wrap32 (1 + Z.of_nat k) + 1)).
    + apply (unbounded_call _ layoutAgain _ IH); [exact I | apply layoutAgain_atGeneration].
    + unfold wrap32. rewrite Zplus_mod_idemp_l. f_equal. lia.
Qed.

Lemma atGeneration_0_reachable : reachableUnbounded (atGeneration 0 lineage).
Proof.
  pose proof (atGeneration_reachable (Z.to_nat (2 ^ 32 - 1))) as H.
  rewrite Z2Nat.id in H by lia.
  replace (wrap32 (1 + (2 ^ 32 - 1))) with 0 in H by (vm_compute; reflexivity).
  exact H.
Qed.

(** The closure of the dirty flags is lost once the 32-bit generation
    counter has wrapped around: after 2^32 - 1 further layout passes of a tree that
    did not change, the counter is one below the generation that the nodes
    [1] and [2] keep from their only visit. The host then sets the width of
    [2], which marks [2], [1] and [0] dirty. The next pass takes the counter
    to that generation, so that [layoutNodeInternal] does not invalidate
    the caches of the dirty node [1], finds its results in them and clears
    its dirty flag without a visit to [2]: the node [2] is dirty and its
    parent [1] is not. *)
Lemma C5_closure_lost_after_wrap_around :
  reachableUnbounded wrappedScenario /\ ~ upwardClosed wrappedScenario.
Proof.
  split.
  - apply (reachableUnbounded_runCalls wrappedCalls (atGeneration 0 lineage)).
    + apply atGeneration_0_reachable.
    + vm_compute. auto.
    + vm_compute. reflexivity.
  - intros Hclosed.
    destruct (Hclosed 2%nat 1%nat) as (n & Hn & Hd).
    + eexists. split; [vm_compute; reflexivity | vm_compute; reflexivity].
    + apply ancestor_parent. vm_compute. reflexivity.
    + vm_compute in Hn. injection Hn as <-. vm_compute in Hd. discriminate.
Qed.

(** ** The hosts of the examples *)

Lemma reachable_builtScenario : reachable builtScenario.
Proof.
  apply (reachable_runCalls builtCalls initialState).
  - constructor.
  - vm_compute. repeat split; try discriminate.
    intros H. inversion H as [? Hp | ? ? Hp _]; vm_compute in Hp; discriminate.
  - vm_compute. reflexivity.
Qed.

Lemma treeInvariant_builtScenario : treeInvariant builtScenario.
Proof. apply reachable_treeInvariant, reachable_builtScenario. Qed.

Lemma parentsAllocated_builtScenario : parentsAllocated builtScenario.
Proof. apply wellFormed_parentsAllocated, inv_wf, treeInvariant_builtScenario. Qed.

Lemma layout_builtScenario :
  CSSNodeCalculateLayout 0%nat (F32.of_Z 100) (F32.of_Z 100) CSSDirectionLTR builtScenario
  = Some (tt, laidOutScenario).
Proof. vm_compute. reflexivity. Qed.

Lemma reachable_laidOutScenario : reachable laidOutScenario.
Proof.
  apply (reachable_call builtScenario
           (CallCalculateLayout 0%nat (F32.of_Z 100) (F32.of_Z 100) CSSDirectionLTR)).
  - exact reachable_builtScenario.
  - vm_compute. reflexivity.
  - exact layout_builtScenario.
Qed.

Lemma parentsAllocated_laidOutScenario : parentsAllocated laidOutScenario.
Proof.
  apply wellFormed_parentsAllocated, inv_wf, reachable_treeInvariant, reachable_laidOutScenario.
Qed.

Lemma parentsAllocated_visitedDirtyState : parentsAllocated visitedDirtyState.
Proof.
  intros r n p Hn Hp. unfold visitedDirtyState in Hn. cbn [nodes] in Hn.
  apply lookup_singleton_Some in Hn as [<- <-]. discriminate Hp.
Qed.

Lemma attained_runCalls cs :
  forall s s', attained s -> runCalls cs s = Some s' -> attained s'.
Proof.
  induction cs as [|c cs IH]; intros s s' Hs H; cbn in H.
  - injection H as <-. exact Hs.
  - destruct (perform c s) as [[[] s1]|] eqn:E; [|discriminate].
    eapply IH; [|exact H]. apply (attained_call s (Calls c)); assumption.
Qed.

Lemma attained_builtScenario : attained builtScenario.
Proof.
  apply (attained_runCalls builtCalls initialState); [constructor|]. vm_compute. reflexivity.
Qed.

Lemma attained_hostScenario : attained hostScenario.
Proof.
  apply (attained_runCalls hostCalls initialState); [constructor|]. vm_compute. reflexivity.
Qed.

(** ** Reading the style back *)

Lemma marks_field s s' r n {T} (field : CSSStyle -> T) :
  marks s s' -> nodes s !! r = Some n ->
  CSS_NODE_STYLE_PROPERTY_GET field r s' = Some (field (style n), s').
Proof.
  intros Hm Hn. destruct (marks_style _ _ _ _ Hm Hn) as (n' & Hn' & Hst).
  unfold CSS_NODE_STYLE_PROPERTY_GET, bind, deref. rewrite Hn', Hst. reflexivity.
Qed.

Lemma same_refl {A} `{EqDecision A} (a : A) : same a a = true.
Proof. unfold same. apply bool_decide_eq_true_2. reflexivity. Qed.

Lemma differ_false {A} `{EqDecision A} (a b : A) : differ a b = false -> same a b = true.
Proof. unfold differ. apply negb_false_iff. Qed.

Lemma neb_false a b : F32.neb a b = false -> F32.eqb a b = true.
Proof. unfold F32.neb. apply negb_false_iff. Qed.

Lemma eqb_refl a : F32.isnan a = false -> F32.eqb a a = true.
Proof. intros H. unfold F32.eqb, SFeqb. rewrite SFcompare_refl by exact H. reflexivity. Qed.

(** The setter of a style field, followed by its getter. *)
Lemma CSS_NODE_STYLE_PROPERTY_IMPL_get {T} (differs : T -> T -> bool) field assign
    node v s n :
  (forall st, field (assign v st) = v) ->
  parentsAllocated s -> nodes s !! node = Some n ->
  exists s' r,
    CSS_NODE_STYLE_PROPERTY_IMPL differs field assign node v s = Some (tt, s')
    /\ CSS_NODE_STYLE_PROPERTY_GET field node s' = Some (r, s')
    /\ (r = v \/ differs r v = false).
Proof.
  intros Hlens Hpa Hn.
  destruct (CSS_NODE_STYLE_PROPERTY_IMPL_total differs field assign node v s n Hpa Hn)
    as (s' & Hrun & _ & n' & Hn' & Hst).
  exists s', (field (style n')). split; [exact Hrun|]. split.
  - unfold CSS_NODE_STYLE_PROPERTY_GET, bind, deref. rewrite Hn'. reflexivity.
  - rewrite Hst. destruct (differs (field (style n)) v) eqn:E; [left; apply Hlens | right; exact E].
Qed.

Lemma eqb_not_nan a b : F32.eqb a b = true -> F32.isnan a = false.
Proof. destruct a, b; cbn; auto; discriminate. Qed.

Lemma edge_get_set a e v : edge_get (edge_set a e v) e = v.
Proof. destruct a, e; reflexivity. Qed.

Lemma edge_get_set_ne a e e' v : e <> e' -> edge_get (edge_set a e v) e' = edge_get a e'.
Proof. destruct a, e, e'; intros H; try reflexivity; congruence. Qed.

(** The setter of a per-edge field, followed by its getter. *)
Lemma CSS_NODE_STYLE_EDGE_PROPERTY_IMPL_get field assign defaultValue node edge v s n :
  (forall a st, field (assign a st) = a) ->
  parentsAllocated s -> nodes s !! node = Some n ->
  exists s',
    CSS_NODE_STYLE_EDGE_PROPERTY_IMPL field assign node edge v s = Some (tt, s')
    /\ (same edge CSSEdgeHorizontal || same edge CSSEdgeVertical || same edge CSSEdgeAll = true ->
        CSS_NODE_STYLE_EDGE_PROPERTY_GET field defaultValue node edge s' = None)
    /\ (same edge CSSEdgeHorizontal || same edge CSSEdgeVertical || same edge CSSEdgeAll = false ->
        F32.isnan v = false ->
        exists r, CSS_NODE_STYLE_EDGE_PROPERTY_GET field defaultValue node edge s' = Some (r, s')
                  /\ F32.eqb r v = true).
Proof.
  intros Hlens Hpa Hn.
  destruct (CSS_NODE_STYLE_PROPERTY_IMPL_total F32.neb
              (fun st => edge_get (field st) edge)
              (fun v st => assign (edge_set (field st) edge v) st) node v s n Hpa Hn)
    as (s' & Hrun & _ & n' & Hn' & Hst).
  exists s'. split; [exact Hrun|].
  unfold CSS_NODE_STYLE_EDGE_PROPERTY_GET, bind, deref. rewrite Hn'. split.
  - intros ->. reflexivity.
  - intros -> Hv. cbn.
    assert (F32.eqb (edge_get (field (style n')) edge) v = true) as He.
    { rewrite Hst. destruct (F32.neb (edge_get (field (style n)) edge) v) eqn:E.
      - rewrite Hlens, edge_get_set. apply eqb_refl, Hv.
      - apply neb_false, E. }
    eexists. split; [reflexivity|].
    unfold computedEdgeValue, CSSValueIsUndefined.
    rewrite (eqb_not_nan _ _ He). exact He.
Qed.

Lemma sameValue_float r v : (r = v \/ F32.neb r v = false) -> F32.isnan v = false ->
  F32.eqb r v = true.
Proof. intros [-> | H] Hv; [apply eqb_refl, Hv | apply neb_false, H]. Qed.

Lemma sameValue_enum {A} `{EqDecision A} (r v : A) : (r = v \/ differ r v = false) -> same r v = true.
Proof. intros [-> | H]; [apply same_refl | apply differ_false, H]. Qed.

Ltac unfold_getters :=
  unfold CSSNodeStyleGetDirection, CSSNodeStyleGetFlexDirection, CSSNodeStyleGetJustifyContent,
    CSSNodeStyleGetAlignContent, CSSNodeStyleGetAlignItems, CSSNodeStyleGetAlignSelf,
    CSSNodeStyleGetPositionType, CSSNodeStyleGetFlexWrap, CSSNodeStyleGetOverflow,
    CSSNodeStyleGetFlexGrow, CSSNodeStyleGetFlexShrink, CSSNodeStyleGetFlexBasis,
    CSSNodeStyleGetWidth, CSSNodeStyleGetHeight, CSSNodeStyleGetMinWidth,
    CSSNodeStyleGetMinHeight, CSSNodeStyleGetMaxWidth, CSSNodeStyleGetMaxHeight,
    CSSNodeStyleGetPosition, CSSNodeStyleGetMargin, CSSNodeStyleGetPadding,
    CSSNodeStyleGetBorder.

Ltac plain_round_trip differs field assign node v s n Hpa Hn :=
  let s' := fresh "s'" in let r := fresh "r" in
  let Hrun := fresh "Hrun" in let Hget := fresh "Hget" in let Hr := fresh "Hr" in
  destruct (CSS_NODE_STYLE_PROPERTY_IMPL_get differs field assign node v s n
              ltac:(intros st; destruct st; reflexivity) Hpa Hn)
    as (s' & r & Hrun & Hget & Hr);
  exists s'; split; [exact Hrun|]; split; [discriminate|]; intros _ Hv;
  eexists; split;
  [ cbn [getStyle]; unfold_getters; unfold bind at 1; rewrite Hget; reflexivity
  | cbn [valueOf sameValue];
    first [apply sameValue_enum; exact Hr | apply sameValue_float; [exact Hr | exact Hv]] ].

Ltac edge_round_trip field assign d node e v s n Hpa Hn :=
  let s' := fresh "s'" in let r := fresh "r" in
  let Hrun := fresh "Hrun" in let Hsh := fresh "Hsh" in let Hget := fresh "Hget" in
  destruct (CSS_NODE_STYLE_EDGE_PROPERTY_IMPL_get field assign d node e v s n
              ltac:(intros a st; destruct st; reflexivity) Hpa Hn)
    as (s' & Hrun & Hsh & Hget);
  exists s'; split; [exact Hrun|]; split;
  [ intros H; cbn [getStyle]; unfold_getters; unfold bind at 1; rewrite (Hsh H); reflexivity
  | intros H Hv; destruct (Hget H Hv) as (r & Hr & He);
    exists (ValFloat r); split;
    [ cbn [getStyle]; unfold_getters; unfold bind at 1; rewrite Hr; reflexivity | exact He ] ].



Lemma neb_nan a b : F32.isnan b = true -> F32.neb a b = true.
Proof. destruct b; try discriminate. intros _. destruct a as [[] | [] | | [] m e]; reflexivity. Qed.

Lemma undefinedValue_differs st p : undefinedValue p = true -> differsFromStyle st p = true.
Proof.
  destruct p; cbn; try discriminate; apply neb_nan.
Qed.



(** ** The order of the floats, continued *)

Lemma lt_false_ge a b :
  F32.isnan a = false -> F32.isnan b = false -> F32.lt a b = false -> F32.ge a b = true.
Proof.
  intros Ha Hb. unfold F32.lt, F32.ge, SFltb, SFleb. rewrite (SFcompare_antisym a b).
  destruct (SFcompare a b) as [[]|] eqn:E; cbn; try discriminate; try reflexivity.
  destruct a, b; cbn in *; discriminate.
Qed.

Lemma gt_false_le a b :
  F32.isnan a = false -> F32.isnan b = false -> F32.gt a b = false -> F32.le a b = true.
Proof. intros Ha Hb H. apply (lt_false_ge b a Hb Ha H). Qed.

Lemma ge_refl a : F32.isnan a = false -> F32.ge a a = true.
Proof. intros H. unfold F32.ge, SFleb. rewrite SFcompare_refl by exact H. reflexivity. Qed.

Lemma lt_ge a b : F32.lt a b = true -> F32.ge b a = true.
Proof. unfold F32.lt, F32.ge, SFltb, SFleb. destruct (SFcompare a b) as [[]|]; auto. Qed.

Lemma ge_not_nan_l a b : F32.ge a b = true -> F32.isnan a = false.
Proof. destruct a, b; cbn; auto; discriminate. Qed.

Lemma ge_nonNegative a b : F32.ge a b = true -> nonNegative b -> nonNegative a.
Proof.
  rewrite !nonNegative_shape. unfold F32.ge, SFleb.
  destruct a as [sa | [] | | [] ma ea], b as [sb | [] | | [] mb eb]; cbn; try tauto; try discriminate.
Qed.

Lemma nonNegative_fmaxf a b : nonNegative b -> nonNegative (F32.fmaxf a b).
Proof.
  intros Hb. eapply ge_nonNegative; [|exact Hb]. apply fmaxf_ge_right, nonNegative_not_nan, Hb.
Qed.

Lemma nonNegative_boundAxis node axis value : nonNegative (boundAxis node axis value).
Proof. apply nonNegative_fmaxf, getPaddingAndBorderAxis_nonNegative. Qed.

(** [boundAxisWithinMinAndMax] with its two tests in the order of the source:
    the maximum first, the minimum last. *)
Lemma boundAxisWithinMinAndMax_unfold node axis value :
  boundAxisWithinMinAndMax node axis value =
  let b := if negb (CSSValueIsUndefined (maxOf node axis)) && F32.ge (maxOf node axis) F32.zero
              && F32.gt value (maxOf node axis) then maxOf node axis else value in
  if negb (CSSValueIsUndefined (minOf node axis)) && F32.ge (minOf node axis) F32.zero
     && F32.lt b (minOf node axis) then minOf node axis else b.
Proof. destruct axis; reflexivity. Qed.

Lemma nonNegative_test x :
  negb (CSSValueIsUndefined x) && F32.ge x F32.zero = true <-> nonNegative x.
Proof.
  unfold nonNegative. split.
  - intros H. apply andb_true_iff in H as [_ H]. exact H.
  - intros H. unfold CSSValueIsUndefined. rewrite (nonNegative_not_nan x H), H. reflexivity.
Qed.

(** Property X3: [boundAxisWithinMinAndMax] returns the value, the minimum or
    the maximum of the style. An undefined value is returned as it is. A
    defined value comes back at least the minimum when the minimum is defined
    and not negative, and at most the maximum when the maximum is defined and
    not negative and the minimum, if it counts, does not exceed it: the
    minimum is applied last and wins over the maximum. *)
Theorem boundAxisWithinMinAndMax_clamps node axis value :
  let min := dim_get (minDimensions (style node)) (dim axis) in
  let max := dim_get (maxDimensions (style node)) (dim axis) in
  let bound := boundAxisWithinMinAndMax node axis value in
  (bound = value \/ bound = min \/ bound = max)
  /\ (CSSValueIsUndefined value = true -> bound = value)
  /\ (CSSValueIsUndefined value = false -> nonNegative min -> F32.ge bound min = true)
  /\ (CSSValueIsUndefined value = false -> nonNegative max ->
      (nonNegative min -> F32.le min max = true) -> F32.le bound max = true).
Proof.
  cbv zeta. rewrite boundAxisWithinMinAndMax_unfold. fold (minOf node axis) (maxOf node axis).
  generalize (minOf node axis) (maxOf node axis). intros mn mx. cbv zeta.
  split; [|split; [|split]].
  - destruct (_ && _ && F32.lt _ mn); [auto|]. destruct (_ && _ && _); auto.
  - unfold CSSValueIsUndefined. intros Hv.
    assert (F32.gt value mx = false) as -> by (destruct value, mx; try discriminate; reflexivity).
    rewrite andb_false_r.
    assert (F32.lt value mn = false) as -> by (destruct value, mn; try discriminate; reflexivity).
    rewrite andb_false_r. reflexivity.
  - intros Hv Hmn. rewrite (proj2 (nonNegative_test mn) Hmn). cbn [andb].
    pose proof (nonNegative_not_nan _ Hmn) as Hn.
    match goal with |- context [F32.lt ?b mn] => destruct (F32.lt b mn) eqn:E end.
    + apply ge_refl, Hn.
    + apply lt_false_ge; [|exact Hn|exact E].
      destruct (negb (CSSValueIsUndefined mx) && F32.ge mx F32.zero && F32.gt value mx) eqn:E2;
        [|exact Hv].
      apply andb_true_iff in E2 as [E2 _]. apply nonNegative_test in E2.
      apply nonNegative_not_nan, E2.
  - intros Hv Hmx Hle. rewrite (proj2 (nonNegative_test mx) Hmx). cbn [andb].
    pose proof (nonNegative_not_nan _ Hmx) as Hn.
    destruct (negb (CSSValueIsUndefined mn) && F32.ge mn F32.zero && _) eqn:E.
    + apply andb_true_iff in E as [E _]. apply nonNegative_test in E. apply Hle, E.
    + destruct (F32.gt value mx) eqn:E2.
      * apply (ge_refl mx Hn).
      * apply gt_false_le; assumption.
Qed.

(** ** Margins and positions *)

Lemma computedEdgeValue_physical edges edge defaultValue :
  edge = CSSEdgeLeft \/ edge = CSSEdgeTop \/ edge = CSSEdgeRight \/ edge = CSSEdgeBottom ->
  CSSValueIsUndefined defaultValue = false ->
  CSSValueIsUndefined (computedEdgeValue edges edge defaultValue) = false.
Proof.
  intros He Hd. unfold computedEdgeValue.
  destruct (CSSValueIsUndefined (edge_get edges edge)) eqn:E1; cbn [negb]; [|exact E1].
  destruct (CSSValueIsUndefined (edge_get edges CSSEdgeVertical)) eqn:E2,
           (CSSValueIsUndefined (edge_get edges CSSEdgeHorizontal)) eqn:E3,
           (CSSValueIsUndefined (edge_get edges CSSEdgeAll)) eqn:E4;
    destruct He as [-> | [-> | [-> | ->]]]; cbn; assumption.
Qed.

Lemma leading_physical axis :
  leading axis = CSSEdgeLeft \/ leading axis = CSSEdgeTop
  \/ leading axis = CSSEdgeRight \/ leading axis = CSSEdgeBottom.
Proof. destruct axis; cbn; auto. Qed.

Lemma trailing_physical axis :
  trailing axis = CSSEdgeLeft \/ trailing axis = CSSEdgeTop
  \/ trailing axis = CSSEdgeRight \/ trailing axis = CSSEdgeBottom.
Proof. destruct axis; cbn; auto. Qed.

(** Property X4: the edge getters of the layout never yield an undefined
    value, whatever the style holds: the leading and trailing margins and
    positions and the relative position are defined numbers, and the leading
    and trailing paddings and borders are moreover not negative. *)
Theorem margins_and_positions_defined node axis :
  CSSValueIsUndefined (getLeadingMargin node axis) = false
  /\ CSSValueIsUndefined (getTrailingMargin node axis) = false
  /\ CSSValueIsUndefined (getLeadingPosition node axis) = false
  /\ CSSValueIsUndefined (getTrailingPosition node axis) = false
  /\ CSSValueIsUndefined (getRelativePosition node axis) = false
  /\ nonNegative (getLeadingPadding node axis)
  /\ nonNegative (getTrailingPadding node axis)
  /\ nonNegative (getLeadingBorder node axis)
  /\ nonNegative (getTrailingBorder node axis).
Proof.
  assert (CSSValueIsUndefined (getLeadingPosition node axis) = false) as HL.
  { unfold getLeadingPosition.
    destruct (isRowDirection axis && _) eqn:E.
    - apply andb_true_iff in E as [_ E]. apply negb_true_iff, E.
    - destruct (CSSValueIsUndefined (computedEdgeValue _ (leading axis) _)) eqn:E2;
        [reflexivity | exact E2]. }
  assert (CSSValueIsUndefined (getTrailingPosition node axis) = false) as HT.
  { unfold getTrailingPosition.
    destruct (isRowDirection axis && _) eqn:E.
    - apply andb_true_iff in E as [_ E]. apply negb_true_iff, E.
    - destruct (CSSValueIsUndefined (computedEdgeValue _ (trailing axis) _)) eqn:E2;
        [reflexivity | exact E2]. }
  repeat split;
    auto using getLeadingPadding_nonNegative, getTrailingPadding_nonNegative,
      getLeadingBorder_nonNegative, getTrailingBorder_nonNegative.
  - unfold getLeadingMargin. destruct (isRowDirection axis && _) eqn:E.
    + apply andb_true_iff in E as [_ E]. apply negb_true_iff, E.
    + apply computedEdgeValue_physical; [apply leading_physical | reflexivity].
  - unfold getTrailingMargin. destruct (isRowDirection axis && _) eqn:E.
    + apply andb_true_iff in E as [_ E]. apply negb_true_iff, E.
    + apply computedEdgeValue_physical; [apply trailing_physical | reflexivity].
  - unfold getRelativePosition. destruct (isLeadingPosDefined node axis); [exact HL|].
    unfold CSSValueIsUndefined. rewrite isnan_neg. exact HT.
Qed.

Lemma eqb_true_cases a b :
  F32.eqb a b = true -> a = b \/ (exists sa sb, a = S754_zero sa /\ b = S754_zero sb).
Proof.
  unfold F32.eqb, SFeqb.
  destruct a as [sa | [] | | [] ma ea], b as [sb | [] | | [] mb eb]; cbn;
    try discriminate; eauto;
    (destruct (ea ?= eb) eqn:E; try discriminate;
     apply Z.compare_eq in E as ->;
     destruct (Pos.compare_cont Eq ma mb) eqn:E2; try discriminate;
     apply (Pos.compare_eq ma mb) in E2 as ->; auto).
Qed.

Lemma neb_assign_cases (old new : float) :
  let r := if F32.neb old new then new else old in
  r = new \/ (exists sa sb, r = S754_zero sa /\ new = S754_zero sb).
Proof.
  cbv zeta. unfold F32.neb. fold (F32.eqb old new).
  destruct (F32.eqb old new) eqn:E; cbn [negb]; [|auto].
  apply eqb_true_cases, E.
Qed.

Lemma neg_neg (x : float) : F32.neg (F32.neg x) = x.
Proof. destruct x as [[] | [] | | [] ? ?]; reflexivity. Qed.

(** The three setters of [CSSNodeStyleSetFlex], one after the other. *)
Lemma set_flex_fields node a b c s n :
  parentsAllocated s -> nodes s !! node = Some n ->
  exists s' n',
    (CSSNodeStyleSetFlexGrow node a >>
     CSSNodeStyleSetFlexShrink node b >>
     CSSNodeStyleSetFlexBasis node c) s = Some (tt, s')
    /\ nodes s' !! node = Some n'
    /\ flexGrow (style n') = (if F32.neb (flexGrow (style n)) a then a else flexGrow (style n))
    /\ flexShrink (style n')
       = (if F32.neb (flexShrink (style n)) b then b else flexShrink (style n)).
Proof.
  intros Hpa Hn.
  destruct (CSS_NODE_STYLE_PROPERTY_IMPL_total F32.neb flexGrow with_flexGrow
              node a s n Hpa Hn) as (s1 & Hr1 & Hpa1 & n1 & Hn1 & Hs1).
  destruct (CSS_NODE_STYLE_PROPERTY_IMPL_total F32.neb flexShrink with_flexShrink
              node b s1 n1 Hpa1 Hn1) as (s2 & Hr2 & Hpa2 & n2 & Hn2 & Hs2).
  destruct (CSS_NODE_STYLE_PROPERTY_IMPL_total F32.neb flexBasis with_flexBasis
              node c s2 n2 Hpa2 Hn2) as (s3 & Hr3 & Hpa3 & n3 & Hn3 & Hs3).
  exists s3, n3. split.
  { unfold bind. unfold CSSNodeStyleSetFlexGrow, CSSNodeStyleSetFlexShrink,
      CSSNodeStyleSetFlexBasis. rewrite Hr1, Hr2. exact Hr3. }
  split; [exact Hn3|].
  assert (flexGrow (style n1)
          = (if F32.neb (flexGrow (style n)) a then a else flexGrow (style n))
          /\ flexShrink (style n1) = flexShrink (style n)) as (G1 & S1)
      by (rewrite Hs1; destruct (F32.neb (flexGrow (style n)) a); auto).
  assert (flexGrow (style n2) = flexGrow (style n1)
          /\ flexShrink (style n2)
             = (if F32.neb (flexShrink (style n1)) b then b else flexShrink (style n1)))
      as (G2 & S2)
      by (rewrite Hs2; destruct (F32.neb (flexShrink (style n1)) b); auto).
  assert (flexGrow (style n3) = flexGrow (style n2)
          /\ flexShrink (style n3) = flexShrink (style n2)) as (G3 & S3)
      by (rewrite Hs3; destruct (F32.neb (flexBasis (style n2)) c); auto).
  rewrite G3, G2, G1, S3, S2, S1. auto.
Qed.



(** ** What [_CSSNodeMarkDirty] touches *)

Lemma set_nodes_id s : set_nodes (fun _ => nodes s) s = s.
Proof. destruct s; reflexivity. Qed.

Lemma set_nodes_set_nodes f g s : set_nodes f (set_nodes g s) = set_nodes (fun m => f (g m)) s.
Proof. reflexivity. Qed.

Lemma parentOf_marked s r n x :
  nodes s !! r = Some n -> parentOf (set_nodes (insert r (marked n)) s) x = parentOf s x.
Proof.
  intros Hn. unfold parentOf. cbn. destruct (decide (x = r)) as [-> | Hne].
  - rewrite lookup_insert_eq, Hn. reflexivity.
  - rewrite lookup_insert_ne by congruence. reflexivity.
Qed.

(** The nodes that [markDirty_steps] changes are clean nodes on the path
    from the node to the root, and all that changes in the state are these
    nodes. *)
Lemma markDirty_steps_frame fuel :
  forall r s u s',
    markDirty_steps fuel r s = Some (u, s') ->
    s' = set_nodes (fun _ => nodes s') s
    /\ forall x, nodes s' !! x = nodes s !! x
                 \/ ((x = r \/ ancestor s x r)
                     /\ exists n, nodes s !! x = Some n /\ isDirty n = false
                                  /\ nodes s' !! x = Some (marked n)).
Proof.
  induction fuel as [| fuel IH]; intros r s u s' Hrun; cbn in Hrun; [monadInv|].
  apply bind_Some in Hrun as (n & s0 & Hn & Hrun). apply deref_Some in Hn as [Hn ->].
  destruct (isDirty n) eqn:Hd; cbn in Hrun.
  - monadInv. split; [symmetry; apply set_nodes_id | auto].
  - apply bind_Some in Hrun as (u1 & s1' & Hup & Hrun1).
    apply update_Some in Hup as (n' & Hn' & ->).
    assert (n' = n) as -> by congruence.
    change (set_layout (set_computedFlexBasis CSSUndefined) (set_isDirty true n))
      with (marked n) in *.
    set (s1 := set_nodes (insert r (marked n)) s) in *.
    assert (nodes s1 !! r = Some (marked n)) as Hr1 by (subst s1; cbn; apply lookup_insert_eq).
    assert (forall x, x <> r -> nodes s1 !! x = nodes s !! x) as Hother
        by (intros x Hx; subst s1; cbn; apply lookup_insert_ne; congruence).
    destruct (parent n) as [p|] eqn:Hpar.
    + apply IH in Hrun1 as [Hst Hfr]. split.
      { rewrite Hst. subst s1. reflexivity. }
      intros x. destruct (decide (x = r)) as [-> | Hne].
      * right. split; [auto|]. exists n. repeat split; auto.
        destruct (Hfr r) as [Heq | (_ & m & Hm & Hc & _)]; [congruence|].
        rewrite Hr1 in Hm. injection Hm as <-. discriminate Hc.
      * destruct (Hfr x) as [Heq | (Hpath & m & Hm & Hc & Hm')].
        -- left. rewrite Heq. apply Hother, Hne.
        -- right. rewrite Hother in Hm by exact Hne. split; [|eauto].
           right. assert (parentOf s r = Some p) as Hp by (unfold parentOf; rewrite Hn; exact Hpar).
           destruct Hpath as [-> | Hanc]; [apply ancestor_parent, Hp|].
           eapply ancestor_step; [exact Hp|].
           eapply ancestor_parentOf; [|exact Hanc].
           intros y. symmetry. apply parentOf_marked, Hn.
    + monadInv. split; [subst s1; reflexivity|].
      intros x. destruct (decide (x = r)) as [-> | Hne].
      * right. split; [auto|]. exists n. auto.
      * left. apply Hother, Hne.
Qed.

(** Property X6: what [_CSSNodeMarkDirty] changes. When it returns the node
    is dirty, nothing but the store has changed, and a node of the store is
    either as before or it is the node or one of its ancestors, was clean,
    and is now dirty with its computed flex basis reset to undefined. A
    second call changes nothing. *)
Theorem markDirty_touches_the_path_to_the_root r s u s' :
  _CSSNodeMarkDirty r s = Some (u, s') ->
  dirtyAt s' r
  /\ s' = set_nodes (fun _ => nodes s') s
  /\ (forall x, nodes s' !! x = nodes s !! x
                \/ ((x = r \/ ancestor s x r)
                    /\ exists n, nodes s !! x = Some n /\ isDirty n = false
                                 /\ nodes s' !! x = Some (marked n)))
  /\ _CSSNodeMarkDirty r s' = Some (tt, s').
Proof.
  intros H. pose proof (_CSSNodeMarkDirty_marks _ _ _ _ H) as [_ Hd].
  apply markDirty_steps_frame in H as [Hst Hfr].
  split; [exact Hd|]. split; [exact Hst|]. split; [exact Hfr|].
  destruct Hd as (n & Hn & Hdirty).
  unfold _CSSNodeMarkDirty. cbn [markDirty_steps]. unfold bind, deref.
  rewrite Hn, Hdirty. reflexivity.
Qed.

Lemma markDirty_touches_the_path_to_the_root_witness :
  dirtyAt markedScenario 1%nat
  /\ markedScenario = set_nodes (fun _ => nodes markedScenario) laidOutScenario
  /\ (forall x, nodes markedScenario !! x = nodes laidOutScenario !! x
                \/ ((x = 1%nat \/ ancestor laidOutScenario x 1%nat)
                    /\ exists n, nodes laidOutScenario !! x = Some n /\ isDirty n = false
                                 /\ nodes markedScenario !! x = Some (marked n)))
  /\ _CSSNodeMarkDirty 1%nat markedScenario = Some (tt, markedScenario).
Proof.
  apply (markDirty_touches_the_path_to_the_root 1%nat laidOutScenario tt markedScenario).
  vm_compute. reflexivity.
Defined.

(** ** The assertions of the tree surgery *)



Lemma parentsAllocated_update s r n f :
  nodes s !! r = Some n -> parentsAllocated s ->
  (forall p, parent (f n) = Some p -> is_Some (nodes s !! p)) ->
  parentsAllocated (set_nodes (insert r (f n)) s).
Proof.
  intros Hn Hpa Hf r' n' p Hn' Hp. cbn in *.
  assert (is_Some (nodes s !! p)) as [pn Hpn].
  { destruct (decide (r' = r)) as [-> | Hne].
    - rewrite lookup_insert_eq in Hn'. injection Hn' as <-. apply Hf, Hp.
    - rewrite lookup_insert_ne in Hn' by congruence. eapply Hpa; eauto. }
  destruct (decide (p = r)) as [-> | Hne].
  - rewrite lookup_insert_eq. eauto.
  - rewrite lookup_insert_ne by congruence. eauto.
Qed.

Lemma marks_parentOf s s' r : marks s s' -> parentOf s' r = parentOf s r.
Proof.
  intros Hm. unfold parentOf.
  destruct (marks_node _ _ Hm r) as [-> | (n & Hn & _ & -> & _)]; [reflexivity|].
  rewrite Hn. reflexivity.
Qed.

Lemma marks_children s s' r :
  marks s s' -> children <$> nodes s' !! r = children <$> nodes s !! r.
Proof.
  intros Hm.
  destruct (marks_node _ _ Hm r) as [-> | (n & Hn & _ & -> & _)]; [reflexivity|].
  rewrite Hn. reflexivity.
Qed.





(** ** Later states of a layout, without conditions *)

Lemma nodeLaidOut_refl n : nodeLaidOut n n.
Proof. split; auto. Qed.

Lemma nodeLaidOut_trans n1 n2 n3 : nodeLaidOut n1 n2 -> nodeLaidOut n2 n3 -> nodeLaidOut n1 n3.
Proof.
  intros [S1 D1 N1 R1 Z1] [S2 D2 N2 R2 Z2]. split; auto.
  - congruence.
  - intros Hc. destruct (Z1 Hc) as (Hc2 & M1 & L1). destruct (Z2 Hc2) as (Hc3 & M2 & L2).
    split; [exact Hc3|]. split; intros d.
    + destruct (M2 d) as [E | H]; [|auto]. rewrite E. apply M1.
    + destruct (L2 d) as [E | H]; [|auto]. rewrite E. apply L1.
Qed.

Lemma laidOut_refl s : laidOut s s.
Proof.
  split; auto. intros r n n' Hn Hn'. assert (n' = n) as -> by congruence. apply nodeLaidOut_refl.
Qed.

Lemma laidOut_lookup s s' r n :
  laidOut s s' -> nodes s !! r = Some n -> exists n', nodes s' !! r = Some n' /\ nodeLaidOut n n'.
Proof.
  intros H Hn. assert (is_Some (nodes s' !! r)) as [n' Hn'].
  { apply elem_of_dom. rewrite (lo_dom _ _ H). apply elem_of_dom. eauto. }
  exists n'. split; [exact Hn'|]. eapply lo_node; eauto.
Qed.

Lemma laidOut_lookup_inv s s' r n' :
  laidOut s s' -> nodes s' !! r = Some n' -> exists n, nodes s !! r = Some n /\ nodeLaidOut n n'.
Proof.
  intros H Hn'. assert (is_Some (nodes s !! r)) as [n Hn].
  { apply elem_of_dom. rewrite <- (lo_dom _ _ H). apply elem_of_dom. eauto. }
  exists n. split; [exact Hn|]. eapply lo_node; eauto.
Qed.

Lemma laidOut_trans s1 s2 s3 : laidOut s1 s2 -> laidOut s2 s3 -> laidOut s1 s3.
Proof.
  intros H12 H23. split.
  - rewrite (lo_generation _ _ H23). apply (lo_generation _ _ H12).
  - rewrite (lo_count _ _ H23). apply (lo_count _ _ H12).
  - rewrite (lo_nextRef _ _ H23). apply (lo_nextRef _ _ H12).
  - rewrite (lo_dom _ _ H23). apply (lo_dom _ _ H12).
  - intros r n n3 Hn Hn3. destruct (laidOut_lookup _ _ _ _ H12 Hn) as (n2 & Hn2 & K).
    eapply nodeLaidOut_trans; [exact K|]. eapply lo_node; eauto.
Qed.

(** The replacement of a node by a later version of it. *)
Lemma laidOut_insert s r n n' :
  nodes s !! r = Some n -> nodeLaidOut n n' -> laidOut s (set_nodes (insert r n') s).
Proof.
  intros Hn K. split; try reflexivity.
  - cbn. apply dom_insert_lookup_L. eauto.
  - intros x m m' Hm Hm'. cbn in Hm'. destruct (decide (x = r)) as [-> | Hne].
    + rewrite lookup_insert_eq in Hm'. injection Hm' as <-.
      assert (m = n) as -> by congruence. exact K.
    + rewrite lookup_insert_ne in Hm' by congruence.
      assert (m' = m) as -> by congruence. apply nodeLaidOut_refl.
Qed.

Lemma laidOut_same s s' :
  nodes s' = nodes s -> gCurrentGenerationCount s' = gCurrentGenerationCount s ->
  gNodeInstanceCount s' = gNodeInstanceCount s -> nextRef s' = nextRef s -> laidOut s s'.
Proof.
  intros E Eg Ec En. split; auto.
  - rewrite E. reflexivity.
  - intros r n n' Hn Hn'. rewrite E in Hn'. assert (n' = n) as -> by congruence.
    apply nodeLaidOut_refl.
Qed.

Lemma nodeLaidOut_silent f n : silent f -> nodeLaidOut n (f n).
Proof.
  intros H. destruct (H n) as (S & D & N & C & I & L & M & Y). split.
  - exact S.
  - congruence.
  - congruence.
  - unfold ringBounded. rewrite C, I. auto.
  - unfold cachesSized, measured_of. rewrite C, L, M, Y. auto.
Qed.

Lemma nodeLaidOut_measured d v n : nonNegative v -> nodeLaidOut n (assign_measured d v n).
Proof.
  intros Hv. split; auto.
  intros Hc. split; [exact Hc|]. split; [|auto].
  intros d'. unfold measured_of. destruct d, d'; cbn; auto.
Qed.

Lemma silent_assign_position e v : silent (assign_position e v).
Proof. intros n. repeat split. Qed.

Lemma silent_assign_computedFlexBasis v : silent (assign_computedFlexBasis v).
Proof. intros n. repeat split. Qed.

Lemma silent_set_layout_direction v : silent (set_layout (set_layout_direction v)).
Proof. intros n. repeat split. Qed.

Lemma silent_set_lineIndex v : silent (set_lineIndex v).
Proof. intros n. repeat split. Qed.

Lemma silent_set_nextChild v : silent (set_nextChild v).
Proof. intros n. repeat split. Qed.

Lemma silent_set_lastParentDirection v : silent (set_layout (set_lastParentDirection v)).
Proof. intros n. repeat split. Qed.

Lemma silent_set_generationCount v : silent (set_layout (set_generationCount v)).
Proof. intros n. repeat split. Qed.

(** ** Computations that stay within a layout *)

Lemma keeps_ret {A} (a : A) : keeps (ret a).
Proof. intros s b s' H%ret_Some. destruct H as [_ ->]. apply laidOut_refl. Qed.

Lemma keeps_fail {A} : keeps (@fail A).
Proof. intros s b s' H%fail_Some. destruct H. Qed.

Lemma keeps_bind {A B} (c : M A) (k : A -> M B) :
  keeps c -> (forall a, keeps (k a)) -> keeps (bind c k).
Proof.
  intros Hc Hk s b s' H. apply bind_Some in H as (a & s1 & H1 & H2).
  eapply laidOut_trans; [apply (Hc _ _ _ H1) | apply (Hk a _ _ _ H2)].
Qed.

Lemma keeps_deref r : keeps (deref r).
Proof. intros s b s' H%deref_Some. destruct H as [_ ->]. apply laidOut_refl. Qed.

Lemma keeps_CSS_ASSERT X : keeps (CSS_ASSERT X).
Proof. intros s b s' H%CSS_ASSERT_Some. destruct H as [_ ->]. apply laidOut_refl. Qed.

Lemma keeps_get_state : keeps get_state.
Proof. intros s b s' H%get_state_Some. destruct H as [_ ->]. apply laidOut_refl. Qed.

Lemma keeps_add_gDepth d : keeps (modify_state (add_gDepth d)).
Proof. intros s b s' H%modify_state_Some. subst s'. apply laidOut_same; reflexivity. Qed.

Lemma keeps_trace_kernel r : keeps (modify_state (trace_kernel r)).
Proof. intros s b s' H%modify_state_Some. subst s'. apply laidOut_same; reflexivity. Qed.

Lemma keeps_update r f : (forall n, nodeLaidOut n (f n)) -> keeps (update r f).
Proof.
  intros Hf s b s' H. apply update_Some in H as (n & Hn & ->).
  apply (laidOut_insert s r n (f n) Hn (Hf n)).
Qed.

Lemma keeps_silent r f : silent f -> keeps (update r f).
Proof. intros Hf. apply keeps_update. intros n. apply nodeLaidOut_silent, Hf. Qed.

Lemma keeps_measured r d v : nonNegative v -> keeps (update r (assign_measured d v)).
Proof. intros Hv. apply keeps_update. intros n. apply nodeLaidOut_measured, Hv. Qed.

Lemma keeps_when b c : keeps c -> keeps (when b c).
Proof. intros Hc. destruct b; [exact Hc | apply keeps_ret]. Qed.

Lemma keeps_foldM {A S} (f : S -> A -> M S) l :
  (forall acc a, keeps (f acc a)) -> forall acc, keeps (foldM f acc l).
Proof.
  intros Hf. induction l as [|a l IH]; intros acc; cbn.
  - apply keeps_ret.
  - apply keeps_bind; [apply Hf | exact IH].
Qed.

Lemma keeps_forM {A} (f : A -> M unit) l : (forall a, keeps (f a)) -> keeps (forM l f).
Proof. intros Hf. apply keeps_foldM. intros _ a. apply Hf. Qed.

Lemma keeps_call rec child aw ah pd wm hm pl :
  layoutFrame rec -> keeps (rec child aw ah pd wm hm pl).
Proof. intros Hrec s b s' H. apply (Hrec _ _ _ _ _ _ _ _ _ _ H). Qed.

(** Decomposes a goal [keeps] along the structure of the computation. *)
Ltac keeps_step :=
  match goal with
  | |- keeps (bind _ _) => apply keeps_bind; [|intros ?]
  | |- keeps (ret _) => apply keeps_ret
  | |- keeps fail => apply keeps_fail
  | |- keeps (deref _) => apply keeps_deref
  | |- keeps (CSS_ASSERT _) => apply keeps_CSS_ASSERT
  | |- keeps (when _ _) => apply keeps_when
  | |- keeps (update _ (assign_position _ _)) =>
      apply keeps_silent, silent_assign_position
  | |- keeps (update _ (assign_measured _ (boundAxis _ _ _))) =>
      apply keeps_measured, nonNegative_boundAxis
  | |- keeps (update _ (assign_measured _ (F32.fmaxf _ (getPaddingAndBorderAxis _ _)))) =>
      apply keeps_measured, nonNegative_fmaxf, getPaddingAndBorderAxis_nonNegative
  | |- keeps (update _ (assign_computedFlexBasis _)) =>
      apply keeps_silent, silent_assign_computedFlexBasis
  | |- keeps (update _ (set_lineIndex _)) =>
      apply keeps_silent, silent_set_lineIndex
  | |- keeps (update _ (set_nextChild _)) =>
      apply keeps_silent, silent_set_nextChild
  | |- keeps (update _ (set_layout (set_layout_direction _))) =>
      apply keeps_silent, silent_set_layout_direction
  | |- keeps (if ?b then _ else _) => destruct b
  | |- keeps (match ?x with _ => _ end) => destruct x
  | |- keeps (let (_, _) := ?x in _) => destruct x
  end.

Lemma setTrailingPosition_keeps node child axis : keeps (setTrailingPosition node child axis).
Proof. unfold setTrailingPosition. repeat keeps_step. Qed.

Lemma setPosition_keeps node direction : keeps (setPosition node direction).
Proof. unfold setPosition. repeat keeps_step. Qed.

Lemma append_nextChild_keeps current child : keeps (append_nextChild current child).
Proof. unfold append_nextChild. repeat keeps_step. Qed.

Lemma collectLine_keeps mainAxis avail wrap lineCount rest :
  forall acc, keeps (collectLine mainAxis avail wrap lineCount rest acc).
Proof.
  induction rest as [|child rest IH]; intros acc; cbn [collectLine].
  - apply keeps_ret.
  - repeat first [apply IH | apply append_nextChild_keeps | keeps_step].
Qed.

Lemma flexFirstPass_keeps mainAxis rfs tfs tfg bound :
  forall cur acc, keeps (flexFirstPass mainAxis rfs tfs tfg bound cur acc).
Proof.
  induction bound as [|bound IH]; intros [cur|] acc; cbn [flexFirstPass];
    try apply keeps_ret; try apply keeps_fail.
  apply keeps_bind; [apply keeps_deref|]. intros c. destruct acc as [[a b] d]. apply IH.
Qed.

Lemma placeOnMainAxis_keeps node mainAxis crossAxis pl canSkipFlex between aic line init :
  keeps (placeOnMainAxis node mainAxis crossAxis pl canSkipFlex between aic line init).
Proof. unfold placeOnMainAxis. apply keeps_foldM. intros [mainDim crossDim] child. repeat keeps_step. Qed.

Lemma lineExtent_keeps crossAxis i rest :
  forall ii lineHeight, keeps (lineExtent crossAxis i rest ii lineHeight).
Proof.
  induction rest as [|child rest IH]; intros ii lineHeight; cbn [lineExtent].
  - apply keeps_ret.
  - repeat first [apply IH | keeps_step].
Qed.

Lemma alignLines_keeps node childList crossAxis lineCount aic total lead :
  keeps (alignLines node childList crossAxis lineCount aic total lead).
Proof.
  unfold alignLines.
  match goal with |- keeps (match ?x with _ => _ end) => destruct x as [crossDimLead currentLead] end.
  apply keeps_bind; [|intros ?; apply keeps_ret].
  apply keeps_foldM. intros [startIndex lead'] i.
  apply keeps_bind; [apply lineExtent_keeps|]. intros [endIndex lineHeight].
  apply keeps_bind; [|intros ?; apply keeps_ret].
  apply keeps_forM. intros child. repeat keeps_step.
Qed.

Lemma setTrailingPositions_keeps node childList mainAxis crossAxis :
  keeps (setTrailingPositions node childList mainAxis crossAxis).
Proof.
  unfold setTrailingPositions. apply keeps_when, keeps_forM. intros child.
  apply keeps_bind; [|intros ?]; apply keeps_when, setTrailingPosition_keeps.
Qed.

Lemma measuredSized_later s s' r n n' :
  laidOut s s' -> nodes s !! r = Some n -> nodes s' !! r = Some n' ->
  cachesSized (layout n) -> measuredSized n -> measuredSized n'.
Proof.
  intros K Hn Hn' Hc [Hw Hh].
  destruct (lo_sized _ _ (lo_node _ _ K r n n' Hn Hn') Hc) as (_ & Hm & _).
  split.
  - destruct (Hm CSSDimensionWidth) as [-> | H]; assumption.
  - destruct (Hm CSSDimensionHeight) as [-> | H]; assumption.
Qed.

(** The two assignments to the measured dimensions that every path through
    [layoutNodeImpl] makes. *)
Lemma measured_then r v1 v2 (tail : M unit) s0 s u s' :
  nonNegative v1 -> nonNegative v2 -> keeps tail -> laidOut s0 s ->
  (update r (assign_measured CSSDimensionWidth v1) >>
   update r (assign_measured CSSDimensionHeight v2) >> tail) s = Some (u, s') ->
  laidOut s0 s'
  /\ forall n n', nodes s0 !! r = Some n -> nodes s' !! r = Some n' ->
                  cachesSized (layout n) -> measuredSized n'.
Proof.
  intros H1 H2 Htail K0 H.
  apply bind_Some in H as ([] & s1 & U1 & H).
  apply bind_Some in H as ([] & s2 & U2 & H).
  pose proof (keeps_measured _ _ _ H1 _ _ _ U1) as K1.
  pose proof (keeps_measured _ _ _ H2 _ _ _ U2) as K2.
  pose proof (Htail _ _ _ H) as K3.
  assert (laidOut s0 s2) as K02 by (eapply laidOut_trans; [exact K0|]; eapply laidOut_trans; eauto).
  split; [eapply laidOut_trans; eauto|].
  intros n n' Hn Hn' Hc.
  apply update_Some in U1 as (m1 & Hm1 & ->). apply update_Some in U2 as (m2 & Hm2 & ->).
  cbn in Hm2. rewrite lookup_insert_eq in Hm2. injection Hm2 as <-.
  set (s2 := set_nodes _ (set_nodes _ s)) in *.
  assert (nodes s2 !! r = Some (assign_measured CSSDimensionHeight v2
                                  (assign_measured CSSDimensionWidth v1 m1))) as Hr2
      by (subst s2; cbn; apply lookup_insert_eq).
  eapply (measuredSized_later s2 s'); [exact K3 | exact Hr2 | exact Hn' | |].
  - apply (lo_sized _ _ (lo_node _ _ K02 r _ _ Hn Hr2) Hc).
  - split; assumption.
Qed.

Lemma measured_last r v1 v2 s0 s u s' :
  nonNegative v1 -> nonNegative v2 -> laidOut s0 s ->
  (update r (assign_measured CSSDimensionWidth v1) >>
   update r (assign_measured CSSDimensionHeight v2)) s = Some (u, s') ->
  laidOut s0 s'
  /\ forall n n', nodes s0 !! r = Some n -> nodes s' !! r = Some n' ->
                  cachesSized (layout n) -> measuredSized n'.
Proof.
  intros H1 H2 K0 H. destruct u.
  apply (measured_then r v1 v2 (ret tt) s0 s tt s' H1 H2 (keeps_ret tt) K0).
  apply bind_Some in H as ([] & s1 & U1 & H).
  apply bind_Some. exists tt, s1. split; [exact U1|].
  apply bind_Some. exists tt, s'. split; [exact H|]. reflexivity.
Qed.

Section KernelFrame.

Variable rec : LayoutFn.
Hypothesis Hrec : layoutFrame rec.

Ltac kernel := repeat first [apply keeps_call; exact Hrec | keeps_step].

Lemma computeChildFlexBasis_keeps node child w wm h hm direction :
  keeps (computeChildFlexBasis rec node child w wm h hm direction).
Proof using Hrec. unfold computeChildFlexBasis. kernel. Qed.

Lemma absoluteLayoutChild_keeps node child w wm direction :
  keeps (absoluteLayoutChild rec node child w wm direction).
Proof using Hrec. unfold absoluteLayoutChild. kernel. Qed.

Lemma determineFlexBasis_keeps node childList pl direction aiw wm aih hm :
  keeps (determineFlexBasis rec node childList pl direction aiw wm aih hm).
Proof using Hrec.
  unfold determineFlexBasis. apply keeps_bind; [|intros ?; apply keeps_ret].
  apply keeps_foldM. intros [first current] child. unfold flexBasisOfChild.
  repeat first [apply setPosition_keeps | apply append_nextChild_keeps
               | apply computeChildFlexBasis_keeps | keeps_step].
Qed.

Lemma flexSecondPass_keeps node mainAxis crossAxis direction pl wm hm aic rfs tfs tfg bound :
  forall cur delta,
    keeps (flexSecondPass rec node mainAxis crossAxis direction pl wm hm aic rfs tfs tfg
             bound cur delta).
Proof using Hrec.
  induction bound as [|bound IH]; intros [cur|] delta; cbn [flexSecondPass];
    try apply keeps_ret; try apply keeps_fail.
  apply keeps_bind; [apply keeps_deref|]. intros c. cbv zeta.
  match goal with |- keeps (match ?x with _ => _ end) => destruct x as [[[cw cwm] ch] chm] end.
  repeat first [apply IH | apply keeps_call; exact Hrec | keeps_step].
Qed.

Lemma alignOnCrossAxis_keeps node mainAxis crossAxis direction lead crossDim container total line :
  keeps (alignOnCrossAxis rec node mainAxis crossAxis direction lead crossDim container total
           line).
Proof using Hrec. unfold alignOnCrossAxis. apply keeps_forM. intros child. kernel. Qed.

Lemma layoutLine_keeps node childList pl direction wm hm aiw aih start lineCount total :
  keeps (layoutLine rec node childList pl direction wm hm aiw aih start lineCount total).
Proof using Hrec.
  unfold layoutLine. cbv zeta.
  apply keeps_bind; [apply collectLine_keeps|]. intros items.
  apply keeps_bind.
  { destruct (negb _); [|apply keeps_ret].
    apply keeps_bind; [apply flexFirstPass_keeps|]. intros [[a b] c].
    apply flexSecondPass_keeps. }
  intros delta.
  match goal with |- keeps (match ?x with _ => _ end) => destruct x as [lead between] end.
  apply keeps_bind; [apply placeOnMainAxis_keeps|]. intros [mainDim crossDim].
  apply keeps_bind; [|intros ?; apply keeps_ret].
  apply keeps_when, alignOnCrossAxis_keeps.
Qed.

Lemma layoutLines_keeps node childList pl direction wm hm aiw aih bound :
  forall e lineCount total maxMain,
    keeps (layoutLines rec node childList pl direction wm hm aiw aih bound e lineCount total
             maxMain).
Proof using Hrec.
  induction bound as [|bound IH]; intros e lineCount total maxMain; cbn [layoutLines];
    destruct (e <? length childList)%nat; try apply keeps_ret; try apply keeps_fail.
  apply keeps_bind; [apply layoutLine_keeps|]. intros [[e' crossDim] mainDim]. apply IH.
Qed.

Lemma layoutAbsoluteChildren_keeps node aiw wm direction bound :
  forall cur, keeps (layoutAbsoluteChildren rec node aiw wm direction bound cur).
Proof using Hrec.
  induction bound as [|bound IH]; intros [cur|]; cbn [layoutAbsoluteChildren];
    try apply keeps_ret; try apply keeps_fail.
  apply keeps_bind; [apply absoluteLayoutChild_keeps|]. intros ?.
  apply keeps_bind; [apply keeps_deref|]. intros c. apply IH.
Qed.

Lemma layoutNodeImpl_frame node aw ah pd wm hm pl s u s' :
  layoutNodeImpl rec node aw ah pd wm hm pl s = Some (u, s') ->
  laidOut s s'
  /\ forall n n', nodes s !! node = Some n -> nodes s' !! node = Some n' ->
                  cachesSized (layout n) -> measuredSized n'.
Proof using Hrec.
  intros H. unfold layoutNodeImpl in H.
  apply bind_Some in H as ([] & t & A1 & H). apply CSS_ASSERT_Some in A1 as [_ ->].
  apply bind_Some in H as ([] & t & A2 & H). apply CSS_ASSERT_Some in A2 as [_ ->].
  apply bind_Some in H as (n0 & t & Hn0 & H). apply deref_Some in Hn0 as [Hn0 ->].
  apply bind_Some in H as ([] & s1 & U & H).
  pose proof (keeps_silent _ _ (silent_set_layout_direction _) _ _ _ U) as K1.
  clear U. cbv zeta in H.
  repeat match type of H with
         | (if ?b then _ else _) _ = _ => destruct b
         | (match ?x with _ => _ end) _ = _ => destruct x
         end;
    try (eapply measured_last; [| | exact K1 | exact H]; apply nonNegative_boundAxis).
  all: apply bind_Some in H as (first & s2 & D & H);
    pose proof (determineFlexBasis_keeps _ _ _ _ _ _ _ _ _ _ _ D) as K2;
    apply bind_Some in H as ([[lineCount total] maxMain] & s3 & L & H);
    pose proof (layoutLines_keeps _ _ _ _ _ _ _ _ _ _ _ _ _ _ _ _ L) as K3;
    apply bind_Some in H as ([] & s4 & A & H);
    pose proof (keeps_when _ _ (alignLines_keeps _ _ _ _ _ _ _) _ _ _ A) as K4;
    (eapply measured_then; [| | | | exact H]; try apply nonNegative_boundAxis;
     [ repeat first [apply layoutAbsoluteChildren_keeps | apply setTrailingPositions_keeps
                    | keeps_step]
     | eapply laidOut_trans; [exact K1|]; eapply laidOut_trans; [exact K2|];
       eapply laidOut_trans; eauto ]).
Qed.

End KernelFrame.

(** ** The frame of [layoutNodeInternal] *)

Lemma laidOut_replace s t r n m m' :
  laidOut s t -> nodes s !! r = Some n -> nodes t !! r = Some m -> nodeLaidOut n m' ->
  laidOut s (set_nodes (insert r m') t).
Proof.
  intros K Hn Hm Km. split.
  - apply (lo_generation _ _ K).
  - apply (lo_count _ _ K).
  - apply (lo_nextRef _ _ K).
  - cbn. rewrite dom_insert_lookup_L by eauto. apply (lo_dom _ _ K).
  - intros x a a' Ha Ha'. cbn in Ha'. destruct (decide (x = r)) as [-> | Hne].
    + rewrite lookup_insert_eq in Ha'. injection Ha' as <-.
      assert (a = n) as -> by congruence. exact Km.
    + rewrite lookup_insert_ne in Ha' by congruence. eapply lo_node; eauto.
Qed.

Lemma nodeLaidOut_invalidate n : nodeLaidOut n (set_layout invalidateCachedResults n).
Proof.
  split; [reflexivity | auto | auto | |].
  - intros [Hlen _]. split; [exact Hlen|]. cbn. unfold CSS_MAX_CACHED_RESULT_COUNT. lia.
  - intros [Hl Hm]. split; [split; [exact Hl | exact Hm]|]. auto.
Qed.

Lemma enterNode_keeps node pd : keeps (enterNode node pd).
Proof.
  unfold enterNode.
  repeat first [apply keeps_add_gDepth | apply keeps_get_state
               | apply keeps_update; intros ?; apply nodeLaidOut_invalidate | keeps_step].
Qed.

Lemma cachedResults_get_sized l target entry :
  cachesSized l -> cachedResults_get l target = Some entry -> entrySized entry.
Proof.
  intros [Hl Hm] H. destruct target as [|i]; cbn in H.
  - injection H as <-. exact Hl.
  - rewrite Forall_lookup in Hm. eapply Hm, H.
Qed.

(** The new entry of the caches. *)
Lemma nodeLaidOut_store n m aw ah wm hm (pl : bool) :
  nodeLaidOut n m -> (cachesSized (layout n) -> measuredSized m) ->
  nodeLaidOut n
    (set_layout (fun l =>
       let l :=
         if bool_decide (nextCachedMeasurementsIndex l = CSS_MAX_CACHED_RESULT_COUNT)
         then set_nextCachedMeasurementsIndex 0%nat l else l in
       let entry := newCacheEntry aw ah wm hm l in
       if pl then set_cachedLayout (fun _ => entry) l
       else set_nextCachedMeasurementsIndex (S (nextCachedMeasurementsIndex l))
              (set_cachedMeasurements
                 (<[nextCachedMeasurementsIndex l := entry]> (cachedMeasurements l)) l)) m).
Proof.
  intros [S D N R Z] Hsized.
  set (l0 := layout m) in *.
  assert (forall g, layout (set_layout g m) = g l0) as El by reflexivity.
  split.
  - exact S.
  - exact D.
  - exact N.
  - intros Hr. destruct (R Hr) as [Hlen Hidx]. rewrite El. cbv beta zeta.
    unfold ringBounded in *. unfold CSS_MAX_CACHED_RESULT_COUNT in *.
    destruct pl; case_bool_decide; cbn; rewrite ?length_insert; lia.
  - intros Hc. destruct (Z Hc) as ([Hl Hm] & Hmeas & Hdims). destruct (Hsized Hc) as [Hw Hh].
    assert (forall l', measuredDimensions l' = measuredDimensions l0 ->
                       entrySized (newCacheEntry aw ah wm hm l')) as Hentry.
    { intros l' E. unfold entrySized, newCacheEntry. cbn. rewrite E. split; assumption. }
    split.
    + rewrite El. cbv beta zeta. unfold cachesSized.
      destruct pl; case_bool_decide; cbn; (split; [auto|]);
        try apply Forall_insert; auto.
    + split; intros d.
      * unfold measured_of in *. rewrite El. cbv beta zeta.
        destruct (Hmeas d) as [E | H]; [left; rewrite <- E | right];
          destruct pl; case_bool_decide; destruct d; cbn in *; auto.
      * rewrite El. cbv beta zeta.
        destruct (Hdims d) as [E | H]; [left; rewrite <- E | right];
          destruct pl; case_bool_decide; destruct d; cbn in *; auto.
Qed.

Lemma nodeLaidOut_clean n m :
  nodeLaidOut n m -> (cachesSized (layout n) -> measuredSized m) ->
  nodeLaidOut n
    (set_isDirty false
       (set_hasNewLayout true
          (set_layout (fun l => set_layout_dimensions (measuredDimensions l) l) m))).
Proof.
  intros [S D N R Z] Hsized. split; auto; [discriminate|].
  intros Hc. destruct (Z Hc) as (Hc' & Hmeas & _). destruct (Hsized Hc) as [Hw Hh].
  split; [exact Hc'|]. split; [exact Hmeas|].
  intros []; right; assumption.
Qed.

Lemma layoutNodeInternal_body_frame rec :
  layoutFrame rec -> layoutFrame (layoutNodeInternal_body rec).
Proof.
  intros Hrec X aw ah pd wm hm pl s b s' H. unfold layoutNodeInternal_body in H.
  apply bind_Some in H as (ntv & s1 & H1 & H).
  pose proof (enterNode_keeps _ _ _ _ _ H1) as K1. clear H1.
  apply bind_Some in H as (n1 & t & Hn1 & H). apply deref_Some in Hn1 as [Hn1 ->].
  cbv zeta in H.
  match type of H with context [bool_decide (?c = None)] => set (cr := c) in * end.
  apply bind_Some in H as ([] & s2 & H2 & H).
  (* the cached results or the kernel *)
  assert (laidOut s1 s2
          /\ forall n2, nodes s2 !! X = Some n2 ->
                        cachesSized (layout n1) -> measuredSized n2) as [K2 Hsized].
  { destruct (if ntv then None else cr) as [target|].
    - destruct (cachedResults_get (layout n1) target) as [entry|] eqn:Eentry;
        [|apply fail_Some in H2; destruct H2].
      apply bind_Some in H2 as ([] & t1 & U1 & U2).
      apply update_Some in U1 as (m1 & Hm1 & ->). apply update_Some in U2 as (m2 & Hm2 & ->).
      assert (m1 = n1) as -> by congruence.
      cbn in Hm2. rewrite lookup_insert_eq in Hm2. injection Hm2 as <-.
      set (m1 := assign_measured CSSDimensionWidth (Cached.computedWidth entry) n1) in *.
      assert (nodeLaidOut n1 m1) as Kn1.
      { split; auto. intros Hc. split; [exact Hc|].
        destruct (cachedResults_get_sized _ _ _ Hc Eentry) as [Hw Hh].
        split; [|auto]. intros []; [right; exact Hw | left; reflexivity]. }
      assert (nodeLaidOut m1 (assign_measured CSSDimensionHeight (Cached.computedHeight entry) m1))
        as Kn2.
      { split; auto. intros Hc. split; [exact Hc|].
        destruct (cachedResults_get_sized (layout n1) _ _ Hc Eentry) as [Hw Hh].
        split; [|auto]. intros []; [left; reflexivity | right; exact Hh]. }
      split.
      + eapply laidOut_trans; [apply (laidOut_insert s1 X n1 m1 Hn1 Kn1)|].
        refine (laidOut_insert _ X m1 _ _ Kn2). cbn. apply lookup_insert_eq.
      + intros n2 Hn2 Hc. cbn in Hn2. rewrite lookup_insert_eq in Hn2. injection Hn2 as <-.
        destruct (cachedResults_get_sized _ _ _ Hc Eentry) as [Hw Hh]. split; assumption.
    - apply bind_Some in H2 as ([] & sT & HT & H2).
      pose proof (keeps_trace_kernel _ _ _ _ HT) as KT.
      apply modify_state_Some in HT as ->.
      apply bind_Some in H2 as ([] & si & Hi & H2).
      destruct (layoutNodeImpl_frame rec Hrec _ _ _ _ _ _ _ _ _ _ Hi) as [Ki Hposti].
      apply bind_Some in H2 as ([] & t1 & T1 & H2).
      pose proof (keeps_silent _ _ (silent_set_lastParentDirection _) _ _ _ T1) as KP.
      assert (laidOut s1 t1) as K1t.
      { eapply laidOut_trans; [exact KT|]. eapply laidOut_trans; eauto. }
      apply update_Some in T1 as (ni & Hni & ->).
      set (m := set_layout (set_lastParentDirection (Some pd)) ni) in *.
      assert (nodes (set_nodes (insert X m) si) !! X = Some m) as Hm
          by (cbn; apply lookup_insert_eq).
      assert (cachesSized (layout n1) -> measuredSized m) as Hsz.
      { intros Hc. apply (Hposti n1 ni Hn1 Hni Hc). }
      apply when_Some in H2 as [[_ H2] | [_ ->]].
      + apply update_Some in H2 as (m' & Hm' & ->). assert (m' = m) as -> by congruence.
        split.
        * apply (laidOut_replace s1 _ X n1 m _ K1t Hn1 Hm).
          apply nodeLaidOut_store; [apply (lo_node _ _ K1t X n1 m Hn1 Hm) | exact Hsz].
        * intros n2 Hn2 Hc. cbn in Hn2. rewrite lookup_insert_eq in Hn2. injection Hn2 as <-.
          destruct (Hsz Hc) as [Hw Hh]. unfold measuredSized, measured_of in *.
          destruct pl; cbn;
            match goal with |- context [@bool_decide ?P ?d] => destruct (@bool_decide P d) end;
            cbn in *; auto.
      + split; [exact K1t|]. intros n2 Hn2 Hc. assert (n2 = m) as -> by congruence. auto. }
  (* the last statements *)
  destruct (laidOut_lookup _ _ _ _ K2 Hn1) as (n2 & Hn2 & Kn2).
  apply bind_Some in H as ([] & s3 & T3 & H).
  assert (laidOut s1 s3
          /\ exists m3, nodes s3 !! X = Some m3
                        /\ measured_of m3 = measured_of n2
                        /\ (pl = true ->
                            isDirty m3 = false /\ hasNewLayout m3 = true
                            /\ layout_dimensions (layout m3) = measuredDimensions (layout m3)))
    as (K3 & m3 & Hm3 & Emeas & Hpl).
  { apply when_Some in T3 as [[-> T3] | [-> ->]].
    - apply update_Some in T3 as (m2 & Hm2 & ->). assert (m2 = n2) as -> by congruence.
      split.
      + apply (laidOut_replace s1 s2 X n1 n2 _ K2 Hn1 Hn2).
        apply nodeLaidOut_clean; [exact Kn2 | apply Hsized, Hn2].
      + eexists. split; [cbn; apply lookup_insert_eq|]. split; [reflexivity|].
        intros _. cbn. auto.
    - split; [exact K2|]. exists n2. split; [exact Hn2|]. split; [reflexivity | discriminate]. }
  assert (laidOut s3 s') as K4.
  { match type of H with ?c _ = _ => assert (keeps c) as P end.
    { repeat first [apply keeps_add_gDepth | apply keeps_get_state
                   | apply keeps_silent, silent_set_generationCount | keeps_step]. }
    apply (P _ _ _ H). }
  assert (laidOut s s') as K.
  { eapply laidOut_trans; [exact K1|]. eapply laidOut_trans; eauto. }
  split; [exact K|]. intros n n' Hn Hn'.
  apply bind_Some in H as ([] & s4 & T4 & H). apply modify_state_Some in T4 as ->.
  apply bind_Some in H as (st & t & T5 & H). apply get_state_Some in T5 as [-> ->].
  apply bind_Some in H as ([] & s5 & T6 & H). apply ret_Some in H as [_ E]. subst s5.
  apply update_Some in T6 as (m4 & Hm4 & ->). cbn in Hn'. rewrite lookup_insert_eq in Hn'.
  injection Hn' as <-. cbn in Hm4. assert (m4 = m3) as -> by congruence.
  split; [|split].
  - intros Hc. unfold measuredSized.
    change (measured_of (set_layout (set_generationCount (gCurrentGenerationCount s3)) m3))
      with (measured_of m3). rewrite Emeas. apply (Hsized n2 Hn2).
    apply (lo_sized _ _ (lo_node _ _ K1 X n n1 Hn Hn1) Hc).
  - intros Hp. destruct (Hpl Hp) as (D & N & L). cbn. auto.
  - reflexivity.
Qed.

Lemma layoutNodeInternal_frame fuel : layoutFrame (layoutNodeInternal fuel).
Proof.
  induction fuel as [|fuel IH].
  - intros X aw ah pd wm hm pl s b s' H. discriminate H.
  - apply layoutNodeInternal_body_frame, IH.
Qed.

(** ** The frame of [CSSNodeCalculateLayout] *)

Lemma bump_generation_frame s :
  nodes (bump_generation s) = nodes s
  /\ gNodeInstanceCount (bump_generation s) = gNodeInstanceCount s
  /\ nextRef (bump_generation s) = nextRef s
  /\ gCurrentGenerationCount (bump_generation s) = wrap32 (gCurrentGenerationCount s + 1).
Proof. repeat split. Qed.

(** A layout pass: the counter of the generations is incremented and the
    rest is a later state of the layout. *)
Lemma calculateLayout_frame fuel node aw ah pd s u s' :
  calculateLayout fuel node aw ah pd s = Some (u, s') ->
  laidOut (bump_generation s) s'
  /\ forall n n', nodes s !! node = Some n -> nodes s' !! node = Some n' ->
       visited true s' n n'.
Proof.
  intros H. unfold calculateLayout in H.
  apply bind_Some in H as ([] & t & B & H). apply modify_state_Some in B as ->.
  apply bind_Some in H as (n0 & t & Hn0 & H). apply deref_Some in Hn0 as [Hn0 ->].
  match type of H with
  | (match ?x with _ => _ end) _ = _ => destruct x as [width wmode]
  end.
  match type of H with
  | (match ?x with _ => _ end) _ = _ => destruct x as [height hmode]
  end.
  apply bind_Some in H as (b & s1 & L & H).
  destruct (layoutNodeInternal_frame fuel _ _ _ _ _ _ _ _ _ _ L) as [K1 Hpost].
  assert (keeps (when b (letM n := deref node in setPosition node (layout_direction (layout n)))))
    as P.
  { apply keeps_when, keeps_bind; [apply keeps_deref|]. intros ?. apply setPosition_keeps. }
  pose proof (P _ _ _ H) as K2.
  split; [eapply laidOut_trans; eauto|].
  intros n n' Hn Hn'. assert (n0 = n) as -> by (cbn in Hn0; congruence).
  destruct (laidOut_lookup _ _ _ _ K1 Hn0) as (n1 & Hn1 & _).
  destruct (Hpost n n1 Hn0 Hn1) as (Hsz & Hpl & Hgen).
  destruct (Hpl eq_refl) as (D & N & L').
  (* [setPosition] assigns positions only *)
  assert (exists p, n' = set_layout (set_layout_position (fun _ => p)) n1) as [p ->].
  { apply when_Some in H as [[_ H] | [_ ->]].
    - apply bind_Some in H as (m & t & Hm & H). apply deref_Some in Hm as [Hm ->].
      unfold setPosition in H.
      apply bind_Some in H as (m' & t & Hm' & H). apply deref_Some in Hm' as [Hm' ->].
      apply bind_Some in H as ([] & t1 & U1 & H). apply update_Some in U1 as (x1 & X1 & ->).
      apply bind_Some in H as ([] & t2 & U2 & H). apply update_Some in U2 as (x2 & X2 & ->).
      apply bind_Some in H as ([] & t3 & U3 & H). apply update_Some in U3 as (x3 & X3 & ->).
      apply update_Some in H as (x4 & X4 & ->).
      cbn in X2, X3, X4, Hn'. rewrite lookup_insert_eq in X2, X3, X4, Hn'.
      injection X2 as <-. injection X3 as <-. injection X4 as <-. injection Hn' as <-.
      assert (x1 = n1) as -> by congruence.
      eexists. reflexivity.
    - assert (n' = n1) as -> by congruence.
      exists (layout_position (layout n1)). destruct n1 as [? [] ? ? ? ? ? ? ? ?]. reflexivity. }
  rewrite <- (lo_generation _ _ K2) in Hgen.
  split; [|split].
  - exact Hsz.
  - intros _. cbn. auto.
  - exact Hgen.
Qed.

(** Property X10: what [CSSNodeCalculateLayout] leaves alone, whatever the
    state it starts from. When it returns, the generation counter has been
    incremented (modulo 2^32), the instance count and the set of the nodes
    are as before, and every node has its style, parent, children, measure
    function and text flag as before; no node has become dirty and no
    [hasNewLayout] flag has been cleared. *)
Theorem layout_leaves_the_tree_and_the_styles node aw ah pd s u s' :
  CSSNodeCalculateLayout node aw ah pd s = Some (u, s') ->
  gCurrentGenerationCount s' = wrap32 (gCurrentGenerationCount s + 1)
  /\ gNodeInstanceCount s' = gNodeInstanceCount s
  /\ dom (nodes s') = dom (nodes s)
  /\ forall r n n',
       nodes s !! r = Some n -> nodes s' !! r = Some n' ->
       style n' = style n /\ parent n' = parent n /\ children n' = children n
       /\ measure n' = measure n /\ isTextNode n' = isTextNode n
       /\ (isDirty n' = true -> isDirty n = true)
       /\ (hasNewLayout n = true -> hasNewLayout n' = true).
Proof.
  intros H. apply calculateLayout_frame in H as [K _].
  split; [apply (lo_generation _ _ K)|]. split; [apply (lo_count _ _ K)|].
  split; [apply (lo_dom _ _ K)|].
  intros r n n' Hn Hn'. destruct (lo_node _ _ K r n n' Hn Hn') as [S D N _ _].
  apply static_inv in S. tauto.
Qed.

Lemma layout_leaves_the_tree_and_the_styles_witness :
  gCurrentGenerationCount laidOutScenario = wrap32 (gCurrentGenerationCount builtScenario + 1)
  /\ gNodeInstanceCount laidOutScenario = gNodeInstanceCount builtScenario
  /\ dom (nodes laidOutScenario) = dom (nodes builtScenario)
  /\ forall r n n',
       nodes builtScenario !! r = Some n -> nodes laidOutScenario !! r = Some n' ->
       style n' = style n /\ parent n' = parent n /\ children n' = children n
       /\ measure n' = measure n /\ isTextNode n' = isTextNode n
       /\ (isDirty n' = true -> isDirty n = true)
       /\ (hasNewLayout n = true -> hasNewLayout n' = true).
Proof.
  apply (layout_leaves_the_tree_and_the_styles 0%nat (F32.of_Z 100) (F32.of_Z 100)
           CSSDirectionLTR builtScenario tt laidOutScenario layout_builtScenario).
Defined.

(** Property X11: what [CSSNodeCalculateLayout] does to the node it is
    called on, whatever the state it starts from. When it returns, the node
    is clean, its [hasNewLayout] flag is set, its layout dimensions are its
    measured dimensions, and its generation is the current one. *)
Theorem layout_cleans_the_root node aw ah pd s u s' :
  CSSNodeCalculateLayout node aw ah pd s = Some (u, s') ->
  exists n', nodes s' !! node = Some n'
             /\ isDirty n' = false
             /\ hasNewLayout n' = true
             /\ layout_dimensions (layout n') = measuredDimensions (layout n')
             /\ generationCount (layout n') = gCurrentGenerationCount s'.
Proof.
  intros H. pose proof H as H0. apply calculateLayout_frame in H as [K Hpost].
  unfold CSSNodeCalculateLayout, calculateLayout in H0.
  apply bind_Some in H0 as ([] & t & B & H0). apply modify_state_Some in B as ->.
  apply bind_Some in H0 as (n0 & t & Hn0 & _). apply deref_Some in Hn0 as [Hn0 ->].
  destruct (laidOut_lookup _ _ _ _ K Hn0) as (n' & Hn' & _).
  destruct (Hpost n0 n' Hn0 Hn') as (_ & Hpl & Hgen).
  exists n'. split; [exact Hn'|]. destruct (Hpl eq_refl) as (D & N & L). auto.
Qed.

Lemma layout_cleans_the_root_witness :
  exists n', nodes laidOutScenario !! 0%nat = Some n'
             /\ isDirty n' = false
             /\ hasNewLayout n' = true
             /\ layout_dimensions (layout n') = measuredDimensions (layout n')
             /\ generationCount (layout n') = gCurrentGenerationCount laidOutScenario.
Proof.
  apply (layout_cleans_the_root 0%nat (F32.of_Z 100) (F32.of_Z 100)
           CSSDirectionLTR builtScenario tt laidOutScenario layout_builtScenario).
Defined.

(** ** Computations that keep an invariant of the states *)

Section Maintains.

Variable I : State -> Prop.

Lemma maintains_ret {A} (a : A) : maintains I (ret a).
Proof. intros s b s' H%ret_Some. destruct H as [_ ->]. auto. Qed.

Lemma maintains_fail {A} : maintains I (@fail A).
Proof. intros s b s' H%fail_Some. destruct H. Qed.

Lemma maintains_bind {A B} (c : M A) (k : A -> M B) :
  maintains I c -> (forall a, maintains I (k a)) -> maintains I (bind c k).
Proof.
  intros Hc Hk s b s' H Hi. apply bind_Some in H as (a & s1 & H1 & H2).
  apply (Hk a _ _ _ H2). apply (Hc _ _ _ H1 Hi).
Qed.

Lemma maintains_deref r : maintains I (deref r).
Proof. intros s b s' H%deref_Some. destruct H as [_ ->]. auto. Qed.

Lemma maintains_CSS_ASSERT X : maintains I (CSS_ASSERT X).
Proof. intros s b s' H%CSS_ASSERT_Some. destruct H as [_ ->]. auto. Qed.

Lemma maintains_when b c : maintains I c -> maintains I (when b c).
Proof. intros Hc. destruct b; [exact Hc | apply maintains_ret]. Qed.

End Maintains.

(** ** The invariant of the states of a host *)

Lemma sound_CSSNodeInit_value : sound CSSNodeInit_value.
Proof.
  split; [|split].
  - split; [reflexivity | cbn; unfold CSS_MAX_CACHED_RESULT_COUNT; lia].
  - split; [split; reflexivity|]. cbn. repeat constructor.
  - intros []; left; reflexivity.
Qed.

Lemma consistent_initialState : consistent initialState.
Proof.
  split.
  - intros r n Hn. cbn in Hn. rewrite lookup_empty in Hn. discriminate.
  - reflexivity.
  - intros r [n Hn]. cbn in Hn. rewrite lookup_empty in Hn. discriminate.
Qed.

Lemma consistent_insert s r n n' :
  nodes s !! r = Some n -> (sound n -> sound n') -> consistent s ->
  consistent (set_nodes (insert r n') s).
Proof.
  intros Hn Hs [S C F]. split.
  - intros x m Hm. cbn in Hm. destruct (decide (x = r)) as [-> | Hne].
    + rewrite lookup_insert_eq in Hm. injection Hm as <-. eauto.
    + rewrite lookup_insert_ne in Hm by congruence. eauto.
  - cbn. rewrite map_size_insert_Some by eauto. exact C.
  - intros x [m Hm]. cbn in *. destruct (decide (x = r)) as [-> | Hne].
    + apply F. eauto.
    + rewrite lookup_insert_ne in Hm by congruence. apply F. eauto.
Qed.

(** An assignment outside of the layout of a node, or to its
    [computedFlexBasis]. *)
Lemma maintains_update r f :
  (forall n, sound n -> sound (f n)) -> maintains consistent (update r f).
Proof.
  intros Hf s b s' H Hc. apply update_Some in H as (n & Hn & ->).
  apply (consistent_insert s r n (f n) Hn (Hf n) Hc).
Qed.

Lemma maintains_markDirty_steps fuel :
  forall node, maintains consistent (markDirty_steps fuel node).
Proof.
  induction fuel as [|fuel IH]; intros node; cbn [markDirty_steps].
  - apply maintains_fail.
  - apply maintains_bind; [apply maintains_deref|]. intros n.
    destruct (negb (isDirty n)); [|apply maintains_ret].
    apply maintains_bind; [apply maintains_update; auto|]. intros _.
    destruct (parent n); [apply IH | apply maintains_ret].
Qed.

Lemma maintains__CSSNodeMarkDirty node : maintains consistent (_CSSNodeMarkDirty node).
Proof. intros s b s' H. exact (maintains_markDirty_steps _ node s b s' H). Qed.

Ltac maintains_step :=
  match goal with
  | |- maintains _ (bind _ _) => apply maintains_bind; [|intros ?]
  | |- maintains _ (ret _) => apply maintains_ret
  | |- maintains _ fail => apply maintains_fail
  | |- maintains _ (deref _) => apply maintains_deref
  | |- maintains _ (CSS_ASSERT _) => apply maintains_CSS_ASSERT
  | |- maintains _ (when _ _) => apply maintains_when
  | |- maintains _ (_CSSNodeMarkDirty _) => apply maintains__CSSNodeMarkDirty
  | |- maintains _ (update _ _) => apply maintains_update; intros ? ?; assumption
  | |- maintains _ (if ?b then _ else _) => destruct b
  | |- maintains _ (match ?x with _ => _ end) => destruct x
  end.

Lemma maintains_CSS_NODE_STYLE_PROPERTY_IMPL {T} (differs : T -> T -> bool) field assign
    node v :
  maintains consistent (CSS_NODE_STYLE_PROPERTY_IMPL differs field assign node v).
Proof. unfold CSS_NODE_STYLE_PROPERTY_IMPL. repeat maintains_step. Qed.

Lemma maintains_CSS_NODE_STYLE_EDGE_PROPERTY_IMPL field assign node edge v :
  maintains consistent (CSS_NODE_STYLE_EDGE_PROPERTY_IMPL field assign node edge v).
Proof. unfold CSS_NODE_STYLE_EDGE_PROPERTY_IMPL. repeat maintains_step. Qed.

Lemma maintains_setStyle node p : maintains consistent (setStyle node p).
Proof.
  destruct p; cbn [setStyle];
    first [apply maintains_CSS_NODE_STYLE_PROPERTY_IMPL
          | apply maintains_CSS_NODE_STYLE_EDGE_PROPERTY_IMPL].
Qed.

Lemma maintains_CSSNodeStyleSetFlex node flex :
  maintains consistent (CSSNodeStyleSetFlex node flex).
Proof.
  unfold CSSNodeStyleSetFlex.
  repeat first [apply maintains_CSS_NODE_STYLE_PROPERTY_IMPL | maintains_step].
Qed.

Lemma maintains_CSSNodeNew : maintains consistent CSSNodeNew.
Proof.
  intros s r s' H [S C F]. unfold CSSNodeNew in H. injection H as <- <-.
  assert (nodes s !! nextRef s = None) as Hf.
  { destruct (nodes s !! nextRef s) eqn:E; [|reflexivity].
    pose proof (F (nextRef s) ltac:(eauto)). lia. }
  split; cbn.
  - intros x m Hm. destruct (decide (x = nextRef s)) as [-> | Hne].
    + rewrite lookup_insert_eq in Hm. injection Hm as <-. apply sound_CSSNodeInit_value.
    + rewrite lookup_insert_ne in Hm by congruence. eauto.
  - rewrite map_size_insert_None by exact Hf. lia.
  - intros x [m Hm]. destruct (decide (x = nextRef s)) as [-> | Hne]; [lia|].
    rewrite lookup_insert_ne in Hm by congruence. pose proof (F x ltac:(eauto)). lia.
Qed.

Lemma maintains_CSSNodeFree node : maintains consistent (CSSNodeFree node).
Proof.
  intros s [] s' H [S C F]. unfold CSSNodeFree in H.
  destruct (nodes s !! node) as [n|] eqn:Hn; [|discriminate]. injection H as <-.
  split; cbn.
  - intros x m Hm. apply lookup_delete_Some in Hm as [_ Hm]. eauto.
  - rewrite map_size_delete_Some by eauto.
    assert (size (nodes s) <> 0)%nat by (apply map_size_ne_0_lookup_2 with node; eauto). lia.
  - intros x [m Hm]. apply lookup_delete_Some in Hm as [_ Hm]. eauto.
Qed.

Lemma maintains_CSSNodeRemoveChild node child :
  maintains consistent (CSSNodeRemoveChild node child).
Proof. unfold CSSNodeRemoveChild. repeat maintains_step. Qed.

Lemma maintains_CSSNodeInsertChild node child index :
  maintains consistent (CSSNodeInsertChild node child index).
Proof. unfold CSSNodeInsertChild. repeat maintains_step. Qed.

Lemma maintains_freeRecursive_steps fuel :
  forall root, maintains consistent (freeRecursive_steps fuel root).
Proof.
  induction fuel as [|fuel IH]; intros root; cbn [freeRecursive_steps].
  - apply maintains_fail.
  - unfold CSSNodeChildCount, CSSNodeGetChild.
    repeat first [apply IH | apply maintains_CSSNodeFree | apply maintains_CSSNodeRemoveChild
                 | maintains_step].
Qed.

Lemma laidOut_consistent s s' : laidOut s s' -> consistent s -> consistent s'.
Proof.
  intros K [S C F]. split.
  - intros r n' Hn'. destruct (laidOut_lookup_inv _ _ _ _ K Hn') as (n & Hn & [_ _ _ R Z]).
    destruct (S r n Hn) as (Hr & Hc & Hd). destruct (Z Hc) as (Hc' & _ & Hl).
    split; [auto|]. split; [exact Hc'|].
    intros d. destruct (Hl d) as [-> | H]; [apply Hd | right; exact H].
  - rewrite (lo_count _ _ K), C, <- !size_dom, (lo_dom _ _ K). reflexivity.
  - intros r Hr. rewrite (lo_nextRef _ _ K). apply F.
    apply elem_of_dom. rewrite <- (lo_dom _ _ K). apply elem_of_dom, Hr.
Qed.

Lemma maintains_calculateLayout fuel node aw ah pd :
  maintains consistent (calculateLayout fuel node aw ah pd).
Proof.
  intros s u s' H Hc. apply calculateLayout_frame in H as [K _].
  apply (laidOut_consistent _ _ K). destruct Hc as [S C F]. split; auto.
Qed.

Lemma maintains_perform c : maintains consistent (perform c).
Proof.
  destruct c; cbn [perform].
  - apply maintains_bind; [apply maintains_CSSNodeNew | intros ?; apply maintains_ret].
  - apply maintains_CSSNodeInsertChild.
  - apply maintains_CSSNodeRemoveChild.
  - unfold CSSNodeMarkDirty. repeat maintains_step.
  - apply maintains_setStyle.
  - apply maintains_CSSNodeStyleSetFlex.
  - unfold CSSNodeSetMeasureFunc. repeat maintains_step.
  - unfold CSSNodeSetIsTextnode. repeat maintains_step.
  - unfold CSSNodeSetHasNewLayout. repeat maintains_step.
  - intros s u s' H. exact (maintains_calculateLayout _ _ _ _ _ s u s' H).
Qed.

Lemma maintains_performHost c : maintains consistent (performHost c).
Proof.
  destruct c; cbn [performHost].
  - apply maintains_perform.
  - apply maintains_CSSNodeFree.
  - intros s u s' H. exact (maintains_freeRecursive_steps _ _ s u s' H).
Qed.

Lemma attained_consistent s : attained s -> consistent s.
Proof.
  induction 1 as [| s c s' _ IH H].
  - apply consistent_initialState.
  - apply (maintains_performHost c s tt s' H IH).
Qed.

Lemma attained_runHost cs :
  forall s s', attained s -> runHost cs s = Some s' -> attained s'.
Proof.
  induction cs as [|c cs IH]; intros s s' Hs H; cbn in H.
  - injection H as <-. exact Hs.
  - destruct (performHost c s) as [[[] s1]|] eqn:E; [|discriminate].
    eapply IH; [|exact H]. eapply attained_call; eauto.
Qed.

Lemma clean_below s a r : parentClosed s -> cleanAt s a -> ancestor s a r -> cleanAt s r.
Proof.
  intros Hpc Ha H. induction H as [r Hp | r p Hp _ IH].
  - unfold parentOf in Hp. destruct (nodes s !! r) as [n|] eqn:Hn; [|discriminate]. cbn in Hp.
    exists n. split; [exact Hn|]. destruct (isDirty n) eqn:Hd; [|reflexivity].
    destruct (Hpc r n a Hn Hd Hp) as (m & Hm & Hdm). destruct Ha as (m' & Hm' & Hc). congruence.
  - unfold parentOf in Hp. destruct (nodes s !! r) as [n|] eqn:Hn; [|discriminate]. cbn in Hp.
    exists n. split; [exact Hn|]. destruct (isDirty n) eqn:Hd; [|reflexivity].
    destruct (Hpc r n p Hn Hd Hp) as (m & Hm & Hdm). destruct IH as (m' & Hm' & Hc). congruence.
Qed.

Lemma calculateLayout_root fuel node aw ah pd s u s' :
  calculateLayout fuel node aw ah pd s = Some (u, s') ->
  exists n n', nodes s !! node = Some n /\ nodes s' !! node = Some n'
               /\ visited true s' n n'.
Proof.
  intros H. pose proof H as H0. apply calculateLayout_frame in H as [K Hpost].
  unfold calculateLayout in H0.
  apply bind_Some in H0 as ([] & t & B & H0). apply modify_state_Some in B as ->.
  apply bind_Some in H0 as (n0 & t & Hn0 & _). apply deref_Some in Hn0 as [Hn0 ->].
  destruct (laidOut_lookup _ _ _ _ K Hn0) as (n' & Hn' & _).
  exists n0, n'. split; [exact Hn0|]. split; [exact Hn'|]. apply Hpost; assumption.
Qed.

(** Property X12: in a state in which the child lists and the parent
    references describe one forest, no node has a generation beyond the
    generation counter and the parent of a dirty node is dirty
    ([treeInvariant], which [betweenCalls_treeInvariant] shows of every state
    between the calls of a host that keeps the nodes a forest, the calls
    that free nodes among them), and in which the generation counter is not
    at its last value, a layout that returns leaves the node it was called
    on and every node below it clean. *)
Theorem layout_cleans_the_tree s node aw ah pd s' :
  treeInvariant s -> gCurrentGenerationCount s + 1 < 2 ^ 32 ->
  CSSNodeCalculateLayout node aw ah pd s = Some (tt, s') ->
  cleanAt s' node /\ forall r, ancestor s' node r -> cleanAt s' r.
Proof.
  intros Hr Hg H.
  assert (cleanAt s' node) as Hroot.
  { destruct (calculateLayout_root _ _ _ _ _ _ _ _ H) as (n & n' & _ & Hn' & _ & Hpl & _).
    exists n'. split; [exact Hn'|]. apply Hpl. reflexivity. }
  split; [exact Hroot|]. intros r Ha.
  pose proof (calculateLayout_Good _ _ _ _ _ _ _ _ H Hg Hr) as Hgood.
  eapply clean_below; [apply (good_closed _ Hgood) | exact Hroot | exact Ha].
Qed.

Lemma layout_cleans_the_tree_witness :
  cleanAt laidOutScenario 0%nat
  /\ forall r, ancestor laidOutScenario 0%nat r -> cleanAt laidOutScenario r.
Proof.
  apply (layout_cleans_the_tree builtScenario 0%nat (F32.of_Z 100) (F32.of_Z 100)
           CSSDirectionLTR laidOutScenario treeInvariant_builtScenario).
  - vm_compute. reflexivity.
  - exact layout_builtScenario.
Defined.

(** Property X13: after a layout that returns, [CSSNodeLayoutGetWidth] and
    [CSSNodeLayoutGetHeight] of the node it was called on are defined
    numbers that are not negative. The state before the layout is any state
    that calls of the node API, the two ways of freeing included, have
    produced from the initial one. *)
Theorem layout_sizes_are_not_negative s node aw ah pd s' :
  attained s ->
  CSSNodeCalculateLayout node aw ah pd s = Some (tt, s') ->
  exists w h, CSSNodeLayoutGetWidth node s' = Some (w, s')
              /\ CSSNodeLayoutGetHeight node s' = Some (h, s')
              /\ nonNegative w /\ nonNegative h.
Proof.
  intros Ha H.
  destruct (calculateLayout_root _ _ _ _ _ _ _ _ H) as (n & n' & Hn & Hn' & Hsz & Hpl & _).
  destruct (cons_sound _ (attained_consistent _ Ha) node n Hn) as (_ & Hc & _).
  destruct (Hsz Hc) as [Hw Hh]. destruct (Hpl eq_refl) as (_ & _ & E).
  exists (dim_get (layout_dimensions (layout n')) CSSDimensionWidth),
         (dim_get (layout_dimensions (layout n')) CSSDimensionHeight).
  unfold CSSNodeLayoutGetWidth, CSSNodeLayoutGetHeight, bind, deref. rewrite Hn'.
  split; [reflexivity|]. split; [reflexivity|]. rewrite E. split; assumption.
Qed.

Lemma layout_sizes_are_not_negative_witness :
  exists w h, CSSNodeLayoutGetWidth 0%nat laidOutScenario = Some (w, laidOutScenario)
              /\ CSSNodeLayoutGetHeight 0%nat laidOutScenario = Some (h, laidOutScenario)
              /\ nonNegative w /\ nonNegative h.
Proof.
  apply (layout_sizes_are_not_negative builtScenario 0%nat (F32.of_Z 100) (F32.of_Z 100)
           CSSDirectionLTR laidOutScenario attained_builtScenario layout_builtScenario).
Defined.

(** Property X14: in every state that calls of the node API produce, the
    width and the height that the layout getters read from a node are
    undefined (the node has not been laid out) or not negative. *)
Theorem layout_getters_never_negative s node :
  attained s ->
  forall w h,
    CSSNodeLayoutGetWidth node s = Some (w, s) ->
    CSSNodeLayoutGetHeight node s = Some (h, s) ->
    (CSSValueIsUndefined w = true \/ nonNegative w)
    /\ (CSSValueIsUndefined h = true \/ nonNegative h).
Proof.
  intros Ha w h Hw Hh.
  unfold CSSNodeLayoutGetWidth, CSSNodeLayoutGetHeight, bind, deref in Hw, Hh.
  destruct (nodes s !! node) as [n|] eqn:Hn; [|discriminate].
  injection Hw as <-. injection Hh as <-.
  destruct (cons_sound _ (attained_consistent _ Ha) node n Hn) as (_ & _ & Hd).
  split; [apply (Hd CSSDimensionWidth) | apply (Hd CSSDimensionHeight)].
Qed.

Lemma layout_getters_never_negative_witness :
  (CSSValueIsUndefined (F32.of_Z 50) = true \/ nonNegative (F32.of_Z 50))
  /\ (CSSValueIsUndefined F32.zero = true \/ nonNegative F32.zero).
Proof.
  apply (layout_getters_never_negative hostScenario 1%nat attained_hostScenario).
  - vm_compute. reflexivity.
  - vm_compute. reflexivity.
Defined.

(** Property X15: in every state that calls of the node API produce, each
    node has its [CSS_MAX_CACHED_RESULT_COUNT] cached measurements, and its
    [nextCachedMeasurementsIndex] is at most that count: the index at which
    [layoutNodeInternal] stores an entry, which it resets to 0 when it has
    reached the count, is within the array. *)
Theorem measurement_ring_stays_in_bounds s node n :
  attained s -> nodes s !! node = Some n ->
  length (cachedMeasurements (layout n)) = CSS_MAX_CACHED_RESULT_COUNT
  /\ (nextCachedMeasurementsIndex (layout n) <= CSS_MAX_CACHED_RESULT_COUNT)%nat.
Proof.
  intros Ha Hn. destruct (cons_sound _ (attained_consistent _ Ha) node n Hn) as (Hr & _).
  exact Hr.
Qed.

Lemma measurement_ring_stays_in_bounds_witness :
  length (cachedMeasurements (layout (nodeIn hostScenario 0%nat))) = CSS_MAX_CACHED_RESULT_COUNT
  /\ (nextCachedMeasurementsIndex (layout (nodeIn hostScenario 0%nat))
      <= CSS_MAX_CACHED_RESULT_COUNT)%nat.
Proof.
  apply (measurement_ring_stays_in_bounds hostScenario 0%nat (nodeIn hostScenario 0%nat)
           attained_hostScenario).
  vm_compute. reflexivity.
Defined.

(** Property X16: [CSSNodeGetInstanceCount] is the number of the nodes that
    are allocated, in every state that calls of the node API, with
    [CSSNodeNew], [CSSNodeFree] and [CSSNodeFreeRecursive] among them, have
    produced. *)
Theorem instance_count_is_the_number_of_nodes s :
  attained s -> CSSNodeGetInstanceCount s = Some (Z.of_nat (size (nodes s)), s).
Proof.
  intros Ha. unfold CSSNodeGetInstanceCount.
  rewrite (cons_count _ (attained_consistent _ Ha)). reflexivity.
Qed.

Lemma instance_count_is_the_number_of_nodes_witness :
  CSSNodeGetInstanceCount hostScenario = Some (Z.of_nat (size (nodes hostScenario)), hostScenario).
Proof. apply (instance_count_is_the_number_of_nodes hostScenario attained_hostScenario). Defined.

(** ** The tolerant equality and the cached measurements *)

Lemma sub_self_finite s m e : F32.sub (S754_finite s m e) (S754_finite s m e) = S754_zero false.
Proof.
  unfold F32.sub, SFsub. cbv zeta. rewrite Z.sub_diag. reflexivity.
Qed.

Lemma eq_float_refl a : eq_float a a = negb (isInfinite a).
Proof.
  destruct a as [[] | [] | | s m e]; try reflexivity.
  unfold eq_float. cbn [CSSValueIsUndefined F32.isnan]. rewrite sub_self_finite. reflexivity.
Qed.

(** Property X17: the tolerant equality [eq] of the layout. A value equals
    itself unless it is an infinity (the difference of an infinity and itself
    is a NaN, which is not below the tolerance); an undefined value equals
    the undefined values only, on either side. *)
Theorem eq_float_reflexive_except_at_infinity a b :
  eq_float a a = negb (isInfinite a)
  /\ (CSSValueIsUndefined a = true -> eq_float a b = CSSValueIsUndefined b)
  /\ (CSSValueIsUndefined b = true -> eq_float a b = CSSValueIsUndefined a).
Proof.
  split; [apply eq_float_refl|]. split.
  - intros Ha. unfold eq_float. rewrite Ha. reflexivity.
  - intros Hb. destruct b; try discriminate Hb. destruct a as [[] | [] | | [] m e]; reflexivity.
Qed.

(** Property X18: [canUseCachedMeasurement] accepts the entry that
    [layoutNodeInternal] stores for a request when it is asked with the same
    available sizes and modes again, provided that neither available size is
    an infinity. *)
Theorem canUseCachedMeasurement_newCacheEntry isText aw ah mr mc wm hm l :
  isInfinite aw = false -> isInfinite ah = false ->
  fst (canUseCachedMeasurement isText aw ah mr mc wm hm (newCacheEntry aw ah wm hm l)) = true.
Proof.
  intros Hw Hh. unfold canUseCachedMeasurement.
  assert (isHeightSame (newCacheEntry aw ah wm hm l) ah hm = true) as ->.
  { unfold isHeightSame, newCacheEntry. cbn.
    rewrite eq_float_refl, Hh. unfold same. rewrite (bool_decide_eq_true_2 _ eq_refl).
    cbn. apply orb_true_r. }
  assert (isWidthSame (newCacheEntry aw ah wm hm l) aw wm = true) as ->.
  { unfold isWidthSame, newCacheEntry. cbn.
    rewrite eq_float_refl, Hw. unfold same. rewrite (bool_decide_eq_true_2 _ eq_refl).
    cbn. apply orb_true_r. }
  reflexivity.
Qed.

Lemma canUseCachedMeasurement_newCacheEntry_witness :
  fst (canUseCachedMeasurement false (F32.of_Z 100) (F32.of_Z 100) F32.zero F32.zero
         CSSMeasureModeExactly CSSMeasureModeAtMost
         (newCacheEntry (F32.of_Z 100) (F32.of_Z 100) CSSMeasureModeExactly CSSMeasureModeAtMost
            (layout CSSNodeInit_value))) = true.
Proof.
  apply (canUseCachedMeasurement_newCacheEntry false (F32.of_Z 100) (F32.of_Z 100)); reflexivity.
Defined.

(** ** Directions and axes *)

(** Property X19: the axes of a flex direction. [resolveAxis] is its own
    inverse for every direction, and keeps a row a row and a column a
    column; the cross axis is a column for a row and a row for a column, it
    has the other dimension, and it is never the reversed column. *)
Theorem axes_of_a_direction f d :
  resolveAxis (resolveAxis f d) d = f
  /\ isRowDirection (resolveAxis f d) = isRowDirection f
  /\ isRowDirection (getCrossFlexDirection f d) = negb (isRowDirection f)
  /\ isColumnDirection f = negb (isRowDirection f)
  /\ dim (getCrossFlexDirection f d) <> dim f
  /\ getCrossFlexDirection f d <> CSSFlexDirectionColumnReverse.
Proof. destruct f, d; cbv; repeat split; congruence. Qed.


(** ** Freeing a tree *)

Lemma marks_dom s s' : marks s s' -> dom (nodes s') = dom (nodes s).
Proof.
  intros Hm. apply set_eq. intros r. rewrite !elem_of_dom.
  destruct (marks_node _ _ Hm r) as [-> | (n & Hn & _ & -> & _)]; [tauto|].
  rewrite Hn. split; eauto.
Qed.

Lemma ancestor_of_root s a r : parentOf s r = None -> ~ ancestor s a r.
Proof. intros Hp H. inversion H; congruence. Qed.

(** What [CSSNodeRemoveChild] does, whether or not [child] is a child of
    [node]. *)
Lemma CSSNodeRemoveChild_run node child s n c :
  parentsAllocated s -> nodes s !! node = Some n -> nodes s !! child = Some c ->
  exists s', CSSNodeRemoveChild node child s = Some (tt, s')
             /\ s' = set_nodes (fun _ => nodes s') s
             /\ dom (nodes s') = dom (nodes s)
             /\ parentOf s' child = None
             /\ dirtyAt s' node
             /\ children <$> nodes s' !! node
                = Some (CSSNodeListDelete (children n) child)
             /\ (forall r, r <> child -> parentOf s' r = parentOf s r)
             /\ (forall r, r <> node -> children <$> nodes s' !! r = children <$> nodes s !! r)
             /\ (forall r, r <> node -> r <> child -> ~ ancestor s r node ->
                           nodes s' !! r = nodes s !! r).
Proof.
  intros Hpa Hn Hc. unfold CSSNodeRemoveChild.
  unfold bind at 1. unfold update at 1. rewrite Hn.
  set (n1 := set_children (CSSNodeListDelete (children n) child) n).
  set (s1 := set_nodes (insert node n1) s).
  assert (exists c1, nodes s1 !! child = Some c1
                     /\ (child = node -> c1 = n1) /\ (child <> node -> c1 = c))
    as (c1 & Hc1 & Hsame & Hdiff).
  { subst s1. cbn. destruct (decide (child = node)) as [-> | Hne].
    - rewrite lookup_insert_eq. exists n1. split; [reflexivity|]. split; congruence.
    - rewrite lookup_insert_ne by congruence. exists c. split; [exact Hc|]. split; congruence. }
  unfold bind at 1. unfold update at 1. rewrite Hc1.
  set (s2 := set_nodes (insert child (set_parent None c1)) s1).
  assert (parentsAllocated s1) as Hpa1.
  { apply parentsAllocated_update; [exact Hn | exact Hpa|].
    intros p Hpp. exact (Hpa node n p Hn Hpp). }
  assert (parentsAllocated s2) as Hpa2.
  { apply parentsAllocated_update; [exact Hc1 | exact Hpa1|]. intros p [=]. }
  assert (is_Some (nodes s2 !! node)) as Hnode2.
  { subst s2 s1. cbn. destruct (decide (node = child)) as [-> | Hne].
    - rewrite lookup_insert_eq. eauto.
    - rewrite lookup_insert_ne by congruence. rewrite lookup_insert_eq. eauto. }
  assert (forall r, r <> child -> parentOf s2 r = parentOf s r) as Hpar2.
  { intros r Hr. unfold parentOf. subst s2 s1. cbn. rewrite lookup_insert_ne by congruence.
    destruct (decide (r = node)) as [-> | Hne].
    - rewrite lookup_insert_eq, Hn. reflexivity.
    - rewrite lookup_insert_ne by congruence. reflexivity. }
  assert (parentOf s2 child = None) as Hchild2.
  { unfold parentOf. subst s2. cbn. rewrite lookup_insert_eq. reflexivity. }
  destruct (_CSSNodeMarkDirty_total node s2 Hpa2 Hnode2) as [s' Hs'].
  exists s'. split; [exact Hs'|].
  pose proof (markDirty_steps_frame _ _ _ _ _ Hs') as [Hst Hfr].
  apply _CSSNodeMarkDirty_marks in Hs' as [Hm Hd].
  split; [rewrite Hst; reflexivity|].
  split.
  { rewrite (marks_dom _ _ Hm). subst s2 s1. cbn.
    rewrite !dom_insert_lookup_L; [reflexivity | eauto |].
    destruct (decide (child = node)) as [-> | Hne].
    - rewrite lookup_insert_eq. eauto.
    - rewrite lookup_insert_ne by congruence. eauto. }
  split; [rewrite (marks_parentOf _ _ _ Hm); exact Hchild2|].
  split; [exact Hd|].
  split.
  { rewrite (marks_children _ _ _ Hm). subst s2. cbn.
    destruct (decide (node = child)) as [-> | Hne].
    + rewrite lookup_insert_eq. cbn. rewrite (Hsame eq_refl). reflexivity.
    + rewrite lookup_insert_ne by congruence. subst s1. cbn. rewrite lookup_insert_eq.
      reflexivity. }
  split; [intros r Hr; rewrite (marks_parentOf _ _ _ Hm); apply Hpar2, Hr|].
  split.
  { intros r Hr. rewrite (marks_children _ _ _ Hm). subst s2 s1. cbn.
    destruct (decide (r = child)) as [-> | Hne].
    - rewrite lookup_insert_eq. cbn. rewrite (Hdiff Hr), Hc. reflexivity.
    - rewrite !lookup_insert_ne by congruence. reflexivity. }
  intros r Hr1 Hr2 Hanc.
  destruct (Hfr r) as [-> | ([-> | Ha] & _)].
  - subst s2 s1. cbn. rewrite !lookup_insert_ne by congruence. reflexivity.
  - congruence.
  - exfalso. apply Hanc. eapply ancestor_mono; [|exact Ha].
    intros x p Hx. destruct (decide (x = child)) as [-> | Hne]; [congruence|].
    rewrite <- Hpar2 by exact Hne. exact Hx.
Qed.

(** ** [CSSNodeFreeRecursive] *)

Lemma elem_of_parented s r : r ∈ dom (parented s) <-> is_Some (parentOf s r).
Proof.
  unfold parented, parentOf. rewrite elem_of_dom. split.
  - intros [n Hn]. apply map_lookup_filter_Some in Hn as [Hn Hp]. rewrite Hn. cbn in *.
    destruct (parent n); [eauto | congruence].
  - intros [p Hp]. destruct (nodes s !! r) as [n|] eqn:Hn; [|discriminate]. cbn in Hp.
    exists n. apply map_lookup_filter_Some. split; [exact Hn|]. cbn. congruence.
Qed.

Lemma linkCount_bound s : (linkCount s <= 2 * size (nodes s))%nat.
Proof.
  unfold linkCount, parented.
  pose proof (map_subseteq_size _ _
                (map_filter_subseteq (fun kv : CSSNodeRef * CSSNode => parent kv.2 <> None)
                   (nodes s))).
  lia.
Qed.

(** Fewer nodes and no new parent reference, or as many nodes and fewer
    parent references. *)
Lemma linkCount_lt s s' :
  dom (nodes s') ⊆ dom (nodes s) ->
  (forall r, is_Some (parentOf s' r) -> is_Some (parentOf s r)) ->
  (exists r, is_Some (nodes s !! r) /\ nodes s' !! r = None)
  \/ (exists r, is_Some (parentOf s r) /\ parentOf s' r = None) ->
  (linkCount s' < linkCount s)%nat.
Proof.
  intros Hdom Hpar Hless. unfold linkCount. rewrite <- !size_dom.
  assert (dom (parented s') ⊆ dom (parented s)) as Hsub.
  { intros r. rewrite !elem_of_parented. apply Hpar. }
  pose proof (subseteq_size _ _ Hdom). pose proof (subseteq_size _ _ Hsub).
  destruct Hless as [(r & Hr & Hr') | (r & Hr & Hr')].
  - assert (dom (nodes s') ⊂ dom (nodes s)) as Hstrict.
    { split; [exact Hdom|]. intros Hback.
      assert (r ∈ dom (nodes s')) as Hin by (apply Hback, elem_of_dom, Hr).
      apply elem_of_dom in Hin as [n Hn]. congruence. }
    pose proof (subset_size _ _ Hstrict). lia.
  - assert (dom (parented s') ⊂ dom (parented s)) as Hstrict.
    { split; [exact Hsub|]. intros Hback.
      assert (r ∈ dom (parented s')) as Hin by (apply Hback, elem_of_parented, Hr).
      apply elem_of_parented in Hin as [p Hp]. congruence. }
    pose proof (subset_size _ _ Hstrict). lia.
Qed.

Lemma removed_lookup s root s' r n :
  removed s root s' -> nodes s' !! r = Some n -> ~ inTree s root r /\ nodes s !! r = Some n.
Proof.
  intros Hrm Hn.
  assert (~ inTree s root r) as Hout.
  { intros Hin. rewrite (rm_tree _ _ _ Hrm r Hin) in Hn. discriminate. }
  split; [exact Hout|]. rewrite <- (rm_rest _ _ _ Hrm r Hout). exact Hn.
Qed.

Lemma removed_parentOf s root s' r p :
  removed s root s' -> parentOf s' r = Some p -> parentOf s r = Some p.
Proof.
  intros Hrm Hp. unfold parentOf in *.
  destruct (nodes s' !! r) as [n|] eqn:Hn; [|discriminate].
  destruct (removed_lookup _ _ _ _ _ Hrm Hn) as [_ ->]. exact Hp.
Qed.

Lemma inTree_child s root r p : inTree s root p -> parentOf s r = Some p -> inTree s root r.
Proof.
  intros [-> | Hp] Hr; right; [apply ancestor_parent, Hr | eapply ancestor_step; eauto].
Qed.

Lemma inTree_parent s root r p :
  inTree s root r -> parentOf s r = Some p -> r = root \/ inTree s root p.
Proof.
  intros [-> | Hr] Hp; [auto|]. right. destruct (ancestor_inv _ _ _ _ Hr Hp) as [-> | H].
  - left. reflexivity.
  - right. exact H.
Qed.

(** The rest of a forest, once the tree of one of its roots is taken out,
    is a forest. *)
Lemma removed_treeInvariant s root s' :
  removed s root s' -> parentOf s root = None -> treeInvariant s -> treeInvariant s'.
Proof.
  intros Hrm Hroot [Hwf Hpc].
  assert (forall r p, parentOf s' r = Some p -> ~ inTree s root r /\ ~ inTree s root p
                                               /\ parentOf s r = Some p) as Hlink.
  { intros r p Hp. pose proof (removed_parentOf _ _ _ _ _ Hrm Hp) as Hp0.
    assert (~ inTree s root r) as Hr.
    { unfold parentOf in Hp. destruct (nodes s' !! r) as [n|] eqn:Hn; [|discriminate].
      apply (removed_lookup _ _ _ _ _ Hrm Hn). }
    split; [exact Hr|]. split; [|exact Hp0].
    intros Hin. apply Hr. eapply inTree_child; eauto. }
  split; [split|].
  - intros r n c Hn Hc. destruct (removed_lookup _ _ _ _ _ Hrm Hn) as [Hout Hn0].
    pose proof (wf_children _ Hwf r n c Hn0 Hc) as Hp.
    assert (~ inTree s root c) as Hc0.
    { intros Hin. destruct (inTree_parent _ _ _ _ Hin Hp) as [-> | H]; [congruence | auto]. }
    unfold parentOf. rewrite (rm_rest _ _ _ Hrm c Hc0). exact Hp.
  - intros c p Hp. destruct (Hlink c p Hp) as (Hc & Hp' & Hp0).
    destruct (wf_parent _ Hwf c p Hp0) as (pn & Hpn & Hin).
    exists pn. split; [|exact Hin]. rewrite (rm_rest _ _ _ Hrm p Hp'). exact Hpn.
  - intros r n Hn. destruct (removed_lookup _ _ _ _ _ Hrm Hn) as [_ Hn0].
    eapply wf_NoDup; eauto.
  - intros r Hr. apply (wf_acyclic _ Hwf r). eapply ancestor_mono; [|exact Hr].
    intros x p Hx. eapply removed_parentOf; eauto.
  - intros r [n Hn]. destruct (removed_lookup _ _ _ _ _ Hrm Hn) as [_ Hn0].
    rewrite (rm_nextRef _ _ _ Hrm). apply (wf_fresh _ Hwf). eauto.
  - rewrite (rm_generation _ _ _ Hrm). apply (wf_generation _ Hwf).
  - intros r n Hn. destruct (removed_lookup _ _ _ _ _ Hrm Hn) as [_ Hn0].
    rewrite (rm_generation _ _ _ Hrm). apply (wf_generations _ Hwf r n Hn0).
  - intros r n p Hn Hd Hp. destruct (removed_lookup _ _ _ _ _ Hrm Hn) as [Hout Hn0].
    destruct (Hpc r n p Hn0 Hd Hp) as (pn & Hpn & Hpd).
    exists pn. split; [|exact Hpd]. rewrite (rm_rest _ _ _ Hrm p); [exact Hpn|].
    intros Hin. apply Hout. eapply inTree_child; [exact Hin|].
    unfold parentOf. rewrite Hn0. exact Hp.
Qed.

Lemma removed_linkCount s root s' :
  removed s root s' -> is_Some (nodes s !! root) -> (linkCount s' < linkCount s)%nat.
Proof.
  intros Hrm Hroot. apply linkCount_lt.
  - intros r Hr. apply elem_of_dom in Hr as [n Hn]. apply elem_of_dom.
    destruct (removed_lookup _ _ _ _ _ Hrm Hn) as [_ Hn0]. eauto.
  - intros r [p Hp]. exists p. eapply removed_parentOf; eauto.
  - left. exists root. split; [exact Hroot|]. apply (rm_tree _ _ _ Hrm). left. reflexivity.
Qed.

(** A node without children is freed. *)
Lemma CSSNodeFree_removed s root n :
  wellFormed s -> nodes s !! root = Some n -> children n = [] ->
  exists s', CSSNodeFree root s = Some (tt, s') /\ removed s root s'.
Proof.
  intros Hwf Hn Hc. unfold CSSNodeFree. rewrite Hn. eexists. split; [reflexivity|].
  split; cbn; try reflexivity.
  - intros r [-> | Ha]; [apply lookup_delete_eq|]. exfalso.
    assert (exists x, parentOf s x = Some root) as [x Hx].
    { clear -Ha. induction Ha as [r H | r p H _ IH]; eauto. }
    destruct (wf_parent _ Hwf x root Hx) as (pn & Hpn & Hin).
    assert (pn = n) as -> by congruence. rewrite Hc in Hin. inversion Hin.
  - intros r Hr. apply lookup_delete_ne. intros ->. apply Hr. left. reflexivity.
Qed.

Lemma ancestor_in_store s a r : ancestor s a r -> is_Some (nodes s !! r).
Proof.
  intros H. assert (is_Some (parentOf s r)) as [p Hp] by (inversion H; eauto).
  unfold parentOf in Hp. destruct (nodes s !! r); [eauto | discriminate].
Qed.

(** The tree of [root] is the tree of its child [c1] and what is left of
    the tree of [root] once [c1] is taken away. *)
Lemma removed_compose s root c1 s1 s2 s3 :
  wellFormed s -> parentOf s root = None -> parentOf s c1 = Some root ->
  parentOf s1 c1 = None ->
  (forall r, r <> c1 -> parentOf s1 r = parentOf s r) ->
  (forall r, r <> root -> r <> c1 -> nodes s1 !! r = nodes s !! r) ->
  gCurrentGenerationCount s1 = gCurrentGenerationCount s -> nextRef s1 = nextRef s ->
  removed s1 c1 s2 -> removed s2 root s3 -> removed s root s3.
Proof.
  intros Hwf Hroot Hc1 F1 F2 F3 Eg En R2 R3.
  assert (root <> c1) as Hne by (intros ->; congruence).
  assert (forall a r, ancestor s1 a r -> ancestor s a r) as A.
  { intros a r. apply ancestor_mono. intros x p Hx.
    destruct (decide (x = c1)) as [-> | Hx1]; [congruence|]. rewrite <- F2 by exact Hx1. exact Hx. }
  assert (~ inTree s1 c1 root) as C.
  { intros [E | H]; [congruence|]. apply (ancestor_of_root s1 c1 root); [|exact H].
    rewrite F2 by exact Hne. exact Hroot. }
  assert (forall r, ~ inTree s1 c1 r -> parentOf s2 r = parentOf s1 r) as P2.
  { intros r Hr. unfold parentOf. rewrite (rm_rest _ _ _ R2 r Hr). reflexivity. }
  assert (forall r, ancestor s root r -> inTree s1 c1 r \/ ancestor s2 root r) as Q.
  { intros r H. induction H as [r Hp | r p Hp _ IH].
    - destruct (decide (r = c1)) as [-> | Hr]; [left; left; reflexivity|].
      right. apply ancestor_parent. rewrite P2; [rewrite F2 by exact Hr; exact Hp|].
      intros [E | H]; [congruence|].
      assert (parentOf s1 r = Some root) as Hp1 by (rewrite F2 by exact Hr; exact Hp).
      destruct (ancestor_inv _ _ _ _ H Hp1) as [E | H']; [congruence|].
      apply C. right. exact H'.
    - destruct (decide (r = c1)) as [-> | Hr]; [left; left; reflexivity|].
      assert (parentOf s1 r = Some p) as Hp1 by (rewrite F2 by exact Hr; exact Hp).
      destruct IH as [IH | IH].
      + left. eapply inTree_child; eauto.
      + right. eapply ancestor_step; [|exact IH]. rewrite P2; [exact Hp1|].
        intros [E | H]; [congruence|].
        assert (inTree s1 c1 p) as Hin.
        { destruct (ancestor_inv _ _ _ _ H Hp1) as [-> | H']; [left; reflexivity | right; exact H']. }
        destruct (ancestor_in_store _ _ _ IH) as [m Hm].
        rewrite (rm_tree _ _ _ R2 p Hin) in Hm. discriminate. }
  split.
  - intros r [-> | Ha]; [apply (rm_tree _ _ _ R3); left; reflexivity|].
    destruct (Q r Ha) as [Hin | H2]; [|apply (rm_tree _ _ _ R3); right; exact H2].
    rewrite (rm_rest _ _ _ R3); [apply (rm_tree _ _ _ R2), Hin|].
    intros [-> | H]; [exact (C Hin)|].
    destruct (ancestor_in_store _ _ _ H) as [m Hm].
    rewrite (rm_tree _ _ _ R2 r Hin) in Hm. discriminate.
  - intros r Hr.
    assert (r <> root) as Hr1 by (intros ->; apply Hr; left; reflexivity).
    assert (r <> c1) as Hr2 by (intros ->; apply Hr; right; apply ancestor_parent, Hc1).
    assert (~ inTree s1 c1 r) as Hout1.
    { intros [E | H]; [congruence|]. apply Hr. right.
      eapply ancestor_trans; [apply ancestor_parent, Hc1 | apply A, H]. }
    assert (~ inTree s2 root r) as Hout2.
    { intros [E | H]; [congruence|]. apply Hr. right. apply A.
      eapply ancestor_mono; [|exact H]. intros x p Hx. eapply removed_parentOf; eauto. }
    rewrite (rm_rest _ _ _ R3 r Hout2), (rm_rest _ _ _ R2 r Hout1). apply F3; assumption.
  - rewrite (rm_generation _ _ _ R3), (rm_generation _ _ _ R2). exact Eg.
  - rewrite (rm_nextRef _ _ _ R3), (rm_nextRef _ _ _ R2). exact En.
Qed.

Lemma freeRecursive_steps_removed fuel :
  forall s root,
    treeInvariant s -> parentOf s root = None -> is_Some (nodes s !! root) ->
    (linkCount s < fuel)%nat ->
    exists s', freeRecursive_steps fuel root s = Some (tt, s') /\ removed s root s'.
Proof.
  induction fuel as [|fuel IH]; intros s root Hinv Hroot [n Hn] Hlt; [lia|].
  pose proof (inv_wf _ Hinv) as Hwf.
  cbn [freeRecursive_steps]. unfold bind at 1. unfold CSSNodeChildCount at 1.
  unfold bind at 1. unfold deref at 1. rewrite Hn. cbn [ret].
  destruct (children n) as [|c1 rest] eqn:Hch.
  { cbn. apply (CSSNodeFree_removed s root n Hwf Hn Hch). }
  cbn [CSSNodeListCount length Nat.ltb Nat.leb].
  unfold bind at 1. unfold CSSNodeGetChild at 1. unfold bind at 1. unfold deref at 1.
  rewrite Hn, Hch. cbn [CSSNodeListGet lookup list_lookup ret].
  assert (parentOf s c1 = Some root) as Hc1.
  { apply (wf_children _ Hwf root n c1 Hn). rewrite Hch. left. }
  assert (exists c, nodes s !! c1 = Some c) as [c Hc].
  { unfold parentOf in Hc1. destruct (nodes s !! c1); [eauto | discriminate]. }
  assert (root <> c1) as Hne by (intros ->; congruence).
  destruct (CSSNodeRemoveChild_run root c1 s n c (wellFormed_parentsAllocated _ Hwf) Hn Hc)
    as (s1 & Hrun1 & Hst & Hdom & F1 & _ & _ & F2 & _ & F3).
  unfold bind at 1. rewrite Hrun1.
  pose proof (CSSNodeRemoveChild_treeInvariant _ _ _ _ _ Hrun1 Hc1 Hinv) as Hinv1.
  assert (linkCount s1 < linkCount s)%nat as Hlt1.
  { apply linkCount_lt.
    - rewrite Hdom. reflexivity.
    - intros r Hr. destruct (decide (r = c1)) as [-> | Hr1].
      + rewrite F1 in Hr. destruct Hr as [? [=]].
      + rewrite <- F2 by exact Hr1. exact Hr.
    - right. exists c1. split; [rewrite Hc1; eauto | exact F1]. }
  assert (is_Some (nodes s1 !! c1)) as Hc1in.
  { apply elem_of_dom. rewrite Hdom. apply elem_of_dom. eauto. }
  destruct (IH s1 c1 Hinv1 F1 Hc1in ltac:(lia)) as (s2 & Hrun2 & R2).
  unfold bind at 1. rewrite Hrun2.
  pose proof (removed_treeInvariant _ _ _ R2 F1 Hinv1) as Hinv2.
  pose proof (removed_linkCount _ _ _ R2 Hc1in) as Hlt2.
  assert (~ inTree s1 c1 root) as C.
  { intros [E | H]; [congruence|]. apply (ancestor_of_root s1 c1 root); [|exact H].
    rewrite F2 by exact Hne. exact Hroot. }
  assert (nodes s2 !! root = nodes s1 !! root) as Eroot by apply (rm_rest _ _ _ R2 root C).
  assert (is_Some (nodes s2 !! root)) as Hrootin.
  { rewrite Eroot. apply elem_of_dom. rewrite Hdom. apply elem_of_dom. eauto. }
  assert (parentOf s2 root = None) as Hroot2.
  { unfold parentOf. rewrite Eroot. fold (parentOf s1 root). rewrite F2 by exact Hne. exact Hroot. }
  destruct (IH s2 root Hinv2 Hroot2 Hrootin ltac:(lia)) as (s3 & Hrun3 & R3).
  exists s3. split; [exact Hrun3|].
  apply (removed_compose s root c1 s1 s2 s3 Hwf Hroot Hc1 F1 F2); auto.
  - intros r Hr1 Hr2. apply F3; [exact Hr1 | exact Hr2|]. apply ancestor_of_root, Hroot.
  - rewrite Hst. reflexivity.
  - rewrite Hst. reflexivity.
Qed.

(** Property X21: [CSSNodeFreeRecursive] on a root of a forest. The call
    returns, the root and all the nodes below it are out of the store, every
    other node is as it was, and what is left is a forest again, with no
    reference to a node that was freed. *)
Theorem CSSNodeFreeRecursive_frees_the_tree s root :
  treeInvariant s -> parentOf s root = None -> is_Some (nodes s !! root) ->
  exists s',
    CSSNodeFreeRecursive root s = Some (tt, s')
    /\ (forall r, inTree s root r -> nodes s' !! r = None)
    /\ (forall r, ~ inTree s root r -> nodes s' !! r = nodes s !! r)
    /\ treeInvariant s'.
Proof.
  intros Hinv Hroot Hin.
  destruct (freeRecursive_steps_removed (S (2 * size (nodes s))) s root Hinv Hroot Hin)
    as (s' & Hrun & R).
  { pose proof (linkCount_bound s). lia. }
  exists s'. split; [exact Hrun|].
  split; [apply (rm_tree _ _ _ R)|]. split; [apply (rm_rest _ _ _ R)|].
  eapply removed_treeInvariant; eauto.
Qed.

Lemma CSSNodeFreeRecursive_frees_the_tree_witness :
  exists s',
    CSSNodeFreeRecursive 0%nat builtScenario = Some (tt, s')
    /\ (forall r, inTree builtScenario 0%nat r -> nodes s' !! r = None)
    /\ (forall r, ~ inTree builtScenario 0%nat r -> nodes s' !! r = nodes builtScenario !! r)
    /\ treeInvariant s'.
Proof.
  apply (CSSNodeFreeRecursive_frees_the_tree builtScenario 0%nat treeInvariant_builtScenario).
  - vm_compute. reflexivity.
  - vm_compute. eauto.
Defined.

(** ** The dirty flags between the calls of a host that frees nodes *)

Lemma CSSNodeFree_treeInvariant node s u s' :
  CSSNodeFree node s = Some (u, s') ->
  parentOf s node = None -> children <$> nodes s !! node = Some [] ->
  treeInvariant s -> treeInvariant s'.
Proof.
  intros H Hp Hc Hinv.
  destruct (nodes s !! node) as [n|] eqn:Hn; [|discriminate Hc].
  injection Hc as Hc.
  destruct (CSSNodeFree_removed s node n (inv_wf _ Hinv) Hn Hc) as (s1 & Hrun & Hrm).
  rewrite Hrun in H. injection H as _ <-.
  eapply removed_treeInvariant; eauto.
Qed.

Lemma CSSNodeFreeRecursive_treeInvariant root s u s' :
  CSSNodeFreeRecursive root s = Some (u, s') ->
  parentOf s root = None -> treeInvariant s -> treeInvariant s'.
Proof.
  intros H Hp Hinv.
  destruct (nodes s !! root) as [n|] eqn:Hn.
  - destruct (freeRecursive_steps_removed (S (2 * size (nodes s))) s root Hinv Hp)
      as (s1 & Hrun & Hrm); [eauto | pose proof (linkCount_bound s); lia |].
    unfold CSSNodeFreeRecursive in H. rewrite Hrun in H. injection H as _ <-.
    eapply removed_treeInvariant; eauto.
  - unfold CSSNodeFreeRecursive in H. cbn [freeRecursive_steps] in H.
    unfold bind at 1, CSSNodeChildCount at 1, bind at 1, deref at 1 in H.
    rewrite Hn in H. discriminate H.
Qed.

Lemma performHost_treeInvariant c s u s' :
  performHost c s = Some (u, s') -> hostDisciplined s c -> treeInvariant s ->
  treeInvariant s'.
Proof.
  destruct c as [c | node | root]; cbn [performHost hostDisciplined].
  - apply perform_treeInvariant.
  - intros H [Hp Hc]. eapply CSSNodeFree_treeInvariant; eauto.
  - apply CSSNodeFreeRecursive_treeInvariant.
Qed.

Lemma betweenCalls_treeInvariant s : betweenCalls s -> treeInvariant s.
Proof.
  induction 1 as [| s c s' _ IH Hd Hrun].
  - apply initialState_treeInvariant.
  - eapply performHost_treeInvariant; eauto.
Qed.

Lemma betweenCalls_runHost cs :
  forall s s', betweenCalls s -> followsHost cs s -> runHost cs s = Some s' ->
               betweenCalls s'.
Proof.
  induction cs as [|c cs IH]; intros s s' Hr Hd Hrun; cbn in Hd, Hrun.
  - injection Hrun as <-. exact Hr.
  - destruct Hd as [Hd Hrest]. destruct (performHost c s) as [[[] s1]|] eqn:Hp; [|discriminate].
    eapply IH; [|exact Hrest|exact Hrun]. eapply between_call; eauto.
Qed.



